(** * A-wrk: logical orchestration of task units

    Shallow embedding of [foo-copy.py] (expression tree, evaluator, parser,
    pre-flight verification and driver) and of [directory_hash.py]
    ([calculate_directory_hash], [verify_directory_hash],
    [generate_hash_for_script], [generate_hashes_for_directories]), with the
    properties of the design document stated and settled against the
    embedded code, and further properties that the code shows.

    Python [str] values are lists of characters; a character is a code point
    below 256, carried by [ascii].  Python [int] positions are [Z], so that
    the [-1] of [str.find] is what the source computes with. *)

From Stdlib Require Import Ascii String.
From Stdlib Require Import List Bool ZArith Lia Arith Permutation.
Import ListNotations.
Local Open Scope Z_scope.

Set Implicit Arguments.
Set Warnings "-register-all".

(** ** Python strings *)

Definition pystr := list ascii.

Definition py (s : string) : pystr := list_ascii_of_string s.

Definition dquote : ascii := ascii_of_nat 34.
Definition backslash : ascii := ascii_of_nat 92.

Definition char_eqb (a b : ascii) : bool := if ascii_dec a b then true else false.

Definition pystr_eqb (a b : pystr) : bool :=
  if list_eq_dec ascii_dec a b then true else false.


(** [str.isspace] on one character, which is also what [\s] matches in a
    [str] pattern: TAB..CR, FS..US, SPACE, NEL and NBSP below code point 256. *)
Definition isspace (c : ascii) : bool :=
  let n := nat_of_ascii c in
  ((9 <=? n) && (n <=? 13) || (28 <=? n) && (n <=? 32)
   || (n =? 133) || (n =? 160))%nat.

Definition len (s : pystr) : Z := Z.of_nat (length s).

(** [s[i]] for [0 <= i < len s]; the source guards every index. *)
Definition char_at (s : pystr) (i : Z) : option ascii :=
  if i <? 0 then None else nth_error s (Z.to_nat i).

Definition is_char (s : pystr) (i : Z) (c : ascii) : bool :=
  match char_at s i with
  | Some d => char_eqb d c
  | None => false
  end.

(** Python slice [s[a:b]]: negative bounds count from the end, then both are
    clamped to [0, len s]. *)
Definition slice_bound (s : pystr) (i : Z) : Z :=
  let i' := if i <? 0 then i + len s else i in
  Z.max 0 (Z.min i' (len s)).

Definition slice (s : pystr) (a b : Z) : pystr :=
  let a' := slice_bound s a in
  let b' := slice_bound s b in
  firstn (Z.to_nat (b' - a')) (skipn (Z.to_nat a') s).

(** [s[a:]] *)
Definition slice_from (s : pystr) (a : Z) : pystr :=
  skipn (Z.to_nat (slice_bound s a)) s.

Fixpoint lstrip (s : pystr) : pystr :=
  match s with
  | c :: s' => if isspace c then lstrip s' else s
  | [] => []
  end.

Definition rstrip (s : pystr) : pystr := rev (lstrip (rev s)).

Definition strip (s : pystr) : pystr := rstrip (lstrip s).

Fixpoint starts_with (p s : pystr) : bool :=
  match p, s with
  | [], _ => true
  | a :: p', b :: s' => char_eqb a b && starts_with p' s'
  | _ :: _, [] => false
  end.

(** Offset of the first occurrence of [p] in [s], if any. *)
Fixpoint find_offset (p s : pystr) : option nat :=
  if starts_with p s then Some O
  else match s with
       | [] => None
       | _ :: s' => option_map S (find_offset p s')
       end.

(** [s.find(p, start)] for [start >= 0]: an absolute index, or [-1]. *)
Definition find (s p : pystr) (start : Z) : Z :=
  if len s <? start then -1
  else match find_offset p (skipn (Z.to_nat start) s) with
       | Some k => start + Z.of_nat k
       | None => -1
       end.

(** [s.count(c)] for a one-character [c]. *)
Definition count (s : pystr) (c : ascii) : Z :=
  Z.of_nat (count_occ ascii_dec s c).

(** [sep.join(parts)] *)
Fixpoint join (sep : pystr) (parts : list pystr) : pystr :=
  match parts with
  | [] => []
  | [p] => p
  | p :: rest => p ++ sep ++ join sep rest
  end.

(** [while pos < len(expr) and expr[pos].isspace(): pos += 1], and the same
    loop with other tests: [pos] moves over the longest run of characters
    satisfying [p]. *)
Fixpoint run_length (p : ascii -> bool) (s : pystr) : nat :=
  match s with
  | c :: s' => if p c then S (run_length p s') else O
  | [] => O
  end.

Definition skip_while (p : ascii -> bool) (expr : pystr) (pos : Z) : Z :=
  pos + Z.of_nat (run_length p (skipn (Z.to_nat pos) expr)).

(** ** The expression tree *)

(** What a node's [result] attribute can hold: [None] from [Node.__init__],
    the executor's status code ([ScriptNode]) or a boolean (the operators). *)
Inductive PyResult : Type :=
| RNone
| RInt (code : Z)
| RBool (b : bool).

Inductive Node : Type :=
| ScriptNode (result : PyResult) (name : pystr) (args : list pystr)
| NotNode (result : PyResult) (child : option Node)
| AndNode (result : PyResult) (circuit_breaking : bool) (children : list Node)
| OrNode (result : PyResult) (circuit_breaking : bool) (children : list Node).

Definition result_of (n : Node) : PyResult :=
  match n with
  | ScriptNode r _ _ | NotNode r _ | AndNode r _ _ | OrNode r _ _ => r
  end.

(** [LogicalOperatorNode.operator], set by the constructors of [AndNode] and
    [OrNode]. *)
Definition and_operator (circuit_breaking : bool) : pystr :=
  if circuit_breaking then py "&&" else py "&".

Definition or_operator (circuit_breaking : bool) : pystr :=
  if circuit_breaking then py "||" else py "|".

(** The fingerprint registry, a [dict] from names to hashes. *)
Definition dict := list (pystr * pystr).

Fixpoint dict_get (d : dict) (k : pystr) : option pystr :=
  match d with
  | [] => None
  | (k', v) :: d' => if pystr_eqb k' k then Some v else dict_get d' k
  end.

(** ** Evaluation *)

Section Evaluation.

(** The state the executor acts on (file system, loaded modules, whatever
    the task units touch). *)
Variable World : Type.

(** [executor_func(name, args, verify_hash, expected_hash)]: a status code
    and the effect on the world. *)
Variable executor_func :
  pystr -> list pystr -> bool -> option pystr -> World -> Z * World.

(** One call of the executor, as the evaluator made it. *)
Record Call : Type := mkCall {
  call_name : pystr;
  call_args : list pystr;
  call_verify : bool;
  call_expected : option pystr
}.

(** The observable run: the world, the executor calls made so far (oldest
    first) and the codes written to [sys.stderr]. *)
Record Run : Type := mkRun {
  world : World;
  calls : list Call;
  stderr : list Z
}.

Definition invoke (name : pystr) (args : list pystr) (verify_hash : bool)
           (expected_hash : option pystr) (st : Run) : Z * Run :=
  let '(code, w') := executor_func name args verify_hash expected_hash (world st) in
  (code, mkRun w' (calls st ++ [mkCall name args verify_hash expected_hash]) (stderr st)).

Definition write_stderr (code : Z) (st : Run) : Run :=
  mkRun (world st) (calls st) (stderr st ++ [code]).

(** Truth value of [script_hashes] in [verify_hash and script_hashes]. *)
Definition dict_truthy (script_hashes : option dict) : bool :=
  match script_hashes with
  | Some (_ :: _) => true
  | _ => false
  end.

(** [script_hashes.get(self.name) if verify_hash and script_hashes else None],
    the [expected_hash] that [ScriptNode.evaluate] passes on. *)
Definition expected_hash_of (name : pystr) (verify_hash : bool)
           (script_hashes : option dict) : option pystr :=
  if verify_hash && dict_truthy script_hashes then
    match script_hashes with
    | Some d => dict_get d name
    | None => None
    end
  else None.

Section Loops.
  (** The evaluation of one child, given by the enclosing [evaluate]. *)
Variable eval_child : Node -> Run -> bool * Node * Run.

  (** [AndNode.evaluate]'s [for] loop; [result] is the loop variable of
      the same name. The children come back with their updated caches;
      those after a [break] come back as they were. *)
Fixpoint and_loop (circuit_breaking : bool) (children : list Node)
           (result : bool) (st : Run) : bool * list Node * Run :=
    match children with
    | [] => (result, [], st)
    | child :: rest =>
        let '(child_result, child', st1) := eval_child child st in
        if negb child_result then
          if circuit_breaking then (false, child' :: rest, st1)
          else let '(r, rest', st2) := and_loop circuit_breaking rest false st1 in
               (r, child' :: rest', st2)
        else let '(r, rest', st2) := and_loop circuit_breaking rest result st1 in
             (r, child' :: rest', st2)
    end.

  (** [OrNode.evaluate]'s [for] loop. *)
Fixpoint or_loop (circuit_breaking : bool) (children : list Node)
           (result : bool) (st : Run) : bool * list Node * Run :=
    match children with
    | [] => (result, [], st)
    | child :: rest =>
        let '(child_result, child', st1) := eval_child child st in
        if child_result then
          if circuit_breaking then (true, child' :: rest, st1)
          else let '(r, rest', st2) := or_loop circuit_breaking rest true st1 in
               (r, child' :: rest', st2)
        else let '(r, rest', st2) := or_loop circuit_breaking rest result st1 in
             (r, child' :: rest', st2)
    end.
End Loops.

(** [node.evaluate(executor_func, verify_hash, script_hashes)]: the boolean
    returned, the node with its caches as the call leaves them, and the
    run. *)
Fixpoint evaluate (node : Node) (verify_hash : bool)
         (script_hashes : option dict) (st : Run) {struct node}
  : bool * Node * Run :=
  match node with
  | ScriptNode _ name args =>
      let expected_hash := expected_hash_of name verify_hash script_hashes in
      let '(code, st1) := invoke name args verify_hash expected_hash st in
      let logical_result := code =? 0 in
      (logical_result, ScriptNode (RInt code) name args, write_stderr code st1)
  | NotNode r None => (false, NotNode r None, st)
  | NotNode _ (Some child) =>
      let '(child_result, child', st1) := evaluate child verify_hash script_hashes st in
      let result := negb child_result in
      (result, NotNode (RBool result) (Some child'), st1)
  | AndNode _ cb children =>
      let '(result, children', st1) :=
        (fix loop (cs : list Node) (result : bool) (st : Run) {struct cs} :=
           match cs with
           | [] => (result, [], st)
           | child :: rest =>
               let '(child_result, child', st1) :=
                 evaluate child verify_hash script_hashes st in
               if negb child_result then
                 if cb then (false, child' :: rest, st1)
                 else let '(r, rest', st2) := loop rest false st1 in
                      (r, child' :: rest', st2)
               else let '(r, rest', st2) := loop rest result st1 in
                    (r, child' :: rest', st2)
           end) children true st in
      (result, AndNode (RBool result) cb children', st1)
  | OrNode _ cb children =>
      let '(result, children', st1) :=
        (fix loop (cs : list Node) (result : bool) (st : Run) {struct cs} :=
           match cs with
           | [] => (result, [], st)
           | child :: rest =>
               let '(child_result, child', st1) :=
                 evaluate child verify_hash script_hashes st in
               if child_result then
                 if cb then (true, child' :: rest, st1)
                 else let '(r, rest', st2) := loop rest true st1 in
                      (r, child' :: rest', st2)
               else let '(r, rest', st2) := loop rest result st1 in
                    (r, child' :: rest', st2)
           end) children false st in
      (result, OrNode (RBool result) cb children', st1)
  end.


(** Every child evaluated in turn, left to right, whatever the results:
  the booleans, the children as their evaluation leaves them, and the run
  after the last one.  This is the yardstick for the operator loops. *)
Fixpoint evaluate_all (children : list Node) (verify_hash : bool)
       (script_hashes : option dict) (st : Run) : list bool * list Node * Run :=
match children with
| [] => ([], [], st)
| child :: rest =>
    let '(b, child', st1) := evaluate child verify_hash script_hashes st in
    let '(bs, rest', st2) := evaluate_all rest verify_hash script_hashes st1 in
    (b :: bs, child' :: rest', st2)
end.

End Evaluation.

(** ** Exceptions that leave the executor

    [evaluate] above is the evaluator for an executor that returns its
    status.  A Python call can also be left by an exception.  The
    [evaluate] methods and [main] have no [try] statement, and
    [dynamic_import_and_run] catches [Exception] only: an exception that
    leaves the executor ([SystemExit] raised by [sys.exit] in a task unit,
    [KeyboardInterrupt]) passes through every [evaluate] frame and through
    [main], and ends the process.  [Escaped status] is this way out of a
    call, [status] being the exit status that the interpreter gives the
    process for the exception (3 for [sys.exit(3)]); [Normal value] is the
    ordinary return. *)
Inductive Ending (A : Type) : Type :=
| Normal (value : A)
| Escaped (status : Z).

Arguments Normal {A} value.
Arguments Escaped {A} status.

Definition escape_of {A : Type} (e : Ending A) : option Z :=
  match e with
  | Normal _ => None
  | Escaped status => Some status
  end.

Section Escaping.

Variable World : Type.

(** An executor that returns a status code or is left by an exception. *)
Variable executor_func :
  pystr -> list pystr -> bool -> option pystr -> World -> Ending Z * World.

(** The call is made, and recorded, whichever way it ends. *)
Definition invoke_escaping (name : pystr) (args : list pystr) (verify_hash : bool)
           (expected_hash : option pystr) (st : Run World) : Ending Z * Run World :=
  let '(ending, w') := executor_func name args verify_hash expected_hash (world st) in
  (ending, mkRun w' (calls st ++ [mkCall name args verify_hash expected_hash]) (stderr st)).

Section EscapingLoops.
Variable eval_child : Node -> Run World -> Ending bool * Node * Run World.

  (** The [for] loop of [AndNode.evaluate]: an exception out of a child
      ends the loop, the children after it are not evaluated. *)
Fixpoint and_loop_escaping (circuit_breaking : bool) (children : list Node)
           (result : bool) (st : Run World) : Ending bool * list Node * Run World :=
    match children with
    | [] => (Normal result, [], st)
    | child :: rest =>
        match eval_child child st with
        | (Escaped status, child', st1) => (Escaped status, child' :: rest, st1)
        | (Normal child_result, child', st1) =>
            if negb child_result then
              if circuit_breaking then (Normal false, child' :: rest, st1)
              else let '(r, rest', st2) := and_loop_escaping circuit_breaking rest false st1 in
                   (r, child' :: rest', st2)
            else let '(r, rest', st2) := and_loop_escaping circuit_breaking rest result st1 in
                 (r, child' :: rest', st2)
        end
    end.

  (** The [for] loop of [OrNode.evaluate]. *)
Fixpoint or_loop_escaping (circuit_breaking : bool) (children : list Node)
           (result : bool) (st : Run World) : Ending bool * list Node * Run World :=
    match children with
    | [] => (Normal result, [], st)
    | child :: rest =>
        match eval_child child st with
        | (Escaped status, child', st1) => (Escaped status, child' :: rest, st1)
        | (Normal child_result, child', st1) =>
            if child_result then
              if circuit_breaking then (Normal true, child' :: rest, st1)
              else let '(r, rest', st2) := or_loop_escaping circuit_breaking rest true st1 in
                   (r, child' :: rest', st2)
            else let '(r, rest', st2) := or_loop_escaping circuit_breaking rest result st1 in
                 (r, child' :: rest', st2)
        end
    end.
End EscapingLoops.

(** [node.evaluate(executor_func, verify_hash, script_hashes)] when the
    executor can be left by an exception: the boolean returned or the
    exception's status, the node with its caches as the call leaves them,
    and the run.  When the exception passes, the statements after the call
    are not executed: [ScriptNode.evaluate] assigns no [result] and writes
    nothing to [sys.stderr], and the operators do not assign their
    [result]. *)
Fixpoint evaluate_escaping (node : Node) (verify_hash : bool)
         (script_hashes : option dict) (st : Run World) {struct node}
  : Ending bool * Node * Run World :=
  match node with
  | ScriptNode r name args =>
      let expected_hash := expected_hash_of name verify_hash script_hashes in
      match invoke_escaping name args verify_hash expected_hash st with
      | (Normal code, st1) =>
          let logical_result := code =? 0 in
          (Normal logical_result, ScriptNode (RInt code) name args, write_stderr code st1)
      | (Escaped status, st1) => (Escaped status, ScriptNode r name args, st1)
      end
  | NotNode r None => (Normal false, NotNode r None, st)
  | NotNode r (Some child) =>
      match evaluate_escaping child verify_hash script_hashes st with
      | (Normal child_result, child', st1) =>
          let result := negb child_result in
          (Normal result, NotNode (RBool result) (Some child'), st1)
      | (Escaped status, child', st1) => (Escaped status, NotNode r (Some child'), st1)
      end
  | AndNode r cb children =>
      match
        (fix loop (cs : list Node) (result : bool) (st : Run World) {struct cs} :=
           match cs with
           | [] => (Normal result, [], st)
           | child :: rest =>
               match evaluate_escaping child verify_hash script_hashes st with
               | (Escaped status, child', st1) => (Escaped status, child' :: rest, st1)
               | (Normal child_result, child', st1) =>
                   if negb child_result then
                     if cb then (Normal false, child' :: rest, st1)
                     else let '(r, rest', st2) := loop rest false st1 in
                          (r, child' :: rest', st2)
                   else let '(r, rest', st2) := loop rest result st1 in
                        (r, child' :: rest', st2)
               end
           end) children true st
      with
      | (Normal result, children', st1) =>
          (Normal result, AndNode (RBool result) cb children', st1)
      | (Escaped status, children', st1) => (Escaped status, AndNode r cb children', st1)
      end
  | OrNode r cb children =>
      match
        (fix loop (cs : list Node) (result : bool) (st : Run World) {struct cs} :=
           match cs with
           | [] => (Normal result, [], st)
           | child :: rest =>
               match evaluate_escaping child verify_hash script_hashes st with
               | (Escaped status, child', st1) => (Escaped status, child' :: rest, st1)
               | (Normal child_result, child', st1) =>
                   if child_result then
                     if cb then (Normal true, child' :: rest, st1)
                     else let '(r, rest', st2) := loop rest true st1 in
                          (r, child' :: rest', st2)
                   else let '(r, rest', st2) := loop rest result st1 in
                        (r, child' :: rest', st2)
               end
           end) children false st
      with
      | (Normal result, children', st1) =>
          (Normal result, OrNode (RBool result) cb children', st1)
      | (Escaped status, children', st1) => (Escaped status, OrNode r cb children', st1)
      end
  end.

(** The executor called again on each of the calls [cs] in turn, from the
    world [w]: how each call ends, up to the first one that is left by an
    exception, and the world after the last call made. *)
Fixpoint statuses (cs : list Call) (w : World) : list (Ending Z) * World :=
  match cs with
  | [] => ([], w)
  | c :: rest =>
      match executor_func (call_name c) (call_args c) (call_verify c) (call_expected c) w with
      | (Normal code, w1) =>
          let '(endings, w2) := statuses rest w1 in (Normal code :: endings, w2)
      | (Escaped status, w1) => ([Escaped status], w1)
      end
  end.

End Escaping.

(** An executor that always returns, as one that may be left. *)
Definition returning {World : Type}
           (executor_func : pystr -> list pystr -> bool -> option pystr -> World -> Z * World)
  : pystr -> list pystr -> bool -> option pystr -> World -> Ending Z * World :=
  fun name args verify_hash expected_hash w =>
    let '(code, w') := executor_func name args verify_hash expected_hash w in
    (Normal code, w').

(** ** Serialization: the [__str__] methods *)

Fixpoint __str__ (node : Node) : pystr :=
  match node with
  | ScriptNode _ name args =>
      match args with
      | [] => py "(" ++ name ++ py ")"
      | _ :: _ => py "(" ++ name ++ py ":" ++ join (py ",") args ++ py ")"
      end
  | NotNode _ child =>
      py "!" ++ match child with
                | Some c => __str__ c
                | None => py "None"
                end
  | AndNode _ cb children =>
      and_operator cb ++ py " [ " ++ join (py ", ") (map __str__ children) ++ py " ]"
  | OrNode _ cb children =>
      or_operator cb ++ py " [ " ++ join (py ", ") (map __str__ children) ++ py " ]"
  end.

(** ** The format pre-check *)

(** The [while i < len(expression)] loop of [validate_expression_format] for
    one operator [op]: [false] when the loop executes [return False], [true]
    when it ends (by its condition or by [break]).  Every turn moves [i] at
    least one place to the right, so [fuel] turns are enough as soon as
    [len expression - i <= fuel]; at [fuel = 0] the loop condition is then
    false and the loop ends. *)
Fixpoint check_operator (fuel : nat) (expression op : pystr) (i : Z) : bool :=
  match fuel with
  | O => true
  | S fuel' =>
      if i <? len expression then
        let i := find expression op i in
        if i =? -1 then true
        else if (pystr_eqb op (py "&") || pystr_eqb op (py "|"))
                && (i + 1 <? len expression)
                && (match char_at expression (i + 1), char_at expression i with
                    | Some a, Some b => char_eqb a b
                    | _, _ => false
                    end)
        then check_operator fuel' expression op (i + 1)
        else
          let j := skip_while isspace expression (i + len op) in
          if (j >=? len expression) || negb (is_char expression j "[")
          then false
          else check_operator fuel' expression op (i + len op)
      else true
  end.

Definition validate_expression_format (expression : pystr) : bool :=
  if negb (count expression "[" =? count expression "]") then false
  else if negb (count expression "(" =? count expression ")") then false
  else forallb (fun op => check_operator (S (length expression)) expression op 0)
               [py "&&"; py "||"; py "&"; py "|"].

(** ** Normalization: the [re.sub] calls *)

(** [re.sub(pattern, repl, s)] for a pattern that never matches the empty
    string, scanning left to right: [match_at] gives the length of the match
    of the pattern at the head of what is left, if there is one; a match is
    replaced by [repl] and its characters are skipped, any other character
    is copied.  [skip] counts the characters of the current match still to
    pass. *)
Fixpoint re_sub (match_at : pystr -> option nat) (repl : pystr)
         (skip : nat) (s : pystr) : pystr :=
  match s with
  | [] => []
  | c :: s' =>
      match skip with
      | S k => re_sub match_at repl k s'
      | O =>
          match match_at s with
          | Some (S k) => repl ++ re_sub match_at repl k s'
          | _ => c :: re_sub match_at repl O s'
          end
      end
  end.

(** The greedy match of [\s*X\s*] at the head of [s]: all the white space
    there, then [X], then all the white space after it. *)
Definition match_around (X : ascii) (s : pystr) : option nat :=
  let n := run_length isspace s in
  match skipn n s with
  | c :: rest => if char_eqb c X then Some (n + 1 + run_length isspace rest)%nat else None
  | [] => None
  end.

(** The greedy match of [\s+] at the head of [s]. *)
Definition match_spaces (s : pystr) : option nat :=
  match run_length isspace s with
  | O => None
  | n => Some n
  end.

Definition normalize (expression : pystr) : pystr :=
  let expression := re_sub (match_around "[") (py " [ ") O expression in
  let expression := re_sub (match_around "]") (py " ] ") O expression in
  let expression := re_sub (match_around "(") (py " ( ") O expression in
  let expression := re_sub (match_around ")") (py " ) ") O expression in
  let expression := re_sub (match_around ",") (py ", ") O expression in
  strip (re_sub match_spaces (py " ") O expression).

(** ** The recursive-descent parser *)

(** [arg_str] as the argument loop finishes it: stripped, and without its
    surrounding quotes when it has both. *)
Definition finish_arg (current_arg : pystr) : pystr :=
  let arg_str := strip current_arg in
  if starts_with [dquote] arg_str && starts_with [dquote] (rev arg_str)
     && (2 <=? len arg_str)
  then slice arg_str 1 (-1)
  else arg_str.

(** The [while i < len(args_str)] loop of [_parse_script_node], on what is
    left of [args_str] from [i]; it ends with [args] and the [current_arg]
    under construction. *)
Fixpoint args_loop (rest : pystr) (current_arg : pystr) (in_quotes : bool)
         (args : list pystr) : list pystr * pystr :=
  match rest with
  | [] => (args, current_arg)
  | char :: rest' =>
      let unescaped :=
        if char_eqb char dquote then
          args_loop rest' (current_arg ++ [char]) (negb in_quotes) args
        else if char_eqb char "," && negb in_quotes then
          args_loop rest' [] in_quotes (args ++ [finish_arg current_arg])
        else args_loop rest' (current_arg ++ [char]) in_quotes args in
      if char_eqb char backslash then
        match rest' with
        | next :: rest'' => args_loop rest'' (current_arg ++ [next]) in_quotes args
        | [] => unescaped
        end
      else unescaped
  end.

(** The argument list of an atom from [args_str]. *)
Definition parse_args (args_str : pystr) : list pystr :=
  match args_str with
  | [] => []
  | _ :: _ =>
      let '(args, current_arg) := args_loop args_str [] false [] in
      match current_arg with
      | [] => args
      | _ :: _ => args ++ [finish_arg current_arg]
      end
  end.

Definition _parse_script_node (expr : pystr) (pos : Z) : Node * Z :=
  let pos := pos + 1 in
  let colon_pos := find expr (py ":") pos in
  let close_pos := find expr (py ")") pos in
  if negb (colon_pos =? -1) && (colon_pos <? close_pos) then
    let script_name := strip (slice expr pos colon_pos) in
    let args_str := strip (slice expr (colon_pos + 1) close_pos) in
    (ScriptNode RNone script_name (parse_args args_str), close_pos + 1)
  else
    let script_name := strip (slice expr pos close_pos) in
    (ScriptNode RNone script_name [], close_pos + 1).

(** Membership of a character in the string ["()[],&|"]. *)
Definition is_structural (c : ascii) : bool :=
  existsb (char_eqb c) (py "()[],&|").

Section Children.

(** [_parse_expression], as far as the remaining fuel lets it go:
    [None] is "no answer within the fuel". *)
Variable parse_expression : pystr -> Z -> option (option Node * Z).

(** The [while pos < len(expr) and expr[pos] != "]"] loop of
    [_parse_operator_children]; [children] is [node.children]. *)
Fixpoint children_loop (fuel : nat) (expr : pystr) (pos : Z)
         (children : list Node) : option (list Node * Z) :=
  match fuel with
  | O => None
  | S fuel' =>
      if (pos <? len expr) && negb (is_char expr pos "]") then
        let pos := skip_while (fun c => isspace c || char_eqb c ",") expr pos in
        if (pos <? len expr) && negb (is_char expr pos "]") then
          match parse_expression expr pos with
          | None => None
          | Some (child, pos) =>
              children_loop fuel' expr pos
                (match child with
                 | Some c => children ++ [c]
                 | None => children
                 end)
          end
        else Some (children, pos)
      else Some (children, pos)
  end.

(** [_parse_operator_children(expr, pos, node)]: the children appended to
    the (new, childless) [node] and the position returned. *)
Definition _parse_operator_children (fuel : nat) (expr : pystr) (pos : Z)
  : option (list Node * Z) :=
  let pos := skip_while isspace expr pos in
  if (pos <? len expr) && is_char expr pos "[" then
    match children_loop fuel expr (pos + 1) [] with
    | None => None
    | Some (children, pos) =>
        if (pos <? len expr) && is_char expr pos "]"
        then Some (children, pos + 1)
        else Some (children, pos)
    end
  else Some ([], pos).

End Children.

Fixpoint _parse_expression (fuel : nat) (expr : pystr) (pos : Z)
  : option (option Node * Z) :=
  match fuel with
  | O => None
  | S fuel' =>
      let pos := skip_while isspace expr pos in
      if pos >=? len expr then Some (None, pos)
      else if is_char expr pos "!" then
        let pos := skip_while isspace expr (pos + 1) in
        if pos <? len expr then
          match _parse_expression fuel' expr pos with
          | None => None
          | Some (child, pos) => Some (Some (NotNode RNone child), pos)
          end
        else Some (Some (NotNode RNone None), pos)
      else if pystr_eqb (slice expr pos (pos + 2)) (py "&&") then
        match _parse_operator_children (_parse_expression fuel') fuel' expr (pos + 2) with
        | None => None
        | Some (children, pos) => Some (Some (AndNode RNone true children), pos)
        end
      else if pystr_eqb (slice expr pos (pos + 2)) (py "||") then
        match _parse_operator_children (_parse_expression fuel') fuel' expr (pos + 2) with
        | None => None
        | Some (children, pos) => Some (Some (OrNode RNone true children), pos)
        end
      else if is_char expr pos "&"
              && ((pos + 1 >=? len expr) || negb (is_char expr (pos + 1) "&")) then
        match _parse_operator_children (_parse_expression fuel') fuel' expr (pos + 1) with
        | None => None
        | Some (children, pos) => Some (Some (AndNode RNone false children), pos)
        end
      else if is_char expr pos "|"
              && ((pos + 1 >=? len expr) || negb (is_char expr (pos + 1) "|")) then
        match _parse_operator_children (_parse_expression fuel') fuel' expr (pos + 1) with
        | None => None
        | Some (children, pos) => Some (Some (OrNode RNone false children), pos)
        end
      else if is_char expr pos "(" then
        let '(node, pos) := _parse_script_node expr pos in Some (Some node, pos)
      else
        Some (None, skip_while (fun c => negb (is_structural c)) expr pos)
  end.

(** [parse_logical_expression(expression)]: [None] is "no answer within the
    fuel", [Some None] the Python [None] of a rejected or empty expression. *)
Definition parse_logical_expression (fuel : nat) (expression : pystr)
  : option (option Node) :=
  if negb (validate_expression_format expression) then Some None
  else
    match _parse_expression fuel (normalize expression) 0 with
    | None => None
    | Some (node, _) => Some node
    end.

(** A parser that answers whenever another one does, and the same. *)
Definition extends (P P' : pystr -> Z -> option (option Node * Z)) : Prop :=
  forall expr pos r, P expr pos = Some r -> P' expr pos = Some r.

(** ** Collecting the atom names *)

Fixpoint collect_script_names_from_tree (node : Node) : list pystr :=
  match node with
  | ScriptNode _ name _ => [name]
  | NotNode _ (Some child) => collect_script_names_from_tree child
  | NotNode _ None => []
  | AndNode _ _ children | OrNode _ _ children =>
      flat_map collect_script_names_from_tree children
  end.

(** ** The fingerprint service: [verify_directory_hash] *)

Section Fingerprint.

(** The file system as [calculate_directory_hash] reads it. *)
Variable FS : Type.

(** [calculate_directory_hash(directory_path, exclude_dirs, verbose)]: it
    walks the directory and digests what it finds with [hashlib.md5];
    here it is the function of the file system that this computes, the
    hexadecimal digest or [None]. *)
Variable calculate_directory_hash : FS -> pystr -> option (list pystr) -> option pystr.

(** The fingerprint computations made so far: one entry, the path, for
    each call of [calculate_directory_hash]. *)
Definition Computed := list pystr.

(** [verify_directory_hash(directory_path, expected_hash, exclude_dirs)];
    [expected_hash] is a string or [None], and [not expected_hash] holds
    for [None] and for the empty string. *)
Definition verify_directory_hash (fs : FS) (directory_path : pystr)
           (expected_hash : option pystr) (exclude_dirs : option (list pystr))
           (log : Computed) : bool * Computed :=
  match expected_hash with
  | None | Some [] => (true, log)
  | Some ((_ :: _) as expected) =>
      let current_hash := calculate_directory_hash fs directory_path exclude_dirs in
      let log := log ++ [directory_path] in
      match current_hash with
      | Some h => if pystr_eqb h expected then (true, log) else (false, log)
      | None => (false, log)
      end
  end.

End Fingerprint.

(** ** The task invoker and the driver *)

Section Driver.

Variable World : Type.

(** What the operating system answers: [os.getcwd()], [os.path.join],
    [os.path.isdir], [os.path.exists]. *)
Variable os_getcwd : World -> pystr.
Variable os_path_join : pystr -> pystr -> pystr.
Variable os_path_isdir : World -> pystr -> bool.
Variable os_path_exists : World -> pystr -> bool.

(** The fingerprint of a directory in a world. *)
Variable calculate_directory_hash : World -> pystr -> option (list pystr) -> option pystr.

(** Loading a task unit, lines 415 to 419: [spec_from_file_location],
    [module_from_spec] and [spec.loader.exec_module(module)], which runs
    the unit's top-level code and acts on the world.  It gives the module
    ([Normal (Some module)]), raises an [Exception], which the [except]
    clause of line 420 catches ([Normal None]), or raises an exception that
    is not an [Exception], which nothing catches ([Escaped]). *)
Variable PyModule : Type.
Variable exec_module : pystr -> pystr -> World -> Ending (option PyModule) * World.

(** [hasattr(module, script_name)], and the rest of the second [try]
    block, lines 434 to 445: the call [func( *args)] of the entry point
    and the printing of what it returned.  It comes to its end
    ([Normal true]), raises an [Exception], caught at line 446
    ([Normal false]), or raises an exception that is not an [Exception]
    ([Escaped]); it acts on the world. *)
Variable hasattr : PyModule -> pystr -> bool.
Variable call_function :
  PyModule -> pystr -> list pystr -> World -> Ending bool * World.

(** [list(set(script_names))]: the distinct names in the order the set
    happens to give. *)
Variable list_of_set : list pystr -> list pystr.

Definition exclude_dirs : list pystr := [py "__pycache__"; py ".git"; py ".vscode"].

(** [dynamic_import_and_run(script_name, args, verify_hash, expected_hash)]:
    the status it returns, 0 or 1, or the exception that leaves it because
    neither [except Exception] clause catches it. *)
Definition dynamic_import_and_run (script_name : pystr) (args : list pystr)
           (verify_hash : bool) (expected_hash : option pystr) (w : World)
  : Ending Z * World :=
  let script_folder := os_path_join (os_getcwd w) script_name in
  let script_path := os_path_join script_folder (script_name ++ py ".py") in
  if negb (os_path_isdir w script_folder) then (Normal 1, w)
  else if
    match expected_hash with
    | Some _ =>
        verify_hash
        && negb (fst (verify_directory_hash calculate_directory_hash w script_folder
                        expected_hash (Some exclude_dirs) []))
    | None => false
    end
  then (Normal 1, w)
  else if negb (os_path_exists w script_path) then (Normal 1, w)
  else
    match exec_module script_name script_path w with
    | (Escaped status, w1) => (Escaped status, w1)
    | (Normal None, w1) => (Normal 1, w1)
    | (Normal (Some module), w1) =>
        if negb (hasattr module script_name) then (Normal 1, w1)
        else
          match call_function module script_name args w1 with
          | (Escaped status, w2) => (Escaped status, w2)
          | (Normal true, w2) => (Normal 0, w2)
          | (Normal false, w2) => (Normal 1, w2)
          end
    end.

(** The registry written in [main]. *)
Definition script_hashes : dict :=
  [ (py "A", py "6c8c069a22d96be8a18c21722cdac82d");
    (py "B", py "efa8b2f56b3c0c5414e8bf6f91da1dd5");
    (py "C", py "d1a041a123788ac2406389c107512f1d");
    (py "D", py "32453a3fda76985d04905378d172f3ce");
    (py "E", py "2861031a067f87fdb0d2bb7ebf0bd679") ].

(** STEP 2 of [main], the [for script_name in script_names] loop:
    [all_hashes_valid] at its end, and the names the loop looked at, in
    order. *)
Fixpoint verify_all (registry : dict) (w : World) (script_names : list pystr)
         (checked : list pystr) : bool * list pystr :=
  match script_names with
  | [] => (true, checked)
  | script_name :: rest =>
      let checked := checked ++ [script_name] in
      let script_folder := os_path_join (os_getcwd w) script_name in
      if negb (os_path_isdir w script_folder) then (false, checked)
      else
        match dict_get registry script_name with
        | Some expected_hash =>
            let actual_hash :=
              calculate_directory_hash w script_folder (Some exclude_dirs) in
            match actual_hash with
            | Some h =>
                if pystr_eqb h expected_hash
                then verify_all registry w rest checked
                else (false, checked)
            | None => (false, checked)
            end
        | None => (false, checked)
        end
  end.

(** How a run of the driver ends: the exit status of the process (the code
    that [main] gives to [sys.exit], or the status of the exception that
    left a task unit), the names the pre-flight loop looked at, and the run
    (world, executor calls, codes that the program wrote to
    [sys.stderr]). *)
Record Outcome : Type := mkOutcome {
  exit_code : Z;
  checked_names : list pystr;
  final : Run World
}.

Definition exit_with (code : Z) (checked : list pystr) (st : Run World) : Outcome :=
  mkOutcome code checked (write_stderr code st).

(** [main] with the registry as a parameter; [argv] is [sys.argv].
    [None]: the parser gives no answer within the fuel.  When an exception
    leaves the evaluation, [main] is left too: nothing more is written and
    the process ends with the status of the exception. *)
Definition run_driver (registry : dict) (fuel : nat) (argv : list pystr)
           (w : World) : option Outcome :=
  let st := mkRun w [] [] in
  match argv with
  | _ :: log_id :: expression_string :: _ =>
      match parse_logical_expression fuel expression_string with
      | None => None
      | Some None => Some (exit_with 1 [] st)
      | Some (Some expression_tree) =>
          let script_names :=
            list_of_set (collect_script_names_from_tree expression_tree) in
          let '(all_hashes_valid, checked) := verify_all registry w script_names [] in
          if negb all_hashes_valid then Some (exit_with 1 checked st)
          else
            match
              evaluate_escaping dynamic_import_and_run expression_tree false
                                (Some registry) st
            with
            | (Normal logical_result, _, st1) =>
                let final_code := if logical_result then 0 else 1 in
                Some (exit_with final_code checked st1)
            | (Escaped status, _, st1) => Some (mkOutcome status checked st1)
            end
      end
  | _ => Some (exit_with 1 [] st)
  end.

Definition main : nat -> list pystr -> World -> option Outcome :=
run_driver script_hashes.

(** The three pre-flight checks on one name, in the words of the design:
    the task-unit directory exists, the registry has an entry for the name,
    and the computed fingerprint is the registry's value. *)
Definition passes_checks (registry : dict) (w : World) (name : pystr) : Prop :=
  let script_folder := os_path_join (os_getcwd w) name in
  os_path_isdir w script_folder = true
  /\ (exists expected, dict_get registry name = Some expected
                       /\ calculate_directory_hash w script_folder (Some exclude_dirs)
                          = Some expected).

Definition fails_checks (registry : dict) (w : World) (name : pystr) : Prop :=
  let script_folder := os_path_join (os_getcwd w) name in
  os_path_isdir w script_folder = false
  \/ dict_get registry name = None
  \/ calculate_directory_hash w script_folder (Some exclude_dirs)
     <> dict_get registry name.

End Driver.

(** ** A small world for examples

    The world is the list of the task units run so far; every directory
    exists, fingerprints are the directory path itself, and the task unit
    [A] succeeds while every other one fails; for the driver, the unit [X]
    calls [sys.exit(3)]. *)

Definition demo_executor (name : pystr) (args : list pystr) (verify_hash : bool)
           (expected_hash : option pystr) (w : list pystr) : Z * list pystr :=
  (if pystr_eqb name (py "A") then 0 else 1, w ++ [name]).

Definition demo_hash (w : list pystr) (path : pystr) (exclude : option (list pystr))
  : option pystr := Some path.

Definition demo_join (a b : pystr) : pystr := a ++ py "/" ++ b.

Definition demo_module := pystr.

Definition demo_exec_module (name path : pystr) (w : list pystr)
  : Ending (option demo_module) * list pystr := (Normal (Some name), w).

(** The entry point of [X] calls [sys.exit(3)]. *)
Definition demo_call (m : demo_module) (name : pystr) (args : list pystr)
           (w : list pystr) : Ending bool * list pystr :=
  (if pystr_eqb name (py "X") then Escaped 3 else Normal (pystr_eqb name (py "A")),
   w ++ [name]).

(** [list(set(names))] in one possible order: first occurrences, in order. *)
Definition demo_list_of_set (names : list pystr) : list pystr :=
  rev (nodup (list_eq_dec ascii_dec) (rev names)).

(** The normalized text of [&&[[]]], an expression that passes the format
    pre-check. *)
Definition stuck_expr : pystr := py "&& [ [ ] ]".

Definition demo_driver (registry : dict) :=
  run_driver (fun _ : list pystr => py "/srv") demo_join (fun _ _ => true)
             (fun _ _ => true) demo_hash demo_exec_module (fun _ _ => true)
             demo_call demo_list_of_set registry.

(** ** The cursor

    [At expr pos rest]: position [pos] of [expr] is where [rest] starts,
    that is, [rest] is [expr[pos:]] with [0 <= pos <= len(expr)]. *)
Definition At (expr : pystr) (pos : Z) (rest : pystr) : Prop :=
  exists before, expr = before ++ rest /\ pos = len before.

(** ** Argument tokens

    The two kinds of [arg] of the grammar, to state what the argument loop
    makes of them: a bare token, or a double-quoted token given by the value
    it stands for. *)
Inductive ArgToken : Type :=
| Bare (text : pystr)
| Quoted (value : pystr).

(** The text of a value between quotes: a backslash before every quote and
    every backslash. *)
Fixpoint escape (value : pystr) : pystr :=
  match value with
  | [] => []
  | c :: rest =>
      if char_eqb c dquote || char_eqb c backslash
      then backslash :: c :: escape rest
      else c :: escape rest
  end.

Definition token_text (t : ArgToken) : pystr :=
  match t with
  | Bare b => b
  | Quoted v => [dquote] ++ escape v ++ [dquote]
  end.

Definition token_value (t : ArgToken) : pystr :=
  match t with
  | Bare b => b
  | Quoted v => v
  end.

(** A bare token: not empty, without white space, quote, backslash or
    comma. *)
Definition bare_char (c : ascii) : bool :=
  negb (isspace c) && negb (char_eqb c dquote) && negb (char_eqb c backslash)
  && negb (char_eqb c ",").

Definition token_ok (t : ArgToken) : Prop :=
  match t with
  | Bare b => b <> [] /\ Forall (fun c => bare_char c = true) b
  | Quoted _ => True
  end.

(** What [current_arg] holds when the loop is through with a token. *)
Definition token_raw (t : ArgToken) : pystr :=
  match t with
  | Bare b => b
  | Quoted v => [dquote] ++ v ++ [dquote]
  end.

(** A text that starts with a character that is not white space. *)
Definition head_nonspace (s : pystr) : Prop :=
  match s with
  | c :: _ => isspace c = false
  | [] => False
  end.

Unset Implicit Arguments.

(** ** Tokens and gaps

    A text seen as tokens with white space between them, to say what the
    normalization does: the five characters that [normalize] puts spaces
    around are tokens of their own, everything else that is not white space
    comes in words. *)
Inductive Tok : Type :=
| TOpen    (* [ *)
| TClose   (* ] *)
| TLPar    (* ( *)
| TRPar    (* ) *)
| TComma   (* , *)
| TWord (w : pystr).

Definition tok_text (t : Tok) : pystr :=
  match t with
  | TOpen => py "["
  | TClose => py "]"
  | TLPar => py "("
  | TRPar => py ")"
  | TComma => py ","
  | TWord w => w
  end.

(** A character of a word: not white space and none of the five. *)
Definition word_char (c : ascii) : bool :=
  negb (isspace c) && negb (existsb (char_eqb c) (py "[](),")).

Definition tok_ok (t : Tok) : Prop :=
  match t with
  | TWord w => w <> [] /\ Forall (fun c => word_char c = true) w
  | _ => True
  end.

(** Is [t] the one-character token [X]? *)
Definition is_tok (X : ascii) (t : Tok) : bool :=
  match t with
  | TWord _ => false
  | _ => pystr_eqb (tok_text t) [X]
  end.

(** Each token comes with the white space before it. *)
Definition Items := list (pystr * Tok).

Fixpoint render (items : Items) (trailing : pystr) : pystr :=
  match items with
  | [] => trailing
  | (gap, t) :: rest => gap ++ tok_text t ++ render rest trailing
  end.

(** The same without the white space at the two ends. *)
Definition render_tight (items : Items) : pystr :=
  match items with
  | [] => []
  | (_, t) :: rest => tok_text t ++ render rest []
  end.

Definition gaps_ok (items : Items) : Prop :=
  Forall (fun it => Forall (fun c => isspace c = true) (fst it) /\ tok_ok (snd it)) items.

(** A change of the gaps that looks at the token before ([None] at the
    start) and at the token after. *)
Fixpoint map_gaps (f : option Tok -> pystr -> Tok -> pystr) (prev : option Tok)
         (items : Items) : Items :=
  match items with
  | [] => []
  | (gap, t) :: rest => (f prev gap t, t) :: map_gaps f (Some t) rest
  end.

Definition is_prev (X : ascii) (prev : option Tok) : bool :=
  match prev with
  | Some t => is_tok X t
  | None => false
  end.

(** What [re.sub] of [\s*X\s*] by [l X r] makes of a gap: next to an [X]
    the white space goes and [r] (after [X]) or [l] (before [X]) comes. *)
Definition sub_gap (X : ascii) (l r : pystr) (prev : option Tok) (gap : pystr)
           (t : Tok) : pystr :=
  (if is_prev X prev then r else if is_tok X t then [] else gap)
  ++ (if is_tok X t then l else []).

Definition sub_trailing (X : ascii) (r : pystr) (prev : option Tok)
           (trailing : pystr) : pystr :=
  if is_prev X prev then r else trailing.

Fixpoint last_tok (prev : option Tok) (items : Items) : option Tok :=
  match items with
  | [] => prev
  | (_, t) :: rest => last_tok (Some t) rest
  end.

(** What [re.sub] of [\s+] by one space makes of a gap. *)
Definition collapse (gap : pystr) : pystr :=
  match gap with
  | [] => []
  | _ :: _ => py " "
  end.

(** The gap between two tokens when [normalize] is through: none before a
    comma, one space next to one of the five characters, and what [\s+]
    leaves between two words. *)
Definition is_word (t : Tok) : bool :=
  match t with
  | TWord _ => true
  | _ => false
  end.

Definition canon_gap (prev : option Tok) (gap : pystr) (t : Tok) : pystr :=
  match t, prev with
  | TComma, Some TComma => py " "
  | TComma, _ => []
  | _, Some p => if is_word p && is_word t then collapse gap else py " "
  | _, None => []
  end.

(** The text from the first token on, when the white space before it has
    been passed. *)
Definition drop_gap (items : Items) (trailing : pystr) : pystr :=
  match items with
  | [] => []
  | (_, t) :: rest => tok_text t ++ render rest trailing
  end.

Definition lead_gap (items : Items) (trailing : pystr) : pystr :=
  match items with
  | [] => trailing
  | (gap, _) :: _ => gap
  end.

(** The text stops being of the kind [p]: it is empty or its first
    character is not of that kind. *)
Definition stops (p : ascii -> bool) (s : pystr) : Prop :=
  match s with
  | c :: _ => p c = false
  | [] => True
  end.

Definition white (s : pystr) : Prop := Forall (fun c => isspace c = true) s.

(** The six substitutions of [normalize], on a gap. *)
Definition normal_gap (prev : option Tok) (gap : pystr) (t : Tok) : pystr :=
  let gap := sub_gap "[" (py " ") (py " ") prev gap t in
  let gap := sub_gap "]" (py " ") (py " ") prev gap t in
  let gap := sub_gap "(" (py " ") (py " ") prev gap t in
  let gap := sub_gap ")" (py " ") (py " ") prev gap t in
  let gap := sub_gap "," [] (py " ") prev gap t in
  collapse gap.

(** ** Plain trees and their texts *)

(** A character that needs no care in a name or an argument: not white
    space and none of [( ) [ ] , : & |], quote and backslash. *)
Definition plain_char (c : ascii) : bool :=
  negb (isspace c)
  && negb (existsb (char_eqb c) (py "()[],:&|" ++ [dquote; backslash])).

Definition plain_word (w : pystr) : Prop :=
  w <> [] /\ Forall (fun c => plain_char c = true) w.

(** A tree as the parser builds it (no cached result), with plain names and
    arguments and a child under every [NotNode]. *)
Fixpoint plain (t : Node) : Prop :=
  match t with
  | ScriptNode r name args => r = RNone /\ plain_word name /\ Forall plain_word args
  | NotNode r (Some child) => r = RNone /\ plain child
  | NotNode _ None => False
  | AndNode r _ children | OrNode r _ children =>
      r = RNone
      /\ (fix all (l : list Node) : Prop :=
            match l with
            | [] => True
            | c :: l' => plain c /\ all l'
            end) children
  end.

(** The tokens of [__str__], with the gap [gap] before the first one. *)
Definition atom_items (gap name : pystr) (args : list pystr) : Items :=
  match args with
  | [] => [(gap, TLPar); ([], TWord name); ([], TRPar)]
  | a :: rest =>
      (gap, TLPar) :: ([], TWord (name ++ py ":" ++ a))
      :: flat_map (fun a' => [([], TComma); ([], TWord a')]) rest
      ++ [([], TRPar)]
  end.

Fixpoint items_of (gap : pystr) (t : Node) : Items :=
  match t with
  | ScriptNode _ name args => atom_items gap name args
  | NotNode _ (Some child) => (gap, TWord (py "!")) :: items_of [] child
  | NotNode _ None => [(gap, TWord (py "!")); ([], TWord (py "None"))]
  | AndNode _ cb children =>
      (gap, TWord (and_operator cb)) :: (py " ", TOpen)
      :: match children with
         | [] => [(py "  ", TClose)]
         | c :: rest =>
             items_of (py " ") c
             ++ flat_map (fun c' => ([], TComma) :: items_of (py " ") c') rest
             ++ [(py " ", TClose)]
         end
  | OrNode _ cb children =>
      (gap, TWord (or_operator cb)) :: (py " ", TOpen)
      :: match children with
         | [] => [(py "  ", TClose)]
         | c :: rest =>
             items_of (py " ") c
             ++ flat_map (fun c' => ([], TComma) :: items_of (py " ") c') rest
             ++ [(py " ", TClose)]
         end
  end.

Definition first_tok (t : Node) : Tok :=
  match t with
  | ScriptNode _ _ _ => TLPar
  | NotNode _ _ => TWord (py "!")
  | AndNode _ cb _ => TWord (and_operator cb)
  | OrNode _ cb _ => TWord (or_operator cb)
  end.

Fixpoint end_tok (t : Node) : Tok :=
  match t with
  | ScriptNode _ _ _ => TRPar
  | NotNode _ (Some child) => end_tok child
  | NotNode _ None => TWord (py "None")
  | AndNode _ _ _ | OrNode _ _ _ => TClose
  end.

(** The normalized text of a plain tree. *)
Definition canon_atom (name : pystr) (args : list pystr) : pystr :=
  py "( " ++ name
  ++ match args with
     | [] => []
     | _ :: _ => py ":" ++ join (py ", ") args
     end
  ++ py " )".

Definition canon_list (texts : list pystr) : pystr :=
  match texts with
  | [] => py " [ ]"
  | _ :: _ => py " [ " ++ join (py ", ") texts ++ py " ]"
  end.

(** After [!] the normalization leaves a space before [(] only. *)
Definition not_gap (child : Node) : pystr :=
  match child with
  | ScriptNode _ _ _ => py " "
  | _ => []
  end.

Fixpoint canon (t : Node) : pystr :=
  match t with
  | ScriptNode _ name args => canon_atom name args
  | NotNode _ (Some child) => py "!" ++ not_gap child ++ canon child
  | NotNode _ None => py "!None"
  | AndNode _ cb children => and_operator cb ++ canon_list (map canon children)
  | OrNode _ cb children => or_operator cb ++ canon_list (map canon children)
  end.

(** The fuel that parsing the text of a tree takes when every [NotNode] has
    a child; one more is enough for every tree. *)
Fixpoint parse_fuel (t : Node) : nat :=
  match t with
  | ScriptNode _ _ _ => 1
  | NotNode _ (Some child) => S (parse_fuel child)
  | NotNode _ None => 1
  | AndNode _ _ children | OrNode _ _ children =>
      S (S (length children) + fold_right (fun c n => Nat.max (parse_fuel c) n) O children)
  end.

(** ** Texts that pass the format pre-check

    Every [&] and every [|] of the text is in an operator followed by one
    space and an opening bracket. *)
Inductive ops_ok : pystr -> Prop :=
| ops_nil : ops_ok []
| ops_char c s : c <> "&"%char -> c <> "|"%char -> ops_ok s -> ops_ok (c :: s)
| ops_double x s :
    x = "&"%char \/ x = "|"%char -> ops_ok s ->
    ops_ok (x :: x :: " "%char :: "["%char :: s)
| ops_single x s :
    x = "&"%char \/ x = "|"%char -> ops_ok s ->
    ops_ok (x :: " "%char :: "["%char :: s).

(** As many [[] as []] and as many [(] as [)]: the first two tests of the
    pre-check. *)
Definition balanced (s : pystr) : Prop :=
  count_occ ascii_dec s "["%char = count_occ ascii_dec s "]"%char
  /\ count_occ ascii_dec s "("%char = count_occ ascii_dec s ")"%char.

(** The normalized text of a tree among the tokens of a longer text. *)
Definition canon_spec (t : Node) : Prop :=
  forall p gap rest trailing,
    render (map_gaps canon_gap (Some p) (items_of gap t ++ rest)) trailing
    = canon_gap (Some p) gap (first_tok t) ++ canon t
      ++ render (map_gaps canon_gap (Some (end_tok t)) rest) trailing.

(** What the children loop asks of the parser it is given: to read a tree
    from its normalized text. *)
Definition reads (parse_expression : pystr -> Z -> option (option Node * Z))
           (t : Node) : Prop :=
  forall expr pos rest,
    At expr pos (canon t ++ rest) ->
    parse_expression expr pos = Some (Some t, pos + len (canon t)).

(** The children after the first one, each after its comma. *)
Definition tail_text (children : list Node) : pystr :=
  flat_map (fun s => py ", " ++ s) (map canon children).

(** A tree whose nodes have no cached result yet, as the parser builds
    them. *)
Fixpoint fresh (t : Node) : Prop :=
  match t with
  | ScriptNode r _ _ => r = RNone
  | NotNode r child =>
      r = RNone /\ match child with
                   | Some c => fresh c
                   | None => True
                   end
  | AndNode r _ children | OrNode r _ children =>
      r = RNone
      /\ (fix all (l : list Node) : Prop :=
            match l with
            | [] => True
            | c :: l' => fresh c /\ all l'
            end) children
  end.

(** A parsing function that only builds trees without cached results. *)
Definition builds_fresh (P : pystr -> Z -> option (option Node * Z)) : Prop :=
  forall expr pos t pos', P expr pos = Some (Some t, pos') -> fresh t.

(** ** Trees without their caches, and the order of the calls *)

(** The tree as the parser would have built it: every cached [result] back
    to [None]. *)
Fixpoint shape (t : Node) : Node :=
  match t with
  | ScriptNode _ name args => ScriptNode RNone name args
  | NotNode _ child =>
      NotNode RNone match child with
                    | Some c => Some (shape c)
                    | None => None
                    end
  | AndNode _ cb children => AndNode RNone cb (map shape children)
  | OrNode _ cb children => OrNode RNone cb (map shape children)
  end.

(** What an evaluation shows from outside: the boolean it returns and the
    run it leaves, without the tree (or the children) with the new caches. *)
Definition outcome {World T : Type} (x : bool * T * Run World) : bool * Run World :=
  (fst (fst x), snd x).

(** Two trees that evaluate alike, whatever the run they start in. *)
Definition alike {World : Type}
           (executor_func : pystr -> list pystr -> bool -> option pystr -> World -> Z * World)
           (verify_hash : bool) (script_hashes : option dict) (c d : Node) : Prop :=
  forall st : Run World,
    outcome (evaluate executor_func c verify_hash script_hashes st)
    = outcome (evaluate executor_func d verify_hash script_hashes st).

(** [l] is [m] with some elements left out, the others in their order. *)
Inductive subseq {A : Type} : list A -> list A -> Prop :=
| subseq_nil : subseq [] []
| subseq_skip x l m : subseq l m -> subseq l (x :: m)
| subseq_take x l m : subseq l m -> subseq (x :: l) (x :: m).

(** A tree without a circuit-breaking operator. *)
Fixpoint eager (t : Node) : Prop :=
  match t with
  | ScriptNode _ _ _ => True
  | NotNode _ (Some child) => eager child
  | NotNode _ None => True
  | AndNode _ cb children | OrNode _ cb children =>
      cb = false
      /\ (fix all (l : list Node) : Prop :=
            match l with
            | [] => True
            | c :: l' => eager c /\ all l'
            end) children
  end.

(** The calls [new] and the codes [codes] that the run [st'] has more than
    the run [st]. *)
Definition adds {World : Type} (st st' : Run World) (new : list Call) (codes : list Z)
  : Prop :=
  calls st' = calls st ++ new /\ stderr st' = stderr st ++ codes
  /\ length codes = length new.

(** [!c] for every [c] of a list of children. *)
Definition negated (children : list Node) : list Node :=
  map (fun c => NotNode RNone (Some c)) children.

(** The run [st'] comes from the run [st] by executor calls whose names are
    related by [R] to [names], each made with the flag [verify_hash] and
    the expected hash that [ScriptNode.evaluate] computes, and by as many
    codes written to [sys.stderr], all of the kind [Pcode]. *)
Definition made_by {World : Type} (R : list pystr -> list pystr -> Prop)
           (Pcode : Z -> Prop) (verify_hash : bool) (script_hashes : option dict)
           (names : list pystr) (st st' : Run World) : Prop :=
  exists new codes,
    adds st st' new codes
    /\ Forall Pcode codes
    /\ R (map call_name new) names
    /\ Forall (fun c => call_verify c = verify_hash
                        /\ call_expected c
                           = expected_hash_of (call_name c) verify_hash script_hashes) new.

(** How a list of endings can look: the statuses [codes] of calls that
    returned, followed, when [escape] gives a status, by one call that was
    left by an exception. *)
Definition endings (codes : list Z) (escape : option Z) : list (Ending Z) :=
  map Normal codes
  ++ match escape with
     | Some status => [Escaped status]
     | None => []
     end.

(** The run [st'] comes from the run [st] by an evaluation with an
    executor that can be left by an exception.  The calls [new] were made,
    one after the other from the world of [st]; their names are names of
    [names], in this order; each call returned its status, which was then
    written to [sys.stderr], but for the last one when the evaluation was
    left ([escape]): this call was left by the exception and nothing was
    written for it. *)
Definition escaping_run {World : Type}
           (executor_func :
              pystr -> list pystr -> bool -> option pystr -> World -> Ending Z * World)
           (Pcode : Z -> Prop) (verify_hash : bool) (script_hashes : option dict)
           (names : list pystr) (escape : option Z) (st st' : Run World) : Prop :=
  exists new codes,
    calls st' = calls st ++ new
    /\ stderr st' = stderr st ++ codes
    /\ statuses executor_func new (world st) = (endings codes escape, world st')
    /\ length new = length (endings codes escape)
    /\ Forall Pcode codes
    /\ subseq (map call_name new) names
    /\ Forall (fun c => call_verify c = verify_hash
                        /\ call_expected c
                           = expected_hash_of (call_name c) verify_hash script_hashes) new.

(** ** Generating the registry: [generate_hash_for_script] and
    [generate_hashes_for_directories] of [directory_hash.py] *)

(** A Python [dict] with values of any type, in insertion order:
    [d.get(k)] and [d[k] = v], which keeps the place of a key that is
    already there. *)
Fixpoint pydict_get {V : Type} (d : list (pystr * V)) (k : pystr) : option V :=
  match d with
  | [] => None
  | (k', v) :: d' => if pystr_eqb k' k then Some v else pydict_get d' k
  end.

Fixpoint pydict_set {V : Type} (d : list (pystr * V)) (k : pystr) (v : V)
  : list (pystr * V) :=
  match d with
  | [] => [(k, v)]
  | (k', v') :: d' =>
      if pystr_eqb k' k then (k', v) :: d' else (k', v') :: pydict_set d' k v
  end.

Section HashGeneration.

Variable World : Type.
Variable os_getcwd : World -> pystr.
Variable os_path_join : pystr -> pystr -> pystr.
Variable os_path_isdir : World -> pystr -> bool.
Variable os_path_basename : pystr -> pystr.
Variable calculate_directory_hash : World -> pystr -> option (list pystr) -> option pystr.

(** [generate_hash_for_script(script_name)]: the value returned (what it
    prints is left out). *)
Definition generate_hash_for_script (w : World) (script_name : pystr) : option pystr :=
  let script_folder := os_path_join (os_getcwd w) script_name in
  if negb (os_path_isdir w script_folder) then None
  else
    let exclude_dirs := [py "__pycache__"; py ".git"; py ".vscode"] in
    let hash_value := calculate_directory_hash w script_folder (Some exclude_dirs) in
    hash_value.

(** The [for directory in directories] loop of
    [generate_hashes_for_directories], from the dict [hashes] built so
    far. *)
Fixpoint hashes_loop (w : World) (directories : list pystr)
         (exclude_dirs : option (list pystr)) (hashes : list (pystr * option pystr))
  : list (pystr * option pystr) :=
  match directories with
  | [] => hashes
  | directory :: rest =>
      if os_path_isdir w directory then
        let dir_name := os_path_basename directory in
        let hash_value := calculate_directory_hash w directory exclude_dirs in
        hashes_loop w rest exclude_dirs (pydict_set hashes dir_name hash_value)
      else hashes_loop w rest exclude_dirs hashes
  end.

Definition generate_hashes_for_directories (w : World) (directories : list pystr)
           (exclude_dirs : option (list pystr)) : list (pystr * option pystr) :=
  hashes_loop w directories exclude_dirs [].

End HashGeneration.

(** ** Texts with single spaces *)

(** White space comes only as single spaces between two other characters:
    none at the two ends, never two in a row, and no white space character
    but the space.  [after_space] tells that the text before ended with a
    space, or that there is no text before. *)
Fixpoint single_spaced_from (after_space : bool) (s : pystr) : bool :=
  match s with
  | [] => negb after_space
  | c :: s' =>
      if isspace c
      then char_eqb c " " && negb after_space && single_spaced_from true s'
      else single_spaced_from false s'
  end.

Definition single_spaced (s : pystr) : bool :=
  match s with
  | [] => true
  | _ :: _ => single_spaced_from true s
  end.

(** The token of a character that is not white space. *)
Definition tok_of_char (c : ascii) : Tok :=
  if char_eqb c "[" then TOpen
  else if char_eqb c "]" then TClose
  else if char_eqb c "(" then TLPar
  else if char_eqb c ")" then TRPar
  else if char_eqb c "," then TComma
  else TWord [c].

(** ** The expressions that pass the format pre-check *)

(** Every [&] and every [|] of the text is in an operator [&&], [||], [&]
    or [|] that is followed, after white space or none, by an opening
    bracket. *)
Inductive ops_bracketed : pystr -> Prop :=
| opb_nil : ops_bracketed []
| opb_char c s :
    c <> "&"%char -> c <> "|"%char -> ops_bracketed s -> ops_bracketed (c :: s)
| opb_double x gap s :
    x = "&"%char \/ x = "|"%char -> white gap -> ops_bracketed s ->
    ops_bracketed (x :: x :: gap ++ "["%char :: s)
| opb_single x gap s :
    x = "&"%char \/ x = "|"%char -> white gap -> ops_bracketed s ->
    ops_bracketed (x :: gap ++ "["%char :: s).

(** The loop of the pre-check for [op] from [i], with the fuel that what
    is left of the expression asks for. *)
Definition checked (expression op : pystr) (i : Z) : bool :=
  check_operator (Z.to_nat (len expression - i)) expression op i.

(** One turn of that loop at an occurrence [i] of [op]; [next] is the loop
    from the position the turn moves [i] to. *)
Definition check_turn (expression op : pystr) (i : Z) (next : Z -> bool) : bool :=
  if (pystr_eqb op (py "&") || pystr_eqb op (py "|"))
     && (i + 1 <? len expression)
     && (match char_at expression (i + 1), char_at expression i with
         | Some a, Some b => char_eqb a b
         | _, _ => false
         end)
  then next (i + 1)
  else
    let j := skip_while isspace expression (i + len op) in
    if (j >=? len expression) || negb (is_char expression j "[")
    then false
    else next (i + len op).

(** The four operators, in the order of the pre-check. *)
Definition operators : list pystr := [py "&&"; py "||"; py "&"; py "|"].

(** ** The fingerprint: [calculate_directory_hash] of [directory_hash.py]

    What [os.walk] finds under a path is a tree.  What it lists among the
    [files] of a directory, every entry that is not a directory, comes with
    the answer of [os.access(path, os.R_OK)] and with its content ([None]
    when opening or reading it raises); reading is taken to end.  What it
    lists among the [dirs] is a directory that it walks in its turn
    ([Folder], with its entries by name, in the order in which [os.scandir]
    lists them) or one that it does not walk ([Closed]): a symbolic link to
    a directory, as [os.walk] is called with [followlinks] false, or a
    directory that cannot be listed, as [os.walk], called without
    [onerror], passes over the error of [os.scandir].  For such a directory
    [os.walk] yields nothing, so that the loop body is not run for it.  At
    the path itself a link to a directory is followed: the path is then a
    [Folder]. *)

(** Python [bytes]. *)
Definition bytes := list ascii.

Inductive Entry : Type :=
| File (readable : bool) (content : option bytes)
| Folder (entries : list (pystr * Entry))
| Closed.

(** [str.encode('utf-8')], for code points below 256. *)
Definition utf8 (c : ascii) : bytes :=
  let n := nat_of_ascii c in
  if (n <? 128)%nat then [c]
  else [ascii_of_nat (192 + n / 64); ascii_of_nat (128 + n mod 64)].

Definition encode (s : pystr) : bytes := flat_map utf8 s.

(** [a <= b] on [str]: the order of the code points, the shorter text
    first when it starts the longer one. *)
Fixpoint str_leb (a b : pystr) : bool :=
  match a, b with
  | [], _ => true
  | _ :: _, [] => false
  | x :: a', y :: b' =>
      if (nat_of_ascii x <? nat_of_ascii y)%nat then true
      else if (nat_of_ascii y <? nat_of_ascii x)%nat then false
      else str_leb a' b'
  end.

(** [list.sort()] and [sorted] on texts, or on things that go by a name:
    the sort is stable. *)
Fixpoint insert_by {A : Type} (key : A -> pystr) (x : A) (l : list A) : list A :=
  match l with
  | [] => [x]
  | y :: l' => if str_leb (key x) (key y) then x :: l else y :: insert_by key x l'
  end.

Definition sort_by {A : Type} (key : A -> pystr) (l : list A) : list A :=
  fold_right (insert_by key) [] l.

(** [dirs.remove(name)] under [if name in dirs]: the first entry of that
    name goes. *)
Fixpoint remove_name {A : Type} (name : pystr) (l : list (pystr * A)) : list (pystr * A) :=
  match l with
  | [] => []
  | (n, x) :: l' => if pystr_eqb n name then l' else (n, x) :: remove_name name l'
  end.

(** [for exclude_dir in exclude_dirs: if exclude_dir in dirs: dirs.remove(exclude_dir)] *)
Definition remove_excluded {A : Type} (exclude_dirs : list pystr) (dirs : list (pystr * A))
  : list (pystr * A) :=
  fold_left (fun dirs exclude_dir => remove_name exclude_dir dirs) exclude_dirs dirs.

(** The files among the entries of a directory, as [os.walk] gives them
    in [files]. *)
Fixpoint files_of (entries : list (pystr * Entry)) : list (pystr * (bool * option bytes)) :=
  match entries with
  | [] => []
  | (name, File readable content) :: rest => (name, (readable, content)) :: files_of rest
  | (_, Folder _) :: rest | (_, Closed) :: rest => files_of rest
  end.

Section DirectoryHash.

(** [hashlib.md5(data).hexdigest()], and [os.sep]. *)
Variable md5_hexdigest : bytes -> pystr.
Variable os_sep : pystr.

(** [os.path.relpath(path, directory_path)] for a path that is reached
    from [directory_path] through the names [rel]. *)
Definition relpath (rel : list pystr) : pystr := join os_sep rel.

(** The body of [for filename in sorted(files)]: what one file adds to
    [directory_entries]. *)
Definition file_entry (rel : list pystr) (file : pystr * (bool * option bytes))
  : list pystr :=
  let '(filename, (readable, content)) := file in
  if negb readable then []
  else
    match content with
    | Some file_content =>
        let content_hash := md5_hexdigest file_content in
        [py "FILE:" ++ relpath (rel ++ [filename]) ++ py ":" ++ content_hash]
    | None => []
    end.

(** What the body of [for root, dirs, files in os.walk(directory_path)]
    adds to [directory_entries] for one [root], and then, as [os.walk]
    goes on top-down through [dirs], for the directories below it;
    [dirs] holds with each name the walk below it. *)
Definition walk_root (exclude_dirs : list pystr) (rel : list pystr)
           (dirs : list (pystr * (list pystr -> list pystr)))
           (files : list (pystr * (bool * option bytes))) : list pystr :=
  let dirs := remove_excluded exclude_dirs dirs in
  let dirs := sort_by fst dirs in
  (match rel with
   | [] => []
   | _ :: _ => [py "DIR:" ++ relpath rel]
   end)
  ++ flat_map (file_entry rel) (sort_by fst files)
  ++ flat_map (fun d => snd d (rel ++ [fst d])) dirs.

(** The entries that the walk from [e], found at [rel] under
    [directory_path], adds; [os.walk] on what is not a directory, and on a
    directory that it does not walk, gives nothing.  The [dirs] of a
    directory are its entries that are directories, walked or not. *)
Fixpoint walk (exclude_dirs : list pystr) (e : Entry) (rel : list pystr) {struct e}
  : list pystr :=
  match e with
  | File _ _ | Closed => []
  | Folder entries =>
      walk_root exclude_dirs rel
        ((fix dirs_of (l : list (pystr * Entry)) : list (pystr * (list pystr -> list pystr)) :=
            match l with
            | [] => []
            | (_, File _ _) :: l' => dirs_of l'
            | (name, d) :: l' => (name, walk exclude_dirs d) :: dirs_of l'
            end) entries)
        (files_of entries)
  end.

(** [calculate_directory_hash(directory_path, exclude_dirs, verbose)] on a
    file system that gives what is at a path, if anything. *)
Definition calculate_directory_hash (fs : pystr -> option Entry) (directory_path : pystr)
           (exclude_dirs : option (list pystr)) : option pystr :=
  match fs directory_path with
  | None => None
  | Some root =>
      let exclude_dirs :=
        match exclude_dirs with
        | None => [py "__pycache__"; py ".git"; py ".vscode"]
        | Some l => l
        end in
      let directory_entries := walk exclude_dirs root [] in
      match directory_entries with
      | [] => None
      | _ :: _ =>
          let directory_entries := sort_by (fun entry => entry) directory_entries in
          Some (md5_hexdigest (flat_map encode directory_entries))
      end
  end.

End DirectoryHash.

(** The directories among the entries, each with the walk below it. *)
Definition dirs_of (md5_hexdigest : bytes -> pystr) (os_sep : pystr)
           (exclude_dirs : list pystr) (entries : list (pystr * Entry))
  : list (pystr * (list pystr -> list pystr)) :=
  flat_map (fun e => match snd e with
                     | File _ _ => []
                     | Folder _ | Closed =>
                         [(fst e, walk md5_hexdigest os_sep exclude_dirs (snd e))]
                     end) entries.


(** An entry that adds nothing: a file that cannot be read, a directory
    whose name is excluded, or a directory that [os.walk] does not walk. *)
Definition ignored (exclude_dirs : list pystr) (entry : pystr * Entry) : Prop :=
  match snd entry with
  | File readable content => readable = false \/ content = None
  | Folder _ => In (fst entry) exclude_dirs
  | Closed => True
  end.

(** The directories that the removals leave, when names are distinct. *)
Definition kept {A : Type} (exclude_dirs : list pystr) (d : pystr * A) : bool :=
  negb (existsb (pystr_eqb (fst d)) exclude_dirs).

(** [exclude_dirs] as [calculate_directory_hash] takes it. *)
Definition excluded (exclude_dirs : option (list pystr)) : list pystr :=
  match exclude_dirs with
  | None => [py "__pycache__"; py ".git"; py ".vscode"]
  | Some l => l
  end.

(** For the examples: a stand-in for the digest, which shows what is
    hashed, and a directory with a file, a cache and a subdirectory. *)
Definition demo_md5 (data : bytes) : pystr := py "md5(" ++ data ++ py ")".

Definition demo_entries : list (pystr * Entry) :=
  [ (py "b.py", File true (Some (py "x")));
    (py "__pycache__", Folder [(py "b.pyc", File true (Some (py "y")))]);
    (py "lock", File false (Some (py "z")));
    (py "a", Folder [(py "k", Folder [])]) ].

(** ** Names and arguments that come back from the serialized text *)

(** The tokens of a text character by character: one token for each
    character that is not white space, with the white space before it, and
    the white space at the end of the text. *)
Fixpoint lex (gap s : pystr) : Items * pystr :=
  match s with
  | [] => ([], gap)
  | c :: s' =>
      if isspace c then lex (gap ++ [c]) s'
      else let '(items, trailing) := lex [] s' in ((gap, tok_of_char c) :: items, trailing)
  end.

Definition chars (s : pystr) : Items := fst (lex [] s).

(** The gap that the normalization leaves before the text [u] when it
    comes, with nothing between, after the token [prev]. *)
Definition lead (prev : option Tok) (u : pystr) : pystr :=
  match chars u with
  | [] => []
  | (_, t) :: _ => canon_gap prev [] t
  end.

(** A name that [_parse_script_node] reads back from [(name)] or
    [(name:...)]: the normalization leaves it as it is, and it holds
    neither the colon that ends a name nor the parenthesis that ends an
    atom. *)
Definition stable_name (name : pystr) : Prop :=
  normalize name = name
  /\ Forall (fun c => c <> ":"%char /\ c <> ")"%char) name.

(** A character that the argument loop takes as it comes, and that does
    not end the atom. *)
Definition arg_char (c : ascii) : bool :=
  negb (char_eqb c ",") && negb (char_eqb c dquote) && negb (char_eqb c backslash)
  && negb (char_eqb c ")").

(** An argument that the argument loop reads back from the text in which
    [__str__] has written it, without quotes: the normalization leaves it as
    it is, and it holds no comma, no quote, no backslash and no closing
    parenthesis. *)
Definition stable_arg (arg : pystr) : Prop :=
  normalize arg = arg /\ Forall (fun c => arg_char c = true) arg.

(** The arguments of an atom: the argument loop drops an empty argument at
    the end of the list. *)
Definition stable_args (args : list pystr) : Prop :=
  Forall stable_arg args
  /\ forall init final, args = init ++ [final] -> final <> [].

(** A tree whose names and arguments are of this kind. *)
Fixpoint stable (t : Node) : Prop :=
  match t with
  | ScriptNode _ name args => stable_name name /\ stable_args args
  | NotNode _ (Some child) => stable child
  | NotNode _ None => True
  | AndNode _ _ children | OrNode _ _ children =>
      (fix all (l : list Node) : Prop :=
         match l with
         | [] => True
         | c :: l' => stable c /\ all l'
         end) children
  end.

(** The tokens of [__str__], character by character in the names and the
    arguments, with the gap [gap] before the first one. *)
Definition atom_chars (gap name : pystr) (args : list pystr) : Items :=
  (gap, TLPar) :: chars name
  ++ match args with
     | [] => []
     | a :: rest =>
         ([], TWord (py ":")) :: chars a
         ++ flat_map (fun a' => ([], TComma) :: chars a') rest
     end
  ++ [([], TRPar)].

Fixpoint tokens_of (gap : pystr) (t : Node) : Items :=
  match t with
  | ScriptNode _ name args => atom_chars gap name args
  | NotNode _ (Some child) => (gap, TWord (py "!")) :: tokens_of [] child
  | NotNode _ None => [(gap, TWord (py "!")); ([], TWord (py "None"))]
  | AndNode _ cb children =>
      (gap, TWord (and_operator cb)) :: (py " ", TOpen)
      :: match children with
         | [] => [(py "  ", TClose)]
         | c :: rest =>
             tokens_of (py " ") c
             ++ flat_map (fun c' => ([], TComma) :: tokens_of (py " ") c') rest
             ++ [(py " ", TClose)]
         end
  | OrNode _ cb children =>
      (gap, TWord (or_operator cb)) :: (py " ", TOpen)
      :: match children with
         | [] => [(py "  ", TClose)]
         | c :: rest =>
             tokens_of (py " ") c
             ++ flat_map (fun c' => ([], TComma) :: tokens_of (py " ") c') rest
             ++ [(py " ", TClose)]
         end
  end.

(** The normalized text of a tree: the atoms as [normalize] leaves their
    text, the operators and their lists as in [canon]. *)
Fixpoint normal_text (t : Node) : pystr :=
  match t with
  | ScriptNode _ name args => normalize (__str__ (ScriptNode RNone name args))
  | NotNode _ (Some child) => py "!" ++ not_gap child ++ normal_text child
  | NotNode _ None => py "!None"
  | AndNode _ cb children => and_operator cb ++ canon_list (map normal_text children)
  | OrNode _ cb children => or_operator cb ++ canon_list (map normal_text children)
  end.

(** The arguments [a], [rest] in a text: each with white space or none
    around it, a comma between two of them. *)
Fixpoint args_shape (a : pystr) (rest : list pystr) (s : pystr) : Prop :=
  match rest with
  | [] => exists w w', white w /\ white w' /\ s = w ++ a ++ w'
  | b :: rest' =>
      exists w w' s',
        white w /\ white w' /\ s = w ++ a ++ w' ++ ","%char :: s'
        /\ args_shape b rest' s'
  end.

(** What stands between the parentheses of an atom in a normalized text. *)
Definition atom_shape (name : pystr) (args : list pystr) (body : pystr) : Prop :=
  exists w w',
    white w /\ white w'
    /\ match args with
       | [] => body = w ++ name ++ w'
       | a :: rest => exists s, body = w ++ name ++ w' ++ ":"%char :: s /\ args_shape a rest s
       end.

(** A tree whose text ends with the [None] that [__str__] writes for a
    missing child. *)
Fixpoint ends_none (t : Node) : bool :=
  match t with
  | NotNode _ None => true
  | NotNode _ (Some child) => ends_none child
  | _ => false
  end.

(** What the parser passes beyond the text of a tree: after a [None] the
    recovery loop of [_parse_expression] goes on to the next character of
    ["()[],&|"]. *)
Definition slack (t : Node) (rest : pystr) : Z :=
  if ends_none t
  then Z.of_nat (run_length (fun c => negb (is_structural c)) rest)
  else 0.

(** A parsing function that reads a tree from its normalized text. *)
Definition reads_text (parse_expression : pystr -> Z -> option (option Node * Z))
           (t : Node) : Prop :=
  forall expr pos rest,
    At expr pos (normal_text t ++ rest) ->
    parse_expression expr pos
    = Some (Some t, pos + len (normal_text t) + slack t rest).

(** The children after the first one, each after its comma. *)
Definition tail_texts (texts : list pystr) : pystr :=
  flat_map (fun s => py ", " ++ s) texts.

(** The normalized text of a tree among the tokens of a longer text. *)
Definition text_spec (t : Node) : Prop :=
  forall p gap rest trailing,
    render (map_gaps canon_gap (Some p) (tokens_of gap t ++ rest)) trailing
    = canon_gap (Some p) gap (first_tok t) ++ normal_text t
      ++ render (map_gaps canon_gap (Some (end_tok t)) rest) trailing.

(** [stable], decided. *)
Definition stable_nameb (name : pystr) : bool :=
  pystr_eqb (normalize name) name
  && forallb (fun c => negb (char_eqb c ":") && negb (char_eqb c ")")) name.

Definition stable_argb (arg : pystr) : bool :=
  pystr_eqb (normalize arg) arg && forallb arg_char arg.

Definition stable_argsb (args : list pystr) : bool :=
  forallb stable_argb args && negb (pystr_eqb (last args (py "x")) []).

Fixpoint stableb (t : Node) : bool :=
  match t with
  | ScriptNode _ name args => stable_nameb name && stable_argsb args
  | NotNode _ (Some child) => stableb child
  | NotNode _ None => true
  | AndNode _ _ children | OrNode _ _ children =>
      (fix all (l : list Node) : bool :=
         match l with
         | [] => true
         | c :: l' => stableb c && all l'
         end) children
  end.

(** * Properties *)

Unset Implicit Arguments.

(** ** Python strings *)

Lemma pystr_eqb_eq a b : pystr_eqb a b = true <-> a = b.
Proof.
  unfold pystr_eqb. destruct (list_eq_dec ascii_dec a b); split; congruence.
Qed.

Lemma pystr_eqb_refl a : pystr_eqb a a = true.
Proof. now apply pystr_eqb_eq. Qed.

(** ** The evaluator *)

Section EvaluationProperties.

Variable World : Type.
Variable executor_func :
  pystr -> list pystr -> bool -> option pystr -> World -> Z * World.

#[local] Abbreviation eval := (evaluate executor_func).
#[local] Abbreviation eval_all := (evaluate_all executor_func).

(** The loops inside [evaluate] are [and_loop] and [or_loop] at
    [evaluate] itself. *)
Lemma evaluate_and r cb children vh sh st :
  eval (AndNode r cb children) vh sh st =
  let '(result, children', st1) :=
    and_loop (fun c => eval c vh sh) cb children true st in
  (result, AndNode (RBool result) cb children', st1).
Proof.
  set (L := and_loop (fun c => eval c vh sh) cb).
  cbn [evaluate].
  match goal with
  | |- context [?f children true st] =>
      assert (E : forall cs res s, f cs res s = L cs res s)
  end; subst L.
  { induction cs as [|c cs IH]; intros res s; [reflexivity|].
    cbn [and_loop]. destruct (eval c vh sh s) as [[b c'] s1].
    rewrite !IH. reflexivity. }
  rewrite E. reflexivity.
Qed.

Lemma evaluate_or r cb children vh sh st :
  eval (OrNode r cb children) vh sh st =
  let '(result, children', st1) :=
    or_loop (fun c => eval c vh sh) cb children false st in
  (result, OrNode (RBool result) cb children', st1).
Proof.
  set (L := or_loop (fun c => eval c vh sh) cb).
  cbn [evaluate].
  match goal with
  | |- context [?f children false st] =>
      assert (E : forall cs res s, f cs res s = L cs res s)
  end; subst L.
  { induction cs as [|c cs IH]; intros res s; [reflexivity|].
    cbn [or_loop]. destruct (eval c vh sh s) as [[b c'] s1].
    rewrite !IH. reflexivity. }
  rewrite E. reflexivity.
Qed.

(** The loop of a circuit-breaking [AndNode] on children that all evaluate
    to true is [evaluate_all]. *)
Lemma and_loop_all_true cb vh sh cs : forall st bs cs' st',
  eval_all cs vh sh st = (bs, cs', st') ->
  forallb id bs = true ->
  and_loop (fun c => eval c vh sh) cb cs true st = (true, cs', st').
Proof.
  induction cs as [|c cs IH]; intros st bs cs' st' E A; cbn in *.
  - now inversion E.
  - destruct (eval c vh sh st) as [[b c'] s1].
    destruct (eval_all cs vh sh s1) as [[bs1 cs1] s2] eqn:E1.
    inversion E; subst; clear E. cbn in A. apply andb_prop in A as [Hb A].
    unfold id in Hb; subst b. cbn. now rewrite (IH _ _ _ _ E1 A).
Qed.

Lemma or_loop_all_false cb vh sh cs : forall st bs cs' st',
  eval_all cs vh sh st = (bs, cs', st') ->
  existsb id bs = false ->
  or_loop (fun c => eval c vh sh) cb cs false st = (false, cs', st').
Proof.
  induction cs as [|c cs IH]; intros st bs cs' st' E A; cbn in *.
  - now inversion E.
  - destruct (eval c vh sh st) as [[b c'] s1].
    destruct (eval_all cs vh sh s1) as [[bs1 cs1] s2] eqn:E1.
    inversion E; subst; clear E. cbn in A. apply orb_false_elim in A as [Hb A].
    unfold id in Hb; subst b. now rewrite (IH _ _ _ _ E1 A).
Qed.

(** A loop that does not break evaluates every child; its result is the
    conjunction (disjunction) of what it started with and the results. *)
Lemma and_loop_no_break vh sh cs : forall res st bs cs' st',
  eval_all cs vh sh st = (bs, cs', st') ->
  and_loop (fun c => eval c vh sh) false cs res st = (res && forallb id bs, cs', st').
Proof.
  induction cs as [|c cs IH]; intros res st bs cs' st' E; cbn in *.
  - inversion E; subst. now rewrite andb_true_r.
  - destruct (eval c vh sh st) as [[b c'] s1].
    destruct (eval_all cs vh sh s1) as [[bs1 cs1] s2] eqn:E1.
    inversion E; subst; clear E. cbn.
    destruct b; cbn; rewrite (IH _ _ _ _ _ E1); cbn; try reflexivity.
    now rewrite andb_false_r.
Qed.

Lemma or_loop_no_break vh sh cs : forall res st bs cs' st',
  eval_all cs vh sh st = (bs, cs', st') ->
  or_loop (fun c => eval c vh sh) false cs res st = (res || existsb id bs, cs', st').
Proof.
  induction cs as [|c cs IH]; intros res st bs cs' st' E; cbn in *.
  - inversion E; subst. now rewrite orb_false_r.
  - destruct (eval c vh sh st) as [[b c'] s1].
    destruct (eval_all cs vh sh s1) as [[bs1 cs1] s2] eqn:E1.
    inversion E; subst; clear E. cbn.
    destruct b; cbn; rewrite (IH _ _ _ _ _ E1); cbn; try reflexivity.
    now rewrite orb_true_r.
Qed.

(** A circuit-breaking loop stops at the first child that decides: the
    children before it are evaluated, those after it are left alone. *)
Lemma and_loop_break vh sh pre : forall c post st bs pre' st1 c' st2,
  eval_all pre vh sh st = (bs, pre', st1) ->
  forallb id bs = true ->
  eval c vh sh st1 = (false, c', st2) ->
  and_loop (fun c => eval c vh sh) true (pre ++ c :: post) true st
  = (false, pre' ++ c' :: post, st2).
Proof.
  induction pre as [|p pre IH]; intros c post st bs pre' st1 c' st2 E A Ec; cbn in *.
  - inversion E; subst. now rewrite Ec.
  - destruct (eval p vh sh st) as [[b p'] s1].
    destruct (eval_all pre vh sh s1) as [[bs1 pre1] s2] eqn:E1.
    inversion E; subst; clear E. cbn in A. apply andb_prop in A as [Hb A].
    unfold id in Hb; subst b. cbn. now rewrite (IH _ _ _ _ _ _ _ _ E1 A Ec).
Qed.

Lemma or_loop_break vh sh pre : forall c post st bs pre' st1 c' st2,
  eval_all pre vh sh st = (bs, pre', st1) ->
  existsb id bs = false ->
  eval c vh sh st1 = (true, c', st2) ->
  or_loop (fun c => eval c vh sh) true (pre ++ c :: post) false st
  = (true, pre' ++ c' :: post, st2).
Proof.
  induction pre as [|p pre IH]; intros c post st bs pre' st1 c' st2 E A Ec; cbn in *.
  - inversion E; subst. now rewrite Ec.
  - destruct (eval p vh sh st) as [[b p'] s1].
    destruct (eval_all pre vh sh s1) as [[bs1 pre1] s2] eqn:E1.
    inversion E; subst; clear E. cbn in A. apply orb_false_elim in A as [Hb A].
    unfold id in Hb; subst b. now rewrite (IH _ _ _ _ _ _ _ _ E1 A Ec).
Qed.

(** Whatever the children, a circuit-breaking loop answers as the
    conjunction (disjunction) of all the results would. *)
Lemma and_loop_result cb vh sh cs : forall res st,
  fst (fst (and_loop (fun c => eval c vh sh) cb cs res st))
  = res && forallb id (fst (fst (eval_all cs vh sh st))).
Proof.
  induction cs as [|c cs IH]; intros res st; cbn.
  - now rewrite andb_true_r.
  - destruct (eval c vh sh st) as [[b c'] s1].
    specialize (IH (if b then res else false) s1).
    destruct (eval_all cs vh sh s1) as [[bs1 cs1] s2]. cbn in *.
    destruct b; cbn.
    + destruct (and_loop _ cb cs res s1) as [[r1 cs2] s3]. now cbn in *.
    + rewrite andb_false_r. destruct cb; [reflexivity|].
      destruct (and_loop _ false cs false s1) as [[r1 cs2] s3]. now cbn in *.
Qed.

Lemma or_loop_result cb vh sh cs : forall res st,
  fst (fst (or_loop (fun c => eval c vh sh) cb cs res st))
  = res || existsb id (fst (fst (eval_all cs vh sh st))).
Proof.
  induction cs as [|c cs IH]; intros res st; cbn.
  - now rewrite orb_false_r.
  - destruct (eval c vh sh st) as [[b c'] s1].
    specialize (IH (if b then true else res) s1).
    destruct (eval_all cs vh sh s1) as [[bs1 cs1] s2]. cbn in *.
    destruct b; cbn.
    + rewrite orb_true_r. destruct cb; [reflexivity|].
      destruct (or_loop _ false cs true s1) as [[r1 cs2] s3]. now cbn in *.
    + destruct (or_loop _ cb cs res s1) as [[r1 cs2] s3]. now cbn in *.
Qed.

(** When some child evaluates to false, there is a first one. *)
Lemma first_false vh sh cs : forall st,
  forallb id (fst (fst (eval_all cs vh sh st))) = false ->
  exists pre c post bs pre' st1 c' st2,
    cs = pre ++ c :: post /\
    eval_all pre vh sh st = (bs, pre', st1) /\ forallb id bs = true /\
    eval c vh sh st1 = (false, c', st2).
Proof.
  induction cs as [|c cs IH]; intros st H; cbn in H; [discriminate|].
  destruct (eval c vh sh st) as [[b c'] s1] eqn:Ec.
  destruct (eval_all cs vh sh s1) as [[bs1 cs1] s2] eqn:E1. cbn in H.
  destruct b.
  - cbn in H. destruct (IH s1) as (pre & d & post & bs & pre' & st1 & d' & st2 & -> & Ep & Ab & Ed).
    { now rewrite E1. }
    exists (c :: pre), d, post, (true :: bs), (c' :: pre'), st1, d', st2.
    cbn. rewrite Ec, Ep. auto.
  - exists [], c, cs, [], [], st, c', s1. cbn. auto.
Qed.

Lemma first_true vh sh cs : forall st,
  existsb id (fst (fst (eval_all cs vh sh st))) = true ->
  exists pre c post bs pre' st1 c' st2,
    cs = pre ++ c :: post /\
    eval_all pre vh sh st = (bs, pre', st1) /\ existsb id bs = false /\
    eval c vh sh st1 = (true, c', st2).
Proof.
  induction cs as [|c cs IH]; intros st H; cbn in H; [discriminate|].
  destruct (eval c vh sh st) as [[b c'] s1] eqn:Ec.
  destruct (eval_all cs vh sh s1) as [[bs1 cs1] s2] eqn:E1. cbn in H.
  destruct b.
  - exists [], c, cs, [], [], st, c', s1. cbn. auto.
  - cbn in H. destruct (IH s1) as (pre & d & post & bs & pre' & st1 & d' & st2 & -> & Ep & Ab & Ed).
    { now rewrite E1. }
    exists (c :: pre), d, post, (false :: bs), (c' :: pre'), st1, d', st2.
    cbn. rewrite Ec, Ep. auto.
Qed.

(** C2. With [evaluate_all] as "every child evaluated, left to right":
    - a circuit-breaking [AndNode] whose children all evaluate to true
      evaluates them all and returns true; otherwise it stops at the first
      child that evaluates to false and returns false: the run is the run
      after that child and the children after it are untouched;
    - a circuit-breaking [OrNode] stops in the same way at the first child
      that evaluates to true and returns true, and returns false when all
      evaluate to false;
    - the other two variants evaluate every child and return the
      conjunction ([AndNode]) or the disjunction ([OrNode]) of the results;
    - in every variant the boolean returned is that conjunction or
      disjunction, and when some child decides there is a first one. *)
Theorem and_or_evaluate (r : PyResult) (children : list Node) vh sh st :
  (* circuit-breaking AND *)
  (forall bs cs' st',
      eval_all children vh sh st = (bs, cs', st') -> forallb id bs = true ->
      eval (AndNode r true children) vh sh st
      = (true, AndNode (RBool true) true cs', st'))
  /\ (forall pre c post bs pre' st1 c' st2,
      children = pre ++ c :: post ->
      eval_all pre vh sh st = (bs, pre', st1) -> forallb id bs = true ->
      eval c vh sh st1 = (false, c', st2) ->
      eval (AndNode r true children) vh sh st
      = (false, AndNode (RBool false) true (pre' ++ c' :: post), st2))
  /\ (forallb id (fst (fst (eval_all children vh sh st))) = false ->
      exists pre c post bs pre' st1 c' st2,
        children = pre ++ c :: post /\
        eval_all pre vh sh st = (bs, pre', st1) /\ forallb id bs = true /\
        eval c vh sh st1 = (false, c', st2))
  (* circuit-breaking OR *)
  /\ (forall bs cs' st',
      eval_all children vh sh st = (bs, cs', st') -> existsb id bs = false ->
      eval (OrNode r true children) vh sh st
      = (false, OrNode (RBool false) true cs', st'))
  /\ (forall pre c post bs pre' st1 c' st2,
      children = pre ++ c :: post ->
      eval_all pre vh sh st = (bs, pre', st1) -> existsb id bs = false ->
      eval c vh sh st1 = (true, c', st2) ->
      eval (OrNode r true children) vh sh st
      = (true, OrNode (RBool true) true (pre' ++ c' :: post), st2))
  /\ (existsb id (fst (fst (eval_all children vh sh st))) = true ->
      exists pre c post bs pre' st1 c' st2,
        children = pre ++ c :: post /\
        eval_all pre vh sh st = (bs, pre', st1) /\ existsb id bs = false /\
        eval c vh sh st1 = (true, c', st2))
  (* the variants that do not break *)
  /\ (forall bs cs' st',
      eval_all children vh sh st = (bs, cs', st') ->
      eval (AndNode r false children) vh sh st
      = (forallb id bs, AndNode (RBool (forallb id bs)) false cs', st')
      /\ eval (OrNode r false children) vh sh st
         = (existsb id bs, OrNode (RBool (existsb id bs)) false cs', st'))
  (* the boolean, in all four *)
  /\ (forall cb,
      fst (fst (eval (AndNode r cb children) vh sh st))
      = forallb id (fst (fst (eval_all children vh sh st)))
      /\ fst (fst (eval (OrNode r cb children) vh sh st))
         = existsb id (fst (fst (eval_all children vh sh st)))).
Proof.
  repeat split.
  - intros bs cs' st' E A. rewrite evaluate_and.
    now rewrite (and_loop_all_true true vh sh children st bs cs' st' E A).
  - intros pre c post bs pre' st1 c' st2 -> E A Ec. rewrite evaluate_and.
    now rewrite (and_loop_break vh sh pre c post st bs pre' st1 c' st2 E A Ec).
  - apply first_false.
  - intros bs cs' st' E A. rewrite evaluate_or.
    now rewrite (or_loop_all_false true vh sh children st bs cs' st' E A).
  - intros pre c post bs pre' st1 c' st2 -> E A Ec. rewrite evaluate_or.
    now rewrite (or_loop_break vh sh pre c post st bs pre' st1 c' st2 E A Ec).
  - apply first_true.
  - rewrite evaluate_and. now rewrite (and_loop_no_break vh sh children true st bs cs' st' H).
  - rewrite evaluate_or. now rewrite (or_loop_no_break vh sh children false st bs cs' st' H).
  - rewrite evaluate_and.
    pose proof (and_loop_result cb vh sh children true st) as R.
    destruct (and_loop _ cb children true st) as [[b cs'] s1]. exact R.
  - rewrite evaluate_or.
    pose proof (or_loop_result cb vh sh children false st) as R.
    destruct (or_loop _ cb children false st) as [[b cs'] s1]. exact R.
Qed.

(** C3 (amended). Evaluating an atom calls the executor exactly once, with
    the atom's name and arguments; the boolean returned is true exactly when
    the status code is 0; the node's [result] becomes the status code itself
    (an integer, not the boolean), which is also written to [sys.stderr]. *)
Theorem atom_evaluate (r : PyResult) (name : pystr) (args : list pystr) vh sh st :
  let expected := expected_hash_of name vh sh in
  let code := fst (executor_func name args vh expected (world st)) in
  let w' := snd (executor_func name args vh expected (world st)) in
  eval (ScriptNode r name args) vh sh st
  = (code =? 0,
     ScriptNode (RInt code) name args,
     mkRun w' (calls st ++ [mkCall name args vh expected]) (stderr st ++ [code]))
  /\ (fst (fst (eval (ScriptNode r name args) vh sh st)) = true <-> code = 0).
Proof.
  cbn zeta. cbn [evaluate]. unfold invoke.
  destruct (executor_func name args vh _ (world st)) as [code w'] eqn:E.
  cbn. split; [reflexivity|]. apply Z.eqb_eq.
Qed.

(** C4. A [NotNode] with a child returns the negation of what the child's
    evaluation returns, and the run it leaves is the run the child's
    evaluation leaves (the child is evaluated, with its invocations); its
    cache holds the negation.  A [NotNode] without a child returns false and
    leaves the run, hence the list of invocations, as it was. *)
Theorem not_evaluate (r : PyResult) (child : Node) vh sh st :
  fst (fst (eval (NotNode r (Some child)) vh sh st))
  = negb (fst (fst (eval child vh sh st)))
  /\ snd (eval (NotNode r (Some child)) vh sh st) = snd (eval child vh sh st)
  /\ snd (fst (eval (NotNode r (Some child)) vh sh st))
     = NotNode (RBool (negb (fst (fst (eval child vh sh st)))))
               (Some (snd (fst (eval child vh sh st))))
  /\ eval (NotNode r None) vh sh st = (false, NotNode r None, st).
Proof.
  cbn [evaluate]. destruct (eval child vh sh st) as [[b c'] s1]. cbn. auto.
Qed.

(** C9. An [AndNode] without children evaluates to true and an [OrNode]
    without children to false, circuit-breaking or not, and the run (world,
    invocations, [sys.stderr]) is unchanged. *)
Theorem empty_and_or_evaluate (r : PyResult) (cb : bool) vh sh st :
  eval (AndNode r cb []) vh sh st = (true, AndNode (RBool true) cb [], st)
  /\ eval (OrNode r cb []) vh sh st = (false, OrNode (RBool false) cb [], st).
Proof. split; reflexivity. Qed.

End EvaluationProperties.

(** C2, at an example: [&& [ (A), (B), (A) ]] where [A] succeeds and [B]
    fails stops after [B]; the third child is never invoked. *)
Lemma and_or_evaluate_witness :
  let A := ScriptNode RNone (py "A") [] in
  let B := ScriptNode RNone (py "B") [] in
  let st := mkRun ([] : list pystr) [] [] in
  exists bs pre' st1 B' st2,
    evaluate_all demo_executor [A] false None st = (bs, pre', st1)
    /\ forallb id bs = true
    /\ evaluate demo_executor B false None st1 = (false, B', st2)
    /\ evaluate demo_executor (AndNode RNone true [A; B; A]) false None st
       = (false, AndNode (RBool false) true (pre' ++ B' :: [A]), st2)
    /\ map call_name (calls st2) = [py "A"; py "B"].
Proof.
  cbn zeta. do 5 eexists.
  split; [reflexivity|]. split; [reflexivity|]. split; [reflexivity|].
  split; [|reflexivity].
  eapply (proj1 (proj2 (and_or_evaluate _ demo_executor RNone
                          [ScriptNode RNone (py "A") []; ScriptNode RNone (py "B") [];
                           ScriptNode RNone (py "A") []] false None
                          (mkRun ([] : list pystr) [] [])))
            [ScriptNode RNone (py "A") []] (ScriptNode RNone (py "B") [])
            [ScriptNode RNone (py "A") []] [true]);
    reflexivity.
Defined.

(** C3 as it is written fails: the boolean returned is not what the node
    caches.  When [A] returns status 0, the evaluation returns true and the
    node's [result] is the integer 0. *)
Lemma atom_cache_counterexample :
  ~ (forall (World : Type)
            (executor_func : pystr -> list pystr -> bool -> option pystr -> World -> Z * World)
            r name args vh sh st,
        result_of (snd (fst (evaluate executor_func (ScriptNode r name args) vh sh st)))
        = RBool (fst (fst (evaluate executor_func (ScriptNode r name args) vh sh st)))).
Proof.
  intros H.
  specialize (H _ demo_executor RNone (py "A") [] false None (mkRun [] [] [])).
  cbv in H. discriminate H.
Qed.

(** ** The fingerprint service *)

Section FingerprintProperties.

Variable FS : Type.
Variable calculate_directory_hash : FS -> pystr -> option (list pystr) -> option pystr.

#[local] Abbreviation verify := (verify_directory_hash calculate_directory_hash).

(** C10. With no expected hash, or an empty one, the verification returns
    true and computes no fingerprint; with any other expected hash it
    computes the fingerprint of the directory once and returns true exactly
    when that fingerprint is the expected hash. *)
Theorem verify_directory_hash_spec fs (directory_path : pystr)
        (expected_hash : option pystr) exclude_dirs (log : Computed) :
  ((expected_hash = None \/ expected_hash = Some []) ->
   verify fs directory_path expected_hash exclude_dirs log = (true, log))
  /\ (forall expected, expected_hash = Some expected -> expected <> [] ->
      snd (verify fs directory_path expected_hash exclude_dirs log)
      = log ++ [directory_path]
      /\ (fst (verify fs directory_path expected_hash exclude_dirs log) = true
          <-> calculate_directory_hash fs directory_path exclude_dirs = Some expected)).
Proof.
  split.
  - intros [-> | ->]; reflexivity.
  - intros expected -> Hne. destruct expected as [|c e]; [congruence|].
    cbn [verify_directory_hash].
    destruct (calculate_directory_hash fs directory_path exclude_dirs) as [h|].
    + destruct (pystr_eqb h (c :: e)) eqn:E; cbn; (split; [reflexivity|]).
      * apply pystr_eqb_eq in E. subst. tauto.
      * split; [discriminate|]. intros [= ->]. rewrite pystr_eqb_refl in E. discriminate.
    + cbn. split; [reflexivity|]. split; discriminate.
Qed.

End FingerprintProperties.

(** C10, at an example: in the demo world the fingerprint of [/srv/A] is
    [/srv/A]. *)
Lemma verify_directory_hash_spec_witness :
  verify_directory_hash demo_hash [] (py "/srv/A") None None [] = (true, [])
  /\ snd (verify_directory_hash demo_hash [] (py "/srv/A") (Some (py "/srv/A")) None [])
     = [py "/srv/A"]
  /\ (fst (verify_directory_hash demo_hash [] (py "/srv/A") (Some (py "/srv/A")) None [])
      = true <-> demo_hash [] (py "/srv/A") None = Some (py "/srv/A")).
Proof.
  split.
  - apply (proj1 (verify_directory_hash_spec _ demo_hash [] (py "/srv/A") None None [])).
    left; reflexivity.
  - apply (proj2 (verify_directory_hash_spec _ demo_hash [] (py "/srv/A")
                    (Some (py "/srv/A")) None []) (py "/srv/A")).
    + reflexivity.
    + discriminate.
Defined.

(** ** Pre-flight verification and the driver *)

Section DriverProperties.

Variable World : Type.
Variable os_getcwd : World -> pystr.
Variable os_path_join : pystr -> pystr -> pystr.
Variable os_path_isdir : World -> pystr -> bool.
Variable os_path_exists : World -> pystr -> bool.
Variable calculate_directory_hash : World -> pystr -> option (list pystr) -> option pystr.
Variable PyModule : Type.
Variable exec_module : pystr -> pystr -> World -> Ending (option PyModule) * World.
Variable hasattr : PyModule -> pystr -> bool.
Variable call_function :
  PyModule -> pystr -> list pystr -> World -> Ending bool * World.
Variable list_of_set : list pystr -> list pystr.

(** A list made from a set of names holds the names of the set. *)
Hypothesis list_of_set_In : forall names name,
  In name (list_of_set names) <-> In name names.

#[local] Abbreviation passes :=
  (passes_checks os_getcwd os_path_join os_path_isdir calculate_directory_hash).
#[local] Abbreviation fails :=
  (fails_checks os_getcwd os_path_join os_path_isdir calculate_directory_hash).
#[local] Abbreviation verify_names :=
  (verify_all os_getcwd os_path_join os_path_isdir calculate_directory_hash).
#[local] Abbreviation executor :=
  (dynamic_import_and_run os_getcwd os_path_join os_path_isdir os_path_exists
                          calculate_directory_hash exec_module hasattr call_function).
#[local] Abbreviation driver :=
  (run_driver os_getcwd os_path_join os_path_isdir os_path_exists
              calculate_directory_hash exec_module hasattr call_function list_of_set).

Lemma passes_or_fails registry w name :
  passes registry w name \/ fails registry w name.
Proof.
  unfold passes_checks, fails_checks; cbn zeta.
  destruct (os_path_isdir w _); [|now right; left].
  destruct (dict_get registry name) as [e|]; [|now right; right; left].
  destruct (calculate_directory_hash w _ _) as [h|] eqn:Eh.
  - destruct (list_eq_dec ascii_dec h e) as [->|Hne].
    + left. split; [reflexivity|]. now exists e.
    + right. right. right. congruence.
  - right. right. right. discriminate.
Qed.

Lemma passes_not_fails registry w name :
  passes registry w name -> ~ fails registry w name.
Proof.
  unfold passes_checks, fails_checks; cbn zeta.
  intros (Hd & e & Hr & Hh) [F | [F | F]]; congruence.
Qed.

(** One turn of the pre-flight loop on a name that passes its checks goes
    on to the next name. *)
Lemma verify_all_pass registry w names : forall checked,
  Forall (passes registry w) names ->
  verify_names registry w names checked = (true, checked ++ names).
Proof.
  induction names as [|n names IH]; intros checked HF; cbn.
  - now rewrite app_nil_r.
  - inversion HF as [|? ? (Hd & e & Hr & Hh) HF']; subst.
    cbn zeta in *. rewrite Hd, Hr, Hh, pystr_eqb_refl. cbn.
    rewrite IH by assumption. now rewrite <- app_assoc.
Qed.

(** The loop stops at the first name that fails a check. *)
Lemma verify_all_fail registry w pre : forall name post checked,
  Forall (passes registry w) pre ->
  fails registry w name ->
  verify_names registry w (pre ++ name :: post) checked
  = (false, checked ++ pre ++ [name]).
Proof.
  induction pre as [|p pre IH]; intros name post checked HF Hn; cbn.
  - unfold fails_checks in Hn; cbn zeta in Hn.
    destruct (os_path_isdir w _); [|reflexivity]. cbn.
    destruct (dict_get registry name) as [e|]; [|reflexivity].
    destruct (calculate_directory_hash w _ _) as [h|]; [|reflexivity].
    destruct (pystr_eqb h e) eqn:E; [|reflexivity].
    apply pystr_eqb_eq in E. subst. destruct Hn as [F | [F | F]]; congruence.
  - inversion HF as [|? ? (Hd & e & Hr & Hh) HF']; subst.
    cbn zeta in *. rewrite Hd, Hr, Hh, pystr_eqb_refl. cbn.
    rewrite IH by assumption. now rewrite <- app_assoc.
Qed.

Lemma first_failing registry w names :
  (exists name, In name names /\ fails registry w name) ->
  exists pre name post,
    names = pre ++ name :: post
    /\ Forall (passes registry w) pre /\ fails registry w name.
Proof.
  induction names as [|n names IH]; intros (x & Hin & Hx); [contradiction|].
  destruct (passes_or_fails registry w n) as [Hp | Hf].
  - destruct Hin as [-> | Hin]; [now apply passes_not_fails in Hp|].
    destruct IH as (pre & m & post & -> & HF & Hm); [now exists x|].
    exists (n :: pre), m, post. auto.
  - exists [], n, names. auto.
Qed.

(** The driver on a tree whose names, in the order of the pre-flight loop,
    pass up to a first one that fails. *)
Lemma driver_aborts registry fuel prog log_id expression more w tree pre name post :
  parse_logical_expression fuel expression = Some (Some tree) ->
  list_of_set (collect_script_names_from_tree tree) = pre ++ name :: post ->
  Forall (passes registry w) pre ->
  fails registry w name ->
  driver registry fuel (prog :: log_id :: expression :: more) w
  = Some (mkOutcome 1 (pre ++ [name]) (mkRun w [] [1])).
Proof.
  intros Hparse E HF Hn. unfold run_driver. rewrite Hparse, E.
  rewrite (@verify_all_fail registry w pre name post [] HF Hn). reflexivity.
Qed.

(** C1. When some atom name of the tree fails one of the three checks
    (directory, registry entry, fingerprint), the driver exits with code 1;
    the pre-flight loop has looked at the names up to the first failing one
    in its order and at no name after it; no task was invoked.  A name
    without a registry entry is such a failure ([fails_checks]). *)
Theorem preflight_fail_fast registry fuel prog log_id expression more w tree :
  parse_logical_expression fuel expression = Some (Some tree) ->
  (exists name, In name (collect_script_names_from_tree tree)
                /\ fails registry w name) ->
  exists pre name post,
    list_of_set (collect_script_names_from_tree tree) = pre ++ name :: post
    /\ Forall (passes registry w) pre
    /\ fails registry w name
    /\ driver registry fuel (prog :: log_id :: expression :: more) w
       = Some (mkOutcome 1 (pre ++ [name]) (mkRun w [] [1])).
Proof.
  intros Hparse (x & Hin & Hx).
  destruct (@first_failing registry w (list_of_set (collect_script_names_from_tree tree)))
    as (pre & n & post & E & HF & Hn).
  { exists x. split; [now apply list_of_set_In|assumption]. }
  exists pre, n, post. repeat split; try assumption.
  eapply driver_aborts; eassumption.
Qed.


End DriverProperties.

Lemma demo_list_of_set_In names name :
  In name (demo_list_of_set names) <-> In name names.
Proof.
  unfold demo_list_of_set. rewrite <- in_rev, nodup_In, <- in_rev. tauto.
Qed.

(** C1, at an example: [Z] has no registry entry, so [&& [ (A), (Z) ]] is
    not run at all. *)
Lemma preflight_fail_fast_witness :
  let registry := [(py "A", py "/srv/A")] in
  let expression := py "&& [ (A), (Z) ]" in
  let tree := AndNode RNone true [ScriptNode RNone (py "A") []; ScriptNode RNone (py "Z") []] in
  exists pre name post,
    demo_list_of_set (collect_script_names_from_tree tree) = pre ++ name :: post
    /\ Forall (passes_checks (fun _ : list pystr => py "/srv") demo_join
                             (fun _ _ => true) demo_hash registry []) pre
    /\ fails_checks (fun _ : list pystr => py "/srv") demo_join
                    (fun _ _ => true) demo_hash registry [] name
    /\ demo_driver registry 10 [py "foo.py"; py "7"; expression] []
       = Some (mkOutcome 1 (pre ++ [name]) (mkRun [] [] [1])).
Proof.
  cbn zeta.
  apply (@preflight_fail_fast (list pystr) (fun _ => py "/srv") demo_join
           (fun _ _ => true) (fun _ _ => true) demo_hash demo_module demo_exec_module
           (fun _ _ => true) demo_call demo_list_of_set demo_list_of_set_In
           [(py "A", py "/srv/A")] 10%nat (py "foo.py") (py "7")
           (py "&& [ (A), (Z) ]") [] []).
  - vm_compute. reflexivity.
  - exists (py "Z"). split; [cbn; auto|]. right; left. reflexivity.
Defined.



(** ** The parser does not always answer *)

(** At the inner [[], position 5, [_parse_expression] takes its last
    branch: the recovery loop stops at once, on a character of
    ["()[],&|"], and the position comes back unchanged, with no node. *)
Lemma parse_expression_stuck fuel :
  _parse_expression (S fuel) stuck_expr 5 = Some (None, 5).
Proof. reflexivity. Qed.

(** So the [while] loop of [_parse_operator_children] is at position 5 at
    every turn: whatever the fuel, it does not come to an end. *)
Lemma children_loop_stuck parse_expression :
  (parse_expression stuck_expr 5 = None
   \/ parse_expression stuck_expr 5 = Some (None, 5)) ->
  forall fuel children,
    children_loop parse_expression fuel stuck_expr 5 children = None.
Proof.
  intros Hp. induction fuel as [|fuel IH]; intros children; [reflexivity|].
  cbn [children_loop].
  change ((5 <? len stuck_expr) && negb (is_char stuck_expr 5 "]")) with true.
  change (skip_while (fun c => isspace c || char_eqb c ",") stuck_expr 5) with 5.
  change ((5 <? len stuck_expr) && negb (is_char stuck_expr 5 "]")) with true.
  cbv iota. destruct Hp as [-> | ->]; [reflexivity|]. apply IH.
Qed.

Lemma children_loop_stuck_from_4 parse_expression :
  (parse_expression stuck_expr 5 = None
   \/ parse_expression stuck_expr 5 = Some (None, 5)) ->
  forall fuel, children_loop parse_expression fuel stuck_expr 4 [] = None.
Proof.
  intros Hp [|fuel]; [reflexivity|].
  cbn [children_loop].
  change ((4 <? len stuck_expr) && negb (is_char stuck_expr 4 "]")) with true.
  change (skip_while (fun c => isspace c || char_eqb c ",") stuck_expr 4) with 5.
  change ((5 <? len stuck_expr) && negb (is_char stuck_expr 5 "]")) with true.
  cbv iota. pose proof (children_loop_stuck parse_expression Hp fuel) as L.
  destruct Hp as [-> | ->]; [reflexivity|]. apply L.
Qed.

(** C7 fails on the code: on the balanced expression [&&[[]]] the parser
    gives no answer, however much fuel it is given: the children loop of
    [&&] calls [_parse_expression] at the inner [[] for ever. *)
Theorem parse_does_not_terminate :
  validate_expression_format (py "&&[[]]") = true
  /\ normalize (py "&&[[]]") = py "&& [ [ ] ]"
  /\ forall fuel, parse_logical_expression fuel (py "&&[[]]") = None.
Proof.
  split; [reflexivity|]. split; [reflexivity|].
  intros fuel. unfold parse_logical_expression.
  change (validate_expression_format (py "&&[[]]")) with true.
  change (normalize (py "&&[[]]")) with stuck_expr. cbv beta iota delta [negb].
  destruct fuel as [|fuel]; [reflexivity|].
  cbn [_parse_expression].
  change (skip_while isspace stuck_expr 0) with 0.
  change (0 >=? len stuck_expr) with false.
  change (is_char stuck_expr 0 "!") with false.
  change (pystr_eqb (slice stuck_expr 0 (0 + 2)) (py "&&")) with true.
  cbv iota. unfold _parse_operator_children.
  change (skip_while isspace stuck_expr (0 + 2)) with 3.
  change ((3 <? len stuck_expr) && is_char stuck_expr 3 "[") with true.
  cbv iota. change (3 + 1) with 4.
  rewrite children_loop_stuck_from_4; [reflexivity|].
  destruct fuel; [left; reflexivity|right; apply parse_expression_stuck].
Qed.

(** ** Strings under the cursor *)

Lemma len_app a b : len (a ++ b) = len a + len b.
Proof. unfold len. rewrite length_app. lia. Qed.

Lemma len_cons c s : len (c :: s) = 1 + len s.
Proof. unfold len. cbn [length]. lia. Qed.

Lemma len_nonneg s : 0 <= len s.
Proof. unfold len. lia. Qed.

Lemma skipn_len_app a b : skipn (Z.to_nat (len a)) (a ++ b) = b.
Proof.
  unfold len. rewrite Nat2Z.id, skipn_app, skipn_all, Nat.sub_diag. reflexivity.
Qed.

Lemma At_start expr : At expr 0 expr.
Proof. now exists []. Qed.

Lemma At_step expr pos a rest :
  At expr pos (a ++ rest) -> At expr (pos + len a) rest.
Proof.
  intros (before & -> & ->). exists (before ++ a).
  now rewrite <- app_assoc, len_app.
Qed.

Lemma At_next expr pos c rest :
  At expr pos (c :: rest) -> At expr (pos + 1) rest.
Proof. intros H. now apply (At_step expr pos [c] rest). Qed.

Lemma At_len expr pos rest : At expr pos rest -> len expr = pos + len rest.
Proof. intros (before & -> & ->). apply len_app. Qed.

Lemma At_nonneg expr pos rest : At expr pos rest -> 0 <= pos.
Proof. intros (before & -> & ->). apply len_nonneg. Qed.

Lemma At_skipn expr pos rest :
  At expr pos rest -> skipn (Z.to_nat pos) expr = rest.
Proof. intros (before & -> & ->). apply skipn_len_app. Qed.

Lemma At_char expr pos c rest :
  At expr pos (c :: rest) -> char_at expr pos = Some c.
Proof.
  intros (before & -> & ->). unfold char_at.
  pose proof (len_nonneg before). destruct (len before <? 0) eqn:E; [lia|].
  unfold len. rewrite Nat2Z.id, nth_error_app2, Nat.sub_diag by lia. reflexivity.
Qed.

Lemma At_char_end expr pos : At expr pos [] -> char_at expr pos = None.
Proof.
  intros (before & -> & ->). unfold char_at.
  pose proof (len_nonneg before). destruct (len before <? 0) eqn:E; [lia|].
  unfold len. rewrite Nat2Z.id, app_nil_r. apply nth_error_None. lia.
Qed.

Lemma At_is_char expr pos c rest d :
  At expr pos (c :: rest) -> is_char expr pos d = char_eqb c d.
Proof. intros H. unfold is_char. now rewrite (At_char _ _ _ _ H). Qed.

Lemma At_in_range expr pos c rest :
  At expr pos (c :: rest) -> (pos <? len expr) = true.
Proof.
  intros H. rewrite (At_len _ _ _ H), len_cons. pose proof (len_nonneg rest).
  apply Z.ltb_lt. lia.
Qed.

Lemma At_skip_while p expr pos rest :
  At expr pos rest ->
  skip_while p expr pos = pos + Z.of_nat (run_length p rest).
Proof. intros H. unfold skip_while. now rewrite (At_skipn _ _ _ H). Qed.

Lemma At_find expr pos rest pattern :
  At expr pos rest ->
  find expr pattern pos = match find_offset pattern rest with
                          | Some k => pos + Z.of_nat k
                          | None => -1
                          end.
Proof.
  intros H. unfold find. rewrite (At_skipn _ _ _ H), (At_len _ _ _ H).
  pose proof (len_nonneg rest). destruct (pos + len rest <? pos) eqn:E; [lia|].
  reflexivity.
Qed.

Lemma slice_bound_in expr i : 0 <= i <= len expr -> slice_bound expr i = i.
Proof. intros H. unfold slice_bound. destruct (i <? 0) eqn:E; lia. Qed.

Lemma At_slice expr pos a rest :
  At expr pos (a ++ rest) -> slice expr pos (pos + len a) = a.
Proof.
  intros H. pose proof (At_len _ _ _ H) as L. rewrite len_app in L.
  pose proof (At_nonneg _ _ _ H). pose proof (len_nonneg a). pose proof (len_nonneg rest).
  unfold slice. rewrite !slice_bound_in by lia. rewrite (At_skipn _ _ _ H).
  replace (pos + len a - pos) with (len a) by lia.
  unfold len. rewrite Nat2Z.id, firstn_app, firstn_all, Nat.sub_diag. cbn.
  apply app_nil_r.
Qed.

(** A slice that would run past the end stops at the end. *)
Lemma At_slice_short expr pos rest n :
  At expr pos rest -> len rest <= n -> slice expr pos (pos + n) = rest.
Proof.
  intros H Hn. pose proof (At_len _ _ _ H) as L.
  pose proof (At_nonneg _ _ _ H). pose proof (len_nonneg rest).
  unfold slice. rewrite (slice_bound_in expr pos) by lia.
  unfold slice_bound. destruct (pos + n <? 0) eqn:E; [lia|].
  rewrite (At_skipn _ _ _ H). apply firstn_all2. unfold len in *. lia.
Qed.

Lemma run_length_all p a rest :
  Forall (fun c => p c = true) a ->
  run_length p (a ++ rest) = (length a + run_length p rest)%nat.
Proof.
  induction 1 as [|c a Hc _ IH]; [reflexivity|]. cbn. now rewrite Hc, IH.
Qed.

Lemma run_length_stop p c rest : p c = false -> run_length p (c :: rest) = O.
Proof. intros H. cbn. now rewrite H. Qed.

Lemma char_eqb_refl c : char_eqb c c = true.
Proof. unfold char_eqb. now destruct (ascii_dec c c). Qed.

Lemma char_eqb_eq a b : char_eqb a b = true <-> a = b.
Proof. unfold char_eqb. destruct (ascii_dec a b); split; congruence. Qed.

Lemma char_eqb_neq a b : char_eqb a b = false <-> a <> b.
Proof. unfold char_eqb. destruct (ascii_dec a b); split; congruence. Qed.

(** The first occurrence of a character that the text before it avoids. *)
Lemma find_offset_char x a rest :
  Forall (fun c => c <> x) a ->
  find_offset [x] (a ++ x :: rest) = Some (length a).
Proof.
  induction 1 as [|c a Hc _ IH]; cbn.
  - now rewrite char_eqb_refl.
  - replace (char_eqb x c) with false by (symmetry; apply char_eqb_neq; congruence).
    cbn. now rewrite IH.
Qed.

Lemma find_offset_none x a :
  Forall (fun c => c <> x) a -> find_offset [x] a = None.
Proof.
  induction 1 as [|c a Hc _ IH]; cbn; [reflexivity|].
  replace (char_eqb x c) with false by (symmetry; apply char_eqb_neq; congruence).
  cbn. now rewrite IH.
Qed.

(** ** The fuel of the pre-check loop *)

Lemma find_from expr pattern start :
  find expr pattern start = -1 \/ start <= find expr pattern start.
Proof.
  unfold find. destruct (len expr <? start); [now left|].
  destruct (find_offset pattern _); [right; lia|now left].
Qed.

(** Once the fuel covers what is left of the expression, more fuel changes
    nothing: the loop of the pre-check has come to its end. *)
Lemma check_operator_fuel expression op :
  op <> [] ->
  forall fuel i,
    len expression - i <= Z.of_nat fuel ->
    check_operator (S fuel) expression op i = check_operator fuel expression op i.
Proof.
  intros Hop. assert (Hlen : 1 <= len op).
  { destruct op; [congruence|]. rewrite len_cons. pose proof (len_nonneg op). lia. }
  induction fuel as [|fuel IH]; intros i Hi.
  - cbn [check_operator]. replace (i <? len expression) with false; [reflexivity|].
    symmetry. apply Z.ltb_ge. lia.
  - remember (S fuel) as n eqn:En. cbn [check_operator]. subst n.
    destruct (i <? len expression) eqn:Ein.
    2:{ cbn [check_operator]. now rewrite Ein. }
    cbn [check_operator]. rewrite Ein.
    destruct (find_from expression op i) as [E | Hge].
    + rewrite E. reflexivity.
    + destruct (find expression op i =? -1); [reflexivity|].
      destruct (_ && _ && _).
      * apply IH. lia.
      * destruct (_ || _); [reflexivity|]. apply IH. lia.
Qed.

(** ** The fuel of the parser *)

Lemma children_loop_more P P' :
  extends P P' ->
  forall fuel expr pos children r,
    children_loop P fuel expr pos children = Some r ->
    children_loop P' (S fuel) expr pos children = Some r.
Proof.
  intros HP. induction fuel as [|fuel IH]; intros expr pos children r H; [discriminate|].
  remember (S fuel) as n eqn:En. cbn [children_loop]. subst n.
  cbn [children_loop] in H.
  destruct (_ && _); [|exact H].
  destruct (_ && _); [|exact H].
  destruct (P expr _) as [[child pos']|] eqn:E; [|discriminate].
  rewrite (HP _ _ _ E). now apply IH.
Qed.

Lemma parse_operator_children_more P P' :
  extends P P' ->
  forall fuel expr pos r,
    _parse_operator_children P fuel expr pos = Some r ->
    _parse_operator_children P' (S fuel) expr pos = Some r.
Proof.
  intros HP fuel expr pos r H. unfold _parse_operator_children in *.
  destruct (_ && _); [|exact H].
  destruct (children_loop P fuel expr _ []) as [[children pos']|] eqn:E; [|discriminate].
  now rewrite (children_loop_more P P' HP _ _ _ _ _ E).
Qed.

(** An answer of the parser does not depend on the fuel it was given: with
    more fuel the answer is the same. *)
Lemma parse_expression_more fuel :
  extends (_parse_expression fuel) (_parse_expression (S fuel)).
Proof.
  induction fuel as [|fuel IH]; intros expr pos r H; [discriminate|].
  remember (S fuel) as n eqn:En. cbn [_parse_expression]. subst n.
  cbn [_parse_expression] in H.
  repeat match type of H with
         | (if ?c then _ else _) = _ => destruct c
         | match _parse_expression fuel ?e ?p with _ => _ end = _ =>
             let E := fresh "E" in
             destruct (_parse_expression fuel e p) as [[? ?]|] eqn:E;
             [rewrite (IH _ _ _ E)|discriminate]
         | match _parse_operator_children _ fuel ?e ?p with _ => _ end = _ =>
             let E := fresh "E" in
             destruct (_parse_operator_children (_parse_expression fuel) fuel e p)
               as [[? ?]|] eqn:E;
             [rewrite (parse_operator_children_more _ _ IH _ _ _ _ E)|discriminate]
         end; exact H.
Qed.

Lemma parse_logical_expression_more fuel expression r :
  parse_logical_expression fuel expression = Some r ->
  parse_logical_expression (S fuel) expression = Some r.
Proof.
  unfold parse_logical_expression. destruct (negb _); [auto|].
  destruct (_parse_expression fuel _ 0) as [[node pos]|] eqn:E; [|discriminate].
  now rewrite (parse_expression_more fuel _ _ _ E).
Qed.

(** ** The argument list of an atom *)

Lemma lstrip_nonspace c s : isspace c = false -> lstrip (c :: s) = c :: s.
Proof. intros H. cbn. now rewrite H. Qed.

(** [strip] leaves a text alone when its first and last characters are not
    white space. *)
Lemma strip_fixed c mid d :
  isspace c = false -> isspace d = false ->
  strip (c :: mid ++ [d]) = c :: mid ++ [d].
Proof.
  intros Hc Hd. unfold strip, rstrip. rewrite (lstrip_nonspace _ _ Hc).
  change (c :: mid ++ [d]) with ((c :: mid) ++ [d]).
  rewrite rev_unit, (lstrip_nonspace _ _ Hd).
  cbn [rev]. rewrite rev_app_distr, rev_involutive. reflexivity.
Qed.

Lemma strip_single c : isspace c = false -> strip [c] = [c].
Proof. intros H. unfold strip, rstrip. cbn. rewrite H. cbn. now rewrite H. Qed.

Lemma strip_nil : strip [] = [].
Proof. reflexivity. Qed.

(** A non-empty text without white space is of one of the two shapes. *)
Lemma nonspace_shape s :
  s <> [] -> Forall (fun c => isspace c = false) s ->
  (exists c, s = [c] /\ isspace c = false)
  \/ (exists c mid d, s = c :: mid ++ [d] /\ isspace c = false /\ isspace d = false).
Proof.
  intros Hne HF. destruct s as [|c s]; [congruence|].
  inversion HF as [|? ? Hc HF']; subst.
  destruct s as [|c' s'].
  - left. now exists c.
  - destruct (exists_last (l := c' :: s')) as (init & d & E); [discriminate|].
    right. exists c, init, d. rewrite E in *. split; [reflexivity|]. split; [assumption|].
    rewrite Forall_forall in HF'. apply HF'. apply in_or_app. right. now left.
Qed.

Lemma strip_nonspace s :
  Forall (fun c => isspace c = false) s -> strip s = s.
Proof.
  intros HF. destruct s as [|c s]; [reflexivity|].
  destruct (nonspace_shape (c :: s)) as [(x & -> & Hx) | (x & mid & d & -> & Hx & Hd)];
    [discriminate|assumption|now apply strip_single|now apply strip_fixed].
Qed.

Lemma isspace_dquote : isspace dquote = false.
Proof. reflexivity. Qed.

Lemma len_quoted v : len (dquote :: v ++ [dquote]) = len v + 2.
Proof. rewrite len_cons, len_app. change (len [dquote]) with 1. lia. Qed.

(** What stands between two quotes is the argument. *)
Lemma finish_arg_quoted v : finish_arg ([dquote] ++ v ++ [dquote]) = v.
Proof.
  unfold finish_arg. cbn [app].
  rewrite (strip_fixed dquote v dquote isspace_dquote isspace_dquote).
  pose proof (len_quoted v) as L. pose proof (len_nonneg v) as N.
  replace (starts_with [dquote] (dquote :: v ++ [dquote])) with true by reflexivity.
  replace (starts_with [dquote] (rev (dquote :: v ++ [dquote]))) with true.
  2:{ change (dquote :: v ++ [dquote]) with ((dquote :: v) ++ [dquote]).
      rewrite rev_unit. reflexivity. }
  replace (2 <=? len (dquote :: v ++ [dquote])) with true
    by (symmetry; apply Z.leb_le; lia).
  cbn [andb]. unfold slice.
  rewrite (slice_bound_in _ 1) by lia.
  replace (slice_bound (dquote :: v ++ [dquote]) (-1)) with (len v + 1).
  2:{ unfold slice_bound. change (-1 <? 0) with true. cbv iota. lia. }
  replace (len v + 1 - 1) with (len v) by lia.
  change (skipn (Z.to_nat 1) (dquote :: v ++ [dquote])) with (v ++ [dquote]).
  unfold len. rewrite Nat2Z.id, firstn_app, firstn_all, Nat.sub_diag. cbn.
  apply app_nil_r.
Qed.

Lemma finish_arg_bare b :
  Forall (fun c => bare_char c = true) b -> finish_arg b = b.
Proof.
  intros HF. unfold finish_arg. rewrite strip_nonspace.
  - destruct b as [|c b]; [reflexivity|]. inversion HF as [|? ? Hc _]; subst.
    unfold bare_char in Hc. cbn [starts_with].
    destruct (char_eqb dquote c) eqn:E; [|reflexivity].
    apply char_eqb_eq in E. subst c. discriminate Hc.
  - eapply Forall_impl; [|exact HF]. intros c Hc. unfold bare_char in Hc.
    now destruct (isspace c).
Qed.

(** Inside quotes the loop undoes [escape], up to the closing quote. *)
Lemma args_loop_escaped v : forall rest current_arg args,
  args_loop (escape v ++ dquote :: rest) current_arg true args
  = args_loop rest (current_arg ++ v ++ [dquote]) false args.
Proof.
  induction v as [|c v IH]; intros rest cur args.
  - reflexivity.
  - cbn [escape]. destruct (char_eqb c dquote || char_eqb c backslash) eqn:E.
    + cbn [app args_loop]. rewrite char_eqb_refl.
      rewrite IH. now rewrite <- app_assoc.
    + apply orb_false_elim in E as [Eq Eb].
      cbn [app args_loop]. rewrite Eb, Eq. rewrite andb_false_r.
      rewrite IH. now rewrite <- app_assoc.
Qed.

(** Outside quotes the characters of a bare token are appended as they are. *)
Lemma args_loop_bare b : forall rest current_arg args,
  Forall (fun c => bare_char c = true) b ->
  args_loop (b ++ rest) current_arg false args
  = args_loop rest (current_arg ++ b) false args.
Proof.
  induction b as [|c b IH]; intros rest cur args HF.
  - now rewrite app_nil_r.
  - inversion HF as [|? ? Hc HF']; subst. unfold bare_char in Hc.
    apply andb_prop in Hc as [Hc H4]. apply andb_prop in Hc as [Hc H3].
    apply andb_prop in Hc as [H1 H2]. apply negb_true_iff in H2, H3, H4.
    cbn [app args_loop]. rewrite H3, H2, H4. cbn [andb].
    rewrite IH by assumption. now rewrite <- app_assoc.
Qed.

Lemma args_loop_token t rest args :
  token_ok t ->
  args_loop (token_text t ++ rest) [] false args
  = args_loop rest (token_raw t) false args.
Proof.
  destruct t as [b|v]; intros Hok.
  - destruct Hok as [_ HF]. now rewrite args_loop_bare.
  - cbn [token_text token_raw]. rewrite <- !app_assoc.
    cbn [app args_loop]. change (char_eqb dquote backslash) with false.
    rewrite char_eqb_refl. cbv iota. cbn [negb].
    now rewrite args_loop_escaped.
Qed.

Lemma finish_arg_token t : token_ok t -> finish_arg (token_raw t) = token_value t.
Proof.
  destruct t as [b|v]; intros Hok.
  - destruct Hok as [_ HF]. now apply finish_arg_bare.
  - apply finish_arg_quoted.
Qed.

Lemma token_raw_nonempty t : token_ok t -> token_raw t <> [].
Proof. destruct t as [b|v]; cbn; [tauto|discriminate]. Qed.

Lemma token_text_nonempty t : token_ok t -> token_text t <> [].
Proof. destruct t as [b|v]; cbn; [tauto|discriminate]. Qed.

Lemma join_cons sep p q rest :
  join sep (p :: q :: rest) = p ++ sep ++ join sep (q :: rest).
Proof. reflexivity. Qed.

(** The loop on a list of tokens separated by commas: every token but the
    last has become an argument, the last one is in [current_arg]. *)
Lemma args_loop_tokens init : forall final args,
  Forall token_ok (init ++ [final]) ->
  args_loop (join (py ",") (map token_text (init ++ [final]))) [] false args
  = (args ++ map token_value init, token_raw final).
Proof.
  induction init as [|t init IH]; intros final args HF.
  - inversion HF; subst. cbn [app map join].
    rewrite <- (app_nil_r (token_text final)), args_loop_token by assumption.
    cbn. now rewrite app_nil_r.
  - inversion HF as [|? ? Ht HF']; subst.
    cbn [app map]. destruct (map token_text (init ++ [final])) as [|p ps] eqn:E.
    { destruct init; discriminate E. }
    rewrite join_cons, args_loop_token by assumption.
    cbn [py list_ascii_of_string app args_loop].
    change (char_eqb "," backslash) with false.
    change (char_eqb "," dquote) with false.
    rewrite char_eqb_refl. cbn [andb negb].
    rewrite <- E, IH by assumption. rewrite finish_arg_token by assumption.
    now rewrite <- app_assoc.
Qed.

(** The argument list read from tokens separated by commas holds the value
    of each token, in order. *)
Lemma parse_args_tokens tokens :
  Forall token_ok tokens ->
  parse_args (join (py ",") (map token_text tokens)) = map token_value tokens.
Proof.
  intros HF. destruct tokens as [|t tokens]; [reflexivity|].
  destruct (exists_last (l := t :: tokens)) as (init & final & E); [discriminate|].
  rewrite E in *. clear E t tokens.
  assert (Hf : token_ok final).
  { rewrite Forall_forall in HF. apply HF. apply in_or_app. right. now left. }
  unfold parse_args.
  destruct (join (py ",") (map token_text (init ++ [final]))) as [|c s] eqn:E.
  - exfalso. destruct init as [|t init]; cbn [app map join] in E.
    + now apply token_text_nonempty in E.
    + destruct (map token_text (init ++ [final])) eqn:E'.
      * destruct init; discriminate E'.
      * inversion HF as [|? ? Ht _]; subst. apply app_eq_nil in E as [E _].
        now apply token_text_nonempty in E.
  - rewrite <- E, args_loop_tokens by assumption.
    destruct (token_raw final) as [|r raw] eqn:R.
    + now apply token_raw_nonempty in R.
    + rewrite <- R, finish_arg_token by assumption. now rewrite map_app.
Qed.

Lemma head_nonspace_app a b : head_nonspace a -> head_nonspace (a ++ b).
Proof. destruct a; [contradiction|auto]. Qed.

Lemma strip_head_nonspace s :
  head_nonspace s -> head_nonspace (rev s) -> strip s = s.
Proof.
  intros H1 H2. unfold strip, rstrip.
  destruct s as [|c s]; [contradiction|]. rewrite (lstrip_nonspace _ _ H1).
  destruct (rev (c :: s)) as [|d r] eqn:E; [contradiction|].
  rewrite (lstrip_nonspace _ _ H2), <- E. apply rev_involutive.
Qed.

Lemma token_text_head t : token_ok t -> head_nonspace (token_text t).
Proof.
  destruct t as [b|v]; cbn; [|reflexivity].
  intros [Hne HF]. destruct b as [|c b]; [congruence|].
  inversion HF as [|? ? Hc _]; subst. unfold bare_char in Hc. cbn.
  destruct (isspace c); [discriminate Hc|reflexivity].
Qed.

Lemma token_text_last t : token_ok t -> head_nonspace (rev (token_text t)).
Proof.
  destruct t as [b|v]; cbn [token_text token_ok].
  - intros [Hne HF]. destruct (rev b) as [|c r] eqn:E.
    + apply (f_equal (@rev _)) in E. rewrite rev_involutive in E. now cbn in E.
    + cbn. rewrite Forall_forall in HF. specialize (HF c).
      unfold bare_char in HF. destruct (isspace c); [|reflexivity].
      discriminate HF. apply in_rev. rewrite E. now left.
  - intros _. rewrite !rev_app_distr. reflexivity.
Qed.

Lemma join_first sep p ps : exists post, join sep (p :: ps) = p ++ post.
Proof.
  destruct ps as [|q ps]; [exists []; cbn; symmetry; apply app_nil_r|].
  eexists. apply join_cons.
Qed.

Lemma join_final sep init : forall final,
  exists pre, join sep (init ++ [final]) = pre ++ final.
Proof.
  induction init as [|p init IH]; intros final; [now exists []|].
  destruct (IH final) as (pre & E). cbn [app].
  destruct (init ++ [final]) as [|q qs] eqn:E'; [destruct init; discriminate|].
  exists (p ++ sep ++ pre). rewrite join_cons, E. now rewrite <- !app_assoc.
Qed.

(** [strip] leaves the text of a token list alone. *)
Lemma strip_tokens tokens :
  Forall token_ok tokens ->
  strip (join (py ",") (map token_text tokens)) = join (py ",") (map token_text tokens).
Proof.
  intros HF. destruct tokens as [|t tokens]; [reflexivity|].
  apply strip_head_nonspace.
  - cbn [map]. destruct (join_first (py ",") (token_text t) (map token_text tokens)) as (post & ->).
    apply head_nonspace_app, token_text_head. now inversion HF.
  - destruct (exists_last (l := t :: tokens)) as (init & final & E); [discriminate|].
    rewrite E in *. rewrite map_app. cbn [map].
    destruct (join_final (py ",") (map token_text init) (token_text final)) as (pre & ->).
    rewrite rev_app_distr. apply head_nonspace_app, token_text_last.
    rewrite Forall_forall in HF. apply HF, in_or_app. right. now left.
Qed.

Lemma Forall_join (P : ascii -> Prop) sep parts :
  Forall P sep -> Forall (Forall P) parts -> Forall P (join sep parts).
Proof.
  intros Hs. induction 1 as [|p ps Hp Hps IH]; [constructor|].
  destruct ps as [|q ps]; [assumption|].
  rewrite join_cons. apply Forall_app. split; [assumption|].
  apply Forall_app. split; assumption.
Qed.

(** [_parse_script_node] on an atom with a name and a list of argument
    tokens. *)
Lemma parse_script_node_tokens before name tokens after :
  Forall (fun c => c <> ":"%char /\ c <> ")"%char) name ->
  Forall token_ok tokens ->
  Forall (fun t => Forall (fun c => c <> ")"%char) (token_text t)) tokens ->
  let args_str := join (py ",") (map token_text tokens) in
  _parse_script_node
    (before ++ py "(" ++ name ++ py ":" ++ args_str ++ py ")" ++ after) (len before)
  = (ScriptNode RNone (strip name) (map token_value tokens),
     len before + len name + len args_str + 3).
Proof.
  intros Hname Hok Hclose args_str.
  set (expr := before ++ _).
  assert (A0 : At expr (len before)
                  (py "(" ++ name ++ py ":" ++ args_str ++ py ")" ++ after))
    by (now exists before).
  apply At_step in A0. change (len (py "(")) with 1 in A0.
  assert (Hargs : Forall (fun c => c <> ")"%char) args_str).
  { apply Forall_join; [repeat constructor; discriminate|].
    apply Forall_map. exact Hclose. }
  unfold _parse_script_node.
  rewrite (At_find _ _ _ (py ":") A0), (At_find _ _ _ (py ")") A0).
  change (py ":") with [":"%char]. change (py ")") with [")"%char]. cbn [app].
  rewrite find_offset_char
    by (eapply Forall_impl; [|exact Hname]; cbn; tauto).
  replace (name ++ ":"%char :: args_str ++ ")"%char :: after)
    with ((name ++ ":"%char :: args_str) ++ ")"%char :: after)
    by (now rewrite <- app_assoc).
  rewrite find_offset_char.
  2:{ apply Forall_app. split.
      - eapply Forall_impl; [|exact Hname]; cbn; tauto.
      - constructor; [discriminate|assumption]. }
  rewrite length_app. cbn [length].
  pose proof (len_nonneg before). pose proof (len_nonneg name).
  pose proof (len_nonneg args_str).
  fold (len name). unfold len in *.
  match goal with
  | |- (if negb (?a =? -1) && (?a <? ?b) then _ else _) = _ =>
      replace (negb (a =? -1) && (a <? b)) with true
        by (symmetry; apply andb_true_intro; split;
            [apply negb_true_iff, Z.eqb_neq|apply Z.ltb_lt]; lia)
  end.
  fold (len name) (len before) (len args_str) in *.
  pose proof (At_slice _ _ name _ A0) as S1. rewrite S1.
  apply (At_step _ _ name) in A0. apply (At_next _ _ ":"%char) in A0.
  replace (len before + 1 + len name + 1) with (len before + 1 + len name + 1) in A0 by lia.
  pose proof (At_slice _ _ args_str _ A0) as S2.
  replace (len before + 1 + Z.of_nat (length name + S (length args_str)))
    with (len before + 1 + len name + 1 + len args_str)
    by (unfold len; lia).
  rewrite S2. unfold args_str.
  rewrite strip_tokens, parse_args_tokens by assumption.
  f_equal. lia.
Qed.

(** X29. The argument loop by itself, on an argument text that it is
    given as the user wrote it: tokens separated by commas, where a double-quoted
    token gives one argument, the text between its quotes with every
    backslash-escaped character taken as it is (commas between the quotes do
    not separate, the quotes themselves are dropped), and a bare token gives
    itself.  The same for [_parse_script_node] on an atom whose name has no
    colon and whose text has no closing parenthesis before the final one.
    In particular, from the argument text ["x,y",z] the loop makes the two
    arguments [x,y] and [z]. *)
Theorem atom_arguments before name tokens after :
  Forall (fun c => c <> ":"%char /\ c <> ")"%char) name ->
  Forall token_ok tokens ->
  Forall (fun t => Forall (fun c => c <> ")"%char) (token_text t)) tokens ->
  let args_str := join (py ",") (map token_text tokens) in
  parse_args args_str = map token_value tokens
  /\ _parse_script_node
       (before ++ py "(" ++ name ++ py ":" ++ args_str ++ py ")" ++ after) (len before)
     = (ScriptNode RNone (strip name) (map token_value tokens),
        len before + len name + len args_str + 3)
  /\ parse_args ([dquote] ++ py "x,y" ++ [dquote] ++ py ",z") = [py "x,y"; py "z"].
Proof.
  intros Hname Hok Hclose args_str. split; [|split].
  - now apply parse_args_tokens.
  - now apply parse_script_node_tokens.
  - reflexivity.
Qed.

(** An example: an atom [A] with two arguments, the first one quoted, with
    a comma and an escaped quote in it, the second one bare. *)
Lemma atom_arguments_example :
  let tokens := [Quoted (py "x,y" ++ [dquote]); Bare (py "z")] in
  join (py ",") (map token_text tokens)
  = [dquote] ++ py "x,y\" ++ [dquote; dquote] ++ py ",z"
  /\ _parse_script_node
       (py "(A:" ++ [dquote] ++ py "x,y\" ++ [dquote; dquote] ++ py ",z)") 0
     = (ScriptNode RNone (py "A") [py "x,y" ++ [dquote]; py "z"], 13).
Proof.
  cbn zeta. split; [reflexivity|].
  apply (proj1 (proj2 (atom_arguments [] (py "A")
                         [Quoted (py "x,y" ++ [dquote]); Bare (py "z")] []
                         ltac:(repeat constructor; discriminate)
                         ltac:(repeat constructor; discriminate)
                         ltac:(repeat constructor; discriminate)))).
Defined.

(** C8 fails on the code.  An expression reaches the argument loop only
    through [parse_logical_expression], which first rewrites every comma of
    the expression, with the white space around it, as a comma and a space;
    the commas between quotes are not spared.  So the atom [(A:"x,y",z)] of
    the usage text gets the two arguments [x, y] and [z]: the comma between
    the quotes does not separate, but the argument is not the text that was
    between the quotes. *)
Theorem quoted_comma_after_normalize fuel :
  parse_logical_expression (S fuel)
    (py "(A:" ++ [dquote] ++ py "x,y" ++ [dquote] ++ py ",z)")
  = Some (Some (ScriptNode RNone (py "A") [py "x, y"; py "z"])).
Proof. reflexivity. Qed.
(** ** Normalization on tokens *)

Lemma re_sub_skip match_at repl a : forall s,
  re_sub match_at repl (length a) (a ++ s) = re_sub match_at repl O s.
Proof.
  induction a as [|c a IH]; intros s; [reflexivity|].
  cbn [length app re_sub]. apply IH.
Qed.

(** A step of [re.sub] where the pattern matches: the match is replaced
    and passed over. *)
Lemma re_sub_match match_at repl m s :
  m <> [] -> match_at (m ++ s) = Some (length m) ->
  re_sub match_at repl O (m ++ s) = repl ++ re_sub match_at repl O s.
Proof.
  intros Hm E. destruct m as [|c m]; [congruence|].
  cbn [app re_sub]. cbn [app] in E. rewrite E. cbn [length].
  now rewrite re_sub_skip.
Qed.

(** A step where it does not: the character is copied. *)
Lemma re_sub_copy match_at repl c s :
  match_at (c :: s) = None ->
  re_sub match_at repl O (c :: s) = c :: re_sub match_at repl O s.
Proof. intros E. cbn [re_sub]. now rewrite E. Qed.

Lemma skipn_run_length p a s :
  Forall (fun c => p c = true) a -> skipn (run_length p (a ++ s)) (a ++ s)
                                    = skipn (run_length p s) s.
Proof. induction 1 as [|c a Hc _ IH]; [reflexivity|]. cbn. now rewrite Hc. Qed.

Lemma run_length_stops p s : stops p s -> run_length p s = O.
Proof. destruct s as [|c s]; cbn; [reflexivity|]. now intros ->. Qed.

Lemma run_length_gap p a s :
  Forall (fun c => p c = true) a -> stops p s ->
  run_length p (a ++ s) = length a.
Proof.
  intros Ha Hs. rewrite run_length_all by assumption.
  rewrite run_length_stops by assumption. lia.
Qed.

Section Around.

Variable X : ascii.
Variables l r : pystr.
Hypothesis X_nonspace : isspace X = false.

#[local] Abbreviation sub := (re_sub (match_around X) (l ++ X :: r) O).

(** White space that does not lead to [X] is copied. *)
Lemma sub_gap_copy gap c s :
  Forall (fun c => isspace c = true) gap -> isspace c = false -> c <> X ->
  sub (gap ++ c :: s) = gap ++ sub (c :: s).
Proof.
  intros Hg Hc Hx. induction Hg as [|d gap Hd Hg IH]; [reflexivity|].
  cbn [app]. rewrite (re_sub_copy _ _ d (gap ++ c :: s)); [now rewrite IH|].
  unfold match_around. change (d :: gap ++ c :: s) with ((d :: gap) ++ c :: s).
  rewrite skipn_run_length by (constructor; assumption).
  rewrite run_length_stop by assumption. cbn [skipn].
  replace (char_eqb c X) with false by (symmetry; now apply char_eqb_neq).
  reflexivity.
Qed.

Lemma sub_gap_end gap :
  Forall (fun c => isspace c = true) gap -> sub gap = gap.
Proof.
  intros Hg. induction Hg as [|d gap Hd Hg IH]; [reflexivity|].
  rewrite re_sub_copy; [now rewrite IH|].
  unfold match_around. rewrite <- (app_nil_r (d :: gap)).
  rewrite skipn_run_length by (constructor; assumption). reflexivity.
Qed.

(** A character that is neither white space nor [X] is copied. *)
Lemma sub_char_copy c s :
  isspace c = false -> c <> X -> sub (c :: s) = c :: sub s.
Proof.
  intros Hc Hx. apply re_sub_copy. unfold match_around.
  rewrite run_length_stop by assumption. cbn [skipn].
  replace (char_eqb c X) with false by (symmetry; now apply char_eqb_neq).
  reflexivity.
Qed.

Lemma sub_word_copy w s :
  Forall (fun c => isspace c = false /\ c <> X) w -> sub (w ++ s) = w ++ sub s.
Proof.
  induction 1 as [|c w [Hc Hx] _ IH]; [reflexivity|].
  cbn [app]. rewrite sub_char_copy by assumption. now rewrite IH.
Qed.

(** White space, [X], white space: replaced as a whole. *)
Lemma sub_around gap gap' s :
  Forall (fun c => isspace c = true) gap ->
  Forall (fun c => isspace c = true) gap' ->
  stops isspace s ->
  sub (gap ++ X :: gap' ++ s) = (l ++ X :: r) ++ sub s.
Proof.
  intros Hg Hg' Hs.
  replace (gap ++ X :: gap' ++ s) with ((gap ++ X :: gap') ++ s)
    by (now rewrite <- app_assoc).
  rewrite re_sub_match.
  - reflexivity.
  - destruct gap; discriminate.
  - unfold match_around. rewrite <- app_assoc. cbn [app].
    rewrite skipn_run_length by assumption.
    rewrite run_length_gap by (cbn; assumption).
    rewrite run_length_stop by assumption. cbn [skipn].
    rewrite char_eqb_refl, run_length_gap by assumption.
    f_equal. rewrite length_app. cbn [length]. lia.
Qed.

Hypothesis X_five : existsb (char_eqb X) (py "[](),") = true.
Hypothesis l_white : white l.
Hypothesis r_white : white r.

Lemma tok_is_X t : is_tok X t = true -> tok_text t = [X].
Proof. destruct t; cbn; try apply pystr_eqb_eq. discriminate. Qed.

Lemma word_char_not_X c : word_char c = true -> isspace c = false /\ c <> X.
Proof.
  unfold word_char. intros H. apply andb_prop in H as [H1 H2].
  apply negb_true_iff in H1, H2. split; [assumption|]. intros ->. congruence.
Qed.

Lemma tok_not_X t :
  tok_ok t -> is_tok X t = false ->
  exists c w, tok_text t = c :: w
              /\ Forall (fun c => isspace c = false /\ c <> X) (c :: w).
Proof.
  intros Hok Hx.
  destruct t; cbn in Hx |- *;
    try (eexists _, []; split; [reflexivity|]; constructor; [|constructor];
         split; [reflexivity|]; intros <-; now rewrite pystr_eqb_refl in Hx).
  destruct Hok as [Hne HF]. destruct w as [|c w]; [congruence|].
  exists c, w. split; [reflexivity|].
  eapply Forall_impl; [|exact HF]. apply word_char_not_X.
Qed.

Lemma tok_text_stops t s : tok_ok t -> stops isspace (tok_text t ++ s).
Proof.
  destruct t; cbn; try reflexivity.
  intros [Hne HF]. destruct w as [|c w]; [congruence|]. cbn.
  inversion HF as [|? ? Hc _]; subst. unfold word_char in Hc.
  now destruct (isspace c).
Qed.

Lemma render_split items trailing :
  render items trailing = lead_gap items trailing ++ drop_gap items trailing.
Proof. destruct items as [|[g t] rest]; cbn; [now rewrite app_nil_r|reflexivity]. Qed.

Lemma drop_gap_stops items trailing :
  gaps_ok items -> stops isspace (drop_gap items trailing).
Proof.
  destruct items as [|[g t] rest]; [reflexivity|].
  intros H. inversion H as [|? ? [_ Ht] _]; subst. now apply tok_text_stops.
Qed.

Lemma lead_gap_white items trailing :
  gaps_ok items -> white trailing -> white (lead_gap items trailing).
Proof.
  destruct items as [|[g t] rest]; [auto|].
  intros H _. now inversion H as [|? ? [Hg _] _].
Qed.

(** [re.sub] of [\s*X\s*] on a text given by tokens and gaps changes the
    gaps next to the tokens [X] and nothing else; the second statement is
    for a text that comes after an [X], whose first gap the match of that
    [X] has taken. *)
Lemma sub_items items trailing :
  gaps_ok items -> white trailing ->
  forall prev,
    (is_prev X prev = false ->
     sub (render items trailing)
     = render (map_gaps (sub_gap X l r) prev items)
              (sub_trailing X r (last_tok prev items) trailing))
    /\ (is_prev X prev = true ->
        r ++ sub (drop_gap items trailing)
        = render (map_gaps (sub_gap X l r) prev items)
                 (sub_trailing X r (last_tok prev items) trailing)).
Proof.
  intros Hok Htr. induction Hok as [|[g t] rest [Hg Ht] Hrest IH]; intros prev.
  - cbn. unfold sub_trailing. split; intros ->.
    + now apply sub_gap_end.
    + apply app_nil_r.
  - cbn [fst snd] in Hg, Ht. destruct (IH (Some t)) as [IHA IHB].
    cbn [render map_gaps last_tok drop_gap]. unfold sub_gap at 1 3.
    destruct (is_tok X t) eqn:Ex.
    + rewrite (tok_is_X t Ex). rewrite (render_split rest trailing).
      pose proof (lead_gap_white rest trailing Hrest Htr) as Hl.
      pose proof (drop_gap_stops rest trailing Hrest) as Hs.
      split; intros ->.
      * cbn [app]. rewrite sub_around by assumption.
        rewrite <- IHB by exact Ex. cbn. now rewrite <- !app_assoc.
      * change ([X] ++ lead_gap rest trailing ++ drop_gap rest trailing)
          with ([] ++ X :: lead_gap rest trailing ++ drop_gap rest trailing).
        rewrite sub_around by (assumption || constructor).
        rewrite <- IHB by exact Ex. cbn. now rewrite <- !app_assoc.
    + destruct (tok_not_X t Ht Ex) as (c & w & Et & Hw). rewrite Et.
      split; intros ->.
      * rewrite app_nil_r. cbn [app].
        inversion Hw as [|? ? [Hc Hx] _]; subst.
        rewrite sub_gap_copy by assumption.
        change (c :: w ++ render rest trailing) with ((c :: w) ++ render rest trailing).
        rewrite sub_word_copy by assumption. now rewrite IHA by exact Ex.
      * rewrite app_nil_r. rewrite sub_word_copy by assumption.
        now rewrite IHA by exact Ex.
Qed.

Lemma sub_gap_white prev gap t : white gap -> white (sub_gap X l r prev gap t).
Proof.
  intros Hg. unfold sub_gap. apply Forall_app. split.
  - destruct (is_prev X prev); [assumption|]. destruct (is_tok X t); [constructor|assumption].
  - destruct (is_tok X t); [assumption|constructor].
Qed.

End Around.

Lemma map_gaps_ok f items :
  (forall prev gap t, white gap -> white (f prev gap t)) ->
  gaps_ok items -> forall prev, gaps_ok (map_gaps f prev items).
Proof.
  intros Hf. induction 1 as [|[g t] rest [Hg Ht] _ IH]; intros prev; [constructor|].
  cbn. constructor; [split; [now apply Hf|assumption]|apply IH].
Qed.

Lemma map_gaps_compose f1 f2 items : forall prev,
  map_gaps f2 prev (map_gaps f1 prev items)
  = map_gaps (fun p g t => f2 p (f1 p g t) t) prev items.
Proof.
  induction items as [|[g t] rest IH]; intros prev; [reflexivity|].
  cbn. now rewrite IH.
Qed.

Lemma last_tok_map_gaps f items : forall prev,
  last_tok prev (map_gaps f prev items) = last_tok prev items.
Proof.
  induction items as [|[g t] rest IH]; intros prev; [reflexivity|]. cbn. apply IH.
Qed.

(** [re.sub] of [\s+] by one space. *)
Lemma spaces_gap gap s :
  gap <> [] -> white gap -> stops isspace s ->
  re_sub match_spaces (py " ") O (gap ++ s)
  = py " " ++ re_sub match_spaces (py " ") O s.
Proof.
  intros Hne Hg Hs. apply re_sub_match; [assumption|].
  unfold match_spaces. rewrite run_length_gap by assumption.
  destruct gap; [congruence|reflexivity].
Qed.

Lemma spaces_word w s :
  Forall (fun c => isspace c = false) w ->
  re_sub match_spaces (py " ") O (w ++ s) = w ++ re_sub match_spaces (py " ") O s.
Proof.
  induction 1 as [|c w Hc _ IH]; [reflexivity|].
  cbn [app]. rewrite re_sub_copy; [now rewrite IH|].
  unfold match_spaces. now rewrite run_length_stop.
Qed.

Lemma tok_text_nonspace t :
  tok_ok t -> Forall (fun c => isspace c = false) (tok_text t).
Proof.
  destruct t; cbn; try (repeat constructor).
  intros [_ HF]. eapply Forall_impl; [|exact HF].
  intros c Hc. unfold word_char in Hc. now destruct (isspace c).
Qed.

Lemma collapse_items items trailing :
  gaps_ok items -> white trailing ->
  forall prev,
    re_sub match_spaces (py " ") O (render items trailing)
    = render (map_gaps (fun _ gap _ => collapse gap) prev items) (collapse trailing).
Proof.
  intros Hok Htr. induction Hok as [|[g t] rest [Hg Ht] Hrest IH]; intros prev.
  - cbn. destruct trailing as [|c tr]; [reflexivity|].
    rewrite <- (app_nil_r (c :: tr)), spaces_gap; (reflexivity || assumption || discriminate).
  - cbn [fst snd] in Hg, Ht. cbn [render map_gaps].
    rewrite <- (IH (Some t)), <- spaces_word by now apply tok_text_nonspace.
    destruct g as [|c g]; [reflexivity|].
    apply spaces_gap; [discriminate|assumption|now apply tok_text_stops].
Qed.

(** [strip] *)
Lemma lstrip_white gap s : white gap -> stops isspace s -> lstrip (gap ++ s) = s.
Proof.
  intros Hg Hs. induction Hg as [|c gap Hc _ IH].
  - destruct s as [|c s]; [reflexivity|]. cbn in *. now rewrite Hs.
  - cbn. now rewrite Hc.
Qed.

Lemma head_nonspace_stops s t : head_nonspace s -> stops isspace (s ++ t).
Proof. destruct s; [contradiction|auto]. Qed.

Lemma strip_white gap body trailing :
  white gap -> white trailing ->
  head_nonspace body -> head_nonspace (rev body) ->
  strip (gap ++ body ++ trailing) = body.
Proof.
  intros Hg Htr Hb Hr. unfold strip, rstrip.
  rewrite lstrip_white by (assumption || now apply head_nonspace_stops).
  rewrite rev_app_distr, lstrip_white.
  - apply rev_involutive.
  - apply Forall_rev. exact Htr.
  - rewrite <- (app_nil_r (rev body)). now apply head_nonspace_stops.
Qed.

Lemma render_trailing items trailing :
  render items trailing = render items [] ++ trailing.
Proof.
  induction items as [|[g t] rest IH]; [reflexivity|].
  cbn. now rewrite IH, !app_assoc.
Qed.

Lemma tok_text_head_nonspace t s : tok_ok t -> head_nonspace (tok_text t ++ s).
Proof.
  intros Hok. pose proof (tok_text_nonspace t Hok) as HF.
  destruct t; cbn in *; try reflexivity.
  destruct Hok as [Hne _]. destruct w as [|c w]; [congruence|].
  now inversion HF.
Qed.

Lemma tok_text_last_nonspace t : tok_ok t -> head_nonspace (rev (tok_text t)).
Proof.
  intros Hok. pose proof (tok_text_nonspace t Hok) as HF.
  apply Forall_rev in HF. destruct (rev (tok_text t)) as [|c s] eqn:E.
  - apply (f_equal (@rev _)) in E. rewrite rev_involutive in E. cbn in E.
    destruct t; try discriminate E. cbn in *. tauto.
  - now inversion HF.
Qed.

Lemma render_tight_last items :
  gaps_ok items -> items <> [] -> head_nonspace (rev (render_tight items)).
Proof.
  induction 1 as [|[g t] rest [Hg Ht] Hrest IH]; intros Hne; [now contradiction Hne|].
  cbn [render_tight fst snd] in *. destruct rest as [|[g' t'] rest'].
  - cbn [render]. rewrite app_nil_r. now apply tok_text_last_nonspace.
  - change (render ((g', t') :: rest') []) with (g' ++ render_tight ((g', t') :: rest')).
    rewrite !rev_app_distr, <- app_assoc.
    apply head_nonspace_app. apply IH. discriminate.
Qed.

Lemma strip_items items trailing :
  gaps_ok items -> white trailing -> items <> [] ->
  strip (render items trailing) = render_tight items.
Proof.
  intros Hok Htr Hne. destruct items as [|[g t] rest]; [congruence|].
  pose proof (render_tight_last _ Hok Hne) as Hl.
  inversion Hok as [|? ? [Hg Ht] Hrest]; subst. cbn [fst snd] in *.
  cbn [render render_tight] in *. rewrite (render_trailing rest trailing).
  replace (g ++ tok_text t ++ render rest [] ++ trailing)
    with (g ++ (tok_text t ++ render rest []) ++ trailing)
    by (now rewrite <- !app_assoc).
  apply strip_white; try assumption. now apply tok_text_head_nonspace.
Qed.

(** The six substitutions, pass by pass, amount to [normal_gap] on every
    gap. *)
Lemma map_gaps_ext f1 f2 items :
  gaps_ok items ->
  (forall p gap t, white gap -> f1 (Some p) gap t = f2 (Some p) gap t) ->
  forall p, map_gaps f1 (Some p) items = map_gaps f2 (Some p) items.
Proof.
  intros Hok Hf. induction Hok as [|[g t] rest [Hg _] _ IH]; intros p; [reflexivity|].
  cbn. now rewrite Hf, IH.
Qed.

Lemma normal_gap_canon p gap t : normal_gap (Some p) gap t = canon_gap (Some p) gap t.
Proof.
  destruct p, t; try reflexivity.
  unfold normal_gap, sub_gap. cbn. now rewrite !app_nil_r.
Qed.

Lemma white_space : white (py " ").
Proof. repeat constructor. Qed.

Lemma collapse_white gap : white (collapse gap).
Proof. destruct gap; [constructor|apply white_space]. Qed.

Lemma render_tight_map_gaps f1 f2 items :
  gaps_ok items ->
  (forall p gap t, white gap -> f1 (Some p) gap t = f2 (Some p) gap t) ->
  forall prev, render_tight (map_gaps f1 prev items) = render_tight (map_gaps f2 prev items).
Proof.
  intros Hok Hf prev. destruct items as [|[g t] rest]; [reflexivity|].
  cbn. inversion Hok; subst. now rewrite (map_gaps_ext f1 f2 rest).
Qed.

(** What [normalize] does to a text given by tokens and gaps. *)
Theorem normalize_items items trailing :
  gaps_ok items -> white trailing -> items <> [] ->
  normalize (render items trailing) = render_tight (map_gaps canon_gap None items).
Proof.
  intros Hok Htr Hne. unfold normalize.
  change (py " [ ") with (py " " ++ "["%char :: py " ").
  change (py " ] ") with (py " " ++ "]"%char :: py " ").
  change (py " ( ") with (py " " ++ "("%char :: py " ").
  change (py " ) ") with (py " " ++ ")"%char :: py " ").
  change (py ", ") with ([] ++ ","%char :: py " ").
  pose proof white_space as Hw.
  assert (H0 : white ([] : pystr)) by constructor.
  assert (G : forall X l r, white l -> white r ->
                forall prev gap t, white gap -> white (sub_gap X l r prev gap t))
    by (intros; now apply sub_gap_white).
  set (f1 := sub_gap "[" (py " ") (py " ")).
  set (f2 := sub_gap "]" (py " ") (py " ")).
  set (f3 := sub_gap "(" (py " ") (py " ")).
  set (f4 := sub_gap ")" (py " ") (py " ")).
  set (f5 := sub_gap "," [] (py " ")).
  pose proof (map_gaps_ok f1 items (G _ _ _ Hw Hw) Hok None) as K1.
  pose proof (map_gaps_ok f2 _ (G _ _ _ Hw Hw) K1 None) as K2.
  pose proof (map_gaps_ok f3 _ (G _ _ _ Hw Hw) K2 None) as K3.
  pose proof (map_gaps_ok f4 _ (G _ _ _ Hw Hw) K3 None) as K4.
  pose proof (map_gaps_ok f5 _ (G _ _ _ H0 Hw) K4 None) as K5.
  assert (T : forall X r prev tr, white r -> white tr -> white (sub_trailing X r prev tr))
    by (intros X r prev tr ? ?; unfold sub_trailing; now destruct (is_prev X prev)).
  rewrite (proj1 (sub_items "[" (py " ") (py " ") eq_refl eq_refl items trailing Hok Htr None) eq_refl).
  fold f1.
  rewrite (proj1 (sub_items "]" (py " ") (py " ") eq_refl eq_refl _ _ K1 (T _ _ _ _ Hw Htr) None) eq_refl).
  fold f2.
  rewrite (proj1 (sub_items "(" (py " ") (py " ") eq_refl eq_refl _ _ K2
                    (T _ _ _ _ Hw (T _ _ _ _ Hw Htr)) None) eq_refl).
  fold f3.
  rewrite (proj1 (sub_items ")" (py " ") (py " ") eq_refl eq_refl _ _ K3
                    (T _ _ _ _ Hw (T _ _ _ _ Hw (T _ _ _ _ Hw Htr))) None) eq_refl).
  fold f4.
  rewrite (proj1 (sub_items "," [] (py " ") eq_refl eq_refl _ _ K4
                    (T _ _ _ _ Hw (T _ _ _ _ Hw (T _ _ _ _ Hw (T _ _ _ _ Hw Htr)))) None) eq_refl).
  fold f5.
  rewrite (collapse_items _ _ K5
             (T _ _ _ _ Hw (T _ _ _ _ Hw (T _ _ _ _ Hw (T _ _ _ _ Hw (T _ _ _ _ Hw Htr))))) None).
  rewrite strip_items.
  - rewrite !map_gaps_compose.
    apply render_tight_map_gaps; [assumption|].
    intros p gap t _. apply normal_gap_canon.
  - apply map_gaps_ok; [intros; apply collapse_white|exact K5].
  - apply collapse_white.
  - destruct items as [|[g t] rest]; [congruence|discriminate].
Qed.

(** ** Induction on trees *)

Lemma Node_induction (P : Node -> Prop) :
  (forall r name args, P (ScriptNode r name args)) ->
  (forall r, P (NotNode r None)) ->
  (forall r child, P child -> P (NotNode r (Some child))) ->
  (forall r cb children, Forall P children -> P (AndNode r cb children)) ->
  (forall r cb children, Forall P children -> P (OrNode r cb children)) ->
  forall t, P t.
Proof.
  intros Hs Hn0 Hn Ha Ho.
  fix IH 1. intros [r name args | r [child|] | r cb children | r cb children].
  - apply Hs.
  - apply Hn, IH.
  - apply Hn0.
  - apply Ha. induction children as [|c cs IHcs]; constructor; [apply IH|exact IHcs].
  - apply Ho. induction children as [|c cs IHcs]; constructor; [apply IH|exact IHcs].
Qed.

Lemma plain_children r cb children :
  plain (AndNode r cb children) -> Forall plain children.
Proof.
  intros [_ H]. induction children as [|c cs IH]; constructor; [apply H|apply IH, H].
Qed.

Lemma plain_children_or r cb children :
  plain (OrNode r cb children) -> Forall plain children.
Proof.
  intros [_ H]. induction children as [|c cs IH]; constructor; [apply H|apply IH, H].
Qed.

(** ** The text of a tree as tokens *)

Lemma render_app a b trailing : render (a ++ b) trailing = render a (render b trailing).
Proof.
  induction a as [|[g t] a IH]; [reflexivity|]. cbn. now rewrite IH.
Qed.

Lemma join_flat_map sep p ps :
  join sep (p :: ps) = p ++ flat_map (fun x => sep ++ x) ps.
Proof.
  revert p. induction ps as [|q ps IH]; intros p; [cbn; now rewrite app_nil_r|].
  rewrite join_cons, IH. cbn [flat_map]. now rewrite <- ?app_assoc.
Qed.

Lemma render_args args rest trailing :
  render (flat_map (fun a => [([], TComma); ([], TWord a)]) args ++ rest) trailing
  = flat_map (fun a => py "," ++ a) args ++ render rest trailing.
Proof.
  induction args as [|a args IH]; [reflexivity|].
  cbn [flat_map app render tok_text py list_ascii_of_string]. rewrite <- ?app_assoc.
  cbn [app]. now rewrite IH.
Qed.

Lemma render_children children rest trailing :
  Forall (fun c => forall gap rest trailing,
              render (items_of gap c ++ rest) trailing
              = gap ++ __str__ c ++ render rest trailing) children ->
  render (flat_map (fun c => ([], TComma) :: items_of (py " ") c) children ++ rest) trailing
  = flat_map (fun s => py ", " ++ s) (map __str__ children) ++ render rest trailing.
Proof.
  induction 1 as [|c cs Hc _ IH]; [reflexivity|].
  cbn [flat_map map]. rewrite <- ?app_assoc. cbn [app render tok_text].
  rewrite Hc, IH. cbn. now rewrite <- ?app_assoc.
Qed.

Lemma render_operator op gap children rest trailing :
  Forall (fun c => forall gap rest trailing,
              render (items_of gap c ++ rest) trailing
              = gap ++ __str__ c ++ render rest trailing) children ->
  render (((gap, TWord op) :: (py " ", TOpen)
           :: match children with
              | [] => [(py "  ", TClose)]
              | c :: cs =>
                  items_of (py " ") c
                  ++ flat_map (fun c' => ([], TComma) :: items_of (py " ") c') cs
                  ++ [(py " ", TClose)]
              end) ++ rest) trailing
  = gap ++ (op ++ py " [ " ++ join (py ", ") (map __str__ children) ++ py " ]")
    ++ render rest trailing.
Proof.
  intros HF. cbn [app render tok_text]. rewrite <- ?app_assoc. do 2 f_equal.
  destruct children as [|c cs]; [reflexivity|].
  inversion HF as [|? ? Hc Hcs]; subst.
  rewrite <- ?app_assoc, Hc, (render_children cs _ _ Hcs).
  cbn [map]. rewrite join_flat_map. cbn. now rewrite <- ?app_assoc.
Qed.

Lemma render_items_of t : forall gap rest trailing,
  render (items_of gap t ++ rest) trailing = gap ++ __str__ t ++ render rest trailing.
Proof.
  induction t as [r name args | r | r child IH | r cb children IH | r cb children IH]
    using Node_induction; intros gap rest trailing.
  - cbn [items_of __str__]. unfold atom_items. destruct args as [|a args].
    + cbn. now rewrite <- ?app_assoc.
    + cbn [app render tok_text]. rewrite <- ?app_assoc, render_args.
      rewrite join_flat_map. cbn. now rewrite <- ?app_assoc.
  - cbn. reflexivity.
  - cbn [items_of __str__ app render tok_text]. rewrite IH. cbn. now rewrite <- ?app_assoc.
  - cbn [items_of __str__]. now apply render_operator.
  - cbn [items_of __str__]. now apply render_operator.
Qed.

Lemma str_render t : __str__ t = render (items_of [] t) [].
Proof.
  rewrite <- (app_nil_r (items_of [] t)), render_items_of. cbn. now rewrite app_nil_r.
Qed.

(** The tokens of a plain tree are tokens. *)
Lemma plain_char_word c : plain_char c = true -> word_char c = true.
Proof.
  unfold plain_char, word_char. intros H. apply andb_prop in H as [H1 H2].
  rewrite H1. cbn [andb]. apply negb_true_iff in H2. apply negb_true_iff.
  cbn in H2 |- *. repeat (apply orb_false_elim in H2 as [? H2]).
  repeat (apply orb_false_intro; [assumption|]). reflexivity.
Qed.

Lemma plain_word_tok w : plain_word w -> tok_ok (TWord w).
Proof.
  intros [Hne HF]. split; [assumption|].
  eapply Forall_impl; [|exact HF]. apply plain_char_word.
Qed.

Lemma gaps_ok_app a b : gaps_ok a -> gaps_ok b -> gaps_ok (a ++ b).
Proof. intros; apply Forall_app; now split. Qed.

Lemma gaps_ok_children children :
  Forall (fun c => forall gap, white gap -> gaps_ok (items_of gap c)) children ->
  gaps_ok (flat_map (fun c => ([], TComma) :: items_of (py " ") c) children).
Proof.
  induction 1 as [|c cs Hc _ IH]; [constructor|].
  cbn [flat_map]. apply gaps_ok_app; [|exact IH].
  constructor; [split; [constructor|exact I]|]. apply Hc, white_space.
Qed.

Lemma gaps_ok_operator op gap children :
  tok_ok (TWord op) -> white gap ->
  Forall (fun c => forall gap, white gap -> gaps_ok (items_of gap c)) children ->
  gaps_ok ((gap, TWord op) :: (py " ", TOpen)
           :: match children with
              | [] => [(py "  ", TClose)]
              | c :: cs =>
                  items_of (py " ") c
                  ++ flat_map (fun c' => ([], TComma) :: items_of (py " ") c') cs
                  ++ [(py " ", TClose)]
              end).
Proof.
  intros Hop Hg HF.
  constructor; [now split|]. constructor; [split; [apply white_space|exact I]|].
  destruct children as [|c cs].
  - repeat constructor.
  - inversion HF as [|? ? Hc Hcs]; subst.
    apply gaps_ok_app; [apply Hc, white_space|].
    apply gaps_ok_app; [now apply gaps_ok_children|].
    repeat constructor.
Qed.

Lemma Forall_plain_IH (P : Node -> Prop) children :
  Forall (fun c => plain c -> P c) children -> Forall plain children ->
  Forall P children.
Proof.
  induction 1 as [|c cs Hc _ IH]; intros Hp; [constructor|].
  inversion Hp; subst. constructor; auto.
Qed.

Lemma gaps_ok_items_of t : plain t -> forall gap, white gap -> gaps_ok (items_of gap t).
Proof.
  induction t as [r name args | r | r child IH | r cb children IH | r cb children IH]
    using Node_induction; intros Hp gap Hg.
  - destruct Hp as (_ & Hn & Ha). cbn [items_of]. unfold atom_items.
    destruct args as [|a args].
    + repeat constructor; try assumption; apply plain_word_tok, Hn.
    + inversion Ha as [|? ? Ha1 Ha']; subst.
      constructor; [now split|]. constructor.
      * split; [constructor|]. destruct Hn as [Hn1 Hn2], Ha1 as [Ha1 Ha2].
        split; [destruct name; discriminate|].
        apply Forall_app. split; [eapply Forall_impl; [|exact Hn2]; apply plain_char_word|].
        constructor; [reflexivity|]. eapply Forall_impl; [|exact Ha2]. apply plain_char_word.
      * apply gaps_ok_app; [|repeat constructor].
        clear Ha. induction Ha' as [|b bs Hb _ IHb]; [constructor|].
        cbn. constructor; [split; [constructor|exact I]|].
        constructor; [split; [constructor|now apply plain_word_tok]|]. exact IHb.
  - destruct Hp.
  - destruct Hp as [_ Hc]. cbn [items_of].
    constructor; [split; [assumption|]|now apply IH; [|constructor]].
    split; [discriminate|repeat constructor].
  - cbn [items_of]. apply gaps_ok_operator; [|assumption|].
    + destruct cb; (split; [discriminate|repeat constructor]).
    + apply (Forall_plain_IH _ _ IH), (plain_children _ _ _ Hp).
  - cbn [items_of]. apply gaps_ok_operator; [|assumption|].
    + destruct cb; (split; [discriminate|repeat constructor]).
    + apply (Forall_plain_IH _ _ IH), (plain_children_or _ _ _ Hp).
Qed.

(** ** The normalized text of a plain tree *)

Lemma items_of_head t gap : exists rest, items_of gap t = (gap, first_tok t) :: rest.
Proof.
  destruct t as [r name [|a args] | r [child|] | r cb children | r cb children];
    cbn; eexists; reflexivity.
Qed.

Lemma end_tok_plain t : plain t -> end_tok t = TRPar \/ end_tok t = TClose.
Proof.
  induction t as [r name args | r | r child IH | r cb children IH | r cb children IH]
    using Node_induction; intros Hp; cbn; auto.
  - destruct Hp.
  - apply IH, Hp.
Qed.

Lemma canon_gap_after_open t : canon_gap (Some TOpen) (py " ") (first_tok t) = py " ".
Proof. destruct t; reflexivity. Qed.

Lemma canon_gap_after_comma t : canon_gap (Some TComma) (py " ") (first_tok t) = py " ".
Proof. destruct t; reflexivity. Qed.

Lemma canon_gap_after_not t :
  canon_gap (Some (TWord (py "!"))) [] (first_tok t) = not_gap t.
Proof. destruct t; reflexivity. Qed.

Lemma canon_args w args rest trailing :
  render (map_gaps canon_gap (Some (TWord w))
            (flat_map (fun a => [([], TComma); ([], TWord a)]) args
             ++ ([], TRPar) :: rest)) trailing
  = flat_map (fun a => py ", " ++ a) args ++ py " )"
    ++ render (map_gaps canon_gap (Some TRPar) rest) trailing.
Proof.
  revert w. induction args as [|a args IH]; intros w; [reflexivity|].
  cbn [flat_map app map_gaps render tok_text canon_gap].
  rewrite IH. cbn. now rewrite <- ?app_assoc.
Qed.


Lemma canon_children children : forall p0 rest trailing,
  Forall canon_spec children -> Forall plain children ->
  p0 = TRPar \/ p0 = TClose ->
  render (map_gaps canon_gap (Some p0)
            (flat_map (fun c => ([], TComma) :: items_of (py " ") c) children
             ++ (py " ", TClose) :: rest)) trailing
  = flat_map (fun s => py ", " ++ s) (map canon children) ++ py " ]"
    ++ render (map_gaps canon_gap (Some TClose) rest) trailing.
Proof.
  induction children as [|c cs IH]; intros p0 rest trailing HF Hp H0.
  - cbn. destruct H0 as [-> | ->]; reflexivity.
  - inversion HF as [|? ? Hc Hcs]; subst. inversion Hp as [|? ? Pc Pcs]; subst.
    cbn [flat_map map]. rewrite <- ?app_assoc. cbn [app map_gaps render tok_text].
    replace (canon_gap (Some p0) [] TComma) with ([] : pystr)
      by (destruct H0 as [-> | ->]; reflexivity).
    rewrite Hc, canon_gap_after_comma.
    rewrite (IH (end_tok c)) by (assumption || now apply end_tok_plain).
    cbn. now rewrite <- ?app_assoc.
Qed.

Lemma canon_operator op gap children : forall p rest trailing,
  Forall canon_spec children -> Forall plain children ->
  render (map_gaps canon_gap (Some p)
            (((gap, TWord op) :: (py " ", TOpen)
              :: match children with
                 | [] => [(py "  ", TClose)]
                 | c :: cs =>
                     items_of (py " ") c
                     ++ flat_map (fun c' => ([], TComma) :: items_of (py " ") c') cs
                     ++ [(py " ", TClose)]
                 end) ++ rest)) trailing
  = canon_gap (Some p) gap (TWord op) ++ (op ++ canon_list (map canon children))
    ++ render (map_gaps canon_gap (Some TClose) rest) trailing.
Proof.
  intros p rest trailing HF Hp.
  cbn [app map_gaps render tok_text]. rewrite <- ?app_assoc. do 2 f_equal.
  destruct children as [|c cs]; [reflexivity|].
  inversion HF as [|? ? Hc Hcs]; subst. inversion Hp as [|? ? Pc Pcs]; subst.
  rewrite <- ?app_assoc, Hc, canon_gap_after_open.
  cbn [app]. rewrite (canon_children cs (end_tok c))
    by (assumption || now apply end_tok_plain).
  cbn [map canon_list]. rewrite join_flat_map. cbn. now rewrite <- ?app_assoc.
Qed.

Lemma canon_items_of t : plain t -> canon_spec t.
Proof.
  induction t as [r name args | r | r child IH | r cb children IH | r cb children IH]
    using Node_induction; intros Hp p gap rest trailing.
  - cbn [items_of first_tok end_tok canon]. unfold atom_items, canon_atom.
    destruct args as [|a args].
    + cbn. now rewrite <- ?app_assoc.
    + cbn [app map_gaps render tok_text]. rewrite <- ?app_assoc.
      cbn [app]. rewrite canon_args, join_flat_map. cbn. now rewrite <- ?app_assoc.
  - destruct Hp.
  - destruct Hp as [_ Hc]. cbn [items_of first_tok end_tok canon app map_gaps render tok_text].
    rewrite (IH Hc), canon_gap_after_not. now rewrite <- ?app_assoc.
  - cbn [items_of first_tok end_tok canon]. apply canon_operator.
    + apply (Forall_plain_IH _ _ IH), (plain_children _ _ _ Hp).
    + apply (plain_children _ _ _ Hp).
  - cbn [items_of first_tok end_tok canon]. apply canon_operator.
    + apply (Forall_plain_IH _ _ IH), (plain_children_or _ _ _ Hp).
    + apply (plain_children_or _ _ _ Hp).
Qed.

(** [normalize] turns the text of a plain tree into its normalized text. *)
Theorem normalize_str t : plain t -> normalize (__str__ t) = canon t.
Proof.
  intros Hp. rewrite str_render.
  pose proof (gaps_ok_items_of t Hp [] ltac:(constructor)) as Hok.
  destruct (items_of_head t []) as (rest & E).
  rewrite normalize_items; [|assumption|constructor|rewrite E; discriminate].
  pose proof (canon_items_of t Hp TOpen [] [] []) as H.
  rewrite app_nil_r in H. rewrite E in H |- *. cbn in H |- *.
  rewrite app_nil_r in H. apply app_inv_head in H. exact H.
Qed.

(** ** Parsing the normalized text of a plain tree *)

Lemma plain_char_facts c :
  plain_char c = true ->
  isspace c = false /\ c <> "("%char /\ c <> ")"%char /\ c <> "["%char /\ c <> "]"%char
  /\ c <> ","%char /\ c <> ":"%char /\ c <> "&"%char /\ c <> "|"%char
  /\ c <> dquote /\ c <> backslash.
Proof.
  unfold plain_char. intros H. apply andb_prop in H as [H1 H2].
  apply negb_true_iff in H1, H2. split; [assumption|].
  cbn in H2. repeat (apply orb_false_elim in H2 as [? H2]).
  repeat split; intros ->; discriminate.
Qed.

Lemma plain_word_not x w :
  plain_char x = false -> plain_word w -> Forall (fun c => c <> x) w.
Proof.
  intros Hx [_ HF]. eapply Forall_impl; [|exact HF].
  intros c Hc ->. congruence.
Qed.

Lemma plain_word_bare w : plain_word w -> Forall (fun c => bare_char c = true) w.
Proof.
  intros [_ HF]. eapply Forall_impl; [|exact HF]. intros c Hc.
  destruct (plain_char_facts c Hc) as (H1 & _ & _ & _ & _ & H6 & _ & _ & _ & H10 & H11).
  unfold bare_char. rewrite H1.
  rewrite (proj2 (char_eqb_neq _ _) H10), (proj2 (char_eqb_neq _ _) H11),
    (proj2 (char_eqb_neq _ _) H6). reflexivity.
Qed.

Lemma plain_word_head w s : plain_word w -> head_nonspace (w ++ s).
Proof.
  intros [Hne HF]. destruct w as [|c w]; [congruence|]. cbn.
  inversion HF as [|? ? Hc _]; subst. apply (plain_char_facts c Hc).
Qed.

Lemma plain_word_last w : plain_word w -> head_nonspace (rev w).
Proof.
  intros [Hne HF]. apply Forall_rev in HF. destruct (rev w) as [|c s] eqn:E.
  - apply (f_equal (@rev _)) in E. rewrite rev_involutive in E. now cbn in E.
  - inversion HF as [|? ? Hc _]; subst. apply (plain_char_facts c Hc).
Qed.

(** An occurrence of [x] after a text without [x] is not in that text. *)
Lemma find_offset_after x a s :
  Forall (fun c => c <> x) a ->
  match find_offset [x] (a ++ s) with
  | Some k => (length a <= k)%nat
  | None => True
  end.
Proof.
  induction 1 as [|c a Hc _ IH]; cbn [app].
  - destruct (find_offset [x] s); [cbn; lia|exact I].
  - cbn [find_offset starts_with].
    replace (char_eqb x c) with false by (symmetry; apply char_eqb_neq; congruence).
    cbn [andb]. destruct (find_offset [x] (a ++ s)); cbn in *; [lia|exact I].
Qed.

(** The arguments come back from their normalized text. *)
Lemma finish_arg_plain cur a :
  cur = [] \/ cur = py " " -> plain_word a -> finish_arg (cur ++ a) = a.
Proof.
  intros Hcur Ha. unfold finish_arg.
  assert (E : strip (cur ++ a) = a).
  { rewrite <- (app_nil_r a) at 1.
    apply strip_white; [destruct Hcur as [-> | ->]; repeat constructor|constructor| |].
    - rewrite <- (app_nil_r a). now apply plain_word_head.
    - now apply plain_word_last. }
  rewrite E. destruct Ha as [Hne HF]. destruct a as [|c a]; [congruence|].
  inversion HF as [|? ? Hc _]; subst. cbn [starts_with].
  destruct (plain_char_facts c Hc) as (_ & _ & _ & _ & _ & _ & _ & _ & _ & H10 & _).
  replace (char_eqb dquote c) with false by (symmetry; apply char_eqb_neq; congruence).
  reflexivity.
Qed.

Lemma last_cons (A : Type) (l : list A) : forall x d, last (x :: l) d = last l x.
Proof.
  induction l as [|y l IH]; intros x d; [reflexivity|].
  change (last (x :: y :: l) d) with (last (y :: l) d). now rewrite !IH.
Qed.

Lemma args_loop_plain args : forall a cur acc,
  plain_word a -> Forall plain_word args -> cur = [] \/ cur = py " " ->
  exists cur',
    args_loop (a ++ flat_map (fun x => py ", " ++ x) args) cur false acc
    = (acc ++ removelast (a :: args), cur')
    /\ cur' <> [] /\ finish_arg cur' = last args a.
Proof.
  induction args as [|a' args IH]; intros a cur acc Ha HF Hcur.
  - exists (cur ++ a). cbn [flat_map removelast last].
    rewrite args_loop_bare by now apply plain_word_bare.
    rewrite !app_nil_r. split; [reflexivity|]. split.
    + destruct Ha as [Hne _]. destruct cur, a; (congruence || discriminate).
    + now apply finish_arg_plain.
  - inversion HF as [|? ? Ha' HF']; subst.
    destruct (IH a' (py " ") (acc ++ [a]) Ha' HF' (or_intror eq_refl)) as (cur' & E & Hne & Hfin).
    exists cur'. cbn [flat_map]. rewrite <- ?app_assoc.
    rewrite args_loop_bare by now apply plain_word_bare.
    cbn [py list_ascii_of_string app args_loop].
    change (char_eqb "," backslash) with false.
    change (char_eqb "," dquote) with false.
    change (char_eqb " " backslash) with false.
    change (char_eqb " " dquote) with false.
    change (char_eqb " " ",") with false.
    rewrite char_eqb_refl. cbn [andb negb app].
    rewrite finish_arg_plain by assumption.
    split; [|split; [assumption|]].
    + etransitivity; [exact E|]. rewrite <- app_assoc. reflexivity.
    + rewrite Hfin. now rewrite last_cons.
Qed.

Lemma parse_args_plain a args :
  plain_word a -> Forall plain_word args ->
  parse_args (join (py ", ") (a :: args)) = a :: args.
Proof.
  intros Ha HF. rewrite join_flat_map.
  destruct (args_loop_plain args a [] [] Ha HF (or_introl eq_refl)) as (cur' & E & Hne & Hfin).
  unfold parse_args.
  destruct (a ++ flat_map (fun x => py ", " ++ x) args) as [|c s] eqn:Es.
  - destruct Ha as [Ha _]. destruct a; [congruence|discriminate].
  - rewrite E. destruct cur' as [|c' cur']; [congruence|].
    rewrite Hfin, <- (last_cons _ args a a). cbn [app]. symmetry.
    apply (app_removelast_last (l := a :: args)). discriminate.
Qed.

Lemma join_plain_not x args :
  plain_char x = false -> x <> ","%char -> x <> " "%char ->
  Forall plain_word args -> Forall (fun c => c <> x) (join (py ", ") args).
Proof.
  intros Hx H1 H2 HF. apply Forall_join.
  - repeat constructor; congruence.
  - eapply Forall_impl; [|exact HF]. intros w Hw. now apply plain_word_not.
Qed.

Lemma join_plain_head a args s :
  plain_word a -> head_nonspace (join (py ", ") (a :: args) ++ s).
Proof.
  intros Ha. destruct (join_first (py ", ") a args) as (post & ->).
  rewrite <- app_assoc. now apply plain_word_head.
Qed.

Lemma join_plain_last a args :
  Forall plain_word (a :: args) -> head_nonspace (rev (join (py ", ") (a :: args))).
Proof.
  intros HF. destruct (exists_last (l := a :: args)) as (init & final & E); [discriminate|].
  rewrite E in *. destruct (join_final (py ", ") init final) as (pre & ->).
  rewrite rev_app_distr. apply head_nonspace_app, plain_word_last.
  rewrite Forall_forall in HF. apply HF, in_or_app. right. now left.
Qed.

Lemma strip_space_word w : plain_word w -> strip (py " " ++ w ++ py " ") = w.
Proof.
  intros Hw. apply strip_white; try apply white_space.
  - rewrite <- (app_nil_r w). now apply plain_word_head.
  - now apply plain_word_last.
Qed.

Lemma strip_space_word_left w : plain_word w -> strip (py " " ++ w) = w.
Proof.
  intros Hw. rewrite <- (app_nil_r w) at 1. apply strip_white.
  - apply white_space.
  - constructor.
  - rewrite <- (app_nil_r w). now apply plain_word_head.
  - now apply plain_word_last.
Qed.

Lemma At_eq expr pos s s' : At expr pos s -> s = s' -> At expr pos s'.
Proof. now intros H <-. Qed.

(** Two texts built with [++] from the same pieces. *)
Ltac same_text :=
  repeat first [rewrite <- app_assoc | progress cbn [app py list_ascii_of_string]];
  reflexivity.

Ltac not_in_text :=
  repeat first [ assumption
               | apply Forall_nil
               | apply Forall_cons; [discriminate|]
               | apply Forall_app; split ].

Lemma At_find_char expr pos a x rest :
  At expr pos (a ++ x :: rest) -> Forall (fun c => c <> x) a ->
  find expr [x] pos = pos + len a.
Proof.
  intros A Ha. rewrite (At_find _ _ _ [x] A), find_offset_char by assumption.
  reflexivity.
Qed.

Lemma At_find_char_after expr pos a x rest :
  At expr pos (a ++ rest) -> Forall (fun c => c <> x) a ->
  find expr [x] pos = -1 \/ pos + len a <= find expr [x] pos.
Proof.
  intros A Ha. rewrite (At_find _ _ _ [x] A).
  pose proof (find_offset_after x a rest Ha) as Hk.
  destruct (find_offset [x] (a ++ rest)) as [k|]; [right|now left].
  unfold len. lia.
Qed.

(** [_parse_script_node] on the normalized text of an atom. *)
Lemma parse_script_node_canon name args expr pos rest :
  plain_word name -> Forall plain_word args ->
  At expr pos (canon_atom name args ++ rest) ->
  _parse_script_node expr pos
  = (ScriptNode RNone name args, pos + len (canon_atom name args)).
Proof.
  intros Hn Ha A0. unfold canon_atom in *.
  pose proof (plain_word_not ":" name eq_refl Hn) as Hcolon.
  pose proof (plain_word_not ")" name eq_refl Hn) as Hclose.
  pose proof (At_nonneg _ _ _ A0) as Hpos.
  pose proof (len_nonneg name) as Hlen.
  unfold _parse_script_node. change (py ":") with [":"%char]. change (py ")") with [")"%char].
  destruct args as [|a args].
  - (* no arguments *)
    assert (A : At expr (pos + 1) ((py " " ++ name ++ py " ") ++ ")"%char :: rest)).
    { apply (At_next _ _ "("%char). eapply At_eq; [exact A0|same_text]. }
    assert (A' : At expr (pos + 1) ((py " " ++ name ++ py " )") ++ rest)).
    { eapply At_eq; [exact A|same_text]. }
    assert (L : len (py " " ++ name ++ py " ") = len name + 2).
    { rewrite !len_app. change (len (py " ")) with 1. lia. }
    assert (L' : len (py " " ++ name ++ py " )") = len name + 3).
    { rewrite !len_app. change (len (py " ")) with 1. change (len (py " )")) with 2. lia. }
    rewrite (At_find_char expr (pos + 1) _ ")"%char rest A) by not_in_text. rewrite L.
    pose proof (At_find_char_after _ _ _ ":"%char _ A' ltac:(not_in_text)) as Hk.
    rewrite L' in Hk.
    match goal with
    | |- (if ?c then _ else _) = _ => replace c with false
    end.
    2:{ symmetry. destruct Hk as [-> | Hk]; [reflexivity|].
        apply andb_false_intro2. apply Z.ltb_ge. lia. }
    pose proof (At_slice _ _ (py " " ++ name ++ py " ") _ A) as S1.
    rewrite L in S1. rewrite S1, strip_space_word by assumption.
    f_equal. rewrite !len_app. change (len (py "( ")) with 2. change (len (py " )")) with 2.
    change (len []) with 0. lia.
  - (* arguments *)
    inversion Ha as [|? ? Ha0 Ha']; subst.
    set (J := join (py ", ") (a :: args)) in *.
    assert (A : At expr (pos + 1)
                   ((py " " ++ name) ++ ":"%char :: (J ++ py " ") ++ ")"%char :: rest)).
    { apply (At_next _ _ "("%char). eapply At_eq; [exact A0|same_text]. }
    assert (A' : At expr (pos + 1)
                    (((py " " ++ name) ++ ":"%char :: J ++ py " ") ++ ")"%char :: rest)).
    { eapply At_eq; [exact A|same_text]. }
    assert (HJ : Forall (fun c => c <> ")"%char) J)
      by (apply join_plain_not; (reflexivity || discriminate || assumption)).
    pose proof (len_nonneg J) as HlJ.
    assert (L1 : len (py " " ++ name) = len name + 1).
    { rewrite len_app. change (len (py " ")) with 1. lia. }
    assert (L2 : len ((py " " ++ name) ++ ":"%char :: J ++ py " ") = len name + len J + 3).
    { rewrite len_app, L1, len_cons, len_app. change (len (py " ")) with 1. lia. }
    rewrite (At_find_char expr (pos + 1) (py " " ++ name) ":"%char _ A) by not_in_text.
    rewrite (At_find_char expr (pos + 1) _ ")"%char rest A') by not_in_text.
    rewrite L1, L2.
    match goal with
    | |- (if ?c then _ else _) = _ => replace c with true
    end.
    2:{ symmetry. apply andb_true_intro. split.
        - apply negb_true_iff, Z.eqb_neq. lia.
        - apply Z.ltb_lt. lia. }
    pose proof (At_slice _ _ (py " " ++ name) _ A) as S1.
    rewrite L1 in S1. rewrite S1, strip_space_word_left by assumption.
    apply (At_step _ _ (py " " ++ name)) in A. apply At_next in A. rewrite L1 in A.
    pose proof (At_slice _ _ (J ++ py " ") _ A) as S2.
    rewrite len_app in S2. change (len (py " ")) with 1 in S2.
    replace (pos + 1 + (len name + 1) + 1 + (len J + 1))
      with (pos + 1 + (len name + len J + 3)) in S2 by lia.
    rewrite S2.
    assert (EJ : strip (J ++ py " ") = J).
    { rewrite <- (app_nil_l (J ++ py " ")). apply strip_white.
      - constructor.
      - apply white_space.
      - unfold J. rewrite <- (app_nil_r (join _ _)). now apply join_plain_head.
      - unfold J. now apply join_plain_last. }
    rewrite EJ. unfold J. rewrite parse_args_plain by assumption.
    f_equal. fold J. rewrite !len_app.
    change (len (py "( ")) with 2. change (len (py " )")) with 2.
    change (len [":"%char]) with 1. lia.
Qed.

(** The normalized text of a tree starts with [(], [!], [&] or [|]. *)
Lemma canon_head t :
  plain t ->
  exists c s, canon t = c :: s /\ isspace c = false
              /\ c <> "]"%char /\ c <> ","%char.
Proof.
  destruct t as [r name args | r [child|] | r [|] children | r [|] children];
    intros Hp; cbn [canon and_operator or_operator]; unfold canon_atom;
    eexists _, _; (split; [reflexivity|]); repeat split; (reflexivity || discriminate).
Qed.



(** The last turn of the loop: at the space before the closing bracket. *)
Lemma children_loop_end parse_expression fuel expr pos rest children :
  At expr pos (py " ]" ++ rest) ->
  children_loop parse_expression (S fuel) expr pos children = Some (children, pos + 1).
Proof.
  intros A. cbn [children_loop].
  rewrite (At_in_range _ _ _ _ A), (At_is_char _ _ _ _ "]"%char A).
  change (char_eqb " " "]") with false. cbn [negb andb].
  rewrite (At_skip_while _ _ _ _ A).
  change (run_length _ (py " ]" ++ rest)) with 1%nat. change (Z.of_nat 1) with 1.
  apply At_next in A.
  rewrite (At_in_range _ _ _ _ A), (At_is_char _ _ _ _ "]"%char A).
  reflexivity.
Qed.

Lemma run_length_lead lead c s :
  lead = py " " \/ lead = py ", " ->
  isspace c = false -> c <> ","%char ->
  run_length (fun c => isspace c || char_eqb c ",") (lead ++ c :: s) = length lead.
Proof.
  intros Hl Hc Hx.
  assert (E : (isspace c || char_eqb c ",") = false).
  { rewrite Hc. now apply char_eqb_neq. }
  destruct Hl as [-> | ->]; cbn; now rewrite E.
Qed.

(** The loop on the children that are left, each after its separator. *)
Lemma children_loop_canon parse_expression expr rest children :
  forall child lead fuel pos done,
    Forall plain (child :: children) ->
    Forall (reads parse_expression) (child :: children) ->
    lead = py " " \/ lead = py ", " ->
    (S (S (length children)) <= fuel)%nat ->
    At expr pos (lead ++ canon child ++ tail_text children ++ py " ]" ++ rest) ->
    children_loop parse_expression fuel expr pos done
    = Some (done ++ child :: children,
            pos + len lead + len (canon child) + len (tail_text children) + 1).
Proof.
  induction children as [|next children IH];
    intros child lead fuel pos done Hp Hr Hl Hf A.
  - (* one child left *)
    inversion Hp as [|? ? Pc _]; subst. inversion Hr as [|? ? Rc _]; subst.
    destruct (canon_head child Pc) as (c & s & Ec & Hc & Hb & Hx).
    destruct fuel as [|fuel]; [cbn in Hf; lia|]. cbn [children_loop].
    assert (Hlead : exists d l, lead = d :: l /\ d <> "]"%char)
      by (destruct Hl as [-> | ->]; eexists _, _; (split; [reflexivity|discriminate])).
    destruct Hlead as (d & l & El & Hd).
    assert (A1 : At expr pos (d :: l ++ canon child ++ tail_text [] ++ py " ]" ++ rest))
      by (eapply At_eq; [exact A|now rewrite El]).
    rewrite (At_in_range _ _ _ _ A1), (At_is_char _ _ _ _ "]"%char A1).
    replace (char_eqb d "]") with false by (symmetry; now apply char_eqb_neq).
    cbn [negb andb].
    rewrite (At_skip_while _ _ _ _ A). rewrite Ec in A |- *.
    cbn [app] in A |- *. rewrite (run_length_lead lead c _ Hl Hc Hx). fold (len lead).
    apply At_step in A.
    rewrite (At_in_range _ _ _ _ A), (At_is_char _ _ _ _ "]"%char A).
    replace (char_eqb c "]") with false by (symmetry; now apply char_eqb_neq).
    cbn [negb andb].
    assert (A2 : At expr (pos + len lead) (canon child ++ py " ]" ++ rest))
      by (eapply At_eq; [exact A|rewrite Ec; reflexivity]).
    rewrite (Rc _ _ _ A2). apply At_step in A2.
    destruct fuel as [|fuel]; [cbn in Hf; lia|].
    rewrite (children_loop_end _ _ _ _ rest _ A2).
    rewrite <- Ec. f_equal. f_equal. change (len (tail_text [])) with 0. lia.
  - (* more children *)
    inversion Hp as [|? ? Pc Hp']; subst. inversion Hr as [|? ? Rc Hr']; subst.
    destruct (canon_head child Pc) as (c & s & Ec & Hc & Hb & Hx).
    destruct fuel as [|fuel]; [cbn in Hf; lia|]. cbn [children_loop].
    assert (Hlead : exists d l, lead = d :: l /\ d <> "]"%char)
      by (destruct Hl as [-> | ->]; eexists _, _; (split; [reflexivity|discriminate])).
    destruct Hlead as (d & l & El & Hd).
    assert (A1 : At expr pos (d :: l ++ canon child ++ tail_text (next :: children)
                                ++ py " ]" ++ rest))
      by (eapply At_eq; [exact A|now rewrite El]).
    rewrite (At_in_range _ _ _ _ A1), (At_is_char _ _ _ _ "]"%char A1).
    replace (char_eqb d "]") with false by (symmetry; now apply char_eqb_neq).
    cbn [negb andb].
    rewrite (At_skip_while _ _ _ _ A). rewrite Ec in A |- *.
    cbn [app] in A |- *. rewrite (run_length_lead lead c _ Hl Hc Hx). fold (len lead).
    apply At_step in A.
    rewrite (At_in_range _ _ _ _ A), (At_is_char _ _ _ _ "]"%char A).
    replace (char_eqb c "]") with false by (symmetry; now apply char_eqb_neq).
    cbn [negb andb].
    assert (A2 : At expr (pos + len lead)
                    (canon child ++ tail_text (next :: children) ++ py " ]" ++ rest))
      by (eapply At_eq; [exact A|rewrite Ec; reflexivity]).
    rewrite (Rc _ _ _ A2). apply At_step in A2.
    assert (A3 : At expr (pos + len lead + len (canon child))
                    (py ", " ++ canon next ++ tail_text children ++ py " ]" ++ rest)).
    { eapply At_eq; [exact A2|]. unfold tail_text. cbn [map flat_map]. same_text. }
    rewrite (IH next (py ", ") fuel _ (done ++ [child]) Hp' Hr' (or_intror eq_refl)
               ltac:(cbn in Hf |- *; lia) A3).
    rewrite <- Ec. rewrite <- app_assoc. cbn [app]. f_equal. f_equal.
    unfold tail_text. cbn [map flat_map]. rewrite !len_app.
    change (len (py ", ")) with 2. fold (tail_text children). lia.
Qed.

Lemma At_not_end expr pos c rest :
  At expr pos (c :: rest) -> (pos >=? len expr) = false.
Proof.
  intros A. pose proof (At_in_range _ _ _ _ A) as H.
  apply Z.ltb_lt in H. rewrite Z.geb_leb. apply Z.leb_gt. exact H.
Qed.

Lemma len_canon_list_nil : len (canon_list []) = 4.
Proof. reflexivity. Qed.

Lemma canon_list_cons child children :
  canon_list (map canon (child :: children))
  = py " [" ++ py " " ++ canon child ++ tail_text children ++ py " ]".
Proof.
  cbn [map canon_list]. rewrite join_flat_map. unfold tail_text. same_text.
Qed.

(** [_parse_operator_children] on the bracketed list of an operator. *)
Lemma parse_operator_children_canon parse_expression fuel expr pos rest children :
  Forall plain children ->
  Forall (reads parse_expression) children ->
  (S (length children) <= fuel)%nat ->
  At expr pos (canon_list (map canon children) ++ rest) ->
  _parse_operator_children parse_expression fuel expr pos
  = Some (children, pos + len (canon_list (map canon children))).
Proof.
  intros Hp Hr Hf A. unfold _parse_operator_children.
  destruct children as [|child children].
  - assert (A0 : At expr pos (" "%char :: "["%char :: py " ]" ++ rest))
      by (eapply At_eq; [exact A|reflexivity]).
    rewrite (At_skip_while _ _ _ _ A0).
    change (run_length isspace _) with 1%nat. change (Z.of_nat 1) with 1.
    apply At_next in A0.
    rewrite (At_in_range _ _ _ _ A0), (At_is_char _ _ _ _ "["%char A0).
    cbn [char_eqb andb]. change (char_eqb "[" "[") with true. cbv iota.
    apply At_next in A0.
    destruct fuel as [|fuel]; [cbn in Hf; lia|].
    rewrite (children_loop_end _ _ _ _ rest [] A0).
    apply (At_next _ _ " "%char) in A0.
    rewrite (At_in_range _ _ _ _ A0), (At_is_char _ _ _ _ "]"%char A0).
    change (char_eqb "]" "]") with true. cbn [andb]. cbv iota.
    f_equal. f_equal. cbn [map]. rewrite len_canon_list_nil. lia.
  - rewrite canon_list_cons in A |- *.
    assert (A0 : At expr pos (" "%char :: "["%char :: py " " ++ canon child
                                ++ tail_text children ++ py " ]" ++ rest))
      by (eapply At_eq; [exact A|same_text]).
    rewrite (At_skip_while _ _ _ _ A0).
    change (run_length isspace _) with 1%nat. change (Z.of_nat 1) with 1.
    apply At_next in A0.
    rewrite (At_in_range _ _ _ _ A0), (At_is_char _ _ _ _ "["%char A0).
    change (char_eqb "[" "[") with true. cbv iota. cbn [andb].
    apply At_next in A0.
    rewrite (children_loop_canon parse_expression expr rest children child (py " ")
               fuel _ [] Hp Hr (or_introl eq_refl) ltac:(cbn in Hf |- *; lia) A0).
    apply At_step in A0. apply At_step in A0. apply At_step in A0.
    apply (At_next _ _ " "%char) in A0.
    replace (pos + 1 + 1 + len (py " ") + len (canon child) + len (tail_text children) + 1)
      with (pos + 1 + 1 + len (py " ") + len (canon child) + len (tail_text children) + 1)
      in A0 by lia.
    rewrite (At_in_range _ _ _ _ A0), (At_is_char _ _ _ _ "]"%char A0).
    cbn [app]. change (char_eqb "]" "]") with true. cbn [andb]. cbv iota.
    f_equal. f_equal. rewrite !len_app.
    change (len (py " [")) with 2. change (len (py " ")) with 1.
    change (len (py " ]")) with 2. lia.
Qed.

Ltac parse_start A :=
  cbn [_parse_expression];
  rewrite (At_skip_while _ _ _ _ A);
  match goal with
  | |- context [run_length isspace ?s] => change (run_length isspace s) with O
  end;
  change (Z.of_nat 0) with 0; rewrite Z.add_0_r;
  rewrite (At_not_end _ _ _ _ A); cbv iota.

Lemma parse_fuel_child c children :
  In c children ->
  (parse_fuel c <= fold_right (fun c n => Nat.max (parse_fuel c) n) O children)%nat.
Proof.
  induction children as [|d children IH]; [contradiction|].
  intros [-> | Hin]; cbn; [lia|]. specialize (IH Hin). lia.
Qed.

(** The operator in front of the bracketed list is recognized and the list
    is read. *)
Lemma parse_operator_canon fuel expr pos rest op children node :
  (op = py "&&" /\ node = AndNode RNone true
   \/ op = py "&" /\ node = AndNode RNone false
   \/ op = py "||" /\ node = OrNode RNone true
   \/ op = py "|" /\ node = OrNode RNone false) ->
  Forall plain children ->
  Forall (reads (_parse_expression fuel)) children ->
  (S (length children) <= fuel)%nat ->
  At expr pos ((op ++ canon_list (map canon children)) ++ rest) ->
  _parse_expression (S fuel) expr pos
  = Some (Some (node children), pos + len (op ++ canon_list (map canon children))).
Proof.
  intros Hop Hp Hr Hf A.
  assert (Hl : exists l, canon_list (map canon children) = " "%char :: "["%char :: l).
  { destruct children; cbn [map canon_list]; eexists; reflexivity. }
  destruct Hl as (l & El).
  pose proof (parse_operator_children_canon (_parse_expression fuel) fuel expr) as PC.
  destruct Hop as [[-> ->] | [[-> ->] | [[-> ->] | [-> ->]]]].
  - assert (A0 : At expr pos (py "&&" ++ canon_list (map canon children) ++ rest))
      by (eapply At_eq; [exact A|same_text]).
    parse_start A0. rewrite (At_is_char _ _ _ _ "!"%char A0).
    change (char_eqb "&" "!") with false. cbv iota.
    pose proof (At_slice _ _ (py "&&") _ A0) as S2; change (len (py "&&")) with 2 in S2; rewrite S2; clear S2. change (pystr_eqb (py "&&") (py "&&")) with true.
    cbv iota. apply At_step in A0. change (len (py "&&")) with 2 in A0.
    rewrite (PC _ rest children Hp Hr Hf A0).
    f_equal. f_equal. rewrite len_app. change (len (py "&&")) with 2. lia.
  - assert (A0 : At expr pos ("&"%char :: " "%char :: "["%char :: l ++ rest))
      by (eapply At_eq; [exact A|rewrite El; same_text]).
    parse_start A0. rewrite (At_is_char _ _ _ _ "!"%char A0).
    change (char_eqb "&" "!") with false. cbv iota.
    pose proof (At_slice _ _ (py "& ") _ A0) as S2; change (len (py "& ")) with 2 in S2; rewrite S2; clear S2. change (pystr_eqb (py "& ") (py "&&")) with false.
    change (pystr_eqb (py "& ") (py "||")) with false. cbv iota.
    rewrite (At_is_char _ _ _ _ "&"%char A0). change (char_eqb "&" "&") with true.
    pose proof (At_next _ _ _ _ A0) as A1.
    rewrite (At_is_char _ _ _ _ "&"%char A1). change (char_eqb " " "&") with false.
    rewrite orb_true_r. cbn [negb andb]. cbv iota.
    assert (A2 : At expr (pos + 1) (canon_list (map canon children) ++ rest))
      by (eapply At_eq; [exact A1|rewrite El; reflexivity]).
    rewrite (PC _ rest children Hp Hr Hf A2).
    f_equal. f_equal. rewrite len_app. change (len (py "&")) with 1. lia.
  - assert (A0 : At expr pos (py "||" ++ canon_list (map canon children) ++ rest))
      by (eapply At_eq; [exact A|same_text]).
    parse_start A0. rewrite (At_is_char _ _ _ _ "!"%char A0).
    change (char_eqb "|" "!") with false. cbv iota.
    pose proof (At_slice _ _ (py "||") _ A0) as S2; change (len (py "||")) with 2 in S2; rewrite S2; clear S2. change (pystr_eqb (py "||") (py "&&")) with false.
    change (pystr_eqb (py "||") (py "||")) with true.
    cbv iota. apply At_step in A0. change (len (py "||")) with 2 in A0.
    rewrite (PC _ rest children Hp Hr Hf A0).
    f_equal. f_equal. rewrite len_app. change (len (py "||")) with 2. lia.
  - assert (A0 : At expr pos ("|"%char :: " "%char :: "["%char :: l ++ rest))
      by (eapply At_eq; [exact A|rewrite El; same_text]).
    parse_start A0. rewrite (At_is_char _ _ _ _ "!"%char A0).
    change (char_eqb "|" "!") with false. cbv iota.
    pose proof (At_slice _ _ (py "| ") _ A0) as S2; change (len (py "| ")) with 2 in S2; rewrite S2; clear S2. change (pystr_eqb (py "| ") (py "&&")) with false.
    change (pystr_eqb (py "| ") (py "||")) with false. cbv iota.
    rewrite (At_is_char _ _ _ _ "&"%char A0). change (char_eqb "|" "&") with false.
    cbn [andb]. cbv iota.
    rewrite (At_is_char _ _ _ _ "|"%char A0). change (char_eqb "|" "|") with true.
    pose proof (At_next _ _ _ _ A0) as A1.
    rewrite (At_is_char _ _ _ _ "|"%char A1). change (char_eqb " " "|") with false.
    rewrite orb_true_r. cbn [negb andb]. cbv iota.
    assert (A2 : At expr (pos + 1) (canon_list (map canon children) ++ rest))
      by (eapply At_eq; [exact A1|rewrite El; reflexivity]).
    rewrite (PC _ rest children Hp Hr Hf A2).
    f_equal. f_equal. rewrite len_app. change (len (py "|")) with 1. lia.
Qed.

Lemma reads_children fuel children :
  Forall (fun c => plain c -> forall fuel, (parse_fuel c <= fuel)%nat ->
                   reads (_parse_expression fuel) c) children ->
  Forall plain children ->
  (fold_right (fun c n => Nat.max (parse_fuel c) n) O children <= fuel)%nat ->
  Forall (reads (_parse_expression fuel)) children.
Proof.
  intros IH Hp Hf. rewrite Forall_forall in *. intros c Hc.
  apply IH; [assumption|now apply Hp|].
  pose proof (parse_fuel_child c children Hc). lia.
Qed.

(** The parser reads a plain tree back from its normalized text, given the
    fuel for it. *)
Theorem parse_canon t :
  plain t -> forall fuel, (parse_fuel t <= fuel)%nat ->
  reads (_parse_expression fuel) t.
Proof.
  induction t as [r name args | r | r child IH | r cb children IH | r cb children IH]
    using Node_induction; intros Hp fuel Hf expr pos rest A.
  - destruct Hp as (-> & Hn & Ha).
    destruct fuel as [|fuel]; [cbn in Hf; lia|].
    cbn [canon] in *.
    assert (A0 : At expr pos ("("%char :: " "%char
                              :: (name ++ match args with
                                          | [] => []
                                          | _ :: _ => py ":" ++ join (py ", ") args
                                          end ++ py " )") ++ rest))
      by (eapply At_eq; [exact A|reflexivity]).
    parse_start A0. rewrite (At_is_char _ _ _ _ "!"%char A0).
    change (char_eqb "(" "!") with false. cbv iota.
    pose proof (At_slice _ _ (py "( ") _ A0) as S2.
    change (len (py "( ")) with 2 in S2. rewrite S2. clear S2.
    change (pystr_eqb (py "( ") (py "&&")) with false.
    change (pystr_eqb (py "( ") (py "||")) with false. cbv iota.
    rewrite (At_is_char _ _ _ _ "&"%char A0). change (char_eqb "(" "&") with false.
    rewrite (At_is_char _ _ _ _ "|"%char A0). change (char_eqb "(" "|") with false.
    cbn [andb]. cbv iota.
    rewrite (At_is_char _ _ _ _ "("%char A0). change (char_eqb "(" "(") with true.
    cbv iota. now rewrite (parse_script_node_canon name args expr pos rest Hn Ha A).
  - destruct Hp.
  - destruct Hp as [-> Hc].
    destruct fuel as [|fuel]; [cbn in Hf; lia|].
    assert (Hfc : (parse_fuel child <= fuel)%nat) by (cbn in Hf; lia).
    cbn [canon] in *.
    set (sp := not_gap child) in *.
    assert (Hsp : white sp) by (unfold sp; destruct child; repeat constructor).
    clearbody sp.
    assert (A0 : At expr pos ("!"%char :: sp ++ canon child ++ rest))
      by (eapply At_eq; [exact A|same_text]).
    parse_start A0. rewrite (At_is_char _ _ _ _ "!"%char A0).
    change (char_eqb "!" "!") with true. cbv iota.
    apply At_next in A0. rewrite (At_skip_while _ _ _ _ A0).
    destruct (canon_head child Hc) as (c & s & Ec & Hcs & _ & _).
    rewrite run_length_gap; [|exact Hsp|rewrite Ec; exact Hcs].
    fold (len sp). apply At_step in A0.
    assert (A1 : At expr (pos + 1 + len sp) (c :: s ++ rest))
      by (eapply At_eq; [exact A0|now rewrite Ec]).
    rewrite (At_in_range _ _ _ _ A1).
    rewrite (IH Hc fuel Hfc expr _ rest A0).
    f_equal. f_equal. rewrite !len_app. change (len (py "!")) with 1. lia.
  - destruct Hp as [-> Hp']. pose proof (plain_children RNone cb children (conj eq_refl Hp')) as Hc.
    destruct fuel as [|fuel]; [cbn in Hf; lia|]. cbn [parse_fuel] in Hf.
    cbn [canon] in *.
    apply (parse_operator_canon fuel expr pos rest (and_operator cb) children
             (AndNode RNone cb)); try assumption.
    + destruct cb; auto.
    + apply reads_children; [assumption|assumption|lia].
    + lia.
  - destruct Hp as [-> Hp']. pose proof (plain_children_or RNone cb children (conj eq_refl Hp')) as Hc.
    destruct fuel as [|fuel]; [cbn in Hf; lia|]. cbn [parse_fuel] in Hf.
    cbn [canon] in *.
    apply (parse_operator_canon fuel expr pos rest (or_operator cb) children
             (OrNode RNone cb)); try assumption.
    + destruct cb; auto 6.
    + apply reads_children; [assumption|assumption|lia].
    + lia.
Qed.

(** ** The format pre-check on the text of a plain tree *)

Lemma ops_ok_tail c s : ops_ok (c :: s) -> ops_ok s.
Proof.
  intros H. inversion H as [|? ? ? ? Hs|x s' Hx Hs|x s' Hx Hs]; subst.
  - exact Hs.
  - now apply ops_single.
  - apply ops_char; [discriminate|discriminate|].
    apply ops_char; [discriminate|discriminate|exact Hs].
Qed.

Lemma ops_ok_skipn k : forall s, ops_ok s -> ops_ok (skipn k s).
Proof.
  induction k as [|k IH]; intros s H; [exact H|].
  destruct s as [|c s]; [exact H|]. cbn. apply IH. now apply ops_ok_tail in H.
Qed.

Lemma ops_ok_app a b : ops_ok a -> ops_ok b -> ops_ok (a ++ b).
Proof.
  intros Ha Hb. induction Ha; cbn [app]; try assumption.
  - now apply ops_char.
  - now apply ops_double.
  - now apply ops_single.
Qed.

Lemma ops_ok_plain w : Forall (fun c => plain_char c = true) w -> ops_ok w.
Proof.
  induction 1 as [|c w Hc _ IH]; [constructor|].
  destruct (plain_char_facts c Hc) as (_ & _ & _ & _ & _ & _ & _ & H8 & H9 & _).
  now apply ops_char.
Qed.

Lemma ops_ok_join sep parts :
  ops_ok sep -> Forall ops_ok parts -> ops_ok (join sep parts).
Proof.
  intros Hs. induction 1 as [|p ps Hp Hps IH]; [constructor|].
  destruct ps as [|q ps]; [assumption|].
  rewrite join_cons. apply ops_ok_app; [assumption|]. now apply ops_ok_app.
Qed.

Ltac ops_literal :=
  repeat first [ apply ops_nil | apply ops_char; [discriminate|discriminate|] ].

Lemma ops_ok_operator op children :
  op = py "&&" \/ op = py "&" \/ op = py "||" \/ op = py "|" ->
  Forall ops_ok children ->
  ops_ok (op ++ py " [ " ++ join (py ", ") children ++ py " ]").
Proof.
  intros Hop Hc.
  assert (R : ops_ok (py " " ++ join (py ", ") children ++ py " ]")).
  { apply ops_ok_app; [ops_literal|].
    apply ops_ok_app; [apply ops_ok_join; [ops_literal|assumption]|ops_literal]. }
  destruct Hop as [-> | [-> | [-> | ->]]].
  - apply (ops_double "&"); [now left|exact R].
  - apply (ops_single "&"); [now left|exact R].
  - apply (ops_double "|"); [now right|exact R].
  - apply (ops_single "|"); [now right|exact R].
Qed.

Lemma ops_ok_str t : plain t -> ops_ok (__str__ t).
Proof.
  induction t as [r name args | r | r child IH | r cb children IH | r cb children IH]
    using Node_induction; intros Hp.
  - destruct Hp as (_ & [_ Hn] & Ha). cbn [__str__].
    assert (Hargs : ops_ok (join (py ",") args)).
    { apply ops_ok_join; [ops_literal|].
      eapply Forall_impl; [|exact Ha]. intros w [_ Hw]. now apply ops_ok_plain. }
    destruct args as [|a args].
    + apply ops_ok_app; [ops_literal|].
      apply ops_ok_app; [now apply ops_ok_plain|ops_literal].
    + apply ops_ok_app; [ops_literal|].
      apply ops_ok_app; [now apply ops_ok_plain|].
      apply ops_ok_app; [ops_literal|].
      apply ops_ok_app; [exact Hargs|ops_literal].
  - destruct Hp.
  - destruct Hp as [_ Hc]. cbn [__str__]. apply ops_ok_app; [ops_literal|now apply IH].
  - cbn [__str__]. apply ops_ok_operator; [destruct cb; auto|].
    apply Forall_map. apply (Forall_plain_IH _ _ IH), (plain_children _ _ _ Hp).
  - cbn [__str__]. apply ops_ok_operator; [destruct cb; auto|].
    apply Forall_map. apply (Forall_plain_IH _ _ IH), (plain_children_or _ _ _ Hp).
Qed.

(** Where [find] finds the pattern, the pattern starts. *)
Lemma find_offset_some p : forall s k,
  find_offset p s = Some k ->
  exists s1, s = s1 ++ skipn k s /\ length s1 = k /\ starts_with p (skipn k s) = true.
Proof.
  induction s as [|c s IH]; intros k H; cbn [find_offset] in H.
  - destruct (starts_with p []) eqn:E; [|discriminate].
    inversion H; subst. now exists [].
  - destruct (starts_with p (c :: s)) eqn:E.
    + inversion H; subst. now exists [].
    + destruct (find_offset p s) as [k'|] eqn:E'; [|discriminate].
      cbn in H. inversion H; subst.
      destruct (IH k' eq_refl) as (s1 & Es & Hl & Hs).
      exists (c :: s1). cbn. rewrite <- Es. auto.
Qed.

Lemma At_shorter expr pos s1 s2 n :
  At expr pos (s1 ++ s2) -> (length (s1 ++ s2) <= S n)%nat -> s1 <> [] ->
  At expr (pos + len s1) s2 /\ (length s2 <= n)%nat.
Proof.
  intros A Hl Hne. split; [now apply At_step|].
  rewrite length_app in Hl. destruct s1; [congruence|]. cbn in Hl. lia.
Qed.

(** The loop of the pre-check for a one-character operator. *)
Lemma check_single_ok x :
  x = "&"%char \/ x = "|"%char ->
  forall n expr pos s,
    At expr pos s -> ops_ok s -> (length s <= n)%nat ->
    check_operator n expr [x] pos = true.
Proof.
  intros Hx. induction n as [|n IH]; intros expr pos s A Hok Hl; [reflexivity|].
  cbn [check_operator].
  destruct (pos <? len expr) eqn:Ein; [|reflexivity].
  rewrite (At_find _ _ _ [x] A).
  destruct (find_offset [x] s) as [k|] eqn:Ef; [|reflexivity].
  destruct (find_offset_some [x] s k Ef) as (s1 & Es & Hk & Hst).
  pose proof (ops_ok_skipn k s Hok) as Hok2.
  assert (A2 : At expr (pos + Z.of_nat k) (skipn k s)).
  { rewrite <- Hk at 1. apply (At_step expr pos s1). now rewrite <- Es. }
  assert (Hl2 : (length (skipn k s) <= S n)%nat) by (rewrite length_skipn; lia).
  pose proof (At_nonneg _ _ _ A) as Hpos.
  replace (pos + Z.of_nat k =? -1) with false by (symmetry; apply Z.eqb_neq; lia).
  replace (pystr_eqb [x] (py "&") || pystr_eqb [x] (py "|")) with true
    by (destruct Hx as [-> | ->]; reflexivity).
  cbn [andb]. change (len [x]) with 1.
  set (p := pos + Z.of_nat k) in *. clearbody p.
  destruct (skipn k s) as [|c s2] eqn:E2; [discriminate Hst|].
  cbn [starts_with] in Hst. rewrite andb_true_r in Hst. apply char_eqb_eq in Hst. subst c.
  inversion Hok2 as [|c s' Hc1 Hc2 Hs|y s3 Hy Hs|y s3 Hy Hs]; subst.
  - destruct Hx; congruence.
  - (* the first half of a two-character operator: go one further *)
    pose proof (At_next _ _ _ _ A2) as A3.
    rewrite (At_in_range _ _ _ _ A3), (At_char _ _ _ _ A3), (At_char _ _ _ _ A2).
    rewrite char_eqb_refl. cbn [andb].
    apply (IH expr (p + 1) (x :: " "%char :: "["%char :: s3) A3).
    + now apply ops_single.
    + cbn in Hl2 |- *. lia.
  - (* the operator itself *)
    pose proof (At_next _ _ _ _ A2) as A3.
    rewrite (At_in_range _ _ _ _ A3), (At_char _ _ _ _ A3), (At_char _ _ _ _ A2).
    replace (char_eqb " " x) with false
      by (destruct Hx as [-> | ->]; reflexivity).
    cbn [andb]. rewrite (At_skip_while _ _ _ _ A3).
    change (run_length isspace _) with 1%nat. change (Z.of_nat 1) with 1.
    pose proof (At_next _ _ _ _ A3) as A4.
    rewrite (At_not_end _ _ _ _ A4), (At_is_char _ _ _ _ "["%char A4).
    change (char_eqb "[" "[") with true. cbn [negb orb].
    apply (IH expr (p + 1) (" "%char :: "["%char :: s3) A3).
    + ops_literal. exact Hs.
    + cbn in Hl2 |- *. lia.
Qed.

(** The loop of the pre-check for a two-character operator. *)
Lemma check_double_ok x :
  x = "&"%char \/ x = "|"%char ->
  forall n expr pos s,
    At expr pos s -> ops_ok s -> (length s <= n)%nat ->
    check_operator n expr [x; x] pos = true.
Proof.
  intros Hx. induction n as [|n IH]; intros expr pos s A Hok Hl; [reflexivity|].
  cbn [check_operator].
  destruct (pos <? len expr) eqn:Ein; [|reflexivity].
  rewrite (At_find _ _ _ [x; x] A).
  destruct (find_offset [x; x] s) as [k|] eqn:Ef; [|reflexivity].
  destruct (find_offset_some [x; x] s k Ef) as (s1 & Es & Hk & Hst).
  pose proof (ops_ok_skipn k s Hok) as Hok2.
  assert (A2 : At expr (pos + Z.of_nat k) (skipn k s)).
  { rewrite <- Hk at 1. apply (At_step expr pos s1). now rewrite <- Es. }
  assert (Hl2 : (length (skipn k s) <= S n)%nat) by (rewrite length_skipn; lia).
  pose proof (At_nonneg _ _ _ A) as Hpos.
  replace (pos + Z.of_nat k =? -1) with false by (symmetry; apply Z.eqb_neq; lia).
  replace (pystr_eqb [x; x] (py "&") || pystr_eqb [x; x] (py "|")) with false
    by (destruct Hx as [-> | ->]; reflexivity).
  cbn [andb]. change (len [x; x]) with 2.
  set (p := pos + Z.of_nat k) in *. clearbody p.
  destruct (skipn k s) as [|c [|d s2]] eqn:E2; try discriminate Hst.
  { cbn in Hst. now rewrite andb_false_r in Hst. }
  cbn [starts_with] in Hst. rewrite andb_true_r in Hst.
  apply andb_prop in Hst as [H1 H2]. apply char_eqb_eq in H1, H2. subst c d.
  inversion Hok2 as [|c s' Hc1 Hc2 Hs|y s3 Hy Hs|y s3 Hy Hs]; subst.
  - destruct Hx; congruence.
  - pose proof (At_step _ _ [x; x] _ A2) as A3. change (len [x; x]) with 2 in A3.
    rewrite (At_skip_while _ _ _ _ A3).
    change (run_length isspace _) with 1%nat. change (Z.of_nat 1) with 1.
    pose proof (At_next _ _ _ _ A3) as A4.
    rewrite (At_not_end _ _ _ _ A4), (At_is_char _ _ _ _ "["%char A4).
    change (char_eqb "[" "[") with true. cbn [negb orb].
    apply (IH expr (p + 2) (" "%char :: "["%char :: s3) A3).
    + ops_literal. exact Hs.
    + cbn in Hl2 |- *. lia.
  - destruct Hx; discriminate.
Qed.

(** Parentheses and brackets of the text of a plain tree are balanced. *)
Lemma count_occ_plain x w :
  plain_char x = false -> Forall (fun c => plain_char c = true) w ->
  count_occ ascii_dec w x = O.
Proof.
  intros Hx HF. apply count_occ_not_In. intros Hin.
  rewrite Forall_forall in HF. specialize (HF x Hin). congruence.
Qed.

Lemma count_occ_join x sep parts :
  count_occ ascii_dec sep x = O ->
  Forall (fun p => count_occ ascii_dec p x = O) parts ->
  count_occ ascii_dec (join sep parts) x = O.
Proof.
  intros Hs. induction 1 as [|p ps Hp Hps IH]; [reflexivity|].
  destruct ps as [|q ps]; [assumption|].
  rewrite join_cons, !count_occ_app. unfold pystr in *. lia.
Qed.

Lemma balanced_app a b : balanced a -> balanced b -> balanced (a ++ b).
Proof. intros [H1 H2] [H3 H4]. split; rewrite !count_occ_app; lia. Qed.

Lemma balanced_join sep parts :
  balanced sep -> Forall balanced parts -> balanced (join sep parts).
Proof.
  intros Hs. induction 1 as [|p ps Hp Hps IH]; [split; reflexivity|].
  destruct ps as [|q ps]; [assumption|].
  rewrite join_cons. apply balanced_app; [assumption|]. now apply balanced_app.
Qed.

Lemma balanced_brackets s : balanced s -> balanced (py " [ " ++ s ++ py " ]").
Proof.
  intros [H1 H2]. split; rewrite !count_occ_app; cbn; lia.
Qed.

Lemma balanced_str t : plain t -> balanced (__str__ t).
Proof.
  induction t as [r name args | r | r child IH | r cb children IH | r cb children IH]
    using Node_induction; intros Hp.
  - destruct Hp as (_ & [_ Hn] & Ha). cbn [__str__].
    assert (Z1 : forall x, plain_char x = false -> count_occ ascii_dec name x = O)
      by (intros; now apply count_occ_plain).
    assert (Z2 : forall x, plain_char x = false -> x <> ","%char ->
                           count_occ ascii_dec (join (py ",") args) x = O).
    { intros x Hx Hc. apply count_occ_join.
      - apply count_occ_not_In. intros [E|[]]. congruence.
      - eapply Forall_impl; [|exact Ha]. intros w [_ Hw]. now apply count_occ_plain. }
    destruct args as [|a args]; split; rewrite !count_occ_app;
      rewrite ?Z1, ?Z2 by (reflexivity || discriminate); reflexivity.
  - destruct Hp.
  - destruct Hp as [_ Hc]. cbn [__str__]. apply balanced_app; [split; reflexivity|now apply IH].
  - cbn [__str__]. apply balanced_app; [destruct cb; split; reflexivity|].
    apply balanced_brackets, balanced_join; [split; reflexivity|].
    apply Forall_map. apply (Forall_plain_IH _ _ IH), (plain_children _ _ _ Hp).
  - cbn [__str__]. apply balanced_app; [destruct cb; split; reflexivity|].
    apply balanced_brackets, balanced_join; [split; reflexivity|].
    apply Forall_map. apply (Forall_plain_IH _ _ IH), (plain_children_or _ _ _ Hp).
Qed.

(** The text of a plain tree passes the format pre-check. *)
Theorem validate_str t : plain t -> validate_expression_format (__str__ t) = true.
Proof.
  intros Hp. unfold validate_expression_format, count.
  destruct (balanced_str t Hp) as [B1 B2]. rewrite B1, B2, !Z.eqb_refl.
  cbn [negb forallb].
  pose proof (ops_ok_str t Hp) as Hok.
  pose proof (At_start (__str__ t)) as A.
  change (py "&&") with ["&"%char; "&"%char]. change (py "||") with ["|"%char; "|"%char].
  change (py "&") with ["&"%char]. change (py "|") with ["|"%char].
  rewrite (check_double_ok "&" (or_introl eq_refl) _ _ _ _ A Hok) by lia.
  rewrite (check_double_ok "|" (or_intror eq_refl) _ _ _ _ A Hok) by lia.
  rewrite (check_single_ok "&" (or_introl eq_refl) _ _ _ _ A Hok) by lia.
  rewrite (check_single_ok "|" (or_intror eq_refl) _ _ _ _ A Hok) by lia.
  reflexivity.
Qed.

(** The text of a plain tree parses to the tree. *)
Theorem parse_str t fuel :
  plain t -> (parse_fuel t <= fuel)%nat ->
  parse_logical_expression fuel (__str__ t) = Some (Some t).
Proof.
  intros Hp Hf. unfold parse_logical_expression.
  rewrite (validate_str t Hp), (normalize_str t Hp). cbn [negb].
  assert (A : At (canon t) 0 (canon t ++ [])) by (rewrite app_nil_r; apply At_start).
  now rewrite (parse_canon t Hp fuel Hf _ _ _ A).
Qed.

(** ** The trees the parser builds *)

Lemma fresh_and cb children : Forall fresh children -> fresh (AndNode RNone cb children).
Proof.
  intros H. split; [reflexivity|]. induction H; cbn; auto.
Qed.

Lemma fresh_or cb children : Forall fresh children -> fresh (OrNode RNone cb children).
Proof.
  intros H. split; [reflexivity|]. induction H; cbn; auto.
Qed.

Lemma children_loop_fresh P :
  builds_fresh P ->
  forall fuel expr pos children children' pos',
    Forall fresh children ->
    children_loop P fuel expr pos children = Some (children', pos') ->
    Forall fresh children'.
Proof.
  intros HP. induction fuel as [|fuel IH]; intros expr pos children children' pos' Hc H;
    [discriminate|].
  cbn [children_loop] in H.
  destruct (_ && _); [|now inversion H; subst].
  destruct (_ && _); [|now inversion H; subst].
  destruct (P expr _) as [[[child|] p]|] eqn:E; [| |discriminate].
  - apply (IH expr p (children ++ [child]) children' pos'); [|exact H].
    apply Forall_app; split; [exact Hc|].
    constructor; [exact (HP _ _ _ _ E)|constructor].
  - apply (IH _ _ _ _ _ Hc H).
Qed.

Lemma parse_operator_children_fresh P :
  builds_fresh P ->
  forall fuel expr pos children pos',
    _parse_operator_children P fuel expr pos = Some (children, pos') ->
    Forall fresh children.
Proof.
  intros HP fuel expr pos children pos' H. unfold _parse_operator_children in H.
  destruct (_ && _); [|inversion H; constructor].
  destruct (children_loop P fuel expr _ []) as [[cs p]|] eqn:E; [|discriminate].
  pose proof (children_loop_fresh P HP _ _ _ _ _ _ (Forall_nil _) E) as F.
  destruct (_ && _); inversion H; subst; exact F.
Qed.

(** The parser builds trees without cached results. *)
Lemma parse_expression_fresh fuel : builds_fresh (_parse_expression fuel).
Proof.
  induction fuel as [|fuel IH]; intros expr pos t pos' H; [discriminate|].
  cbn [_parse_expression] in H.
  repeat match type of H with
         | (if ?c then _ else _) = _ => destruct c
         | match _parse_expression fuel ?e ?p with _ => _ end = _ =>
             let E := fresh "E" in
             destruct (_parse_expression fuel e p) as [[[child|] ?]|] eqn:E;
             [apply IH in E| |discriminate]
         | match _parse_operator_children _ fuel ?e ?p with _ => _ end = _ =>
             let E := fresh "E" in
             destruct (_parse_operator_children (_parse_expression fuel) fuel e p)
               as [[? ?]|] eqn:E;
             [apply (parse_operator_children_fresh _ IH) in E|discriminate]
         end;
    try (unfold _parse_script_node in H;
         destruct (negb _ && _) in H);
    inversion H; subst;
    first [now apply fresh_and | now apply fresh_or | cbn [fresh]; auto].
Qed.

Lemma parse_logical_expression_fresh fuel expression t :
  parse_logical_expression fuel expression = Some (Some t) -> fresh t.
Proof.
  unfold parse_logical_expression. destruct (negb _); [discriminate|].
  destruct (_parse_expression fuel _ 0) as [[node pos]|] eqn:E; [|discriminate].
  intros [= ->]. exact (parse_expression_fresh fuel _ _ _ _ E).
Qed.

(** * Further properties of the code *)

(** ** Evaluation and the caches *)

Section EvaluationLaws.

Variable World : Type.
Variable executor_func :
  pystr -> list pystr -> bool -> option pystr -> World -> Z * World.

#[local] Abbreviation eval := (evaluate executor_func).

#[local] Abbreviation alike := (alike executor_func).

Lemma and_loop_alike vh sh cb cs ds :
  Forall2 (alike vh sh) cs ds ->
  forall res st,
    outcome (and_loop (fun c => eval c vh sh) cb cs res st)
    = outcome (and_loop (fun c => eval c vh sh) cb ds res st).
Proof.
  induction 1 as [|c d cs ds Hc _ IH]; intros res st; [reflexivity|].
  cbn [and_loop]. specialize (Hc st). unfold outcome in Hc.
  destruct (eval c vh sh st) as [[b c'] s1], (eval d vh sh st) as [[b2 d'] s2].
  cbn in Hc. inversion Hc; subst b2 s2.
  destruct b; cbn [negb].
  - specialize (IH res s1). unfold outcome in IH.
    destruct (and_loop _ cb cs res s1) as [[r1 x1] y1],
             (and_loop _ cb ds res s1) as [[r2 x2] y2].
    cbn in *. exact IH.
  - destruct cb; [reflexivity|].
    specialize (IH false s1). unfold outcome in IH.
    destruct (and_loop _ false cs false s1) as [[r1 x1] y1],
             (and_loop _ false ds false s1) as [[r2 x2] y2].
    cbn in *. exact IH.
Qed.

Lemma or_loop_alike vh sh cb cs ds :
  Forall2 (alike vh sh) cs ds ->
  forall res st,
    outcome (or_loop (fun c => eval c vh sh) cb cs res st)
    = outcome (or_loop (fun c => eval c vh sh) cb ds res st).
Proof.
  induction 1 as [|c d cs ds Hc _ IH]; intros res st; [reflexivity|].
  cbn [or_loop]. specialize (Hc st). unfold outcome in Hc.
  destruct (eval c vh sh st) as [[b c'] s1], (eval d vh sh st) as [[b2 d'] s2].
  cbn in Hc. inversion Hc; subst b2 s2.
  destruct b.
  - destruct cb; [reflexivity|].
    specialize (IH true s1). unfold outcome in IH.
    destruct (or_loop _ false cs true s1) as [[r1 x1] y1],
             (or_loop _ false ds true s1) as [[r2 x2] y2].
    cbn in *. exact IH.
  - specialize (IH res s1). unfold outcome in IH.
    destruct (or_loop _ cb cs res s1) as [[r1 x1] y1],
             (or_loop _ cb ds res s1) as [[r2 x2] y2].
    cbn in *. exact IH.
Qed.

Lemma outcome_and r cb children vh sh st :
  outcome (eval (AndNode r cb children) vh sh st)
  = outcome (and_loop (fun c => eval c vh sh) cb children true st).
Proof.
  rewrite evaluate_and.
  now destruct (and_loop _ cb children true st) as [[b cs'] s1].
Qed.

Lemma outcome_or r cb children vh sh st :
  outcome (eval (OrNode r cb children) vh sh st)
  = outcome (or_loop (fun c => eval c vh sh) cb children false st).
Proof.
  rewrite evaluate_or.
  now destruct (or_loop _ cb children false st) as [[b cs'] s1].
Qed.

Lemma outcome_not r child vh sh st :
  outcome (eval (NotNode r (Some child)) vh sh st)
  = (negb (fst (outcome (eval child vh sh st))), snd (outcome (eval child vh sh st))).
Proof.
  cbn [evaluate]. now destruct (eval child vh sh st) as [[b c'] s1].
Qed.

Lemma alike_shape vh sh t : alike vh sh t (shape t).
Proof.
  induction t as [r name args | r | r child IH | r cb children IH | r cb children IH]
    using Node_induction; intros st; cbn [shape].
  - reflexivity.
  - reflexivity.
  - rewrite !outcome_not, IH. reflexivity.
  - rewrite !outcome_and. apply and_loop_alike.
    induction IH; constructor; auto.
  - rewrite !outcome_or. apply or_loop_alike.
    induction IH; constructor; auto.
Qed.

(** X1. Evaluation never reads a cached result: two trees that differ only
    in their cached results evaluate to the same boolean and leave the same
    run (the same executor calls, the same codes on [sys.stderr]); a tree
    that has been evaluated is evaluated again in full. *)
Theorem evaluate_ignores_cache t1 t2 vh sh st :
  shape t1 = shape t2 ->
  outcome (eval t1 vh sh st) = outcome (eval t2 vh sh st).
Proof.
  intros E. rewrite (alike_shape vh sh t1 st), (alike_shape vh sh t2 st).
  now rewrite E.
Qed.


Lemma and_loop_shape vh sh cb cs :
  Forall (fun c => forall st, shape (snd (fst (eval c vh sh st))) = shape c) cs ->
  forall res st,
    map shape (snd (fst (and_loop (fun c => eval c vh sh) cb cs res st))) = map shape cs.
Proof.
  induction 1 as [|c cs Hc _ IH]; intros res st; [reflexivity|].
  cbn [and_loop]. specialize (Hc st).
  destruct (eval c vh sh st) as [[b c'] s1]. cbn in Hc.
  destruct b; cbn [negb].
  - specialize (IH res s1). destruct (and_loop _ cb cs res s1) as [[r1 x1] y1].
    cbn in *. congruence.
  - destruct cb; [cbn; congruence|].
    specialize (IH false s1). destruct (and_loop _ false cs false s1) as [[r1 x1] y1].
    cbn in *. congruence.
Qed.

Lemma or_loop_shape vh sh cb cs :
  Forall (fun c => forall st, shape (snd (fst (eval c vh sh st))) = shape c) cs ->
  forall res st,
    map shape (snd (fst (or_loop (fun c => eval c vh sh) cb cs res st))) = map shape cs.
Proof.
  induction 1 as [|c cs Hc _ IH]; intros res st; [reflexivity|].
  cbn [or_loop]. specialize (Hc st).
  destruct (eval c vh sh st) as [[b c'] s1]. cbn in Hc.
  destruct b.
  - destruct cb; [cbn; congruence|].
    specialize (IH true s1). destruct (or_loop _ false cs true s1) as [[r1 x1] y1].
    cbn in *. congruence.
  - specialize (IH res s1). destruct (or_loop _ cb cs res s1) as [[r1 x1] y1].
    cbn in *. congruence.
Qed.

Lemma evaluate_shape t vh sh : forall st, shape (snd (fst (eval t vh sh st))) = shape t.
Proof.
  induction t as [r name args | r | r child IH | r cb children IH | r cb children IH]
    using Node_induction; intros st.
  - cbn [evaluate]. unfold invoke.
    now destruct (executor_func _ _ _ _ _) as [code w'].
  - reflexivity.
  - cbn [evaluate]. specialize (IH st).
    destruct (eval child vh sh st) as [[b c'] s1]. cbn in *. now rewrite IH.
  - rewrite evaluate_and.
    pose proof (and_loop_shape vh sh cb children IH true st) as E.
    destruct (and_loop _ cb children true st) as [[b cs'] s1]. cbn in *. now rewrite E.
  - rewrite evaluate_or.
    pose proof (or_loop_shape vh sh cb children IH false st) as E.
    destruct (or_loop _ cb children false st) as [[b cs'] s1]. cbn in *. now rewrite E.
Qed.

End EvaluationLaws.

Lemma str_shape t : __str__ (shape t) = __str__ t.
Proof.
  induction t as [r name args | r | r child IH | r cb children IH | r cb children IH]
    using Node_induction; cbn [shape __str__].
  - reflexivity.
  - reflexivity.
  - now rewrite IH.
  - rewrite map_map, (map_ext_Forall _ _ IH). reflexivity.
  - rewrite map_map, (map_ext_Forall _ _ IH). reflexivity.
Qed.

Lemma collect_shape t :
  collect_script_names_from_tree (shape t) = collect_script_names_from_tree t.
Proof.
  induction t as [r name args | r | r child IH | r cb children IH | r cb children IH]
    using Node_induction; cbn [shape collect_script_names_from_tree].
  - reflexivity.
  - reflexivity.
  - exact IH.
  - rewrite flat_map_concat_map, map_map, <- flat_map_concat_map.
    induction IH as [|c cs Hc _ IHcs]; cbn [flat_map]; congruence.
  - rewrite flat_map_concat_map, map_map, <- flat_map_concat_map.
    induction IH as [|c cs Hc _ IHcs]; cbn [flat_map]; congruence.
Qed.

(** X2. Evaluation changes nothing of a tree but the cached results: the
    tree it leaves has the shape of the tree it was given, hence the same
    text and the same names to collect. *)
Theorem evaluate_keeps_tree (World : Type)
        (executor_func : pystr -> list pystr -> bool -> option pystr -> World -> Z * World)
        t vh sh (st : Run World) :
  let t' := snd (fst (evaluate executor_func t vh sh st)) in
  shape t' = shape t
  /\ __str__ t' = __str__ t
  /\ collect_script_names_from_tree t' = collect_script_names_from_tree t.
Proof.
  cbn zeta. pose proof (evaluate_shape World executor_func t vh sh st) as E.
  split; [exact E|]. split.
  - now rewrite <- str_shape, E, str_shape.
  - now rewrite <- collect_shape, E, collect_shape.
Qed.

(** ** The calls of an evaluation *)

Lemma subseq_nil_l (A : Type) (m : list A) : subseq [] m.
Proof. induction m; constructor; auto. Qed.

Lemma subseq_refl (A : Type) (m : list A) : subseq m m.
Proof. induction m; [apply subseq_nil|now apply subseq_take]. Qed.

Lemma subseq_app (A : Type) (l1 m1 l2 m2 : list A) :
  subseq l1 m1 -> subseq l2 m2 -> subseq (l1 ++ l2) (m1 ++ m2).
Proof.
  induction 1; intros H2; cbn; [assumption|apply subseq_skip|apply subseq_take]; auto.
Qed.

Lemma subseq_In (A : Type) (l m : list A) x : subseq l m -> In x l -> In x m.
Proof. induction 1; cbn; intuition. Qed.

Lemma eager_children r cb children :
  eager (AndNode r cb children) -> cb = false /\ Forall eager children.
Proof.
  intros [E H]. split; [exact E|]. clear E.
  induction children as [|c cs IH]; constructor; cbn in H; tauto.
Qed.

Lemma eager_children_or r cb children :
  eager (OrNode r cb children) -> cb = false /\ Forall eager children.
Proof.
  intros [E H]. split; [exact E|]. clear E.
  induction children as [|c cs IH]; constructor; cbn in H; tauto.
Qed.

Section EvaluationCalls.

Variable World : Type.
Variable executor_func :
  pystr -> list pystr -> bool -> option pystr -> World -> Z * World.

(** How the names of the calls compare with the names of the tree: [R] is
    [subseq] when some operator may break ([breaking]), equality when
    none does. *)
Variable R : list pystr -> list pystr -> Prop.
Variable breaking : Prop.
Hypothesis R_refl : forall l, R l l.
Hypothesis R_app : forall l1 m1 l2 m2, R l1 m1 -> R l2 m2 -> R (l1 ++ l2) (m1 ++ m2).
Hypothesis R_more : breaking -> forall l m m2, R l m -> R l (m ++ m2).

(** What is known of the status codes of the executor. *)
Variable Pcode : Z -> Prop.
Hypothesis executor_codes : forall name args vh expected w,
  Pcode (fst (executor_func name args vh expected w)).

#[local] Abbreviation eval := (evaluate executor_func).

Lemma made_by_none vh sh (st : Run World) : made_by R Pcode vh sh [] st st.
Proof.
  exists [], []. unfold adds. rewrite !app_nil_r. repeat split; auto.
Qed.

Lemma made_by_app vh sh n1 n2 (st st1 st2 : Run World) :
  made_by R Pcode vh sh n1 st st1 -> made_by R Pcode vh sh n2 st1 st2 ->
  made_by R Pcode vh sh (n1 ++ n2) st st2.
Proof.
  intros (new1 & codes1 & (Ec1 & Ee1 & El1) & Hp1 & Hs1 & Hf1)
         (new2 & codes2 & (Ec2 & Ee2 & El2) & Hp2 & Hs2 & Hf2).
  exists (new1 ++ new2), (codes1 ++ codes2). unfold adds.
  rewrite Ec2, Ee2, Ec1, Ee1, <- !app_assoc, !length_app, map_app.
  repeat split; auto; now apply Forall_app.
Qed.

Lemma made_by_more vh sh n1 n2 (st st1 : Run World) :
  breaking -> made_by R Pcode vh sh n1 st st1 -> made_by R Pcode vh sh (n1 ++ n2) st st1.
Proof.
  intros B (new1 & codes1 & A & Hp1 & Hs1 & Hf1).
  exists new1, codes1. repeat split; auto; apply A.
Qed.

Lemma and_loop_calls vh sh cb cs :
  breaking \/ cb = false ->
  Forall (fun c => forall st : Run World,
            made_by R Pcode vh sh (collect_script_names_from_tree c) st (snd (eval c vh sh st))) cs ->
  forall res st,
    made_by R Pcode vh sh (flat_map collect_script_names_from_tree cs) st
            (snd (and_loop (fun c => eval c vh sh) cb cs res st)).
Proof.
  intros Hb. induction 1 as [|c cs Hc _ IH]; intros res st; [apply made_by_none|].
  cbn [and_loop flat_map]. specialize (Hc st).
  destruct (eval c vh sh st) as [[b c'] s1]. cbn [snd] in Hc.
  destruct b; cbn [negb].
  - specialize (IH res s1). destruct (and_loop _ cb cs res s1) as [[r1 x1] y1].
    cbn [snd] in *. now apply made_by_app with s1.
  - destruct cb.
    + cbn [snd]. apply made_by_more; [|exact Hc]. destruct Hb; [assumption|discriminate].
    + specialize (IH false s1). destruct (and_loop _ false cs false s1) as [[r1 x1] y1].
      cbn [snd] in *. now apply made_by_app with s1.
Qed.

Lemma or_loop_calls vh sh cb cs :
  breaking \/ cb = false ->
  Forall (fun c => forall st : Run World,
            made_by R Pcode vh sh (collect_script_names_from_tree c) st (snd (eval c vh sh st))) cs ->
  forall res st,
    made_by R Pcode vh sh (flat_map collect_script_names_from_tree cs) st
            (snd (or_loop (fun c => eval c vh sh) cb cs res st)).
Proof.
  intros Hb. induction 1 as [|c cs Hc _ IH]; intros res st; [apply made_by_none|].
  cbn [or_loop flat_map]. specialize (Hc st).
  destruct (eval c vh sh st) as [[b c'] s1]. cbn [snd] in Hc.
  destruct b.
  - destruct cb.
    + cbn [snd]. apply made_by_more; [|exact Hc]. destruct Hb; [assumption|discriminate].
    + specialize (IH true s1). destruct (or_loop _ false cs true s1) as [[r1 x1] y1].
      cbn [snd] in *. now apply made_by_app with s1.
  - specialize (IH res s1). destruct (or_loop _ cb cs res s1) as [[r1 x1] y1].
    cbn [snd] in *. now apply made_by_app with s1.
Qed.

Lemma evaluate_made_by vh sh t :
  breaking \/ eager t ->
  forall st : Run World,
    made_by R Pcode vh sh (collect_script_names_from_tree t) st (snd (eval t vh sh st)).
Proof.
  induction t as [r name args | r | r child IH | r cb children IH | r cb children IH]
    using Node_induction; intros Hb st.
  - cbn [evaluate collect_script_names_from_tree]. unfold invoke.
    pose proof (executor_codes name args vh (expected_hash_of name vh sh) (world st)) as Hc.
    destruct (executor_func _ _ _ _ _) as [code w'].
    exists [mkCall name args vh (expected_hash_of name vh sh)], [code].
    unfold adds. cbn. repeat split; auto.
  - apply made_by_none.
  - cbn [evaluate collect_script_names_from_tree]. specialize (IH Hb st).
    now destruct (eval child vh sh st) as [[b c'] s1].
  - rewrite evaluate_and. cbn [collect_script_names_from_tree].
    assert (Hcb : breaking \/ cb = false).
    { destruct Hb as [B|E]; [now left|right; apply (eager_children _ _ _ E)]. }
    assert (Hcs : Forall (fun c => forall st : Run World,
               made_by R Pcode vh sh (collect_script_names_from_tree c) st
                       (snd (eval c vh sh st))) children).
    { assert (He : breaking \/ Forall eager children).
      { destruct Hb as [B|E]; [now left|right; apply (eager_children _ _ _ E)]. }
      clear Hb. induction IH as [|c cs Hc _ IHcs]; constructor.
      - apply Hc. destruct He as [B|E]; [now left|right; now inversion E].
      - apply IHcs. destruct He as [B|E]; [now left|right; now inversion E]. }
    pose proof (and_loop_calls vh sh cb children Hcb Hcs true st) as M.
    now destruct (and_loop _ cb children true st) as [[b cs'] s1].
  - rewrite evaluate_or. cbn [collect_script_names_from_tree].
    assert (Hcb : breaking \/ cb = false).
    { destruct Hb as [B|E]; [now left|right; apply (eager_children_or _ _ _ E)]. }
    assert (Hcs : Forall (fun c => forall st : Run World,
               made_by R Pcode vh sh (collect_script_names_from_tree c) st
                       (snd (eval c vh sh st))) children).
    { assert (He : breaking \/ Forall eager children).
      { destruct Hb as [B|E]; [now left|right; apply (eager_children_or _ _ _ E)]. }
      clear Hb. induction IH as [|c cs Hc _ IHcs]; constructor.
      - apply Hc. destruct He as [B|E]; [now left|right; now inversion E].
      - apply IHcs. destruct He as [B|E]; [now left|right; now inversion E]. }
    pose proof (or_loop_calls vh sh cb children Hcb Hcs false st) as M.
    now destruct (or_loop _ cb children false st) as [[b cs'] s1].
Qed.

End EvaluationCalls.

(** X3. The executor calls of an evaluation follow the tree: what the
    evaluation of a tree adds to the run is a list of calls whose names are
    names of atoms of the tree, in the order of the tree (left to right)
    and each atom at most once, every call made with the [verify_hash] flag
    given and the expected hash looked up for its name, and one code on
    [sys.stderr] for each call. *)
Theorem evaluate_calls_in_order (World : Type)
        (executor_func : pystr -> list pystr -> bool -> option pystr -> World -> Z * World)
        t vh sh (st : Run World) :
  let st' := snd (evaluate executor_func t vh sh st) in
  exists new codes,
    calls st' = calls st ++ new
    /\ stderr st' = stderr st ++ codes
    /\ length codes = length new
    /\ subseq (map call_name new) (collect_script_names_from_tree t)
    /\ Forall (fun c => call_verify c = vh
                        /\ call_expected c = expected_hash_of (call_name c) vh sh) new.
Proof.
  cbn zeta.
  destruct (evaluate_made_by World executor_func subseq True (@subseq_refl _)
              (@subseq_app _)
              (fun _ l m m2 H => eq_ind _ (fun x => subseq x (m ++ m2))
                                   (subseq_app _ _ _ _ _ H (subseq_nil_l _ m2)) _
                                   (app_nil_r l))
              (fun _ => True) (fun _ _ _ _ _ => I)
              vh sh t (or_introl I) st)
    as (new & codes & (Ec & Ee & El) & _ & Hs & Hf).
  exists new, codes. auto.
Qed.

(** X4. Without circuit breaking every atom is run: in a tree whose
    operators are all of the kinds [&] and [|], the names of the calls that
    an evaluation makes are the names that
    [collect_script_names_from_tree] collects, one call for each atom, in
    the same order, whatever the calls return. *)
Theorem evaluate_eager_calls (World : Type)
        (executor_func : pystr -> list pystr -> bool -> option pystr -> World -> Z * World)
        t vh sh (st : Run World) :
  eager t ->
  let st' := snd (evaluate executor_func t vh sh st) in
  exists new codes,
    calls st' = calls st ++ new
    /\ stderr st' = stderr st ++ codes
    /\ length codes = length new
    /\ map call_name new = collect_script_names_from_tree t.
Proof.
  intros He. cbn zeta.
  destruct (evaluate_made_by World executor_func eq False (@eq_refl _)
              (fun l1 m1 l2 m2 H1 H2 => f_equal2 (@app _) H1 H2)
              (fun F => False_ind _ F)
              (fun _ => True) (fun _ _ _ _ _ => I)
              vh sh t (or_intror He) st)
    as (new & codes & (Ec & Ee & El) & _ & Hs & Hf).
  exists new, codes. auto.
Qed.

Lemma evaluate_eager_calls_witness :
  let t := AndNode RNone false
             [ScriptNode RNone (py "B") []; ScriptNode RNone (py "A") [py "x"];
              NotNode RNone (Some (OrNode RNone false [ScriptNode RNone (py "C") []]))] in
  let st := mkRun ([] : list pystr) [] [] in
  eager t
  /\ exists new codes,
       calls (snd (evaluate demo_executor t false None st)) = calls st ++ new
       /\ stderr (snd (evaluate demo_executor t false None st)) = stderr st ++ codes
       /\ length codes = length new
       /\ map call_name new = [py "B"; py "A"; py "C"].
Proof.
  cbn zeta. split; [cbn; tauto|].
  apply (evaluate_eager_calls (list pystr) demo_executor
           (AndNode RNone false
             [ScriptNode RNone (py "B") []; ScriptNode RNone (py "A") [py "x"];
              NotNode RNone (Some (OrNode RNone false [ScriptNode RNone (py "C") []]))])
           false None (mkRun [] [] [])).
  cbn. tauto.
Defined.

(** ** Laws of the operators *)

Section EvaluationAlgebra.

Variable World : Type.
Variable executor_func :
  pystr -> list pystr -> bool -> option pystr -> World -> Z * World.

#[local] Abbreviation eval := (evaluate executor_func).
#[local] Abbreviation alike := (alike executor_func).
#[local] Abbreviation outcome_and := (outcome_and World executor_func).
#[local] Abbreviation outcome_or := (outcome_or World executor_func).
#[local] Abbreviation outcome_not := (outcome_not World executor_func).

(** The [or] loop on the negated children is the [and] loop on the
    children, negated. *)
Lemma or_loop_negated vh sh cb cs : forall res (st : Run World),
  outcome (or_loop (fun c => eval c vh sh) cb (negated cs) (negb res) st)
  = (negb (fst (outcome (and_loop (fun c => eval c vh sh) cb cs res st))),
     snd (outcome (and_loop (fun c => eval c vh sh) cb cs res st))).
Proof.
  induction cs as [|c cs IH]; intros res st; [reflexivity|].
  cbn [negated map or_loop and_loop]. fold (negated cs).
  cbn [evaluate]. destruct (eval c vh sh st) as [[b c'] s1].
  destruct b; cbn [negb].
  - specialize (IH res s1).
    destruct (or_loop _ cb (negated cs) (negb res) s1) as [[r1 x1] y1],
             (and_loop _ cb cs res s1) as [[r2 x2] y2]. exact IH.
  - destruct cb; [reflexivity|].
    specialize (IH false s1). cbn [negb] in IH.
    destruct (or_loop _ false (negated cs) true s1) as [[r1 x1] y1],
             (and_loop _ false cs false s1) as [[r2 x2] y2]. exact IH.
Qed.

Lemma and_loop_negated vh sh cb cs : forall res (st : Run World),
  outcome (and_loop (fun c => eval c vh sh) cb (negated cs) (negb res) st)
  = (negb (fst (outcome (or_loop (fun c => eval c vh sh) cb cs res st))),
     snd (outcome (or_loop (fun c => eval c vh sh) cb cs res st))).
Proof.
  induction cs as [|c cs IH]; intros res st; [reflexivity|].
  cbn [negated map or_loop and_loop]. fold (negated cs).
  cbn [evaluate]. destruct (eval c vh sh st) as [[b c'] s1].
  destruct b; cbn [negb].
  - destruct cb; [reflexivity|].
    specialize (IH true s1). cbn [negb] in IH.
    destruct (and_loop _ false (negated cs) false s1) as [[r1 x1] y1],
             (or_loop _ false cs true s1) as [[r2 x2] y2]. exact IH.
  - specialize (IH res s1).
    destruct (and_loop _ cb (negated cs) (negb res) s1) as [[r1 x1] y1],
             (or_loop _ cb cs res s1) as [[r2 x2] y2]. exact IH.
Qed.

(** X5. De Morgan, calls included: the negation of an [AndNode] evaluates
    as the [OrNode] of the same kind (circuit-breaking or not) on the
    negated children, and the negation of an [OrNode] as the [AndNode] on
    the negated children: the same boolean, the same executor calls in the
    same order, the same codes on [sys.stderr]. *)
Theorem de_morgan r r1 r2 cb children vh sh :
  alike vh sh (NotNode r (Some (AndNode r1 cb children))) (OrNode r2 cb (negated children))
  /\ alike vh sh (NotNode r (Some (OrNode r1 cb children))) (AndNode r2 cb (negated children)).
Proof.
  split; intros st.
  - rewrite outcome_not, outcome_and, outcome_or.
    symmetry. apply (or_loop_negated vh sh cb children true st).
  - rewrite outcome_not, outcome_and, outcome_or.
    symmetry. apply (and_loop_negated vh sh cb children false st).
Qed.


(** Without circuit breaking the loops go through all the children; the
    value they start with only enters the boolean. *)
Lemma and_loop_start vh sh cs : forall res (st : Run World),
  outcome (and_loop (fun c => eval c vh sh) false cs res st)
  = (res && fst (outcome (and_loop (fun c => eval c vh sh) false cs true st)),
     snd (outcome (and_loop (fun c => eval c vh sh) false cs true st))).
Proof.
  induction cs as [|c cs IH]; intros res st.
  - cbn. now rewrite andb_true_r.
  - cbn [and_loop]. destruct (eval c vh sh st) as [[b c'] s1].
    destruct b; cbn [negb].
    + specialize (IH res s1).
      destruct (and_loop _ false cs res s1) as [[r1 x1] y1],
               (and_loop _ false cs true s1) as [[r2 x2] y2]. exact IH.
    + specialize (IH false s1).
      destruct (and_loop _ false cs false s1) as [[r1 x1] y1],
               (and_loop _ false cs true s1) as [[r2 x2] y2].
      unfold outcome in *. cbn in *. inversion IH; subst. now rewrite andb_false_r.
Qed.

Lemma or_loop_start vh sh cs : forall res (st : Run World),
  outcome (or_loop (fun c => eval c vh sh) false cs res st)
  = (res || fst (outcome (or_loop (fun c => eval c vh sh) false cs false st)),
     snd (outcome (or_loop (fun c => eval c vh sh) false cs false st))).
Proof.
  induction cs as [|c cs IH]; intros res st.
  - cbn. now rewrite orb_false_r.
  - cbn [or_loop]. destruct (eval c vh sh st) as [[b c'] s1].
    destruct b.
    + specialize (IH true s1).
      destruct (or_loop _ false cs true s1) as [[r1 x1] y1],
               (or_loop _ false cs false s1) as [[r2 x2] y2].
      unfold outcome in *. cbn in *. inversion IH; subst. now rewrite orb_true_r.
    + specialize (IH res s1).
      destruct (or_loop _ false cs res s1) as [[r1 x1] y1],
               (or_loop _ false cs false s1) as [[r2 x2] y2]. exact IH.
Qed.

(** The loop on two lists of children, one after the other. *)
Lemma and_loop_app vh sh cb xs ys : forall res (st : Run World),
  (cb = true -> res = true) ->
  outcome (and_loop (fun c => eval c vh sh) cb (xs ++ ys) res st)
  = let '(b, s1) := outcome (and_loop (fun c => eval c vh sh) cb xs res st) in
    if cb && negb b then (false, s1)
    else outcome (and_loop (fun c => eval c vh sh) cb ys b s1).
Proof.
  induction xs as [|c xs IH]; intros res st Hres.
  - cbn. destruct cb; [now rewrite Hres|reflexivity].
  - cbn [app and_loop]. destruct (eval c vh sh st) as [[b c'] s1].
    destruct b; cbn [negb].
    + specialize (IH res s1 Hres).
      destruct (and_loop _ cb (xs ++ ys) res s1) as [[r1 x1] y1],
               (and_loop _ cb xs res s1) as [[r2 x2] y2]. exact IH.
    + destruct cb; [reflexivity|].
      specialize (IH false s1 ltac:(discriminate)).
      destruct (and_loop _ false (xs ++ ys) false s1) as [[r1 x1] y1],
               (and_loop _ false xs false s1) as [[r2 x2] y2]. exact IH.
Qed.

Lemma or_loop_app vh sh cb xs ys : forall res (st : Run World),
  (cb = true -> res = false) ->
  outcome (or_loop (fun c => eval c vh sh) cb (xs ++ ys) res st)
  = let '(b, s1) := outcome (or_loop (fun c => eval c vh sh) cb xs res st) in
    if cb && b then (true, s1)
    else outcome (or_loop (fun c => eval c vh sh) cb ys b s1).
Proof.
  induction xs as [|c xs IH]; intros res st Hres.
  - cbn. destruct cb; [now rewrite Hres|reflexivity].
  - cbn [app or_loop]. destruct (eval c vh sh st) as [[b c'] s1].
    destruct b.
    + destruct cb; [reflexivity|].
      specialize (IH true s1 ltac:(discriminate)).
      destruct (or_loop _ false (xs ++ ys) true s1) as [[r1 x1] y1],
               (or_loop _ false xs true s1) as [[r2 x2] y2]. exact IH.
    + specialize (IH res s1 Hres).
      destruct (or_loop _ cb (xs ++ ys) res s1) as [[r1 x1] y1],
               (or_loop _ cb xs res s1) as [[r2 x2] y2]. exact IH.
Qed.

(** An operator among the children of an operator of the same kind. *)
Lemma and_loop_nested vh sh cb r' xs post res (st : Run World) :
  (cb = true -> res = true) ->
  outcome (and_loop (fun c => eval c vh sh) cb (AndNode r' cb xs :: post) res st)
  = outcome (and_loop (fun c => eval c vh sh) cb (xs ++ post) res st).
Proof.
  intros Hres. rewrite (and_loop_app vh sh cb xs post res st Hres).
  cbn [and_loop]. rewrite evaluate_and.
  destruct cb.
  - rewrite (Hres eq_refl).
    destruct (and_loop _ true xs true st) as [[b cs'] s1]. cbn.
    destruct b; cbn; [|reflexivity].
    now destruct (and_loop _ true post true s1) as [[r1 x1] y1].
  - rewrite (and_loop_start vh sh xs res st).
    destruct (and_loop _ false xs true st) as [[b cs'] s1]. cbn.
    destruct b; cbn.
    + rewrite andb_true_r. now destruct (and_loop _ false post res s1) as [[r1 x1] y1].
    + rewrite andb_false_r. now destruct (and_loop _ false post false s1) as [[r1 x1] y1].
Qed.

Lemma or_loop_nested vh sh cb r' xs post res (st : Run World) :
  (cb = true -> res = false) ->
  outcome (or_loop (fun c => eval c vh sh) cb (OrNode r' cb xs :: post) res st)
  = outcome (or_loop (fun c => eval c vh sh) cb (xs ++ post) res st).
Proof.
  intros Hres. rewrite (or_loop_app vh sh cb xs post res st Hres).
  cbn [or_loop]. rewrite evaluate_or.
  destruct cb.
  - rewrite (Hres eq_refl).
    destruct (or_loop _ true xs false st) as [[b cs'] s1]. cbn.
    destruct b; cbn; [reflexivity|].
    now destruct (or_loop _ true post false s1) as [[r1 x1] y1].
  - rewrite (or_loop_start vh sh xs res st).
    destruct (or_loop _ false xs false st) as [[b cs'] s1]. cbn.
    destruct b; cbn.
    + rewrite orb_true_r. now destruct (or_loop _ false post true s1) as [[r1 x1] y1].
    + rewrite orb_false_r. now destruct (or_loop _ false post res s1) as [[r1 x1] y1].
Qed.

(** X6. An operator directly under an operator of the same kind can be
    written inline: [op [ pre, op [ xs ], post ]] evaluates as
    [op [ pre, xs, post ]], for each of [&&], [&], [||] and [|]: the same
    boolean, the same executor calls in the same order, the same codes on
    [sys.stderr]. *)
Theorem nested_operator_inline r r' cb pre xs post vh sh :
  alike vh sh (AndNode r cb (pre ++ AndNode r' cb xs :: post))
              (AndNode r cb (pre ++ xs ++ post))
  /\ alike vh sh (OrNode r cb (pre ++ OrNode r' cb xs :: post))
                 (OrNode r cb (pre ++ xs ++ post)).
Proof.
  split; intros st.
  - rewrite !outcome_and.
    rewrite (and_loop_app vh sh cb pre _ true st (fun _ => eq_refl)).
    rewrite (and_loop_app vh sh cb pre (xs ++ post) true st (fun _ => eq_refl)).
    destruct (outcome (and_loop _ cb pre true st)) as [b s1] eqn:E.
    destruct (cb && negb b) eqn:Eb; [reflexivity|].
    apply and_loop_nested. intros ->. now destruct b.
  - rewrite !outcome_or.
    rewrite (or_loop_app vh sh cb pre _ false st (fun _ => eq_refl)).
    rewrite (or_loop_app vh sh cb pre (xs ++ post) false st (fun _ => eq_refl)).
    destruct (outcome (or_loop _ cb pre false st)) as [b s1] eqn:E.
    destruct (cb && b) eqn:Eb; [reflexivity|].
    apply or_loop_nested. intros ->. now destruct b.
Qed.

(** X7. An operator with one child, and a double negation, evaluate as
    the child itself does: the same boolean and the same run. *)
Theorem single_child_and_double_negation r r' cb c vh sh :
  alike vh sh (AndNode r cb [c]) c
  /\ alike vh sh (OrNode r cb [c]) c
  /\ alike vh sh (NotNode r (Some (NotNode r' (Some c)))) c.
Proof.
  repeat split; intros st.
  - rewrite outcome_and. cbn [and_loop].
    destruct (eval c vh sh st) as [[b c'] s1]. now destruct b, cb.
  - rewrite outcome_or. cbn [or_loop].
    destruct (eval c vh sh st) as [[b c'] s1]. now destruct b, cb.
  - rewrite !outcome_not. cbn [fst snd]. rewrite negb_involutive.
    now destruct (outcome (eval c vh sh st)).
Qed.

End EvaluationAlgebra.

(** ** Evaluation with an executor that can be left by an exception *)

Section EscapingProperties.

Variable World : Type.
Variable executor_func :
  pystr -> list pystr -> bool -> option pystr -> World -> Ending Z * World.

(** What is known of the status codes that the executor returns. *)
Variable Pcode : Z -> Prop.
Hypothesis executor_codes : forall name args vh expected w code,
  fst (executor_func name args vh expected w) = Normal code -> Pcode code.

#[local] Abbreviation eval := (evaluate_escaping executor_func).
#[local] Abbreviation run := (escaping_run executor_func Pcode).

(** The loops inside [evaluate_escaping] are [and_loop_escaping] and
    [or_loop_escaping] at [evaluate_escaping] itself. *)
Lemma evaluate_escaping_and r cb children vh sh st :
  eval (AndNode r cb children) vh sh st =
  match and_loop_escaping (fun c => eval c vh sh) cb children true st with
  | (Normal result, children', st1) =>
      (Normal result, AndNode (RBool result) cb children', st1)
  | (Escaped status, children', st1) => (Escaped status, AndNode r cb children', st1)
  end.
Proof.
  set (L := and_loop_escaping (fun c => eval c vh sh) cb).
  cbn [evaluate_escaping].
  match goal with
  | |- context [?f children true st] =>
      assert (E : forall cs res s, f cs res s = L cs res s)
  end; subst L.
  { induction cs as [|c cs IH]; intros res s; [reflexivity|].
    cbn [and_loop_escaping]. destruct (eval c vh sh s) as [[[b|status] c'] s1];
      [rewrite !IH|]; reflexivity. }
  rewrite E. reflexivity.
Qed.

Lemma evaluate_escaping_or r cb children vh sh st :
  eval (OrNode r cb children) vh sh st =
  match or_loop_escaping (fun c => eval c vh sh) cb children false st with
  | (Normal result, children', st1) =>
      (Normal result, OrNode (RBool result) cb children', st1)
  | (Escaped status, children', st1) => (Escaped status, OrNode r cb children', st1)
  end.
Proof.
  set (L := or_loop_escaping (fun c => eval c vh sh) cb).
  cbn [evaluate_escaping].
  match goal with
  | |- context [?f children false st] =>
      assert (E : forall cs res s, f cs res s = L cs res s)
  end; subst L.
  { induction cs as [|c cs IH]; intros res s; [reflexivity|].
    cbn [or_loop_escaping]. destruct (eval c vh sh s) as [[[b|status] c'] s1];
      [rewrite !IH|]; reflexivity. }
  rewrite E. reflexivity.
Qed.

(** Calls that all returned, followed by more calls. *)
Lemma statuses_app new1 : forall codes1 w w1 new2,
  statuses executor_func new1 w = (map Normal codes1, w1) ->
  statuses executor_func (new1 ++ new2) w
  = let '(more, w2) := statuses executor_func new2 w1 in (map Normal codes1 ++ more, w2).
Proof.
  induction new1 as [|c new1 IH]; intros codes1 w w1 new2 H; cbn in H |- *.
  - destruct codes1; [|discriminate]. inversion H; subst.
    now destruct (statuses executor_func new2 w1).
  - destruct (executor_func _ _ _ _ w) as [[code|status] w'].
    + destruct (statuses executor_func new1 w') as [more1 w1'] eqn:E1.
      destruct codes1 as [|code1 codes1]; [discriminate|]. cbn in H. inversion H; subst.
      rewrite (IH codes1 w' w1 new2 E1).
      now destruct (statuses executor_func new2 w1).
    + destruct codes1; discriminate.
Qed.

Lemma run_none vh sh (st : Run World) : run vh sh [] None st st.
Proof.
  exists [], []. rewrite !app_nil_r. repeat split; auto. constructor.
Qed.

Lemma run_app vh sh n1 n2 escape (st st1 st2 : Run World) :
  run vh sh n1 None st st1 -> run vh sh n2 escape st1 st2 ->
  run vh sh (n1 ++ n2) escape st st2.
Proof.
  intros (new1 & codes1 & Ec1 & Ee1 & Es1 & El1 & Hp1 & Hs1 & Hf1)
         (new2 & codes2 & Ec2 & Ee2 & Es2 & El2 & Hp2 & Hs2 & Hf2).
  exists (new1 ++ new2), (codes1 ++ codes2).
  unfold endings in *. rewrite app_nil_r in Es1, El1.
  rewrite Ec2, Ee2, Ec1, Ee1, <- !app_assoc.
  split; [reflexivity|]. split; [reflexivity|].
  split.
  { rewrite (statuses_app new1 codes1 (world st) (world st1) new2 Es1), Es2.
    now rewrite map_app, <- app_assoc. }
  split.
  { now rewrite !length_app, El1, El2, map_app, !length_app, Nat.add_assoc. }
  split; [now apply Forall_app|].
  split; [rewrite map_app; now apply subseq_app|now apply Forall_app].
Qed.

Lemma run_more vh sh n1 n2 escape (st st1 : Run World) :
  run vh sh n1 escape st st1 -> run vh sh (n1 ++ n2) escape st st1.
Proof.
  intros (new1 & codes1 & Ec1 & Ee1 & Es1 & El1 & Hp1 & Hs1 & Hf1).
  exists new1, codes1. repeat split; auto.
  rewrite <- (app_nil_r (map call_name new1)).
  apply subseq_app; [assumption|apply subseq_nil_l].
Qed.

Lemma and_loop_escaping_run vh sh cb cs :
  Forall (fun c => forall st : Run World,
            run vh sh (collect_script_names_from_tree c)
                (escape_of (fst (fst (eval c vh sh st)))) st (snd (eval c vh sh st))) cs ->
  forall res st,
    let r := and_loop_escaping (fun c => eval c vh sh) cb cs res st in
    run vh sh (flat_map collect_script_names_from_tree cs) (escape_of (fst (fst r))) st (snd r).
Proof.
  induction 1 as [|c cs Hc _ IH]; intros res st; [apply run_none|].
  cbn zeta in *. cbn [and_loop_escaping flat_map]. specialize (Hc st).
  destruct (eval c vh sh st) as [[[b|status] c'] s1]; cbn [fst snd escape_of] in Hc.
  - destruct b; cbn [negb].
    + specialize (IH res s1). destruct (and_loop_escaping _ cb cs res s1) as [[r1 x1] y1].
      cbn [fst snd] in *. now apply run_app with s1.
    + destruct cb.
      * cbn [fst snd escape_of]. now apply run_more.
      * specialize (IH false s1).
        destruct (and_loop_escaping _ false cs false s1) as [[r1 x1] y1].
        cbn [fst snd] in *. now apply run_app with s1.
  - cbn [fst snd escape_of]. now apply run_more.
Qed.

Lemma or_loop_escaping_run vh sh cb cs :
  Forall (fun c => forall st : Run World,
            run vh sh (collect_script_names_from_tree c)
                (escape_of (fst (fst (eval c vh sh st)))) st (snd (eval c vh sh st))) cs ->
  forall res st,
    let r := or_loop_escaping (fun c => eval c vh sh) cb cs res st in
    run vh sh (flat_map collect_script_names_from_tree cs) (escape_of (fst (fst r))) st (snd r).
Proof.
  induction 1 as [|c cs Hc _ IH]; intros res st; [apply run_none|].
  cbn zeta in *. cbn [or_loop_escaping flat_map]. specialize (Hc st).
  destruct (eval c vh sh st) as [[[b|status] c'] s1]; cbn [fst snd escape_of] in Hc.
  - destruct b.
    + destruct cb.
      * cbn [fst snd escape_of]. now apply run_more.
      * specialize (IH true s1).
        destruct (or_loop_escaping _ false cs true s1) as [[r1 x1] y1].
        cbn [fst snd] in *. now apply run_app with s1.
    + specialize (IH res s1). destruct (or_loop_escaping _ cb cs res s1) as [[r1 x1] y1].
      cbn [fst snd] in *. now apply run_app with s1.
  - cbn [fst snd escape_of]. now apply run_more.
Qed.

(** What an evaluation makes of a run, whichever way it ends. *)
Lemma evaluate_escaping_run vh sh t :
  forall st : Run World,
    run vh sh (collect_script_names_from_tree t)
        (escape_of (fst (fst (eval t vh sh st)))) st (snd (eval t vh sh st)).
Proof.
  induction t as [r name args | r | r child IH | r cb children IH | r cb children IH]
    using Node_induction; intros st.
  - cbn [evaluate_escaping collect_script_names_from_tree]. unfold invoke_escaping.
    pose proof (executor_codes name args vh (expected_hash_of name vh sh) (world st)) as Hc.
    destruct (executor_func _ _ _ _ _) as [[code|status] w'] eqn:E; cbn [fst snd escape_of].
    + exists [mkCall name args vh (expected_hash_of name vh sh)], [code].
      cbn. rewrite E. repeat split; auto. apply subseq_refl.
    + exists [mkCall name args vh (expected_hash_of name vh sh)], [].
      cbn. rewrite E, app_nil_r. repeat split; auto. apply subseq_refl.
  - apply run_none.
  - cbn [evaluate_escaping collect_script_names_from_tree]. specialize (IH st).
    now destruct (eval child vh sh st) as [[[b|status] c'] s1].
  - rewrite evaluate_escaping_and. cbn [collect_script_names_from_tree].
    pose proof (and_loop_escaping_run vh sh cb children IH true st) as M. cbn zeta in M.
    now destruct (and_loop_escaping _ cb children true st) as [[[b|status] cs'] s1].
  - rewrite evaluate_escaping_or. cbn [collect_script_names_from_tree].
    pose proof (or_loop_escaping_run vh sh cb children IH false st) as M. cbn zeta in M.
    now destruct (or_loop_escaping _ cb children false st) as [[[b|status] cs'] s1].
Qed.

End EscapingProperties.

(** With an executor that always returns, [evaluate_escaping] is
    [evaluate]: the evaluation returns, and with the same boolean, the same
    tree and the same run. *)
Lemma evaluate_returning (World : Type)
      (executor_func : pystr -> list pystr -> bool -> option pystr -> World -> Z * World)
      vh sh t :
  forall st : Run World,
    evaluate_escaping (returning executor_func) t vh sh st
    = let '(b, t', st') := evaluate executor_func t vh sh st in (Normal b, t', st').
Proof.
  induction t as [r name args | r | r child IH | r cb children IH | r cb children IH]
    using Node_induction; intros st.
  - cbn [evaluate_escaping evaluate]. unfold invoke_escaping, invoke, returning.
    now destruct (executor_func _ _ _ _ _) as [code w'].
  - reflexivity.
  - cbn [evaluate_escaping evaluate]. rewrite IH.
    now destruct (evaluate executor_func child vh sh st) as [[b c'] s1].
  - rewrite evaluate_escaping_and, evaluate_and.
    assert (E : forall res s,
               and_loop_escaping (fun c => evaluate_escaping (returning executor_func) c vh sh)
                                 cb children res s
               = let '(b, cs', s') :=
                   and_loop (fun c => evaluate executor_func c vh sh) cb children res s in
                 (Normal b, cs', s')).
    { induction IH as [|c cs Hc _ IHcs]; intros res s; [reflexivity|].
      cbn [and_loop_escaping and_loop]. rewrite Hc.
      destruct (evaluate executor_func c vh sh s) as [[b c'] s1].
      destruct b; cbn [negb].
      - rewrite IHcs. now destruct (and_loop _ cb cs res s1) as [[r1 x1] y1].
      - destruct cb; [reflexivity|].
        rewrite IHcs. now destruct (and_loop _ false cs false s1) as [[r1 x1] y1]. }
    rewrite E. now destruct (and_loop _ cb children true st) as [[b cs'] s1].
  - rewrite evaluate_escaping_or, evaluate_or.
    assert (E : forall res s,
               or_loop_escaping (fun c => evaluate_escaping (returning executor_func) c vh sh)
                                cb children res s
               = let '(b, cs', s') :=
                   or_loop (fun c => evaluate executor_func c vh sh) cb children res s in
                 (Normal b, cs', s')).
    { induction IH as [|c cs Hc _ IHcs]; intros res s; [reflexivity|].
      cbn [or_loop_escaping or_loop]. rewrite Hc.
      destruct (evaluate executor_func c vh sh s) as [[b c'] s1].
      destruct b.
      - destruct cb; [reflexivity|].
        rewrite IHcs. now destruct (or_loop _ false cs true s1) as [[r1 x1] y1].
      - rewrite IHcs. now destruct (or_loop _ cb cs res s1) as [[r1 x1] y1]. }
    rewrite E. now destruct (or_loop _ cb children false st) as [[b cs'] s1].
Qed.

(** ** What the driver runs and writes *)

Section DriverRuns.

Variable World : Type.
Variable os_getcwd : World -> pystr.
Variable os_path_join : pystr -> pystr -> pystr.
Variable os_path_isdir : World -> pystr -> bool.
Variable os_path_exists : World -> pystr -> bool.
Variable calculate_directory_hash : World -> pystr -> option (list pystr) -> option pystr.
Variable PyModule : Type.
Variable exec_module : pystr -> pystr -> World -> Ending (option PyModule) * World.
Variable hasattr : PyModule -> pystr -> bool.
Variable call_function :
  PyModule -> pystr -> list pystr -> World -> Ending bool * World.
Variable list_of_set : list pystr -> list pystr.

Hypothesis list_of_set_In : forall names name,
  In name (list_of_set names) <-> In name names.

#[local] Abbreviation passes :=
  (passes_checks os_getcwd os_path_join os_path_isdir calculate_directory_hash).
#[local] Abbreviation verify_names :=
  (verify_all os_getcwd os_path_join os_path_isdir calculate_directory_hash).
#[local] Abbreviation executor :=
  (dynamic_import_and_run os_getcwd os_path_join os_path_isdir os_path_exists
                          calculate_directory_hash exec_module hasattr call_function).
#[local] Abbreviation driver :=
  (run_driver os_getcwd os_path_join os_path_isdir os_path_exists
              calculate_directory_hash exec_module hasattr call_function list_of_set).

(** The names the pre-flight loop has passed, and where it stands. *)
Lemma verify_all_inv registry w names : forall checked ok checked',
  verify_names registry w names checked = (ok, checked') ->
  exists looked rest,
    checked' = checked ++ looked /\ names = looked ++ rest
    /\ (ok = true -> rest = [] /\ Forall (passes registry w) names).
Proof.
  induction names as [|n names IH]; intros checked ok checked' H; cbn in H.
  - inversion H; subst. exists [], []. rewrite app_nil_r. auto.
  - cbn zeta in H.
    destruct (os_path_isdir w _) eqn:Ed; cbn in H.
    2:{ inversion H; subst. exists [n], names. repeat split; auto; discriminate. }
    destruct (dict_get registry n) as [e|] eqn:Er.
    2:{ inversion H; subst. exists [n], names. repeat split; auto; discriminate. }
    destruct (calculate_directory_hash w _ _) as [h|] eqn:Eh.
    2:{ inversion H; subst. exists [n], names. repeat split; auto; discriminate. }
    destruct (pystr_eqb h e) eqn:Ee.
    2:{ inversion H; subst. exists [n], names. repeat split; auto; discriminate. }
    apply pystr_eqb_eq in Ee. subst h.
    destruct (IH _ _ _ H) as (looked & rest & -> & -> & Hok).
    exists (n :: looked), rest. rewrite <- app_assoc. repeat split; auto.
    + now apply Hok.
    + constructor; [|now apply Hok].
      split; [exact Ed|]. now exists e.
Qed.

(** When [dynamic_import_and_run] returns, it returns 0 or 1. *)
Lemma executor_code name args vh expected w code :
  fst (executor name args vh expected w) = Normal code -> code = 0 \/ code = 1.
Proof.
  unfold dynamic_import_and_run. cbn zeta.
  destruct (negb (os_path_isdir w _)); [intros [= <-]; now right|].
  destruct (match expected with Some _ => _ | None => false end);
    [intros [= <-]; now right|].
  destruct (negb (os_path_exists w _)); [intros [= <-]; now right|].
  destruct (exec_module _ _ w) as [[[m|]|status] w1];
    [|intros [= <-]; now right|discriminate].
  destruct (negb (hasattr m name)); [intros [= <-]; now right|].
  destruct (call_function m name args w1) as [[[|]|status] w2];
    [intros [= <-]; now left|intros [= <-]; now right|discriminate].
Qed.

(** What a run of the driver comes to: nothing run, or the evaluation of
    the tree after a pre-flight loop that has passed every name. *)
Lemma driver_cases registry fuel argv w out :
  driver registry fuel argv w = Some out ->
  (exists checked, out = mkOutcome 1 checked (mkRun w [] [1]))
  \/ (exists tree,
        Forall (passes registry w) (list_of_set (collect_script_names_from_tree tree))
        /\ match evaluate_escaping executor tree false (Some registry) (mkRun w [] []) with
           | (Normal logical_result, _, st1) =>
               let code := if logical_result then 0 else 1 in
               out = mkOutcome code (list_of_set (collect_script_names_from_tree tree))
                               (write_stderr code st1)
           | (Escaped status, _, st1) =>
               out = mkOutcome status (list_of_set (collect_script_names_from_tree tree)) st1
           end).
Proof.
  unfold run_driver. intros H.
  destruct argv as [|prog [|log_id [|expression more]]];
    try (inversion H; subst; left; now exists []).
  destruct (parse_logical_expression fuel expression) as [[tree|]|]; [| |discriminate].
  2:{ inversion H; subst; left; now exists []. }
  destruct (verify_names registry w _ []) as [ok checked] eqn:Ev.
  destruct (verify_all_inv registry w _ _ _ _ Ev) as (looked & rest & -> & En & Hok).
  destruct ok; cbn [negb] in H.
  - right. exists tree. destruct (Hok eq_refl) as [-> Hall]. split; [exact Hall|].
    rewrite app_nil_r in En. rewrite En.
    destruct (evaluate_escaping executor tree false (Some registry) (mkRun w [] []))
      as [[[b|status] t'] st1]; cbn in *; now inversion H.
  - inversion H; subst. left. now exists looked.
Qed.

(** The calls of a run of the driver that has evaluated its tree. *)
Lemma driver_evaluation registry tree w :
  escaping_run executor (fun code => code = 0 \/ code = 1) false (Some registry)
    (collect_script_names_from_tree tree)
    (escape_of (fst (fst (evaluate_escaping executor tree false (Some registry)
                                            (mkRun w [] []))))) (mkRun w [] [])
    (snd (evaluate_escaping executor tree false (Some registry) (mkRun w [] []))).
Proof. apply evaluate_escaping_run. intros *. apply executor_code. Qed.

(** X8. The driver runs only what it has verified: every executor call of
    a run of the driver is for a name that passed the three pre-flight
    checks (directory, registry entry, fingerprint) in the world the driver
    started in. *)
Theorem driver_runs_only_verified registry fuel argv w out :
  run_driver os_getcwd os_path_join os_path_isdir os_path_exists
             calculate_directory_hash exec_module hasattr call_function list_of_set
             registry fuel argv w = Some out ->
  Forall (fun c => passes_checks os_getcwd os_path_join os_path_isdir
                                 calculate_directory_hash registry w (call_name c))
         (calls (final out)).
Proof.
  intros H. destruct (driver_cases registry fuel argv w out H)
    as [(checked & ->) | (tree & Hall & Hout)]; [constructor|].
  destruct (driver_evaluation registry tree w)
    as (new & codes & Ec & Ee & Es & El & Hp & Hs & Hf).
  assert (E : calls (final out) = new).
  { destruct (evaluate_escaping executor tree false (Some registry) (mkRun w [] []))
      as [[[b|status] t'] st1]; cbn zeta in Hout; subst out;
      cbn [final write_stderr calls snd] in *;
      now rewrite Ec. }
  rewrite E. apply Forall_forall. intros c Hc.
  rewrite Forall_forall in Hall. apply Hall, list_of_set_In.
  apply (subseq_In _ _ _ _ Hs). now apply in_map.
Qed.

(** X9. What the driver writes to [sys.stderr], and for which call.  The
    codes before the last line are the statuses that the executor calls
    returned, one for each call, in the order of the calls: the executor
    called again on the recorded calls, from the world the driver started
    in, returns these statuses one after the other and leaves the world of
    the end of the run.  Every one of them is 0 or 1.  Then either every
    call returned, and the exit code, 0 or 1, is the last line; or the
    last call was left by an exception that is not an [Exception]: no code
    is written for this call, no exit code either, and the process ends
    with the status of the exception. *)
Theorem driver_stderr registry fuel argv w out :
  run_driver os_getcwd os_path_join os_path_isdir os_path_exists
             calculate_directory_hash exec_module hasattr call_function list_of_set
             registry fuel argv w = Some out ->
  let executor :=
    dynamic_import_and_run os_getcwd os_path_join os_path_isdir os_path_exists
                           calculate_directory_hash exec_module hasattr call_function in
  exists codes,
    Forall (fun code => code = 0 \/ code = 1) codes
    /\ ((statuses executor (calls (final out)) w = (map Normal codes, world (final out))
         /\ length (calls (final out)) = length codes
         /\ stderr (final out) = codes ++ [exit_code out]
         /\ (exit_code out = 0 \/ exit_code out = 1))
        \/ (statuses executor (calls (final out)) w
            = (map Normal codes ++ [Escaped (exit_code out)], world (final out))
            /\ length (calls (final out)) = S (length codes)
            /\ stderr (final out) = codes)).
Proof.
  intros H. cbn zeta. destruct (driver_cases registry fuel argv w out H)
    as [(checked & ->) | (tree & Hall & Hout)].
  - exists []. split; [constructor|]. left. cbn. auto.
  - destruct (driver_evaluation registry tree w)
      as (new & codes & Ec & Ee & Es & El & Hp & Hs & Hf).
    exists codes. split; [exact Hp|].
    destruct (evaluate_escaping executor tree false (Some registry) (mkRun w [] []))
      as [[[b|status] t'] st1]; cbn zeta in Hout; subst out;
      cbn [final exit_code write_stderr calls stderr world snd fst escape_of] in *;
      unfold endings in Es, El; rewrite Ec, Ee; cbn [app].
    + left. rewrite app_nil_r in Es, El. rewrite length_map in El.
      repeat split; auto. destruct b; auto.
    + right. rewrite length_app, length_map, Nat.add_comm in El. auto.
Qed.

(** X10. During the execution the driver asks for no verification: every
    executor call of a run of the driver is made with [verify_hash] false
    and with no expected hash, whatever the registry holds. *)
Theorem driver_calls_unverified registry fuel argv w out :
  run_driver os_getcwd os_path_join os_path_isdir os_path_exists
             calculate_directory_hash exec_module hasattr call_function list_of_set
             registry fuel argv w = Some out ->
  Forall (fun c => call_verify c = false /\ call_expected c = None) (calls (final out)).
Proof.
  intros H. destruct (driver_cases registry fuel argv w out H)
    as [(checked & ->) | (tree & Hall & Hout)]; [constructor|].
  destruct (driver_evaluation registry tree w)
    as (new & codes & Ec & Ee & Es & El & Hp & Hs & Hf).
  assert (E : calls (final out) = new).
  { destruct (evaluate_escaping executor tree false (Some registry) (mkRun w [] []))
      as [[[b|status] t'] st1]; cbn zeta in Hout; subst out;
      cbn [final write_stderr calls snd] in *;
      now rewrite Ec. }
  rewrite E. exact Hf.
Qed.

(** The fingerprint test of [dynamic_import_and_run] fails exactly when
    verification is on, a non-empty hash is expected and the fingerprint of
    the directory is another one, or none. *)
Lemma verification_fails vh expected w folder :
  match expected with
  | Some _ =>
      vh && negb (fst (verify_directory_hash calculate_directory_hash w folder
                         expected (Some exclude_dirs) []))
  | None => false
  end = true
  <-> exists e, vh = true /\ expected = Some e /\ e <> []
                /\ calculate_directory_hash w folder (Some exclude_dirs) <> Some e.
Proof.
  destruct expected as [e|].
  - destruct vh; cbn [andb].
    2:{ split; [discriminate|]. now intros (e' & F & _). }
    unfold verify_directory_hash. destruct e as [|c e].
    { split; [discriminate|]. intros (e' & _ & [= <-] & F & _). congruence. }
    destruct (calculate_directory_hash w folder (Some exclude_dirs)) as [h|].
    + destruct (pystr_eqb h (c :: e)) eqn:E; cbn.
      * apply pystr_eqb_eq in E. subst h.
        split; [discriminate|]. intros (e' & _ & [= <-] & _ & F). congruence.
      * split; [|reflexivity]. intros _. exists (c :: e).
        repeat split; try discriminate. intros [= F]. subst h.
        now rewrite pystr_eqb_refl in E.
    + cbn. split; [|reflexivity]. intros _. exists (c :: e).
      repeat split; discriminate.
  - split; [discriminate|]. now intros (e & _ & F & _).
Qed.

(** X11. How [dynamic_import_and_run] ends.  When it returns, the status
    is 0 or 1.  It returns 0 only when the directory and the file of the
    task unit exist, the fingerprint is the expected one if a non-empty one
    is given and verification is on, the module loads, has the entry point,
    and the call of the entry point comes to its end.  When the directory
    is missing, the fingerprint differs, or the file is missing, it returns
    1 and the module has not been loaded: the world is as it was.  It is
    left by an exception only when these three tests have passed and
    loading the module, or the entry point of the loaded module, raises an
    exception that is not an [Exception]. *)
Theorem dynamic_import_and_run_status name args vh expected w :
  let folder := os_path_join (os_getcwd w) name in
  let path := os_path_join folder (name ++ py ".py") in
  let run :=
    dynamic_import_and_run os_getcwd os_path_join os_path_isdir os_path_exists
                           calculate_directory_hash exec_module hasattr call_function
                           name args vh expected w in
  let tests_passed :=
    os_path_isdir w folder = true /\ os_path_exists w path = true
    /\ (forall e, vh = true -> expected = Some e -> e <> [] ->
                  calculate_directory_hash w folder (Some exclude_dirs) = Some e) in
  (forall code, fst run = Normal code -> code = 0 \/ code = 1)
  /\ (fst run = Normal 0 ->
      tests_passed
      /\ exists m w1,
           exec_module name path w = (Normal (Some m), w1) /\ hasattr m name = true
           /\ call_function m name args w1 = (Normal true, snd run))
  /\ (os_path_isdir w folder = false
      \/ (exists e, vh = true /\ expected = Some e /\ e <> []
                    /\ calculate_directory_hash w folder (Some exclude_dirs) <> Some e)
      \/ os_path_exists w path = false ->
      run = (Normal 1, w))
  /\ (forall status, fst run = Escaped status ->
      tests_passed
      /\ (exec_module name path w = (Escaped status, snd run)
          \/ exists m w1,
               exec_module name path w = (Normal (Some m), w1) /\ hasattr m name = true
               /\ call_function m name args w1 = (Escaped status, snd run))).
Proof.
  cbn zeta. split; [intros code; apply executor_code|].
  unfold dynamic_import_and_run. cbn zeta.
  set (folder := os_path_join (os_getcwd w) name).
  set (path := os_path_join folder (name ++ py ".py")).
  destruct (os_path_isdir w folder) eqn:Ed; cbn [negb].
  2:{ split; [discriminate|]. split; [reflexivity|discriminate]. }
  pose proof (verification_fails vh expected w folder) as Ev.
  destruct (match expected with Some _ => _ | None => false end) eqn:Em.
  { split; [discriminate|]. split; [reflexivity|discriminate]. }
  destruct (os_path_exists w path) eqn:Ex; cbn [negb].
  2:{ split; [discriminate|]. split; [reflexivity|discriminate]. }
  assert (Hfp : forall e, vh = true -> expected = Some e -> e <> [] ->
                          calculate_directory_hash w folder (Some exclude_dirs) = Some e).
  { intros e Hvh He Hne.
    destruct (calculate_directory_hash w folder (Some exclude_dirs)) as [h|] eqn:Eh'.
    - destruct (list_eq_dec ascii_dec h e) as [->|Hd]; [reflexivity|].
      assert (F : false = true); [|discriminate].
      apply Ev. exists e. repeat split; auto. congruence.
    - assert (F : false = true); [|discriminate].
      apply Ev. exists e. repeat split; auto. discriminate. }
  split; [|split].
  - destruct (exec_module name path w) as [[[m|]|status] w1] eqn:Em1; try discriminate.
    destruct (hasattr m name) eqn:Eh; cbn [negb]; [|discriminate].
    destruct (call_function m name args w1) as [[[|]|status] w2] eqn:Ec; try discriminate.
    intros _. repeat split; auto. now exists m, w1.
  - intros [F | [F | F]]; try discriminate.
    apply Ev in F. discriminate.
  - intros status.
    destruct (exec_module name path w) as [[[m|]|status1] w1] eqn:Em1; try discriminate.
    + destruct (hasattr m name) eqn:Eh; cbn [negb]; [|discriminate].
      destruct (call_function m name args w1) as [[[|]|status2] w2] eqn:Ec;
        try discriminate.
      intros [= <-]. repeat split; auto. right. now exists m, w1.
    + intros [= <-]. repeat split; auto.
Qed.

(** X12. The pre-flight loop passes exactly when every name passes the
    three checks, and the names it has looked at are the first names of the
    list it was given. *)
Theorem preflight_passes_iff registry w names :
  let verified :=
    verify_all os_getcwd os_path_join os_path_isdir calculate_directory_hash
               registry w names [] in
  (fst verified = true
   <-> Forall (passes_checks os_getcwd os_path_join os_path_isdir
                             calculate_directory_hash registry w) names)
  /\ exists rest, names = snd verified ++ rest.
Proof.
  cbn zeta.
  destruct (verify_names registry w names []) as [ok checked] eqn:Ev.
  destruct (verify_all_inv registry w _ _ _ _ Ev) as (looked & rest & -> & En & Hok).
  cbn [fst snd app]. split; [|now exists rest].
  split.
  - intros ->. now apply Hok.
  - intros HF. rewrite (verify_all_pass _ os_getcwd os_path_join os_path_isdir
                          calculate_directory_hash registry w names [] HF) in Ev.
    now inversion Ev.
Qed.

End DriverRuns.

Section HashGenerationProperties.

Variable World : Type.
Variable os_getcwd : World -> pystr.
Variable os_path_join : pystr -> pystr -> pystr.
Variable os_path_isdir : World -> pystr -> bool.
Variable os_path_basename : pystr -> pystr.
Variable calculate_directory_hash : World -> pystr -> option (list pystr) -> option pystr.

(** X13. The registry and its generator agree: a name passes the three
    pre-flight checks of the driver exactly when the registry holds, for
    this name, the hash that [generate_hash_for_script] returns for it; a
    name for which the generator returns [None] fails them whatever the
    registry holds. *)
Theorem generated_hash_passes registry w name :
  passes_checks os_getcwd os_path_join os_path_isdir calculate_directory_hash registry w name
  <-> exists h,
        generate_hash_for_script World os_getcwd os_path_join os_path_isdir
                                 calculate_directory_hash w name = Some h
        /\ dict_get registry name = Some h.
Proof.
  unfold passes_checks, generate_hash_for_script. cbn zeta.
  fold exclude_dirs.
  destruct (os_path_isdir w _); cbn [negb].
  - split.
    + intros (_ & e & Hr & Hh). now exists e.
    + intros (h & Hh & Hr). split; [reflexivity|]. now exists h.
  - split; [now intros [F _]|now intros (h & F & _)].
Qed.

End HashGenerationProperties.

(** X1, at an example: a tree and the tree that its evaluation has left,
    with its caches. *)
Lemma evaluate_ignores_cache_witness :
  let t1 := OrNode RNone true [ScriptNode RNone (py "B") []; ScriptNode RNone (py "A") []] in
  let t2 := OrNode (RBool true) true
              [ScriptNode (RInt 1) (py "B") []; ScriptNode (RInt 0) (py "A") []] in
  let st := mkRun ([] : list pystr) [] [] in
  shape t1 = shape t2
  /\ outcome (evaluate demo_executor t1 false None st)
     = outcome (evaluate demo_executor t2 false None st).
Proof.
  cbn zeta. split; [reflexivity|].
  apply (evaluate_ignores_cache (list pystr) demo_executor
           (OrNode RNone true [ScriptNode RNone (py "B") []; ScriptNode RNone (py "A") []])
           (OrNode (RBool true) true
              [ScriptNode (RInt 1) (py "B") []; ScriptNode (RInt 0) (py "A") []])
           false None (mkRun [] [] [])).
  reflexivity.
Defined.

(** X8 and X10 at an example: [&& [ (A), (B), (A) ]] runs [A], then
    [B], which fails, and stops. *)
Lemma driver_runs_only_verified_witness :
  let registry := [(py "A", py "/srv/A"); (py "B", py "/srv/B")] in
  let out := mkOutcome 1 [py "A"; py "B"]
               (mkRun [py "A"; py "B"]
                      [mkCall (py "A") [] false None; mkCall (py "B") [] false None]
                      [0; 1; 1]) in
  demo_driver registry 10 [py "foo.py"; py "7"; py "&& [ (A), (B), (A) ]"] [] = Some out
  /\ Forall (fun c => passes_checks (fun _ : list pystr => py "/srv") demo_join
                                    (fun _ _ => true) demo_hash registry [] (call_name c))
            (calls (final out)).
Proof.
  cbn zeta. split; [vm_compute; reflexivity|].
  apply (driver_runs_only_verified (list pystr) (fun _ => py "/srv") demo_join
           (fun _ _ => true) (fun _ _ => true) demo_hash demo_module demo_exec_module
           (fun _ _ => true) demo_call demo_list_of_set demo_list_of_set_In
           [(py "A", py "/srv/A"); (py "B", py "/srv/B")] 10%nat
           [py "foo.py"; py "7"; py "&& [ (A), (B), (A) ]"] []).
  vm_compute. reflexivity.
Defined.

(** X9 at an example: [&& [ (A), (X), (A) ]] runs [A], which returns 0,
    then [X], which calls [sys.exit(3)]: one line on [sys.stderr], and the
    exit code 3. *)
Lemma driver_stderr_witness :
  let registry := [(py "A", py "/srv/A"); (py "X", py "/srv/X")] in
  let executor :=
    dynamic_import_and_run (fun _ : list pystr => py "/srv") demo_join
                           (fun _ _ => true) (fun _ _ => true) demo_hash
                           demo_exec_module (fun _ _ => true) demo_call in
  let out := mkOutcome 3 [py "A"; py "X"]
               (mkRun [py "A"; py "X"]
                      [mkCall (py "A") [] false None; mkCall (py "X") [] false None]
                      [0]) in
  demo_driver registry 10 [py "foo.py"; py "7"; py "&& [ (A), (X), (A) ]"] [] = Some out
  /\ exists codes,
       Forall (fun code => code = 0 \/ code = 1) codes
       /\ ((statuses executor (calls (final out)) [] = (map Normal codes, world (final out))
            /\ length (calls (final out)) = length codes
            /\ stderr (final out) = codes ++ [exit_code out]
            /\ (exit_code out = 0 \/ exit_code out = 1))
           \/ (statuses executor (calls (final out)) []
               = (map Normal codes ++ [Escaped (exit_code out)], world (final out))
               /\ length (calls (final out)) = S (length codes)
               /\ stderr (final out) = codes)).
Proof.
  cbn zeta. split; [vm_compute; reflexivity|].
  apply (driver_stderr (list pystr) (fun _ => py "/srv") demo_join
           (fun _ _ => true) (fun _ _ => true) demo_hash demo_module demo_exec_module
           (fun _ _ => true) demo_call demo_list_of_set
           [(py "A", py "/srv/A"); (py "X", py "/srv/X")] 10%nat
           [py "foo.py"; py "7"; py "&& [ (A), (X), (A) ]"] []).
  vm_compute. reflexivity.
Defined.

Lemma driver_calls_unverified_witness :
  let registry := [(py "A", py "/srv/A"); (py "B", py "/srv/B")] in
  let out := mkOutcome 1 [py "A"; py "B"]
               (mkRun [py "A"; py "B"]
                      [mkCall (py "A") [] false None; mkCall (py "B") [] false None]
                      [0; 1; 1]) in
  Forall (fun c => call_verify c = false /\ call_expected c = None) (calls (final out)).
Proof.
  cbn zeta.
  apply (driver_calls_unverified (list pystr) (fun _ => py "/srv") demo_join
           (fun _ _ => true) (fun _ _ => true) demo_hash demo_module demo_exec_module
           (fun _ _ => true) demo_call demo_list_of_set
           [(py "A", py "/srv/A"); (py "B", py "/srv/B")] 10%nat
           [py "foo.py"; py "7"; py "&& [ (A), (B), (A) ]"] []).
  vm_compute. reflexivity.
Defined.

(** ** Normalization of any expression *)

Lemma tok_of_char_ok c :
  isspace c = false -> tok_ok (tok_of_char c) /\ tok_text (tok_of_char c) = [c].
Proof.
  intros Hc. unfold tok_of_char.
  destruct (char_eqb c "[") eqn:E1; [apply char_eqb_eq in E1; subst; now split|].
  destruct (char_eqb c "]") eqn:E2; [apply char_eqb_eq in E2; subst; now split|].
  destruct (char_eqb c "(") eqn:E3; [apply char_eqb_eq in E3; subst; now split|].
  destruct (char_eqb c ")") eqn:E4; [apply char_eqb_eq in E4; subst; now split|].
  destruct (char_eqb c ",") eqn:E5; [apply char_eqb_eq in E5; subst; now split|].
  split; [|reflexivity]. split; [discriminate|].
  constructor; [|constructor]. unfold word_char. rewrite Hc. cbn.
  now rewrite E1, E2, E3, E4, E5.
Qed.

(** Every text is made of tokens with white space between them. *)
Lemma text_items s :
  exists items trailing,
    s = render items trailing /\ gaps_ok items /\ white trailing.
Proof.
  induction s as [|c s (items & trailing & -> & Hok & Htr)].
  - exists [], []. split; [reflexivity|]. split; constructor.
  - destruct (isspace c) eqn:Ec.
    + destruct items as [|[g t] rest].
      * exists [], (c :: trailing).
        split; [reflexivity|]. split; [constructor|now constructor].
      * exists ((c :: g, t) :: rest), trailing.
        split; [reflexivity|]. split; [|assumption].
        inversion Hok as [|? ? [Hg Ht] Hrest]; subst.
        constructor; [|assumption]. split; [now constructor|assumption].
    + destruct (tok_of_char_ok c Ec) as [Ht Et].
      exists (([], tok_of_char c) :: items), trailing. cbn [render app].
      rewrite Et. split; [reflexivity|]. split; [|assumption].
      constructor; [|assumption]. split; [constructor|assumption].
Qed.

Lemma run_length_white s : white s -> run_length isspace s = length s.
Proof. induction 1 as [|c s Hc _ IH]; [reflexivity|]. cbn. now rewrite Hc, IH. Qed.

Lemma re_sub_around_white X repl s :
  white s -> re_sub (match_around X) repl O s = s.
Proof.
  induction 1 as [|c s Hc Hs IH]; [reflexivity|].
  rewrite re_sub_copy; [now rewrite IH|].
  unfold match_around. rewrite (run_length_white (c :: s)) by now constructor.
  now rewrite skipn_all.
Qed.

(** An expression of white space only is normalized to the empty text. *)
Lemma normalize_white s : white s -> normalize s = [].
Proof.
  intros Hs. unfold normalize.
  rewrite (re_sub_around_white "[" _ s Hs), (re_sub_around_white "]" _ s Hs),
    (re_sub_around_white "(" _ s Hs), (re_sub_around_white ")" _ s Hs),
    (re_sub_around_white "," _ s Hs).
  destruct s as [|c s]; [reflexivity|].
  rewrite <- (app_nil_r (c :: s)). rewrite re_sub_match.
  - reflexivity.
  - discriminate.
  - unfold match_spaces. rewrite app_nil_r, run_length_white by assumption. reflexivity.
Qed.

Lemma canon_gap_white prev gap t : white (canon_gap prev gap t).
Proof.
  unfold canon_gap.
  destruct t, prev as [[]|]; cbn; try apply white_space; try constructor;
    apply collapse_white.
Qed.

Lemma canon_gap_twice prev gap t :
  canon_gap prev (canon_gap prev gap t) t = canon_gap prev gap t.
Proof.
  unfold canon_gap.
  destruct t, prev as [[]|]; cbn; try reflexivity; now destruct gap.
Qed.

Lemma canon_gap_start gap t : canon_gap None gap t = [].
Proof. now destruct t. Qed.

Lemma map_gaps_same f1 f2 items :
  (forall prev gap t, f1 prev gap t = f2 prev gap t) ->
  forall prev, map_gaps f1 prev items = map_gaps f2 prev items.
Proof.
  intros Hf. induction items as [|[g t] rest IH]; intros prev; [reflexivity|].
  cbn. now rewrite Hf, IH.
Qed.

(** The normalized text as tokens: the tokens of the expression with the
    gaps that [normalize] leaves. *)
Lemma normalize_render items trailing :
  gaps_ok items -> white trailing -> items <> [] ->
  normalize (render items trailing) = render (map_gaps canon_gap None items) [].
Proof.
  intros Hok Htr Hne. rewrite normalize_items by assumption.
  destruct items as [|[g t] rest]; [congruence|].
  cbn [map_gaps render_tight render]. now rewrite canon_gap_start.
Qed.

(** X14. Normalizing is idempotent: the normalization of a normalized
    expression changes nothing, whatever the expression. *)
Theorem normalize_idempotent s : normalize (normalize s) = normalize s.
Proof.
  destruct (text_items s) as (items & trailing & -> & Hok & Htr).
  destruct items as [|it rest] eqn:Ei.
  - cbn [render]. now rewrite (normalize_white trailing Htr).
  - rewrite <- Ei in *. assert (Hne : items <> []) by (subst; discriminate).
    rewrite (normalize_render items trailing Hok Htr Hne).
    rewrite normalize_render.
    + rewrite map_gaps_compose. f_equal. apply map_gaps_same.
      intros prev gap t. apply canon_gap_twice.
    + apply map_gaps_ok; [|assumption]. intros prev gap t _. apply canon_gap_white.
    + constructor.
    + subst items. destruct it. discriminate.
Qed.

Lemma single_spaced_word b w s :
  w <> [] -> Forall (fun c => isspace c = false) w ->
  single_spaced_from b (w ++ s) = single_spaced_from false s.
Proof.
  intros Hne HF. revert b. induction HF as [|c w Hc HF IH]; intros b; [congruence|].
  cbn [app single_spaced_from]. rewrite Hc.
  destruct w as [|d w]; [reflexivity|]. apply IH. discriminate.
Qed.

Lemma tok_text_nonempty t : tok_ok t -> tok_text t <> [].
Proof. destruct t; cbn; try discriminate. now intros [H _]. Qed.

Lemma canon_gap_cases prev gap t :
  canon_gap prev gap t = [] \/ canon_gap prev gap t = py " ".
Proof.
  unfold canon_gap. destruct t, prev as [[]|]; cbn; auto; destruct gap; auto.
Qed.

Lemma single_spaced_render items :
  gaps_ok items -> Forall (fun it => fst it = [] \/ fst it = py " ") items ->
  single_spaced_from false (render items []) = true.
Proof.
  induction 1 as [|[g t] rest [Hg Ht] _ IH]; intros HF; [reflexivity|].
  inversion HF as [|? ? Hgap HF']; subst. cbn [fst snd render] in *.
  destruct Hgap as [-> | ->].
  - cbn [app]. rewrite single_spaced_word; auto using tok_text_nonempty, tok_text_nonspace.
  - cbn [py list_ascii_of_string app single_spaced_from].
    change (isspace " ") with true. cbn [char_eqb negb andb].
    rewrite char_eqb_refl. cbn [andb].
    rewrite single_spaced_word; auto using tok_text_nonempty, tok_text_nonspace.
Qed.

Lemma map_gaps_canon_cases items : forall prev,
  Forall (fun it => fst it = [] \/ fst it = py " ") (map_gaps canon_gap prev items).
Proof.
  induction items as [|[g t] rest IH]; intros prev; cbn; constructor; auto.
  apply canon_gap_cases.
Qed.

(** X15. In a normalized expression white space comes only as single
    spaces between two other characters: no white space at the two ends,
    never two white-space characters in a row, and none but the space. *)
Theorem normalize_single_spaced s : single_spaced (normalize s) = true.
Proof.
  destruct (text_items s) as (items & trailing & -> & Hok & Htr).
  destruct items as [|[g t] rest].
  - cbn [render]. now rewrite (normalize_white trailing Htr).
  - rewrite normalize_items by (assumption || discriminate).
    inversion Hok as [|? ? [Hg Ht] Hrest]; subst. cbn [fst snd] in *.
    cbn [map_gaps render_tight].
    pose proof (tok_text_nonempty t Ht) as Hne.
    destruct (tok_text t ++ render (map_gaps canon_gap (Some t) rest) []) as [|c r] eqn:E.
    { destruct (tok_text t); [congruence|discriminate]. }
    unfold single_spaced. rewrite <- E.
    rewrite single_spaced_word; auto using tok_text_nonspace.
    apply single_spaced_render; [|apply map_gaps_canon_cases].
    apply map_gaps_ok; [|assumption]. intros prev gap t' _. apply canon_gap_white.
Qed.

(** X16. A blank expression gives no tree: for an expression of white
    space only, the empty one included, [parse_logical_expression] returns
    [None]. *)
Theorem blank_expression fuel expression :
  white expression -> parse_logical_expression (S fuel) expression = Some None.
Proof.
  intros Hw. unfold parse_logical_expression.
  destruct (negb (validate_expression_format expression)); [reflexivity|].
  now rewrite (normalize_white expression Hw).
Qed.

Lemma blank_expression_witness :
  white (py "   ") /\ parse_logical_expression 1 (py "   ") = Some None.
Proof.
  split; [repeat constructor|].
  apply (blank_expression 0 (py "   ")). repeat constructor.
Defined.

(** X17. The text of a plain tree tells the tree: two plain trees with the
    same text are the same tree. *)
Theorem str_injective t1 t2 :
  plain t1 -> plain t2 -> __str__ t1 = __str__ t2 -> t1 = t2.
Proof.
  intros H1 H2 E.
  pose proof (parse_str t1 (Nat.max (parse_fuel t1) (parse_fuel t2)) H1
                (Nat.le_max_l _ _)) as P1.
  pose proof (parse_str t2 (Nat.max (parse_fuel t1) (parse_fuel t2)) H2
                (Nat.le_max_r _ _)) as P2.
  rewrite E in P1. congruence.
Qed.

Lemma str_injective_witness :
  let t := AndNode RNone false [ScriptNode RNone (py "A") [py "x"]; ScriptNode RNone (py "B") []] in
  plain t /\ __str__ t = py "& [ (A:x), (B) ]" /\ t = t.
Proof.
  cbn zeta. split; [|split; [reflexivity|]].
  - cbn. repeat split; repeat constructor; discriminate.
  - apply (str_injective
             (AndNode RNone false [ScriptNode RNone (py "A") [py "x"]; ScriptNode RNone (py "B") []])
             (AndNode RNone false [ScriptNode RNone (py "A") [py "x"]; ScriptNode RNone (py "B") []])).
    + cbn. repeat split; repeat constructor; discriminate.
    + cbn. repeat split; repeat constructor; discriminate.
    + reflexivity.
Defined.

(** ** The format pre-check, for every expression *)

Lemma check_operator_turn n expression op i :
  check_operator (S n) expression op i
  = if i <? len expression then
      let i' := find expression op i in
      if i' =? -1 then true
      else check_turn expression op i' (check_operator n expression op)
    else true.
Proof. reflexivity. Qed.

(** Fuel beyond what is left of the expression changes nothing. *)
Lemma check_operator_enough expression op :
  op <> [] ->
  forall fuel i,
    len expression - i <= Z.of_nat fuel ->
    check_operator fuel expression op i = checked expression op i.
Proof.
  intros Hop fuel i Hle. unfold checked.
  set (m := Z.to_nat (len expression - i)).
  assert (Hm : len expression - i <= Z.of_nat m) by lia.
  replace fuel with (m + (fuel - m))%nat by lia.
  induction (fuel - m)%nat as [|k IH]; [now rewrite Nat.add_0_r|].
  rewrite Nat.add_succ_r, check_operator_fuel; [exact IH|exact Hop|lia].
Qed.

Lemma checked_turn expression op i :
  op <> [] ->
  checked expression op i
  = if i <? len expression then
      let i' := find expression op i in
      if i' =? -1 then true
      else check_turn expression op i' (checked expression op)
    else true.
Proof.
  intros Hop. assert (Hlen : 1 <= len op).
  { destruct op; [congruence|]. rewrite len_cons. pose proof (len_nonneg op). lia. }
  unfold checked at 1.
  destruct (i <? len expression) eqn:Ein.
  - apply Z.ltb_lt in Ein.
    destruct (Z.to_nat (len expression - i)) as [|n] eqn:En; [lia|].
    rewrite check_operator_turn.
    replace (i <? len expression) with true by (symmetry; apply Z.ltb_lt; lia).
    cbn zeta. destruct (find_from expression op i) as [E | Hge].
    + rewrite E. reflexivity.
    + destruct (find expression op i =? -1); [reflexivity|].
      unfold check_turn. rewrite !check_operator_enough by (assumption || lia).
      reflexivity.
  - apply Z.ltb_ge in Ein.
    replace (Z.to_nat (len expression - i)) with O by lia. reflexivity.
Qed.

Lemma checked_end expression op i :
  op <> [] -> len expression <= i -> checked expression op i = true.
Proof.
  intros Hop Hi. rewrite checked_turn by assumption.
  replace (i <? len expression) with false by (symmetry; apply Z.ltb_ge; lia).
  reflexivity.
Qed.

Lemma starts_with_nil_false op : op <> [] -> starts_with op [] = false.
Proof. destruct op; [congruence|reflexivity]. Qed.

(** A place where [op] does not start is passed over. *)
Lemma checked_skip expression pos c s op :
  At expression pos (c :: s) -> op <> [] -> starts_with op (c :: s) = false ->
  checked expression op pos = checked expression op (pos + 1).
Proof.
  intros A Hop Hst. pose proof (At_next _ _ _ _ A) as A1.
  rewrite (checked_turn expression op pos Hop).
  rewrite (At_in_range _ _ _ _ A), (At_find _ _ _ op A).
  cbn [find_offset]. rewrite Hst.
  destruct s as [|d s'].
  - cbn [find_offset]. rewrite starts_with_nil_false by assumption. cbn.
    symmetry. apply checked_end; [assumption|].
    rewrite (At_len _ _ _ A1). unfold len. cbn. lia.
  - rewrite (checked_turn expression op (pos + 1) Hop).
    rewrite (At_in_range _ _ _ _ A1), (At_find _ _ _ op A1).
    destruct (find_offset op (d :: s')) as [k|]; [|reflexivity].
    cbn [option_map]. cbn zeta.
    replace (pos + Z.of_nat (S k)) with (pos + 1 + Z.of_nat k) by lia.
    reflexivity.
Qed.

(** A place where [op] starts is where the loop takes its turn. *)
Lemma checked_here expression pos s op :
  At expression pos s -> op <> [] -> starts_with op s = true ->
  checked expression op pos = check_turn expression op pos (checked expression op).
Proof.
  intros A Hop Hst. rewrite (checked_turn expression op pos Hop).
  destruct s as [|c s']; [now rewrite starts_with_nil_false in Hst|].
  rewrite (At_in_range _ _ _ _ A), (At_find _ _ _ op A).
  cbn [find_offset]. rewrite Hst. cbn zeta.
  replace (pos + Z.of_nat 0) with pos by lia.
  pose proof (At_nonneg _ _ _ A).
  replace (pos =? -1) with false by (symmetry; apply Z.eqb_neq; lia).
  reflexivity.
Qed.

(** The test for the opening bracket after the operator. *)
Lemma bracket_follows expression p s :
  At expression p s ->
  (skip_while isspace expression p >=? len expression)
  || negb (is_char expression (skip_while isspace expression p) "[") = false
  <-> exists gap s', s = gap ++ "["%char :: s' /\ white gap.
Proof.
  intros A. rewrite (At_skip_while _ _ _ _ A).
  revert p A. induction s as [|c s IH]; intros p A.
  - cbn [run_length]. replace (p + Z.of_nat 0) with p by lia.
    split.
    + intros H. apply orb_false_elim in H as [H _].
      rewrite (At_len _ _ _ A) in H. unfold len in H. cbn in H.
      rewrite Z.geb_leb in H. apply Z.leb_gt in H. lia.
    + intros (gap & s' & E & _). destruct gap; discriminate.
  - cbn [run_length]. destruct (isspace c) eqn:Ec.
    + pose proof (At_next _ _ _ _ A) as A1.
      replace (p + Z.of_nat (S (run_length isspace s)))
        with (p + 1 + Z.of_nat (run_length isspace s)) by lia.
      rewrite (IH (p + 1) A1). split.
      * intros (gap & s' & -> & Hg). exists (c :: gap), s'. split; [reflexivity|].
        now constructor.
      * intros (gap & s' & E & Hg). destruct gap as [|g gap].
        { cbn in E. inversion E; subst. discriminate. }
        cbn in E. inversion E; subst. inversion Hg; subst. now exists gap, s'.
    + replace (p + Z.of_nat 0) with p by lia.
      rewrite (At_not_end _ _ _ _ A), (At_is_char _ _ _ _ "["%char A). cbn [orb].
      split.
      * intros H. apply negb_false_iff, char_eqb_eq in H. subst c.
        exists [], s. split; [reflexivity|constructor].
      * intros (gap & s' & E & Hg). destruct gap as [|g gap].
        { cbn in E. inversion E; subst. reflexivity. }
        cbn in E. inversion E; subst. inversion Hg; subst. congruence.
Qed.

Lemma turn_double expression x i next :
  x = "&"%char \/ x = "|"%char ->
  check_turn expression [x; x] i next
  = if (skip_while isspace expression (i + 2) >=? len expression)
       || negb (is_char expression (skip_while isspace expression (i + 2)) "[")
    then false else next (i + 2).
Proof. intros [-> | ->]; reflexivity. Qed.

Lemma turn_single expression x i next :
  x = "&"%char \/ x = "|"%char ->
  check_turn expression [x] i next
  = if (i + 1 <? len expression)
       && (match char_at expression (i + 1), char_at expression i with
           | Some a, Some b => char_eqb a b
           | _, _ => false
           end)
    then next (i + 1)
    else if (skip_while isspace expression (i + 1) >=? len expression)
            || negb (is_char expression (skip_while isspace expression (i + 1)) "[")
         then false else next (i + 1).
Proof. intros [-> | ->]; reflexivity. Qed.

Lemma operator_cases op :
  In op operators ->
  exists x, (x = "&"%char \/ x = "|"%char) /\ (op = [x; x] \/ op = [x]).
Proof.
  intros [<- | [<- | [<- | [<- | []]]]];
    [exists "&"%char | exists "|"%char | exists "&"%char | exists "|"%char]; auto.
Qed.

Lemma operator_nonempty op : In op operators -> op <> [].
Proof. intros [<- | [<- | [<- | [<- | []]]]]; discriminate. Qed.

Lemma white_not_operator c :
  isspace c = true -> c <> "&"%char /\ c <> "|"%char.
Proof. intros H. split; intros ->; discriminate. Qed.

(** An operator does not start at a character that is neither [&] nor [|]. *)
Lemma operator_not_here op c s :
  In op operators -> c <> "&"%char -> c <> "|"%char -> starts_with op (c :: s) = false.
Proof.
  intros [<- | [<- | [<- | [<- | []]]]] H1 H2; cbn [py list_ascii_of_string starts_with];
    (replace (char_eqb "&" c) with false by (symmetry; apply char_eqb_neq; congruence))
    || (replace (char_eqb "|" c) with false by (symmetry; apply char_eqb_neq; congruence));
    reflexivity.
Qed.

Lemma bracketed_gap gap s :
  white gap -> ops_bracketed s -> ops_bracketed (gap ++ "["%char :: s).
Proof.
  intros Hg Hs. induction Hg as [|c gap Hc _ IH]; cbn [app].
  - apply opb_char; [discriminate|discriminate|assumption].
  - destruct (white_not_operator c Hc). now apply opb_char.
Qed.

(** The first character after an operator that is followed by its
    bracket is not the character of the operator. *)
Lemma gap_head gap s x :
  white gap -> x = "&"%char \/ x = "|"%char ->
  exists c rest, gap ++ "["%char :: s = c :: rest /\ c <> x.
Proof.
  intros Hg Hx. destruct Hg as [|c gap Hc _]; cbn [app].
  - exists "["%char, s. split; [reflexivity|]. destruct Hx as [-> | ->]; discriminate.
  - exists c, (gap ++ "["%char :: s). split; [reflexivity|].
    destruct (white_not_operator c Hc). destruct Hx as [-> | ->]; congruence.
Qed.

Lemma starts_with_single x c s : starts_with [x] (c :: s) = char_eqb x c.
Proof. cbn. apply andb_true_r. Qed.

Lemma starts_with_double x c d s :
  starts_with [x; x] (c :: d :: s) = char_eqb x c && char_eqb x d.
Proof. cbn. now rewrite andb_true_r. Qed.

Lemma char_eqb_false a b : a <> b -> char_eqb a b = false.
Proof. apply char_eqb_neq. Qed.

(** The pre-check accepts the texts whose operators have their brackets. *)
Lemma checked_of_bracketed n : forall expression pos s op,
  (length s <= n)%nat -> At expression pos s -> ops_bracketed s -> In op operators ->
  checked expression op pos = true.
Proof.
  induction n as [|n IH]; intros expression pos s op Hl A Hb Hop;
    pose proof (operator_nonempty op Hop) as Hne.
  { destruct s; [|cbn in Hl; lia]. apply checked_end; [assumption|].
    rewrite (At_len _ _ _ A). unfold len. cbn. lia. }
  inversion Hb as [|c s' Hc1 Hc2 Hs|x gap s3 Hx Hg Hs|x gap s3 Hx Hg Hs]; subst.
  - apply checked_end; [assumption|]. rewrite (At_len _ _ _ A). unfold len. cbn. lia.
  - rewrite (checked_skip expression pos c s' op A Hne)
      by now apply operator_not_here.
    apply (IH expression (pos + 1) s');
      [cbn in Hl; lia | exact (At_next _ _ _ _ A) | assumption | assumption].
  - (* [x x gap [ s3] *)
    pose proof (At_next _ _ _ _ A) as A1.
    pose proof (At_next _ _ _ _ A1) as A2.
    replace (pos + 1 + 1) with (pos + 2) in A2 by lia.
    assert (Hb1 : ops_bracketed (x :: gap ++ "["%char :: s3)) by now apply opb_single.
    assert (Hb2 : ops_bracketed (gap ++ "["%char :: s3)) by now apply bracketed_gap.
    assert (I1 : checked expression op (pos + 1) = true).
    { apply (IH expression (pos + 1) (x :: gap ++ "["%char :: s3)); auto.
      cbn in Hl |- *. lia. }
    assert (I2 : checked expression op (pos + 2) = true).
    { apply (IH expression (pos + 2) (gap ++ "["%char :: s3)); auto.
      cbn in Hl |- *. lia. }
    destruct (operator_cases op Hop) as (y & Hy & [-> | ->]).
    + destruct (ascii_dec y x) as [-> | Hyx].
      * rewrite (checked_here expression pos _ [x; x] A Hne)
          by (rewrite starts_with_double, char_eqb_refl; reflexivity).
        rewrite turn_double by assumption.
        rewrite (proj2 (bracket_follows expression (pos + 2) _ A2)); [exact I2|].
        now exists gap, s3.
      * rewrite (checked_skip expression pos _ _ [y; y] A Hne)
          by (rewrite starts_with_double, (char_eqb_false y x Hyx); reflexivity).
        exact I1.
    + destruct (ascii_dec y x) as [-> | Hyx].
      * rewrite (checked_here expression pos _ [x] A Hne)
          by (rewrite starts_with_single; apply char_eqb_refl).
        rewrite turn_single by assumption.
        rewrite (At_in_range _ _ _ _ A1), (At_char _ _ _ _ A1), (At_char _ _ _ _ A).
        rewrite char_eqb_refl. exact I1.
      * rewrite (checked_skip expression pos _ _ [y] A Hne)
          by (rewrite starts_with_single; now apply char_eqb_false).
        exact I1.
  - (* [x gap [ s3] *)
    pose proof (At_next _ _ _ _ A) as A1.
    assert (Hb1 : ops_bracketed (gap ++ "["%char :: s3)) by now apply bracketed_gap.
    assert (I1 : checked expression op (pos + 1) = true).
    { apply (IH expression (pos + 1) (gap ++ "["%char :: s3)); auto.
      cbn in Hl |- *. lia. }
    destruct (gap_head gap s3 x Hg Hx) as (c & rest & Eg & Hcx).
    rewrite Eg in A, A1.
    destruct (operator_cases op Hop) as (y & Hy & [-> | ->]).
    + rewrite (checked_skip expression pos _ _ [y; y] A Hne); [exact I1|].
      rewrite starts_with_double.
      destruct (ascii_dec y x) as [-> | Hyx].
      * rewrite (char_eqb_false x c) by congruence. apply andb_false_r.
      * now rewrite (char_eqb_false y x Hyx).
    + destruct (ascii_dec y x) as [-> | Hyx].
      * rewrite (checked_here expression pos _ [x] A Hne)
          by (rewrite starts_with_single; apply char_eqb_refl).
        rewrite turn_single by assumption.
        rewrite (At_in_range _ _ _ _ A1), (At_char _ _ _ _ A1), (At_char _ _ _ _ A).
        rewrite (char_eqb_false c x Hcx). cbn [andb].
        rewrite (proj2 (bracket_follows expression (pos + 1) _ A1)); [exact I1|].
        rewrite <- Eg. now exists gap, s3.
      * rewrite (checked_skip expression pos _ _ [y] A Hne)
          by (rewrite starts_with_single; now apply char_eqb_false).
        exact I1.
Qed.

Lemma operator_in x :
  x = "&"%char \/ x = "|"%char -> In [x; x] operators /\ In [x] operators.
Proof. intros [-> | ->]; cbn; auto 6. Qed.

(** The loops pass over characters that are neither [&] nor [|]. *)
Lemma checked_pass expression w : forall p s,
  At expression p (w ++ s) ->
  Forall (fun c => c <> "&"%char /\ c <> "|"%char) w ->
  forall op, In op operators ->
    checked expression op (p + len w) = checked expression op p.
Proof.
  induction w as [|c w IH]; intros p s A HF op Hop.
  - f_equal. unfold len. cbn. lia.
  - inversion HF as [|? ? [H1 H2] HF']; subst. cbn [app] in A.
    rewrite (checked_skip expression p c (w ++ s) op A (operator_nonempty op Hop))
      by now apply operator_not_here.
    rewrite <- (IH (p + 1) s (At_next _ _ _ _ A) HF' op Hop).
    f_equal. rewrite len_cons. lia.
Qed.

Lemma gap_not_operator gap :
  white gap ->
  Forall (fun c => c <> "&"%char /\ c <> "|"%char) (gap ++ ["["%char]).
Proof.
  intros Hg. apply Forall_app. split.
  - eapply Forall_impl; [|exact Hg]. intros c Hc. now apply white_not_operator.
  - constructor; [split; discriminate|constructor].
Qed.

(** The texts that the pre-check accepts have a bracket after every
    operator. *)
Lemma bracketed_of_checked n : forall expression pos s,
  (length s <= n)%nat -> At expression pos s ->
  (forall op, In op operators -> checked expression op pos = true) ->
  ops_bracketed s.
Proof.
  induction n as [|n IH]; intros expression pos s Hl A V.
  { destruct s; [constructor|cbn in Hl; lia]. }
  destruct s as [|c s']; [constructor|].
  pose proof (At_next _ _ _ _ A) as A1.
  assert (Hc : (c <> "&"%char /\ c <> "|"%char) \/ (c = "&"%char \/ c = "|"%char)).
  { destruct (ascii_dec c "&"); [now right; left|].
    destruct (ascii_dec c "|"); [now right; right|now left]. }
  destruct Hc as [[H1 H2] | Hx].
  { apply opb_char; [assumption|assumption|].
    apply (IH expression (pos + 1) s'); [cbn in Hl; lia|assumption|].
    intros op Hop.
    rewrite <- (checked_skip expression pos c s' op A (operator_nonempty op Hop))
      by now apply operator_not_here.
    now apply V. }
  rename c into x. destruct (operator_in x Hx) as [Hxx Hx1].
  (* what the loops for the other character see *)
  assert (Other : forall op y, In op operators -> y <> x -> op = [y; y] \/ op = [y] ->
                    checked expression op (pos + 1) = true).
  { intros op y Hop Hy Eop.
    rewrite <- (checked_skip expression pos x s' op A (operator_nonempty op Hop)).
    - now apply V.
    - destruct Eop as [-> | ->].
      + destruct s'; cbn; now rewrite (char_eqb_false y x Hy).
      + rewrite starts_with_single. now apply char_eqb_false. }
  assert (Hsplit : (exists s'', s' = x :: s'') \/ (forall s'', s' <> x :: s'')).
  { destruct s' as [|d s'']; [right; discriminate|].
    destruct (ascii_dec d x) as [-> | Hd]; [left; now exists s''|right; congruence]. }
  destruct Hsplit as [(s'' & ->) | Hsingle].
  - (* two in a row *)
    pose proof (At_next _ _ _ _ A1) as A2.
    replace (pos + 1 + 1) with (pos + 2) in A2 by lia.
    pose proof (V [x; x] Hxx) as Vd.
    rewrite (checked_here expression pos _ [x; x] A (operator_nonempty _ Hxx))
      in Vd by (rewrite starts_with_double, char_eqb_refl; reflexivity).
    rewrite turn_double in Vd by assumption.
    destruct ((skip_while isspace expression (pos + 2) >=? len expression)
              || negb (is_char expression (skip_while isspace expression (pos + 2)) "["))
      eqn:Et; [discriminate|].
    apply (bracket_follows expression (pos + 2) _ A2) in Et as (gap & s3 & -> & Hg).
    destruct (gap_head gap s3 x Hg Hx) as (c & rest & Eg & Hcx).
    pose proof (V [x] Hx1) as Vs.
    rewrite (checked_here expression pos _ [x] A (operator_nonempty _ Hx1))
      in Vs by (rewrite starts_with_single; apply char_eqb_refl).
    rewrite turn_single in Vs by assumption.
    rewrite (At_in_range _ _ _ _ A1), (At_char _ _ _ _ A1), (At_char _ _ _ _ A),
      char_eqb_refl in Vs. cbn [andb] in Vs.
    rewrite (checked_here expression (pos + 1) _ [x] A1 (operator_nonempty _ Hx1))
      in Vs by (rewrite starts_with_single; apply char_eqb_refl).
    rewrite turn_single in Vs by assumption.
    replace (pos + 1 + 1) with (pos + 2) in Vs by lia.
    rewrite Eg in A2.
    rewrite (At_in_range _ _ _ _ A2), (At_char _ _ _ _ A2), (At_char _ _ _ _ A1),
      (char_eqb_false c x Hcx) in Vs. cbn [andb] in Vs.
    destruct ((skip_while isspace expression (pos + 2) >=? len expression)
              || negb (is_char expression (skip_while isspace expression (pos + 2)) "["));
      [discriminate|].
    rewrite <- Eg in A2.
    assert (V2 : forall op, In op operators -> checked expression op (pos + 2) = true).
    { intros op Hop. destruct (operator_cases op Hop) as (y & Hy & Eop).
      destruct (ascii_dec y x) as [-> | Hyx].
      - destruct Eop as [-> | ->]; assumption.
      - pose proof (Other op y Hop Hyx Eop) as O1.
        rewrite (checked_skip expression (pos + 1) x _ op A1 (operator_nonempty op Hop))
          in O1.
        + replace (pos + 1 + 1) with (pos + 2) in O1 by lia. exact O1.
        + destruct Eop as [-> | ->].
          * destruct (gap ++ "["%char :: s3); cbn; now rewrite (char_eqb_false y x Hyx).
          * rewrite starts_with_single. now apply char_eqb_false. }
    apply opb_double; [assumption|assumption|].
    replace (gap ++ "["%char :: s3) with ((gap ++ ["["%char]) ++ s3) in A2
      by (now rewrite <- app_assoc).
    apply (IH expression (pos + 2 + len (gap ++ ["["%char])) s3).
    + cbn in Hl. rewrite length_app in Hl. cbn in Hl. lia.
    + now apply At_step.
    + intros op Hop.
      rewrite (checked_pass expression _ _ _ A2 (gap_not_operator gap Hg) op Hop).
      now apply V2.
  - (* one alone *)
    pose proof (V [x] Hx1) as Vs.
    rewrite (checked_here expression pos _ [x] A (operator_nonempty _ Hx1))
      in Vs by (rewrite starts_with_single; apply char_eqb_refl).
    rewrite turn_single in Vs by assumption.
    assert (Eskip : (pos + 1 <? len expression)
                    && match char_at expression (pos + 1), char_at expression pos with
                       | Some a, Some b => char_eqb a b
                       | _, _ => false
                       end = false).
    { destruct s' as [|d s''].
      - rewrite (At_char_end _ _ A1). apply andb_false_r.
      - rewrite (At_char _ _ _ _ A1), (At_char _ _ _ _ A).
        rewrite (char_eqb_false d x); [apply andb_false_r|].
        intros ->. now apply (Hsingle s''). }
    rewrite Eskip in Vs.
    destruct ((skip_while isspace expression (pos + 1) >=? len expression)
              || negb (is_char expression (skip_while isspace expression (pos + 1)) "["))
      eqn:Et; [discriminate|].
    apply (bracket_follows expression (pos + 1) _ A1) in Et as (gap & s3 & -> & Hg).
    destruct (gap_head gap s3 x Hg Hx) as (c & rest & Eg & Hcx).
    assert (V1 : forall op, In op operators -> checked expression op (pos + 1) = true).
    { intros op Hop. destruct (operator_cases op Hop) as (y & Hy & Eop).
      destruct (ascii_dec y x) as [-> | Hyx]; [|now apply (Other op y)].
      destruct Eop as [-> | ->]; [|assumption].
      rewrite <- (checked_skip expression pos x _ [x; x] A (operator_nonempty _ Hxx)).
      - now apply V.
      - rewrite Eg, starts_with_double, (char_eqb_false x c) by congruence.
        apply andb_false_r. }
    apply opb_single; [assumption|assumption|].
    replace (gap ++ "["%char :: s3) with ((gap ++ ["["%char]) ++ s3) in A1
      by (now rewrite <- app_assoc).
    apply (IH expression (pos + 1 + len (gap ++ ["["%char])) s3).
    + cbn in Hl. rewrite length_app in Hl. cbn in Hl. lia.
    + now apply At_step.
    + intros op Hop.
      rewrite (checked_pass expression _ _ _ A1 (gap_not_operator gap Hg) op Hop).
      now apply V1.
Qed.

Lemma count_balanced expression :
  negb (count expression "[" =? count expression "]") = false
  /\ negb (count expression "(" =? count expression ")") = false
  <-> balanced expression.
Proof.
  unfold balanced, count. rewrite !negb_false_iff, !Z.eqb_eq. lia.
Qed.

(** X18. The format pre-check accepts exactly the expressions that have as
    many opening as closing brackets, as many opening as closing
    parentheses, and in which every [&] and every [|] belongs to an
    operator [&&], [||], [&] or [|] followed, after white space or none, by
    an opening bracket.  Nothing else is looked at: the order and the
    nesting of brackets and parentheses are not. *)
Theorem validate_expression_format_iff expression :
  validate_expression_format expression = true
  <-> balanced expression /\ ops_bracketed expression.
Proof.
  assert (Hall : forallb (fun op => check_operator (S (length expression)) expression op 0)
                         operators = true
                 <-> forall op, In op operators -> checked expression op 0 = true).
  { rewrite forallb_forall. split; intros H op Hop; specialize (H op Hop).
    - rewrite <- (check_operator_enough expression op (operator_nonempty op Hop)
                    (S (length expression)) 0); [exact H|].
      unfold len. lia.
    - rewrite (check_operator_enough expression op (operator_nonempty op Hop)); [exact H|].
      unfold len. lia. }
  unfold validate_expression_format. fold operators.
  split.
  - intros H.
    destruct (negb (count expression "[" =? count expression "]")) eqn:E1; [discriminate|].
    destruct (negb (count expression "(" =? count expression ")")) eqn:E2; [discriminate|].
    split; [now apply count_balanced|].
    apply (bracketed_of_checked (length expression) expression 0 expression (le_n _)
             (At_start expression)).
    now apply Hall.
  - intros [Hb Ho]. apply count_balanced in Hb as [-> ->].
    apply Hall. intros op Hop.
    now apply (checked_of_bracketed (length expression) expression 0 expression op (le_n _)
                 (At_start expression)).
Qed.

(** ** Edges of the argument loop *)

(** The loop on plain arguments that a comma follows. *)
Lemma args_loop_plain_comma args : forall a cur acc rest,
  plain_word a -> Forall plain_word args -> cur = [] \/ cur = py " " ->
  args_loop (a ++ flat_map (fun x => py ", " ++ x) args ++ ","%char :: rest) cur false acc
  = args_loop rest [] false (acc ++ a :: args).
Proof.
  induction args as [|a' args IH]; intros a cur acc rest Ha HF Hcur.
  - cbn [flat_map app].
    rewrite args_loop_bare by now apply plain_word_bare.
    cbn [args_loop].
    change (char_eqb "," backslash) with false.
    change (char_eqb "," dquote) with false.
    rewrite char_eqb_refl. cbn [andb negb].
    now rewrite finish_arg_plain.
  - inversion HF as [|? ? Ha' HF']; subst.
    cbn [flat_map]. rewrite <- !app_assoc.
    rewrite args_loop_bare by now apply plain_word_bare.
    cbn [py list_ascii_of_string app args_loop].
    change (char_eqb "," backslash) with false.
    change (char_eqb "," dquote) with false.
    change (char_eqb " " backslash) with false.
    change (char_eqb " " dquote) with false.
    change (char_eqb " " ",") with false.
    rewrite char_eqb_refl. cbn [andb negb app].
    rewrite finish_arg_plain by assumption.
    etransitivity; [exact (IH a' (py " ") (acc ++ [a]) rest Ha' HF' (or_intror eq_refl))|].
    now rewrite <- app_assoc.
Qed.

(** X19. Empty arguments: the argument loop drops a comma at the end of
    the argument text, and keeps an empty argument for a comma at its
    start.  For plain arguments [a1, ..., an], the text [a1, ..., an,]
    gives the arguments [a1 ... an], and the text [, a1, ..., an] gives an
    empty argument and then [a1 ... an]. *)
Theorem empty_arguments a args :
  plain_word a -> Forall plain_word args ->
  parse_args (join (py ", ") (a :: args) ++ py ",") = a :: args
  /\ parse_args (py ", " ++ join (py ", ") (a :: args)) = [] :: a :: args.
Proof.
  intros Ha HF. rewrite join_flat_map. split.
  - unfold parse_args.
    destruct ((a ++ flat_map (fun x => py ", " ++ x) args) ++ py ",") as [|c s] eqn:Es.
    { destruct a; [now destruct Ha|discriminate]. }
    rewrite <- Es, <- app_assoc. change (py ",") with (","%char :: @nil ascii).
    rewrite (args_loop_plain_comma args a [] [] [] Ha HF (or_introl eq_refl)).
    reflexivity.
  - unfold parse_args. cbn [py list_ascii_of_string app args_loop].
    change (char_eqb "," backslash) with false.
    change (char_eqb "," dquote) with false.
    change (char_eqb " " backslash) with false.
    change (char_eqb " " dquote) with false.
    change (char_eqb " " ",") with false.
    rewrite char_eqb_refl. cbn [andb negb app].
    change (finish_arg []) with (@nil ascii).
    destruct (args_loop_plain args a (py " ") [[]] Ha HF (or_intror eq_refl))
      as (cur' & E & Hne & Hfin).
    match goal with
    | |- (let '(args0, current_arg) := ?x in _) = _ =>
        replace x with ([[]] ++ removelast (a :: args), cur') by (symmetry; exact E)
    end.
    destruct cur' as [|c' cur']; [congruence|].
    rewrite Hfin, <- (last_cons _ args a a). cbn [app]. f_equal. symmetry.
    apply (app_removelast_last (l := a :: args)). discriminate.
Qed.

Lemma empty_arguments_witness :
  parse_args (py "x, y,") = [py "x"; py "y"]
  /\ parse_args (py ", x, y") = [[]; py "x"; py "y"].
Proof.
  apply (empty_arguments (py "x") [py "y"]).
  - split; [discriminate|repeat constructor].
  - repeat constructor; discriminate.
Defined.

(** Between quotes the loop takes every character that is neither a quote
    nor a backslash as it is, commas included. *)
Lemma args_loop_in_quotes v : forall cur acc,
  Forall (fun c => c <> dquote /\ c <> backslash) v ->
  args_loop v cur true acc = (acc, cur ++ v).
Proof.
  induction v as [|c v IH]; intros cur acc HF.
  - now rewrite app_nil_r.
  - inversion HF as [|? ? [H1 H2] HF']; subst. cbn [args_loop].
    rewrite (char_eqb_false c backslash H2), (char_eqb_false c dquote H1).
    cbn [negb]. rewrite andb_false_r, IH by assumption.
    now rewrite <- app_assoc.
Qed.

Lemma lstrip_unit w q : isspace q = false -> lstrip (w ++ [q]) = lstrip w ++ [q].
Proof.
  intros Hq. induction w as [|c w IH]; cbn.
  - now rewrite Hq.
  - destruct (isspace c); [exact IH|reflexivity].
Qed.

Lemma lstrip_Forall (P : ascii -> Prop) w : Forall P w -> Forall P (lstrip w).
Proof.
  induction 1 as [|c w Hc HF IH]; cbn; [constructor|].
  destruct (isspace c); [exact IH|now constructor].
Qed.

(** X20. A quote that is never closed: when the argument text starts with
    a quote and has no other quote and no backslash, the whole text is one
    argument, its commas included, and the quote stays in the argument. *)
Theorem unclosed_quote v :
  Forall (fun c => c <> dquote /\ c <> backslash) v ->
  parse_args (dquote :: v) = [strip (dquote :: v)]
  /\ exists v', strip (dquote :: v) = dquote :: v'.
Proof.
  intros HF.
  assert (Es : exists v', strip (dquote :: v) = dquote :: v'
                          /\ Forall (fun c => c <> dquote /\ c <> backslash) v').
  { unfold strip, rstrip. rewrite (lstrip_nonspace _ _ isspace_dquote).
    cbn [rev]. rewrite (lstrip_unit _ _ isspace_dquote), rev_unit.
    exists (rev (lstrip (rev v))). split; [reflexivity|].
    apply Forall_rev, lstrip_Forall, Forall_rev, HF. }
  destruct Es as (v' & Es & HF'). split; [|now exists v'].
  unfold parse_args. cbn [args_loop].
  change (char_eqb dquote backslash) with false. rewrite char_eqb_refl. cbn [negb app].
  rewrite args_loop_in_quotes by assumption. cbn [app].
  unfold finish_arg. rewrite Es. cbn [starts_with]. rewrite char_eqb_refl. cbn [andb].
  destruct (exists_last (l := dquote :: v')) as (init & d & E); [discriminate|].
  destruct v' as [|c' v''].
  - reflexivity.
  - assert (Hd : d <> dquote).
    { assert (Hin : In d (c' :: v'')).
      { destruct init as [|i init]; [discriminate E|].
        cbn in E. inversion E as [[Ei E']]. rewrite E'. apply in_or_app. right. now left. }
      rewrite Forall_forall in HF'. now apply HF'. }
    rewrite E, rev_unit. cbn [starts_with].
    rewrite (char_eqb_false dquote d) by congruence. reflexivity.
Qed.

Lemma unclosed_quote_witness :
  parse_args (dquote :: py "x, y") = [dquote :: py "x, y"].
Proof.
  apply (proj1 (unclosed_quote (py "x, y") ltac:(repeat constructor; discriminate))).
Defined.

(** ** Where the parser does not answer *)

Lemma slice_two_not expression pos c rest x :
  At expression pos (c :: rest) -> c <> x ->
  pystr_eqb (slice expression pos (pos + 2)) [x; x] = false.
Proof.
  intros A Hc. destruct rest as [|d rest].
  - rewrite (At_slice_short expression pos [c] 2 A) by (unfold len; cbn; lia).
    unfold pystr_eqb. now destruct (list_eq_dec ascii_dec [c] [x; x]).
  - change (c :: d :: rest) with ([c; d] ++ rest) in A.
    change 2 with (len [c; d]). rewrite (At_slice expression pos [c; d] rest A).
    unfold pystr_eqb. destruct (list_eq_dec ascii_dec [c; d] [x; x]) as [E|]; [|reflexivity].
    congruence.
Qed.

Lemma At_skip_none p expression pos c rest :
  At expression pos (c :: rest) -> p c = false -> skip_while p expression pos = pos.
Proof.
  intros A Hc. rewrite (At_skip_while _ _ _ _ A), (run_length_stop _ _ _ Hc). lia.
Qed.

(** At a closing parenthesis or an opening bracket [_parse_expression]
    gives no node and does not move. *)
Lemma parse_expression_stays n expression pos c rest :
  At expression pos (c :: rest) -> c = ")"%char \/ c = "["%char ->
  _parse_expression (S n) expression pos = Some (None, pos).
Proof.
  intros A Hc.
  assert (Hs : isspace c = false) by (destruct Hc as [-> | ->]; reflexivity).
  cbn [_parse_expression].
  rewrite (At_skip_while _ _ _ _ A), (run_length_stop _ _ _ Hs).
  replace (pos + Z.of_nat 0) with pos by lia.
  rewrite (At_not_end _ _ _ _ A), !(At_is_char _ _ _ _ _ A).
  assert (E1 : pystr_eqb (slice expression pos (pos + 2)) (py "&&") = false)
    by (apply (slice_two_not expression pos c rest "&" A);
        destruct Hc as [-> | ->]; discriminate).
  assert (E2 : pystr_eqb (slice expression pos (pos + 2)) (py "||") = false)
    by (apply (slice_two_not expression pos c rest "|" A);
        destruct Hc as [-> | ->]; discriminate).
  rewrite E1, E2.
  replace (char_eqb c "!") with false by (destruct Hc as [-> | ->]; reflexivity).
  replace (char_eqb c "&") with false by (destruct Hc as [-> | ->]; reflexivity).
  replace (char_eqb c "|") with false by (destruct Hc as [-> | ->]; reflexivity).
  replace (char_eqb c "(") with false by (destruct Hc as [-> | ->]; reflexivity).
  cbn [andb]. rewrite (At_skip_while _ _ _ _ A), run_length_stop.
  - now replace (pos + Z.of_nat 0) with pos by lia.
  - destruct Hc as [-> | ->]; reflexivity.
Qed.

(** So the children loop that comes to such a character, after white
    space and commas, turns there for ever. *)
Lemma children_loop_stray n expression c rest :
  c = ")"%char \/ c = "["%char ->
  forall fuel pos skip children,
    At expression pos (skip ++ c :: rest) ->
    Forall (fun d => isspace d || char_eqb d "," = true) skip ->
    children_loop (_parse_expression n) fuel expression pos children = None.
Proof.
  intros Hc. induction fuel as [|fuel IH]; intros pos skip children A Hskip; [reflexivity|].
  assert (Hcs : isspace c || char_eqb c "," = false)
    by (destruct Hc as [-> | ->]; reflexivity).
  assert (Hcb : char_eqb c "]" = false) by (destruct Hc as [-> | ->]; reflexivity).
  pose proof (At_step _ _ _ _ A) as A1.
  cbn [children_loop].
  assert (Hfirst : (pos <? len expression) && negb (is_char expression pos "]") = true).
  { destruct skip as [|d skip].
    - cbn [app] in A. now rewrite (At_in_range _ _ _ _ A), (At_is_char _ _ _ _ _ A), Hcb.
    - cbn [app] in A. rewrite (At_in_range _ _ _ _ A), (At_is_char _ _ _ _ _ A).
      inversion Hskip as [|? ? Hd _]; subst.
      destruct (char_eqb d "]") eqn:E; [|reflexivity].
      apply char_eqb_eq in E. subst d. discriminate Hd. }
  rewrite Hfirst.
  rewrite (At_skip_while _ _ _ _ A), (run_length_gap _ skip (c :: rest) Hskip)
    by exact Hcs.
  fold (len skip).
  rewrite (At_in_range _ _ _ _ A1), (At_is_char _ _ _ _ _ A1), Hcb. cbn [andb negb].
  destruct n as [|n]; [reflexivity|].
  rewrite (parse_expression_stays n expression _ c rest A1 Hc).
  apply (IH (pos + len skip) [] children); [exact A1|constructor].
Qed.

(** X21. A closing parenthesis or an opening bracket where a child is
    expected stops the parser for good: when the expression passes the
    format pre-check and its normalized text is an operator, its bracket,
    white space and commas or nothing, and then [)] or [[], the parser
    gives no answer, however long it runs. *)
Theorem stray_bracket_never_parsed expression op skip c rest :
  validate_expression_format expression = true ->
  In op operators ->
  normalize expression = op ++ py " [" ++ skip ++ c :: rest ->
  Forall (fun d => isspace d || char_eqb d "," = true) skip ->
  c = ")"%char \/ c = "["%char ->
  forall fuel, parse_logical_expression fuel expression = None.
Proof.
  intros Hv Hop En Hskip Hc fuel. unfold parse_logical_expression.
  rewrite Hv, En. cbn [negb].
  set (text := op ++ py " [" ++ skip ++ c :: rest).
  destruct fuel as [|fuel]; [reflexivity|].
  pose proof (At_start text) as A0.
  assert (A4 : At text (len op + 2) (skip ++ c :: rest)).
  { replace (len op + 2) with (0 + len op + len (py " [")) by (unfold len; cbn; lia).
    apply At_step, At_step. exact A0. }
  assert (A2 : At text (len op) (py " [" ++ skip ++ c :: rest)).
  { replace (len op) with (0 + len op) by lia. apply At_step. exact A0. }
  pose proof (children_loop_stray fuel text c rest Hc fuel _ skip [] A4 Hskip) as L.
  assert (C : _parse_operator_children (_parse_expression fuel) fuel text (len op) = None).
  { unfold _parse_operator_children.
    rewrite (At_skip_while _ _ _ _ A2).
    change (run_length isspace (py " [" ++ skip ++ c :: rest)) with 1%nat.
    pose proof (At_next _ _ _ _ A2) as A3. change (Z.of_nat 1) with 1.
    rewrite (At_in_range _ _ _ _ A3), (At_is_char _ _ _ _ _ A3).
    change (char_eqb "[" "[") with true. cbn [andb].
    replace (len op + 1 + 1) with (len op + 2) by lia. now rewrite L. }
  cbn [_parse_expression].
  destruct Hop as [<- | [<- | [<- | [<- | []]]]]; subst text;
    rewrite (At_skip_none isspace _ 0 _ _ A0 eq_refl);
    rewrite (At_not_end _ _ _ _ A0), !(At_is_char _ _ _ _ _ A0).
  - assert (E : slice (py "&&" ++ py " [" ++ skip ++ c :: rest) 0 (0 + 2) = py "&&")
      by exact (At_slice _ 0 (py "&&") _ A0).
    rewrite E. change (char_eqb "&" "!") with false.
    change (pystr_eqb (py "&&") (py "&&")) with true. cbv iota.
    change (0 + 2) with (len (py "&&")). now rewrite C.
  - assert (E : slice (py "||" ++ py " [" ++ skip ++ c :: rest) 0 (0 + 2) = py "||")
      by exact (At_slice _ 0 (py "||") _ A0).
    rewrite E. change (char_eqb "|" "!") with false.
    change (pystr_eqb (py "||") (py "&&")) with false.
    change (pystr_eqb (py "||") (py "||")) with true. cbv iota.
    change (0 + 2) with (len (py "||")). now rewrite C.
  - assert (E : slice (py "&" ++ py " [" ++ skip ++ c :: rest) 0 (0 + 2) = py "& ")
      by exact (At_slice _ 0 (py "& ") ("["%char :: skip ++ c :: rest) A0).
    rewrite E. change (char_eqb "&" "!") with false.
    change (pystr_eqb (py "& ") (py "&&")) with false.
    change (pystr_eqb (py "& ") (py "||")) with false.
    change (char_eqb "&" "&") with true.
    pose proof (At_next _ _ _ _ A0) as A1.
    rewrite (At_is_char _ _ _ _ _ A1). change (char_eqb " " "&") with false.
    cbn [negb]. rewrite orb_true_r. cbv iota. cbn [andb].
    change (0 + 1) with (len (py "&")). now rewrite C.
  - assert (E : slice (py "|" ++ py " [" ++ skip ++ c :: rest) 0 (0 + 2) = py "| ")
      by exact (At_slice _ 0 (py "| ") ("["%char :: skip ++ c :: rest) A0).
    rewrite E. change (char_eqb "|" "!") with false.
    change (pystr_eqb (py "| ") (py "&&")) with false.
    change (pystr_eqb (py "| ") (py "||")) with false.
    change (char_eqb "|" "&") with false. change (char_eqb "|" "|") with true.
    pose proof (At_next _ _ _ _ A0) as A1.
    rewrite !(At_is_char _ _ _ _ _ A1). change (char_eqb " " "|") with false.
    change (char_eqb " " "&") with false.
    cbn [negb]. rewrite !orb_true_r. cbv iota. cbn [andb].
    change (0 + 1) with (len (py "|")). now rewrite C.
Qed.

Lemma stray_bracket_never_parsed_witness :
  validate_expression_format (py "||[,)(]") = true
  /\ normalize (py "||[,)(]") = py "|| [, ) ( ]"
  /\ parse_logical_expression 1000 (py "||[,)(]") = None.
Proof.
  split; [reflexivity|]. split; [reflexivity|].
  refine (stray_bracket_never_parsed (py "||[,)(]") (py "||") (py ", ")
            ")"%char (py " ( ]") _ _ _ _ _ 1000%nat).
  - reflexivity.
  - cbn. auto.
  - reflexivity.
  - repeat constructor.
  - now left.
Defined.

(** ** The round trip through the serialized text *)

Lemma lex_spec s : forall gap,
  white gap ->
  render (fst (lex gap s)) (snd (lex gap s)) = gap ++ s
  /\ gaps_ok (fst (lex gap s)) /\ white (snd (lex gap s)).
Proof.
  induction s as [|c s IH]; intros gap Hg; cbn [lex].
  - cbn. rewrite app_nil_r. repeat split; [constructor|assumption].
  - destruct (isspace c) eqn:Ec.
    + destruct (IH (gap ++ [c])) as (E & Hok & Htr).
      { apply Forall_app. split; [assumption|now repeat constructor]. }
      rewrite E, <- app_assoc. auto.
    + destruct (IH []) as (E & Hok & Htr); [constructor|].
      destruct (lex [] s) as [items trailing]. cbn [fst snd render] in *.
      destruct (tok_of_char_ok c Ec) as [Ht Et]. rewrite Et, E.
      repeat split; [|assumption]. constructor; [now split|assumption].
Qed.

Lemma chars_render s : render (chars s) (snd (lex [] s)) = s.
Proof. apply (lex_spec s []). constructor. Qed.

Lemma chars_ok s : gaps_ok (chars s).
Proof. apply (lex_spec s []). constructor. Qed.

Lemma lex_trailing_white s : white (snd (lex [] s)).
Proof. apply (lex_spec s []). constructor. Qed.

Lemma white_unique g1 : forall g2 x y,
  white g1 -> white g2 -> head_nonspace x -> head_nonspace y ->
  g1 ++ x = g2 ++ y -> g1 = g2 /\ x = y.
Proof.
  induction g1 as [|c g1 IH]; intros g2 x y H1 H2 Hx Hy E.
  - destruct g2 as [|d g2]; [now split|]. cbn in E. subst x.
    inversion H2; subst. cbn in Hx. congruence.
  - destruct g2 as [|d g2].
    + cbn in E. subst y. inversion H1; subst. cbn in Hy. congruence.
    + cbn in E. inversion E; subst. inversion H1; subst. inversion H2; subst.
      destruct (IH g2 x y) as [-> ->]; auto.
Qed.

(** Tokens and gaps can be told from the text, when the tokens are
    known. *)
Lemma render_inj items1 : forall items2 tr1 tr2,
  gaps_ok items1 -> gaps_ok items2 -> white tr1 -> white tr2 ->
  map snd items1 = map snd items2 ->
  render items1 tr1 = render items2 tr2 ->
  items1 = items2 /\ tr1 = tr2.
Proof.
  induction items1 as [|[g1 t1] items1 IH]; intros [|[g2 t2] items2] tr1 tr2 H1 H2 T1 T2 Em E;
    try discriminate.
  - now split.
  - cbn in Em. inversion Em; subst t2.
    inversion H1 as [|? ? [Hg1 Ht1] H1']; subst.
    inversion H2 as [|? ? [Hg2 Ht2] H2']; subst. cbn [fst snd] in *.
    cbn [render] in E.
    destruct (white_unique g1 g2 _ _ Hg1 Hg2
                (tok_text_head_nonspace t1 _ Ht1) (tok_text_head_nonspace t1 _ Ht2) E)
      as [-> E'].
    apply app_inv_head in E'.
    destruct (IH items2 tr1 tr2) as [-> ->]; auto.
Qed.

Lemma map_gaps_app f a : forall prev b,
  map_gaps f prev (a ++ b) = map_gaps f prev a ++ map_gaps f (last_tok prev a) b.
Proof.
  induction a as [|[g t] a IH]; intros prev b; [reflexivity|].
  cbn. now rewrite IH.
Qed.

Lemma last_tok_app a : forall prev b,
  last_tok prev (a ++ b) = last_tok (last_tok prev a) b.
Proof. induction a as [|[g t] a IH]; intros prev b; [reflexivity|]. cbn. apply IH. Qed.

Lemma map_gaps_snd f items : forall prev,
  map snd (map_gaps f prev items) = map snd items.
Proof.
  induction items as [|[g t] rest IH]; intros prev; [reflexivity|].
  cbn. now rewrite IH.
Qed.

(** A text that the normalization leaves as it is: no white space at its
    ends, and between its characters the gaps of the normalization. *)
Lemma normalized_chars u :
  normalize u = u -> u <> [] ->
  exists t R,
    chars u = ([], t) :: R /\ snd (lex [] u) = []
    /\ map_gaps canon_gap (Some t) R = R.
Proof.
  intros Hn Hne.
  pose proof (chars_render u) as Er. pose proof (chars_ok u) as Hok.
  pose proof (lex_trailing_white u) as Htr.
  destruct (chars u) as [|[g t] R] eqn:Ec.
  - cbn in Er. rewrite <- Er in Hn at 1. rewrite normalize_white in Hn by assumption.
    congruence.
  - assert (E : render (([], t) :: map_gaps canon_gap (Some t) R) []
                = render ((g, t) :: R) (snd (lex [] u))).
    { rewrite Er, <- Hn, <- Er.
      rewrite normalize_items by (assumption || discriminate). reflexivity. }
    inversion Hok as [|? ? [Hg Ht] HR]; subst. cbn [fst snd] in *.
    apply render_inj in E.
    + destruct E as [E1 E2]. inversion E1; subst. exists t, R.
      repeat split; congruence.
    + constructor; [split; [constructor|assumption]|].
      apply map_gaps_ok; [|assumption]. intros; apply canon_gap_white.
    + assumption.
    + constructor.
    + assumption.
    + cbn. now rewrite map_gaps_snd.
Qed.

Lemma normalized_tidy u : normalize u = u -> snd (lex [] u) = [].
Proof.
  intros Hn. destruct u as [|c u]; [reflexivity|].
  destruct (normalized_chars (c :: u) Hn) as (t & R & _ & E & _); [discriminate|exact E].
Qed.

Lemma lead_white prev u : white (lead prev u).
Proof. unfold lead. destruct (chars u) as [|[g t] R]; [constructor|apply canon_gap_white]. Qed.

(** A normalized text among the tokens of a longer text: the
    normalization of the longer text leaves it as it is. *)
Lemma normalized_in_context u prev rest trailing :
  normalize u = u ->
  render (map_gaps canon_gap prev (chars u ++ rest)) trailing
  = lead prev u ++ u
    ++ render (map_gaps canon_gap (last_tok prev (chars u)) rest) trailing.
Proof.
  intros Hn. destruct (list_eq_dec ascii_dec u []) as [-> | Hne].
  - reflexivity.
  - destruct (normalized_chars u Hn Hne) as (t & R & Ec & Etr & ER).
    pose proof (chars_render u) as Er. rewrite Etr in Er.
    unfold lead. rewrite Ec in *. cbn [render] in Er. rewrite app_nil_l in Er.
    change ((([] : pystr), t) :: R) with ([(([] : pystr), t)] ++ R).
    rewrite <- app_assoc, map_gaps_app. cbn [map_gaps last_tok app render].
    rewrite map_gaps_app, ER, render_app, (render_trailing R).
    rewrite <- Er. now rewrite <- !app_assoc.
Qed.

Lemma chars_render_app u rest trailing :
  normalize u = u -> render (chars u ++ rest) trailing = u ++ render rest trailing.
Proof.
  intros Hn. rewrite render_app, render_trailing.
  pose proof (chars_render u) as Er. rewrite (normalized_tidy u Hn) in Er.
  f_equal. exact Er.
Qed.

(** No white space at the ends of a normalized text. *)
Lemma normalized_ends u :
  normalize u = u -> u <> [] -> head_nonspace u /\ head_nonspace (rev u).
Proof.
  intros Hn Hne.
  destruct (normalized_chars u Hn Hne) as (t & R & Ec & Etr & ER).
  pose proof (chars_render u) as Er. pose proof (chars_ok u) as Hok.
  rewrite Etr, Ec in Er. rewrite Ec in Hok. cbn [render app] in Er.
  pose proof (Forall_inv Hok) as [_ Ht]. cbn [snd] in Ht. split.
  - rewrite <- Er. now apply tok_text_head_nonspace.
  - pose proof (render_tight_last _ Hok ltac:(discriminate)) as Hl.
    cbn [render_tight] in Hl. now rewrite Er in Hl.
Qed.

Lemma strip_all_white w : white w -> strip w = [].
Proof.
  intros Hw. unfold strip, rstrip.
  rewrite <- (app_nil_r w), lstrip_white by (assumption || exact I). reflexivity.
Qed.

Lemma strip_normalized w u w' :
  white w -> white w' -> normalize u = u -> strip (w ++ u ++ w') = u.
Proof.
  intros Hw Hw' Hn. destruct u as [|c u].
  - cbn [app]. apply strip_all_white. now apply Forall_app.
  - destruct (normalized_ends (c :: u) Hn) as [Hh Hl]; [discriminate|].
    now apply strip_white.
Qed.

(** The text of a tree as tokens. *)
Lemma stable_children r cb children :
  stable (AndNode r cb children) -> Forall stable children.
Proof.
  intros H. induction children as [|c cs IH]; constructor; [apply H|apply IH, H].
Qed.

Lemma stable_children_or r cb children :
  stable (OrNode r cb children) -> Forall stable children.
Proof.
  intros H. induction children as [|c cs IH]; constructor; [apply H|apply IH, H].
Qed.

Lemma Forall_stable_IH (P : Node -> Prop) children :
  Forall (fun c => stable c -> P c) children -> Forall stable children ->
  Forall P children.
Proof.
  induction 1 as [|c cs Hc _ IH]; intros Hp; [constructor|].
  inversion Hp; subst. constructor; auto.
Qed.

Lemma render_more_args args rest trailing :
  Forall (fun a => normalize a = a) args ->
  render (flat_map (fun a => ([], TComma) :: chars a) args ++ rest) trailing
  = flat_map (fun a => py "," ++ a) args ++ render rest trailing.
Proof.
  induction 1 as [|a args Ha _ IH]; [reflexivity|].
  cbn [flat_map]. rewrite <- ?app_assoc. cbn [app render tok_text].
  rewrite chars_render_app, IH by assumption. cbn. now rewrite <- ?app_assoc.
Qed.

Lemma render_atom_chars gap name args rest trailing :
  normalize name = name -> Forall (fun a => normalize a = a) args ->
  render (atom_chars gap name args ++ rest) trailing
  = gap ++ __str__ (ScriptNode RNone name args) ++ render rest trailing.
Proof.
  intros Hn Ha. unfold atom_chars. cbn [app render tok_text __str__].
  rewrite <- ?app_assoc, chars_render_app by assumption.
  destruct args as [|a args].
  - cbn. now rewrite <- ?app_assoc.
  - inversion Ha as [|? ? Ha1 Ha']; subst.
    cbn [app render tok_text]. rewrite <- ?app_assoc.
    rewrite chars_render_app, render_more_args by assumption.
    rewrite join_flat_map. cbn. now rewrite <- ?app_assoc.
Qed.

Lemma stable_args_normalized args :
  stable_args args -> Forall (fun a => normalize a = a) args.
Proof. intros [H _]. eapply Forall_impl; [|exact H]. now intros a [Ha _]. Qed.

Lemma render_children_tokens children rest trailing :
  Forall (fun c => forall gap rest trailing,
              render (tokens_of gap c ++ rest) trailing
              = gap ++ __str__ c ++ render rest trailing) children ->
  render (flat_map (fun c => ([], TComma) :: tokens_of (py " ") c) children ++ rest) trailing
  = flat_map (fun s => py ", " ++ s) (map __str__ children) ++ render rest trailing.
Proof.
  induction 1 as [|c cs Hc _ IH]; [reflexivity|].
  cbn [flat_map map]. rewrite <- ?app_assoc. cbn [app render tok_text].
  rewrite Hc, IH. cbn. now rewrite <- ?app_assoc.
Qed.

Lemma render_operator_tokens op gap children rest trailing :
  Forall (fun c => forall gap rest trailing,
              render (tokens_of gap c ++ rest) trailing
              = gap ++ __str__ c ++ render rest trailing) children ->
  render (((gap, TWord op) :: (py " ", TOpen)
           :: match children with
              | [] => [(py "  ", TClose)]
              | c :: cs =>
                  tokens_of (py " ") c
                  ++ flat_map (fun c' => ([], TComma) :: tokens_of (py " ") c') cs
                  ++ [(py " ", TClose)]
              end) ++ rest) trailing
  = gap ++ (op ++ py " [ " ++ join (py ", ") (map __str__ children) ++ py " ]")
    ++ render rest trailing.
Proof.
  intros HF. cbn [app render tok_text]. rewrite <- ?app_assoc. do 2 f_equal.
  destruct children as [|c cs]; [reflexivity|].
  inversion HF as [|? ? Hc Hcs]; subst.
  rewrite <- ?app_assoc, Hc, (render_children_tokens cs _ _ Hcs).
  cbn [map]. rewrite join_flat_map. cbn. now rewrite <- ?app_assoc.
Qed.

Lemma render_tokens_of t :
  stable t -> forall gap rest trailing,
  render (tokens_of gap t ++ rest) trailing = gap ++ __str__ t ++ render rest trailing.
Proof.
  induction t as [r name args | r | r child IH | r cb children IH | r cb children IH]
    using Node_induction; intros Hs gap rest trailing.
  - destruct Hs as [[Hn _] Ha]. cbn [tokens_of].
    now rewrite render_atom_chars by (assumption || now apply stable_args_normalized).
  - reflexivity.
  - cbn [tokens_of __str__ app render tok_text]. rewrite (IH Hs).
    cbn. now rewrite <- ?app_assoc.
  - cbn [tokens_of __str__]. apply render_operator_tokens.
    apply (Forall_stable_IH _ _ IH), (stable_children _ _ _ Hs).
  - cbn [tokens_of __str__]. apply render_operator_tokens.
    apply (Forall_stable_IH _ _ IH), (stable_children_or _ _ _ Hs).
Qed.

Lemma gaps_ok_atom_chars gap name args : white gap -> gaps_ok (atom_chars gap name args).
Proof.
  intros Hg. unfold atom_chars. constructor; [now split|].
  apply gaps_ok_app; [apply chars_ok|]. apply gaps_ok_app; [|repeat constructor].
  destruct args as [|a args]; [constructor|].
  constructor; [split; [constructor|split; [discriminate|repeat constructor]]|].
  apply gaps_ok_app; [apply chars_ok|].
  induction args as [|b args IH]; [constructor|].
  cbn [flat_map]. constructor; [split; [constructor|exact I]|].
  apply gaps_ok_app; [apply chars_ok|exact IH].
Qed.

Lemma gaps_ok_children_tokens children :
  Forall (fun c => forall gap, white gap -> gaps_ok (tokens_of gap c)) children ->
  gaps_ok (flat_map (fun c => ([], TComma) :: tokens_of (py " ") c) children).
Proof.
  induction 1 as [|c cs Hc _ IH]; [constructor|].
  cbn [flat_map]. apply gaps_ok_app; [|exact IH].
  constructor; [split; [constructor|exact I]|]. apply Hc, white_space.
Qed.

Lemma gaps_ok_operator_tokens op gap children :
  tok_ok (TWord op) -> white gap ->
  Forall (fun c => forall gap, white gap -> gaps_ok (tokens_of gap c)) children ->
  gaps_ok ((gap, TWord op) :: (py " ", TOpen)
           :: match children with
              | [] => [(py "  ", TClose)]
              | c :: cs =>
                  tokens_of (py " ") c
                  ++ flat_map (fun c' => ([], TComma) :: tokens_of (py " ") c') cs
                  ++ [(py " ", TClose)]
              end).
Proof.
  intros Hop Hg HF.
  constructor; [now split|]. constructor; [split; [apply white_space|exact I]|].
  destruct children as [|c cs].
  - repeat constructor.
  - inversion HF as [|? ? Hc Hcs]; subst.
    apply gaps_ok_app; [apply Hc, white_space|].
    apply gaps_ok_app; [now apply gaps_ok_children_tokens|].
    repeat constructor.
Qed.

Lemma gaps_ok_tokens_of t : forall gap, white gap -> gaps_ok (tokens_of gap t).
Proof.
  induction t as [r name args | r | r child IH | r cb children IH | r cb children IH]
    using Node_induction; intros gap Hg.
  - now apply gaps_ok_atom_chars.
  - cbn [tokens_of]. repeat constructor; (assumption || discriminate).
  - cbn [tokens_of]. constructor; [|apply IH; constructor].
    split; [assumption|]. split; [discriminate|repeat constructor].
  - cbn [tokens_of]. apply gaps_ok_operator_tokens; [|assumption|assumption].
    destruct cb; (split; [discriminate|repeat constructor]).
  - cbn [tokens_of]. apply gaps_ok_operator_tokens; [|assumption|assumption].
    destruct cb; (split; [discriminate|repeat constructor]).
Qed.

(** The normalized text of an atom: its opening parenthesis, and the
    tokens between the parentheses with the gaps of the normalization. *)
Lemma normalize_atom name args :
  normalize name = name -> Forall (fun a => normalize a = a) args ->
  normalize (__str__ (ScriptNode RNone name args))
  = py "("
    ++ render (map_gaps canon_gap (Some TLPar)
                 (chars name
                  ++ match args with
                     | [] => []
                     | a :: rest =>
                         ([], TWord (py ":")) :: chars a
                         ++ flat_map (fun a' => ([], TComma) :: chars a') rest
                     end
                  ++ [([], TRPar)])) [].
Proof.
  intros Hn Ha.
  pose proof (render_atom_chars [] name args [] [] Hn Ha) as E.
  cbn [render app] in E. rewrite !app_nil_r in E. rewrite <- E.
  rewrite normalize_items;
    [reflexivity|apply gaps_ok_atom_chars; constructor|constructor|discriminate].
Qed.

Lemma tokens_of_head t gap : exists rest, tokens_of gap t = (gap, first_tok t) :: rest.
Proof.
  destruct t as [r name args | r [child|] | r cb children | r cb children];
    cbn; eexists; reflexivity.
Qed.

Lemma end_tok_cases t :
  end_tok t = TRPar \/ end_tok t = TClose \/ end_tok t = TWord (py "None").
Proof.
  induction t as [r name args | r | r child IH | r cb children IH | r cb children IH]
    using Node_induction; cbn; auto.
Qed.

Lemma text_children children : forall p0 rest trailing,
  Forall text_spec children ->
  p0 = TRPar \/ p0 = TClose \/ p0 = TWord (py "None") ->
  render (map_gaps canon_gap (Some p0)
            (flat_map (fun c => ([], TComma) :: tokens_of (py " ") c) children
             ++ (py " ", TClose) :: rest)) trailing
  = flat_map (fun s => py ", " ++ s) (map normal_text children) ++ py " ]"
    ++ render (map_gaps canon_gap (Some TClose) rest) trailing.
Proof.
  induction children as [|c cs IH]; intros p0 rest trailing HF H0.
  - cbn. destruct H0 as [-> | [-> | ->]]; reflexivity.
  - inversion HF as [|? ? Hc Hcs]; subst.
    cbn [flat_map map]. rewrite <- ?app_assoc. cbn [app map_gaps render tok_text].
    replace (canon_gap (Some p0) [] TComma) with ([] : pystr)
      by (destruct H0 as [-> | [-> | ->]]; reflexivity).
    rewrite Hc, canon_gap_after_comma.
    rewrite (IH (end_tok c)) by (assumption || apply end_tok_cases).
    cbn. now rewrite <- ?app_assoc.
Qed.

Lemma text_operator op gap children : forall p rest trailing,
  Forall text_spec children ->
  render (map_gaps canon_gap (Some p)
            (((gap, TWord op) :: (py " ", TOpen)
              :: match children with
                 | [] => [(py "  ", TClose)]
                 | c :: cs =>
                     tokens_of (py " ") c
                     ++ flat_map (fun c' => ([], TComma) :: tokens_of (py " ") c') cs
                     ++ [(py " ", TClose)]
                 end) ++ rest)) trailing
  = canon_gap (Some p) gap (TWord op) ++ (op ++ canon_list (map normal_text children))
    ++ render (map_gaps canon_gap (Some TClose) rest) trailing.
Proof.
  intros p rest trailing HF.
  cbn [app map_gaps render tok_text]. rewrite <- ?app_assoc. do 2 f_equal.
  destruct children as [|c cs]; [reflexivity|].
  inversion HF as [|? ? Hc Hcs]; subst.
  rewrite <- ?app_assoc, Hc, canon_gap_after_open.
  cbn [app]. rewrite (text_children cs (end_tok c)) by (assumption || apply end_tok_cases).
  cbn [map canon_list]. rewrite join_flat_map. cbn. now rewrite <- ?app_assoc.
Qed.

Lemma text_spec_stable t : stable t -> text_spec t.
Proof.
  induction t as [r name args | r | r child IH | r cb children IH | r cb children IH]
    using Node_induction; intros Hs p gap rest trailing.
  - destruct Hs as [[Hn _] Ha]. apply stable_args_normalized in Ha.
    cbn [tokens_of first_tok end_tok normal_text].
    rewrite (normalize_atom name args Hn Ha). unfold atom_chars.
    cbn [app map_gaps render tok_text]. rewrite <- !app_assoc. do 2 f_equal.
    rewrite !app_assoc, map_gaps_app, render_app, render_trailing.
    rewrite <- !app_assoc. do 2 f_equal.
    rewrite !last_tok_app. reflexivity.
  - reflexivity.
  - cbn [tokens_of first_tok end_tok normal_text app map_gaps render tok_text].
    rewrite (IH Hs), canon_gap_after_not. now rewrite <- ?app_assoc.
  - cbn [tokens_of first_tok end_tok normal_text]. apply text_operator.
    apply (Forall_stable_IH _ _ IH), (stable_children _ _ _ Hs).
  - cbn [tokens_of first_tok end_tok normal_text]. apply text_operator.
    apply (Forall_stable_IH _ _ IH), (stable_children_or _ _ _ Hs).
Qed.

(** [normalize] turns the text of a tree into its normalized text. *)
Theorem normalize_text t : stable t -> normalize (__str__ t) = normal_text t.
Proof.
  intros Hs.
  pose proof (render_tokens_of t Hs [] [] []) as Er.
  rewrite ?app_nil_r in Er. cbn [app render] in Er. rewrite ?app_nil_r in Er.
  rewrite <- Er.
  pose proof (gaps_ok_tokens_of t [] ltac:(constructor)) as Hok.
  destruct (tokens_of_head t []) as (rest & E).
  rewrite normalize_items; [|assumption|constructor|rewrite E; discriminate].
  pose proof (text_spec_stable t Hs TOpen [] [] []) as H.
  rewrite app_nil_r in H. rewrite E in H |- *. cbn in H |- *.
  rewrite app_nil_r in H. apply app_inv_head in H. exact H.
Qed.

(** The normalized text of an atom. *)
Lemma args_in_context rest : forall a prev,
  normalize a = a -> Forall (fun a' => normalize a' = a') rest ->
  exists s,
    render (map_gaps canon_gap prev
              (chars a ++ flat_map (fun a' => ([], TComma) :: chars a') rest
               ++ [([], TRPar)])) []
    = s ++ py ")"
    /\ args_shape a rest s.
Proof.
  induction rest as [|b rest IH]; intros a prev Ha Hr.
  - cbn [flat_map app]. rewrite normalized_in_context by assumption.
    cbn [map_gaps render tok_text]. rewrite app_nil_r.
    exists (lead prev a ++ a ++ canon_gap (last_tok prev (chars a)) [] TRPar).
    split; [now rewrite <- !app_assoc|].
    exists (lead prev a), (canon_gap (last_tok prev (chars a)) [] TRPar).
    split; [apply lead_white|]. split; [apply canon_gap_white|reflexivity].
  - inversion Hr as [|? ? Hb Hr']; subst.
    cbn [flat_map]. rewrite normalized_in_context by assumption.
    rewrite <- !app_assoc. cbn [app map_gaps render tok_text].
    destruct (IH b (Some TComma) Hb Hr') as (s' & E & Hs').
    exists (lead prev a ++ a ++ canon_gap (last_tok prev (chars a)) [] TComma
            ++ ","%char :: s').
    split.
    { rewrite <- !app_assoc. do 3 f_equal. cbn [app py list_ascii_of_string].
      f_equal. exact E. }
    exists (lead prev a), (canon_gap (last_tok prev (chars a)) [] TComma), s'.
    split; [apply lead_white|]. split; [apply canon_gap_white|]. now split.
Qed.

Lemma atom_text_shape name args :
  normalize name = name -> Forall (fun a => normalize a = a) args ->
  exists body,
    normalize (__str__ (ScriptNode RNone name args)) = "("%char :: body ++ py ")"
    /\ atom_shape name args body.
Proof.
  intros Hn Ha. rewrite (normalize_atom name args Hn Ha).
  rewrite normalized_in_context by assumption.
  destruct args as [|a rest].
  - cbn [app map_gaps render tok_text]. rewrite app_nil_r.
    exists (lead (Some TLPar) name ++ name
            ++ canon_gap (last_tok (Some TLPar) (chars name)) [] TRPar).
    split; [cbn; now rewrite <- !app_assoc|].
    exists (lead (Some TLPar) name), (canon_gap (last_tok (Some TLPar) (chars name)) [] TRPar).
    split; [apply lead_white|]. split; [apply canon_gap_white|reflexivity].
  - inversion Ha as [|? ? Ha1 Hr]; subst.
    rewrite <- ?app_assoc. cbn [app map_gaps render tok_text].
    destruct (args_in_context rest a (Some (TWord (py ":"))) Ha1 Hr) as (s & E & Hs).
    exists (lead (Some TLPar) name ++ name
            ++ canon_gap (last_tok (Some TLPar) (chars name)) [] (TWord (py ":"))
            ++ ":"%char :: s).
    split.
    { cbn [app py list_ascii_of_string]. f_equal. rewrite <- !app_assoc. do 3 f_equal.
      cbn [app]. f_equal. exact E. }
    exists (lead (Some TLPar) name),
           (canon_gap (last_tok (Some TLPar) (chars name)) [] (TWord (py ":"))).
    split; [apply lead_white|]. split; [apply canon_gap_white|]. now exists s.
Qed.

(** The argument loop on arguments without quotes. *)
Lemma white_not x w : isspace x = false -> white w -> Forall (fun c => c <> x) w.
Proof.
  intros Hx Hw. eapply Forall_impl; [|exact Hw]. intros c Hc ->. congruence.
Qed.

Lemma arg_char_facts c :
  arg_char c = true ->
  c <> ","%char /\ c <> dquote /\ c <> backslash /\ c <> ")"%char.
Proof.
  unfold arg_char. intros H.
  apply andb_prop in H as [H H4]. apply andb_prop in H as [H H3].
  apply andb_prop in H as [H1 H2]. apply negb_true_iff in H1, H2, H3, H4.
  repeat split; now apply char_eqb_neq.
Qed.

Lemma args_loop_free p : forall rest cur acc,
  Forall (fun c => c <> ","%char /\ c <> dquote /\ c <> backslash) p ->
  args_loop (p ++ rest) cur false acc = args_loop rest (cur ++ p) false acc.
Proof.
  induction p as [|c p IH]; intros rest cur acc HF.
  - now rewrite app_nil_r.
  - inversion HF as [|? ? (H1 & H2 & H3) HF']; subst.
    cbn [app args_loop].
    rewrite (proj2 (char_eqb_neq _ _) H1), (proj2 (char_eqb_neq _ _) H2),
      (proj2 (char_eqb_neq _ _) H3). cbn [andb].
    rewrite IH by assumption. now rewrite <- app_assoc.
Qed.

Lemma segment_free w a w' :
  white w -> white w' -> stable_arg a ->
  Forall (fun c => c <> ","%char /\ c <> dquote /\ c <> backslash) (w ++ a ++ w').
Proof.
  intros Hw Hw' [_ Ha].
  assert (W : forall g, white g ->
                Forall (fun c => c <> ","%char /\ c <> dquote /\ c <> backslash) g).
  { intros g Hg. eapply Forall_impl; [|exact Hg].
    intros c Hc. repeat split; intros ->; discriminate. }
  apply Forall_app. split; [now apply W|]. apply Forall_app. split; [|now apply W].
  eapply Forall_impl; [|exact Ha]. intros c Hc.
  destruct (arg_char_facts c Hc) as (? & ? & ? & _). auto.
Qed.

Lemma finish_arg_segment w a w' :
  white w -> white w' -> stable_arg a -> finish_arg (w ++ a ++ w') = a.
Proof.
  intros Hw Hw' [Hn Ha]. unfold finish_arg.
  rewrite strip_normalized by assumption.
  destruct a as [|c a]; [reflexivity|].
  inversion Ha as [|? ? Hc _]; subst.
  destruct (arg_char_facts c Hc) as (_ & Hq & _).
  cbn [starts_with].
  replace (char_eqb dquote c) with false by (symmetry; apply char_eqb_neq; congruence).
  reflexivity.
Qed.

Lemma args_loop_shape rest : forall a s acc,
  Forall stable_arg (a :: rest) -> args_shape a rest s ->
  exists cur,
    args_loop s [] false acc = (acc ++ removelast (a :: rest), cur)
    /\ finish_arg cur = last rest a
    /\ (last rest a <> [] -> cur <> []).
Proof.
  induction rest as [|b rest IH]; intros a s acc HF Hs.
  - destruct Hs as (w & w' & Hw & Hw' & ->).
    inversion HF as [|? ? Ha _]; subst.
    exists (w ++ a ++ w'). cbn [removelast last].
    rewrite <- (app_nil_r (w ++ a ++ w')) at 1.
    rewrite args_loop_free by now apply segment_free.
    rewrite app_nil_r. split; [reflexivity|]. split; [now apply finish_arg_segment|].
    intros Hne E. apply app_eq_nil in E as [_ E]. apply app_eq_nil in E as [E _].
    contradiction.
  - destruct Hs as (w & w' & s' & Hw & Hw' & -> & Hs').
    inversion HF as [|? ? Ha HF']; subst.
    destruct (IH b s' (acc ++ [a]) HF' Hs') as (cur & E & Hfin & Hne).
    exists cur.
    replace (w ++ a ++ w' ++ ","%char :: s') with ((w ++ a ++ w') ++ ","%char :: s')
      by (now rewrite <- !app_assoc).
    rewrite args_loop_free by now apply segment_free.
    cbn [args_loop app].
    change (char_eqb "," backslash) with false.
    change (char_eqb "," dquote) with false.
    rewrite char_eqb_refl. cbn [andb negb].
    rewrite finish_arg_segment by assumption.
    rewrite E, <- app_assoc. split; [reflexivity|].
    rewrite last_cons. split; [|exact Hne].
    rewrite Hfin. destruct rest; reflexivity.
Qed.

(** [strip] on a text of arguments. *)
Lemma lstrip_mid s c rest :
  isspace c = false -> lstrip (s ++ c :: rest) = lstrip s ++ c :: rest.
Proof.
  intros Hc. induction s as [|d s IH]; cbn.
  - now rewrite Hc.
  - destruct (isspace d); [exact IH|reflexivity].
Qed.

Lemma rstrip_mid X c s :
  isspace c = false -> rstrip (X ++ c :: s) = X ++ c :: rstrip s.
Proof.
  intros Hc. unfold rstrip.
  rewrite rev_app_distr. cbn [rev]. rewrite <- app_assoc. cbn [app].
  rewrite lstrip_mid by assumption.
  rewrite rev_app_distr. cbn [rev]. rewrite rev_involutive, <- app_assoc. reflexivity.
Qed.

Lemma rstrip_white w : white w -> rstrip w = [].
Proof.
  intros Hw. unfold rstrip.
  rewrite <- (app_nil_r (rev w)), lstrip_white; [reflexivity|now apply Forall_rev|exact I].
Qed.

Lemma lstrip_shape rest a s :
  Forall stable_arg (a :: rest) -> args_shape a rest s ->
  (rest = [] -> a <> []) -> args_shape a rest (lstrip s).
Proof.
  intros HF Hs Hne. inversion HF as [|? ? [Hn Ha] _]; subst.
  destruct rest as [|b rest].
  - destruct Hs as (w & w' & Hw & Hw' & ->).
    destruct (normalized_ends a Hn (Hne eq_refl)) as [Hh _].
    rewrite lstrip_white by (assumption || now apply head_nonspace_stops).
    exists [], w'. repeat split; (assumption || constructor).
  - destruct Hs as (w & w' & s' & Hw & Hw' & -> & Hs').
    destruct (list_eq_dec ascii_dec a []) as [-> | Ha0].
    + cbn [app]. rewrite app_assoc, lstrip_white;
        [|now apply Forall_app|reflexivity].
      exists [], [], s'. repeat split; (assumption || constructor).
    + destruct (normalized_ends a Hn Ha0) as [Hh _].
      rewrite lstrip_white by (assumption || now apply head_nonspace_stops).
      exists [], w', s'. repeat split; (assumption || constructor).
Qed.

Lemma rstrip_shape rest : forall a s,
  Forall stable_arg (a :: rest) -> args_shape a rest s ->
  last rest a <> [] -> args_shape a rest (rstrip s).
Proof.
  induction rest as [|b rest IH]; intros a s HF Hs Hne.
  - destruct Hs as (w & w' & Hw & Hw' & ->). cbn [last] in Hne.
    inversion HF as [|? ? [Hn Ha] _]; subst.
    destruct (normalized_ends a Hn Hne) as [_ Hl].
    destruct (rev a) as [|c r] eqn:Er; [contradiction|]. cbn in Hl.
    assert (Ea : a = rev r ++ [c]).
    { rewrite <- (rev_involutive a), Er. reflexivity. }
    rewrite Ea, <- !app_assoc. cbn [app].
    rewrite app_assoc, rstrip_mid, rstrip_white by assumption.
    rewrite <- app_assoc.
    exists w, []. repeat split; (assumption || constructor || idtac).
    now rewrite <- !app_assoc.
  - destruct Hs as (w & w' & s' & Hw & Hw' & -> & Hs').
    inversion HF as [|? ? Ha HF']; subst.
    replace (w ++ a ++ w' ++ ","%char :: s') with ((w ++ a ++ w') ++ ","%char :: s')
      by (now rewrite <- !app_assoc).
    rewrite rstrip_mid by reflexivity. rewrite <- !app_assoc.
    exists w, w', (rstrip s'). repeat split; try assumption.
    apply IH; [assumption|assumption|]. now rewrite last_cons in Hne.
Qed.

Lemma stable_args_last a rest : stable_args (a :: rest) -> last rest a <> [].
Proof.
  intros [_ H]. apply (H (removelast (a :: rest))).
  rewrite <- (last_cons _ rest a a).
  apply (app_removelast_last (l := a :: rest)). discriminate.
Qed.

Lemma parse_args_shape a rest s :
  stable_args (a :: rest) -> args_shape a rest s -> parse_args (strip s) = a :: rest.
Proof.
  intros Hst Hs. pose proof (stable_args_last a rest Hst) as Hl.
  destruct Hst as [HF _].
  assert (Hs' : args_shape a rest (strip s)).
  { unfold strip. apply rstrip_shape; [assumption| |assumption].
    apply lstrip_shape; [assumption|assumption|]. now intros ->. }
  destruct (args_loop_shape rest a (strip s) [] HF Hs') as (cur & E & Hfin & Hne).
  specialize (Hne Hl). unfold parse_args.
  destruct (strip s) as [|c t] eqn:Et.
  - cbn in E. inversion E. congruence.
  - rewrite E. destruct cur as [|d cur]; [congruence|].
    rewrite Hfin, <- (last_cons _ rest a a). cbn [app]. symmetry.
    apply (app_removelast_last (l := a :: rest)). discriminate.
Qed.

Lemma shape_no_close rest : forall a s,
  Forall stable_arg (a :: rest) -> args_shape a rest s ->
  Forall (fun c => c <> ")"%char) s.
Proof.
  induction rest as [|b rest IH]; intros a s HF Hs;
    inversion HF as [|? ? [_ Ha] HF']; subst.
  - destruct Hs as (w & w' & Hw & Hw' & ->).
    apply Forall_app. split; [now apply white_not|].
    apply Forall_app. split; [|now apply white_not].
    eapply Forall_impl; [|exact Ha]. intros c Hc. apply (arg_char_facts c Hc).
  - destruct Hs as (w & w' & s' & Hw & Hw' & -> & Hs').
    apply Forall_app. split; [now apply white_not|].
    apply Forall_app. split.
    { eapply Forall_impl; [|exact Ha]. intros c Hc. apply (arg_char_facts c Hc). }
    apply Forall_app. split; [now apply white_not|].
    constructor; [discriminate|]. now apply (IH b).
Qed.

(** [_parse_script_node] on the normalized text of an atom. *)
Lemma parse_script_node_shape name args body expr pos rest :
  stable_name name -> stable_args args -> atom_shape name args body ->
  At expr pos ("("%char :: body ++ ")"%char :: rest) ->
  _parse_script_node expr pos = (ScriptNode RNone name args, pos + len body + 2).
Proof.
  intros [Hn Hc] Ha (w & w' & Hw & Hw' & Hb) A0.
  pose proof (At_nonneg _ _ _ A0) as Hpos.
  assert (Hpre : Forall (fun c => c <> ":"%char) (w ++ name ++ w')
                 /\ Forall (fun c => c <> ")"%char) (w ++ name ++ w')).
  { split; (apply Forall_app; split; [now apply white_not|];
            apply Forall_app; split; [|now apply white_not]);
      (eapply Forall_impl; [|exact Hc]); now intros c [? ?]. }
  destruct Hpre as [Hcolon Hclose].
  unfold _parse_script_node. change (py ":") with [":"%char]. change (py ")") with [")"%char].
  pose proof (At_next _ _ _ _ A0) as A.
  destruct args as [|a args].
  - subst body. set (pre := w ++ name ++ w') in *.
    pose proof (len_nonneg pre) as Hlen.
    rewrite (At_find_char expr (pos + 1) pre ")"%char rest A) by assumption.
    assert (A' : At expr (pos + 1) ((pre ++ [")"%char]) ++ rest))
      by (eapply At_eq; [exact A|now rewrite <- app_assoc]).
    pose proof (At_find_char_after _ _ _ ":"%char _ A'
                  ltac:(apply Forall_app; split; [assumption|repeat constructor; discriminate]))
      as Hk.
    rewrite len_app in Hk. change (len [")"%char]) with 1 in Hk.
    match goal with
    | |- (if ?c then _ else _) = _ => replace c with false
    end.
    2:{ symmetry. destruct Hk as [-> | Hk]; [reflexivity|].
        apply andb_false_intro2. apply Z.ltb_ge. lia. }
    rewrite (At_slice _ _ pre _ A). unfold pre.
    rewrite strip_normalized by assumption. f_equal. lia.
  - destruct Hb as (s & -> & Hs). set (pre := w ++ name ++ w') in *.
    pose proof (len_nonneg pre) as Hlen. pose proof (len_nonneg s) as Hls.
    pose proof (shape_no_close args a s (proj1 Ha) Hs) as Hsc.
    assert (A1 : At expr (pos + 1) (pre ++ ":"%char :: s ++ ")"%char :: rest))
      by (eapply At_eq; [exact A|unfold pre; now rewrite <- !app_assoc]).
    assert (A2 : At expr (pos + 1) ((pre ++ ":"%char :: s) ++ ")"%char :: rest))
      by (eapply At_eq; [exact A1|now rewrite <- app_assoc]).
    rewrite (At_find_char expr (pos + 1) pre ":"%char _ A1) by assumption.
    rewrite (At_find_char expr (pos + 1) _ ")"%char rest A2)
      by (apply Forall_app; split; [assumption|constructor; [discriminate|assumption]]).
    rewrite len_app, len_cons.
    match goal with
    | |- (if ?c then _ else _) = _ => replace c with true
    end.
    2:{ symmetry. apply andb_true_intro. split.
        - apply negb_true_iff, Z.eqb_neq. lia.
        - apply Z.ltb_lt. lia. }
    rewrite (At_slice _ _ pre _ A1). unfold pre at 1.
    rewrite strip_normalized by assumption.
    apply (At_step _ _ pre) in A1. apply At_next in A1.
    pose proof (At_slice _ _ s _ A1) as S2.
    replace (pos + 1 + len pre + 1 + len s) with (pos + 1 + (len pre + (1 + len s))) in S2
      by lia.
    rewrite S2, (parse_args_shape a args s Ha Hs).
    f_equal. unfold pre. rewrite !len_app, len_cons. lia.
Qed.

(** ** The parser on the normalized text of a tree *)

Lemma fresh_children r cb children :
  fresh (AndNode r cb children) -> Forall fresh children.
Proof.
  intros [_ H]. induction children as [|c cs IH]; constructor; [apply H|apply IH, H].
Qed.

Lemma fresh_children_or r cb children :
  fresh (OrNode r cb children) -> Forall fresh children.
Proof.
  intros [_ H]. induction children as [|c cs IH]; constructor; [apply H|apply IH, H].
Qed.

(** The text of a tree starts with [(], [!], [&] or [|]. *)
Lemma normal_text_head t :
  stable t ->
  exists c s, normal_text t = c :: s /\ isspace c = false
              /\ c <> "]"%char /\ c <> ","%char.
Proof.
  destruct t as [r name args | r [child|] | r [|] children | r [|] children];
    intros Hs; cbn [normal_text and_operator or_operator].
  1: { destruct Hs as [[Hn _] [Ha _]].
       destruct (atom_text_shape name args Hn) as (body & E & _).
       - eapply Forall_impl; [|exact Ha]. now intros a [H _].
       - rewrite E. eexists _, _. split; [reflexivity|].
         repeat split; (reflexivity || discriminate). }
  all: eexists _, _; (split; [reflexivity|]); repeat split; (reflexivity || discriminate).
Qed.

Lemma slack_comma t rest : slack t (","%char :: rest) = 0.
Proof. unfold slack. now destruct (ends_none t). Qed.

Lemma slack_nil t : slack t [] = 0.
Proof. unfold slack. now destruct (ends_none t). Qed.

Lemma slack_close t rest :
  slack t (py " ]" ++ rest) = if ends_none t then 1 else 0.
Proof. unfold slack. now destruct (ends_none t). Qed.

(** The loop on the children that are left, each after its separator. After
    a child whose text ends with [None] the parser is at the closing
    bracket already. *)
Lemma children_loop_text parse_expression expr rest children :
  forall child lead fuel pos done,
    Forall stable (child :: children) ->
    Forall (reads_text parse_expression) (child :: children) ->
    lead = py " " \/ lead = py ", " ->
    (S (S (length children)) <= fuel)%nat ->
    At expr pos (lead ++ normal_text child ++ tail_texts (map normal_text children)
                   ++ py " ]" ++ rest) ->
    children_loop parse_expression fuel expr pos done
    = Some (done ++ child :: children,
            pos + len lead + len (normal_text child)
            + len (tail_texts (map normal_text children)) + 1).
Proof.
  induction children as [|next children IH];
    intros child lead fuel pos done Hp Hr Hl Hf A.
  - (* one child left *)
    inversion Hp as [|? ? Pc _]; subst. inversion Hr as [|? ? Rc _]; subst.
    destruct (normal_text_head child Pc) as (c & s & Ec & Hc & Hb & Hx).
    destruct fuel as [|fuel]; [cbn in Hf; lia|]. cbn [children_loop].
    assert (Hlead : exists d l, lead = d :: l /\ d <> "]"%char)
      by (destruct Hl as [-> | ->]; eexists _, _; (split; [reflexivity|discriminate])).
    destruct Hlead as (d & l & El & Hd).
    cbn [map] in A. change (tail_texts []) with (@nil ascii) in A |- *.
    cbn [app] in A.
    assert (A1 : At expr pos (d :: l ++ normal_text child ++ py " ]" ++ rest))
      by (eapply At_eq; [exact A|now rewrite El]).
    rewrite (At_in_range _ _ _ _ A1), (At_is_char _ _ _ _ "]"%char A1).
    replace (char_eqb d "]") with false by (symmetry; now apply char_eqb_neq).
    cbn [negb andb].
    rewrite (At_skip_while _ _ _ _ A). rewrite Ec in A |- *.
    cbn [app] in A |- *. rewrite (run_length_lead lead c _ Hl Hc Hx). fold (len lead).
    apply At_step in A.
    rewrite (At_in_range _ _ _ _ A), (At_is_char _ _ _ _ "]"%char A).
    replace (char_eqb c "]") with false by (symmetry; now apply char_eqb_neq).
    cbn [negb andb].
    assert (A2 : At expr (pos + len lead) (normal_text child ++ py " ]" ++ rest))
      by (eapply At_eq; [exact A|rewrite Ec; reflexivity]).
    rewrite (Rc _ _ _ A2). apply At_step in A2.
    rewrite slack_close. rewrite <- Ec.
    destruct fuel as [|fuel]; [cbn in Hf; lia|].
    destruct (ends_none child).
    + apply (At_next _ _ " "%char) in A2. cbn [children_loop].
      rewrite (At_in_range _ _ _ _ A2), (At_is_char _ _ _ _ "]"%char A2).
      change (char_eqb "]" "]") with true. cbn [negb andb].
      f_equal. f_equal. change (len (tail_texts (map normal_text []))) with 0. lia.
    + rewrite Z.add_0_r.
      rewrite (children_loop_end _ _ _ _ rest _ A2).
      f_equal. f_equal. change (len (tail_texts (map normal_text []))) with 0. lia.
  - (* more children *)
    inversion Hp as [|? ? Pc Hp']; subst. inversion Hr as [|? ? Rc Hr']; subst.
    destruct (normal_text_head child Pc) as (c & s & Ec & Hc & Hb & Hx).
    destruct fuel as [|fuel]; [cbn in Hf; lia|]. cbn [children_loop].
    assert (Hlead : exists d l, lead = d :: l /\ d <> "]"%char)
      by (destruct Hl as [-> | ->]; eexists _, _; (split; [reflexivity|discriminate])).
    destruct Hlead as (d & l & El & Hd).
    assert (A1 : At expr pos (d :: l ++ normal_text child
                                ++ tail_texts (map normal_text (next :: children))
                                ++ py " ]" ++ rest))
      by (eapply At_eq; [exact A|now rewrite El]).
    rewrite (At_in_range _ _ _ _ A1), (At_is_char _ _ _ _ "]"%char A1).
    replace (char_eqb d "]") with false by (symmetry; now apply char_eqb_neq).
    cbn [negb andb].
    rewrite (At_skip_while _ _ _ _ A). rewrite Ec in A |- *.
    cbn [app] in A |- *. rewrite (run_length_lead lead c _ Hl Hc Hx). fold (len lead).
    apply At_step in A.
    rewrite (At_in_range _ _ _ _ A), (At_is_char _ _ _ _ "]"%char A).
    replace (char_eqb c "]") with false by (symmetry; now apply char_eqb_neq).
    cbn [negb andb].
    assert (A2 : At expr (pos + len lead)
                    (normal_text child
                     ++ ","%char :: py " " ++ normal_text next
                     ++ tail_texts (map normal_text children) ++ py " ]" ++ rest)).
    { eapply At_eq; [exact A|]. rewrite Ec. unfold tail_texts. cbn [map flat_map].
      same_text. }
    rewrite (Rc _ _ _ A2). apply At_step in A2. rewrite slack_comma, Z.add_0_r.
    assert (A3 : At expr (pos + len lead + len (normal_text child))
                    (py ", " ++ normal_text next ++ tail_texts (map normal_text children)
                     ++ py " ]" ++ rest))
      by (eapply At_eq; [exact A2|reflexivity]).
    rewrite (IH next (py ", ") fuel _ (done ++ [child]) Hp' Hr' (or_intror eq_refl)
               ltac:(cbn in Hf |- *; lia) A3).
    rewrite <- Ec. rewrite <- app_assoc. cbn [app]. f_equal. f_equal.
    unfold tail_texts. cbn [map flat_map]. rewrite !len_app.
    change (len (py ", ")) with 2. lia.
Qed.

Lemma text_list_cons child children :
  canon_list (map normal_text (child :: children))
  = py " [" ++ py " " ++ normal_text child ++ tail_texts (map normal_text children)
    ++ py " ]".
Proof.
  cbn [map canon_list]. rewrite join_flat_map. unfold tail_texts. same_text.
Qed.

(** [_parse_operator_children] on the bracketed list of an operator. *)
Lemma parse_operator_children_text parse_expression fuel expr pos rest children :
  Forall stable children ->
  Forall (reads_text parse_expression) children ->
  (S (S (length children)) <= fuel)%nat ->
  At expr pos (canon_list (map normal_text children) ++ rest) ->
  _parse_operator_children parse_expression fuel expr pos
  = Some (children, pos + len (canon_list (map normal_text children))).
Proof.
  intros Hp Hr Hf A. unfold _parse_operator_children.
  destruct children as [|child children].
  - assert (A0 : At expr pos (" "%char :: "["%char :: py " ]" ++ rest))
      by (eapply At_eq; [exact A|reflexivity]).
    rewrite (At_skip_while _ _ _ _ A0).
    change (run_length isspace _) with 1%nat. change (Z.of_nat 1) with 1.
    apply At_next in A0.
    rewrite (At_in_range _ _ _ _ A0), (At_is_char _ _ _ _ "["%char A0).
    cbn [char_eqb andb]. change (char_eqb "[" "[") with true. cbv iota.
    apply At_next in A0.
    destruct fuel as [|fuel]; [cbn in Hf; lia|].
    rewrite (children_loop_end _ _ _ _ rest [] A0).
    apply (At_next _ _ " "%char) in A0.
    rewrite (At_in_range _ _ _ _ A0), (At_is_char _ _ _ _ "]"%char A0).
    change (char_eqb "]" "]") with true. cbn [andb]. cbv iota.
    f_equal. f_equal. cbn [map]. rewrite len_canon_list_nil. lia.
  - rewrite text_list_cons in A |- *.
    assert (A0 : At expr pos (" "%char :: "["%char :: py " " ++ normal_text child
                                ++ tail_texts (map normal_text children)
                                ++ py " ]" ++ rest))
      by (eapply At_eq; [exact A|same_text]).
    rewrite (At_skip_while _ _ _ _ A0).
    change (run_length isspace _) with 1%nat. change (Z.of_nat 1) with 1.
    apply At_next in A0.
    rewrite (At_in_range _ _ _ _ A0), (At_is_char _ _ _ _ "["%char A0).
    change (char_eqb "[" "[") with true. cbv iota. cbn [andb].
    apply At_next in A0.
    rewrite (children_loop_text parse_expression expr rest children child (py " ")
               fuel _ [] Hp Hr (or_introl eq_refl) ltac:(cbn in Hf |- *; lia) A0).
    apply At_step in A0. apply At_step in A0. apply At_step in A0.
    apply (At_next _ _ " "%char) in A0.
    rewrite (At_in_range _ _ _ _ A0), (At_is_char _ _ _ _ "]"%char A0).
    cbn [app]. change (char_eqb "]" "]") with true. cbn [andb]. cbv iota.
    f_equal. f_equal. rewrite !len_app.
    change (len (py " [")) with 2. change (len (py " ")) with 1.
    change (len (py " ]")) with 2. lia.
Qed.

(** The operator in front of the bracketed list is recognized and the list
    is read. *)
Lemma parse_operator_text fuel expr pos rest op children node :
  (op = py "&&" /\ node = AndNode RNone true
   \/ op = py "&" /\ node = AndNode RNone false
   \/ op = py "||" /\ node = OrNode RNone true
   \/ op = py "|" /\ node = OrNode RNone false) ->
  Forall stable children ->
  Forall (reads_text (_parse_expression fuel)) children ->
  (S (S (length children)) <= fuel)%nat ->
  At expr pos ((op ++ canon_list (map normal_text children)) ++ rest) ->
  _parse_expression (S fuel) expr pos
  = Some (Some (node children), pos + len (op ++ canon_list (map normal_text children))).
Proof.
  intros Hop Hp Hr Hf A.
  assert (Hl : exists l, canon_list (map normal_text children) = " "%char :: "["%char :: l).
  { destruct children; cbn [map canon_list]; eexists; reflexivity. }
  destruct Hl as (l & El).
  pose proof (parse_operator_children_text (_parse_expression fuel) fuel expr) as PC.
  destruct Hop as [[-> ->] | [[-> ->] | [[-> ->] | [-> ->]]]].
  - assert (A0 : At expr pos (py "&&" ++ canon_list (map normal_text children) ++ rest))
      by (eapply At_eq; [exact A|same_text]).
    parse_start A0. rewrite (At_is_char _ _ _ _ "!"%char A0).
    change (char_eqb "&" "!") with false. cbv iota.
    pose proof (At_slice _ _ (py "&&") _ A0) as S2; change (len (py "&&")) with 2 in S2;
      rewrite S2; clear S2. change (pystr_eqb (py "&&") (py "&&")) with true.
    cbv iota. apply At_step in A0. change (len (py "&&")) with 2 in A0.
    rewrite (PC _ rest children Hp Hr Hf A0).
    f_equal. f_equal. rewrite len_app. change (len (py "&&")) with 2. lia.
  - assert (A0 : At expr pos ("&"%char :: " "%char :: "["%char :: l ++ rest))
      by (eapply At_eq; [exact A|rewrite El; same_text]).
    parse_start A0. rewrite (At_is_char _ _ _ _ "!"%char A0).
    change (char_eqb "&" "!") with false. cbv iota.
    pose proof (At_slice _ _ (py "& ") _ A0) as S2; change (len (py "& ")) with 2 in S2;
      rewrite S2; clear S2. change (pystr_eqb (py "& ") (py "&&")) with false.
    change (pystr_eqb (py "& ") (py "||")) with false. cbv iota.
    rewrite (At_is_char _ _ _ _ "&"%char A0). change (char_eqb "&" "&") with true.
    pose proof (At_next _ _ _ _ A0) as A1.
    rewrite (At_is_char _ _ _ _ "&"%char A1). change (char_eqb " " "&") with false.
    rewrite orb_true_r. cbn [negb andb]. cbv iota.
    assert (A2 : At expr (pos + 1) (canon_list (map normal_text children) ++ rest))
      by (eapply At_eq; [exact A1|rewrite El; reflexivity]).
    rewrite (PC _ rest children Hp Hr Hf A2).
    f_equal. f_equal. rewrite len_app. change (len (py "&")) with 1. lia.
  - assert (A0 : At expr pos (py "||" ++ canon_list (map normal_text children) ++ rest))
      by (eapply At_eq; [exact A|same_text]).
    parse_start A0. rewrite (At_is_char _ _ _ _ "!"%char A0).
    change (char_eqb "|" "!") with false. cbv iota.
    pose proof (At_slice _ _ (py "||") _ A0) as S2; change (len (py "||")) with 2 in S2;
      rewrite S2; clear S2. change (pystr_eqb (py "||") (py "&&")) with false.
    change (pystr_eqb (py "||") (py "||")) with true.
    cbv iota. apply At_step in A0. change (len (py "||")) with 2 in A0.
    rewrite (PC _ rest children Hp Hr Hf A0).
    f_equal. f_equal. rewrite len_app. change (len (py "||")) with 2. lia.
  - assert (A0 : At expr pos ("|"%char :: " "%char :: "["%char :: l ++ rest))
      by (eapply At_eq; [exact A|rewrite El; same_text]).
    parse_start A0. rewrite (At_is_char _ _ _ _ "!"%char A0).
    change (char_eqb "|" "!") with false. cbv iota.
    pose proof (At_slice _ _ (py "| ") _ A0) as S2; change (len (py "| ")) with 2 in S2;
      rewrite S2; clear S2. change (pystr_eqb (py "| ") (py "&&")) with false.
    change (pystr_eqb (py "| ") (py "||")) with false. cbv iota.
    rewrite (At_is_char _ _ _ _ "&"%char A0). change (char_eqb "|" "&") with false.
    cbn [andb]. cbv iota.
    rewrite (At_is_char _ _ _ _ "|"%char A0). change (char_eqb "|" "|") with true.
    pose proof (At_next _ _ _ _ A0) as A1.
    rewrite (At_is_char _ _ _ _ "|"%char A1). change (char_eqb " " "|") with false.
    rewrite orb_true_r. cbn [negb andb]. cbv iota.
    assert (A2 : At expr (pos + 1) (canon_list (map normal_text children) ++ rest))
      by (eapply At_eq; [exact A1|rewrite El; reflexivity]).
    rewrite (PC _ rest children Hp Hr Hf A2).
    f_equal. f_equal. rewrite len_app. change (len (py "|")) with 1. lia.
Qed.

Lemma reads_text_children fuel children :
  Forall (fun c => stable c -> fresh c -> forall fuel, (S (parse_fuel c) <= fuel)%nat ->
                   reads_text (_parse_expression fuel) c) children ->
  Forall stable children -> Forall fresh children ->
  (S (fold_right (fun c n => Nat.max (parse_fuel c) n) O children) <= fuel)%nat ->
  Forall (reads_text (_parse_expression fuel)) children.
Proof.
  intros IH Hp Hn Hf. rewrite Forall_forall in *. intros c Hc.
  apply IH; [assumption|now apply Hp|now apply Hn|].
  pose proof (parse_fuel_child c children Hc). lia.
Qed.

(** The parser reads a tree of stable names and arguments back from its
    normalized text, given the fuel for it. *)
Theorem parse_normal_text t :
  stable t -> fresh t -> forall fuel, (S (parse_fuel t) <= fuel)%nat ->
  reads_text (_parse_expression fuel) t.
Proof.
  induction t as [r name args | r | r child IH | r cb children IH | r cb children IH]
    using Node_induction; intros Hp Hn fuel Hf expr pos rest A.
  - cbn in Hn. subst r. destruct Hp as [Hname Hargs].
    destruct fuel as [|fuel]; [cbn in Hf; lia|].
    destruct (atom_text_shape name args (proj1 Hname)) as (body & E & Hshape).
    { eapply Forall_impl; [|exact (proj1 Hargs)]. now intros a [H _]. }
    cbn [normal_text] in *. rewrite E in A |- *.
    assert (A0 : At expr pos ("("%char :: (body ++ py ")") ++ rest))
      by (eapply At_eq; [exact A|reflexivity]).
    parse_start A0. rewrite (At_is_char _ _ _ _ "!"%char A0).
    change (char_eqb "(" "!") with false. cbv iota.
    assert (E1 : pystr_eqb (slice expr pos (pos + 2)) (py "&&") = false)
      by (apply (slice_two_not expr pos "("%char _ "&"%char A0); discriminate).
    assert (E2 : pystr_eqb (slice expr pos (pos + 2)) (py "||") = false)
      by (apply (slice_two_not expr pos "("%char _ "|"%char A0); discriminate).
    rewrite E1, E2. clear E1 E2.
    cbv iota.
    rewrite (At_is_char _ _ _ _ "&"%char A0). change (char_eqb "(" "&") with false.
    rewrite (At_is_char _ _ _ _ "|"%char A0). change (char_eqb "(" "|") with false.
    cbn [andb]. cbv iota.
    rewrite (At_is_char _ _ _ _ "("%char A0). change (char_eqb "(" "(") with true.
    cbv iota.
    assert (A1 : At expr pos ("("%char :: body ++ ")"%char :: rest))
      by (eapply At_eq; [exact A0|same_text]).
    rewrite (parse_script_node_shape name args body expr pos rest Hname Hargs Hshape A1).
    f_equal. f_equal. unfold slack. cbn [ends_none].
    rewrite len_cons, len_app. change (len (py ")")) with 1. lia.
  - destruct Hn as [-> _].
    destruct fuel as [|[|fuel]]; [cbn in Hf; lia|cbn in Hf; lia|].
    cbn [normal_text] in *.
    assert (A0 : At expr pos ("!"%char :: py "None" ++ rest))
      by (eapply At_eq; [exact A|reflexivity]).
    parse_start A0. rewrite (At_is_char _ _ _ _ "!"%char A0).
    change (char_eqb "!" "!") with true. cbv iota.
    apply At_next in A0.
    assert (A1 : At expr (pos + 1) ("N"%char :: py "one" ++ rest))
      by (eapply At_eq; [exact A0|reflexivity]).
    rewrite (At_skip_none isspace _ _ _ _ A1) by reflexivity.
    rewrite (At_in_range _ _ _ _ A1).
    parse_start A1. rewrite (At_is_char _ _ _ _ "!"%char A1).
    change (char_eqb "N" "!") with false. cbv iota.
    assert (E1 : pystr_eqb (slice expr (pos + 1) (pos + 1 + 2)) (py "&&") = false)
      by (apply (slice_two_not expr (pos + 1) "N"%char _ "&"%char A1); discriminate).
    assert (E2 : pystr_eqb (slice expr (pos + 1) (pos + 1 + 2)) (py "||") = false)
      by (apply (slice_two_not expr (pos + 1) "N"%char _ "|"%char A1); discriminate).
    rewrite E1, E2. clear E1 E2.
    cbv iota.
    rewrite (At_is_char _ _ _ _ "&"%char A1). change (char_eqb "N" "&") with false.
    rewrite (At_is_char _ _ _ _ "|"%char A1). change (char_eqb "N" "|") with false.
    cbn [andb]. cbv iota.
    rewrite (At_is_char _ _ _ _ "("%char A1). change (char_eqb "N" "(") with false.
    cbv iota.
    rewrite (At_skip_while _ _ _ _ A0).
    rewrite (run_length_all (fun c => negb (is_structural c)) (py "None") rest)
      by (repeat constructor).
    f_equal. f_equal. unfold slack. cbn [ends_none].
    change (len (py "!None")) with 5. change (length (py "None")) with 4%nat. lia.
  - destruct Hn as [-> Hn]. cbn [stable] in Hp.
    destruct fuel as [|fuel]; [cbn in Hf; lia|].
    assert (Hfc : (S (parse_fuel child) <= fuel)%nat) by (cbn in Hf; lia).
    cbn [normal_text] in *.
    set (sp := not_gap child) in *.
    assert (Hsp : white sp) by (unfold sp; destruct child; repeat constructor).
    clearbody sp.
    assert (A0 : At expr pos ("!"%char :: sp ++ normal_text child ++ rest))
      by (eapply At_eq; [exact A|same_text]).
    parse_start A0. rewrite (At_is_char _ _ _ _ "!"%char A0).
    change (char_eqb "!" "!") with true. cbv iota.
    apply At_next in A0. rewrite (At_skip_while _ _ _ _ A0).
    destruct (normal_text_head child Hp) as (c & s & Ec & Hcs & _ & _).
    rewrite run_length_gap; [|exact Hsp|rewrite Ec; exact Hcs].
    fold (len sp). apply At_step in A0.
    assert (A1 : At expr (pos + 1 + len sp) (c :: s ++ rest))
      by (eapply At_eq; [exact A0|now rewrite Ec]).
    rewrite (At_in_range _ _ _ _ A1).
    rewrite (IH Hp Hn fuel Hfc expr _ rest A0).
    f_equal. f_equal. unfold slack. cbn [ends_none].
    rewrite !len_app. change (len (py "!")) with 1. lia.
  - pose proof (stable_children _ _ _ Hp) as Hc.
    pose proof (fresh_children _ _ _ Hn) as Hnc. destruct Hn as [-> _].
    destruct fuel as [|fuel]; [cbn in Hf; lia|]. cbn [parse_fuel] in Hf.
    cbn [normal_text] in *. unfold slack. cbn [ends_none]. rewrite Z.add_0_r.
    apply (parse_operator_text fuel expr pos rest (and_operator cb) children
             (AndNode RNone cb)); try assumption.
    + destruct cb; auto.
    + apply reads_text_children; [assumption|assumption|assumption|lia].
    + lia.
  - pose proof (stable_children_or _ _ _ Hp) as Hc.
    pose proof (fresh_children_or _ _ _ Hn) as Hnc. destruct Hn as [-> _].
    destruct fuel as [|fuel]; [cbn in Hf; lia|]. cbn [parse_fuel] in Hf.
    cbn [normal_text] in *. unfold slack. cbn [ends_none]. rewrite Z.add_0_r.
    apply (parse_operator_text fuel expr pos rest (or_operator cb) children
             (OrNode RNone cb)); try assumption.
    + destruct cb; auto 6.
    + apply reads_text_children; [assumption|assumption|assumption|lia].
    + lia.
Qed.

Lemma stable_nameb_ok name : stable_nameb name = true -> stable_name name.
Proof.
  unfold stable_nameb. intros H. apply andb_prop in H as [Hn Hc]. split.
  - now apply pystr_eqb_eq.
  - apply Forall_forall. intros c Hin.
    rewrite forallb_forall in Hc. specialize (Hc c Hin).
    apply andb_prop in Hc as [H1 H2].
    split; intros ->; [now rewrite char_eqb_refl in H1|now rewrite char_eqb_refl in H2].
Qed.

Lemma stable_argsb_ok args : stable_argsb args = true -> stable_args args.
Proof.
  unfold stable_argsb. intros H. apply andb_prop in H as [Ha Hl]. split.
  - apply Forall_forall. intros a Hin.
    rewrite forallb_forall in Ha. specialize (Ha a Hin).
    unfold stable_argb in Ha. apply andb_prop in Ha as [H1 H2]. split.
    + now apply pystr_eqb_eq.
    + apply Forall_forall. intros c Hc. rewrite forallb_forall in H2. now apply H2.
  - intros init final -> ->. rewrite last_last in Hl. discriminate.
Qed.

(** A tree that [stableb] accepts is stable. *)
Lemma stableb_stable t : stableb t = true -> stable t.
Proof.
  induction t as [r name args | r | r child IH | r cb children IH | r cb children IH]
    using Node_induction; cbn [stableb stable]; intros H.
  - apply andb_prop in H as [Hn Ha].
    split; [now apply stable_nameb_ok|now apply stable_argsb_ok].
  - exact I.
  - now apply IH.
  - induction IH as [|c cs Hc _ IHcs]; [exact I|].
    apply andb_prop in H as [H1 H2]. split; [now apply Hc|now apply IHcs].
  - induction IH as [|c cs Hc _ IHcs]; [exact I|].
    apply andb_prop in H as [H1 H2]. split; [now apply Hc|now apply IHcs].
Qed.

(** ** Round trip *)

(** C6, as the code has it. [__str__] writes the arguments without quotes,
    so the tree that the parser has built for an expression comes back from
    its serialized text when its names and arguments are [stable] (the
    normalization leaves each of them as it is; no argument holds a comma, a
    quote, a backslash or a closing parenthesis; the last argument of a list
    is not empty) and the serialized text passes the format pre-check. White
    space inside names and arguments, colons and brackets in arguments,
    empty names, empty arguments before the last one and a [!] without a
    child are all within this. *)
Theorem round_trip expression fuel t fuel' :
  parse_logical_expression fuel expression = Some (Some t) ->
  stable t -> validate_expression_format (__str__ t) = true ->
  (S (parse_fuel t) <= fuel')%nat ->
  parse_logical_expression fuel' (__str__ t) = Some (Some t).
Proof.
  intros Hparse Hs Hv Hf. apply parse_logical_expression_fresh in Hparse.
  unfold parse_logical_expression. rewrite Hv. cbn [negb].
  rewrite (normalize_text t Hs).
  assert (A : At (normal_text t) 0 (normal_text t ++ []))
    by (rewrite app_nil_r; apply At_start).
  rewrite (parse_normal_text t Hs Hparse fuel' Hf _ _ _ A).
  reflexivity.
Qed.

(** C6, at an example with white space, colons and brackets in the
    arguments, an empty argument, an empty name and a [!] without a child. *)
Lemma round_trip_witness :
  let expression :=
    py "&& [ (A:hello world, ,x), !(my task:b:c), | [ (B:[x]), () ], ! ]" in
  let t := AndNode RNone true
             [ScriptNode RNone (py "A") [py "hello world"; []; py "x"];
              NotNode RNone (Some (ScriptNode RNone (py "my task") [py "b:c"]));
              OrNode RNone false [ScriptNode RNone (py "B") [py "[ x ]"];
                                  ScriptNode RNone [] []];
              NotNode RNone None] in
  parse_logical_expression 12 expression = Some (Some t)
  /\ __str__ t
     = py "&& [ (A:hello world,,x), !(my task:b:c), | [ (B:[ x ]), () ], !None ]"
  /\ parse_logical_expression 12 (__str__ t) = Some (Some t).
Proof.
  cbn zeta. split; [vm_compute; reflexivity|]. split; [vm_compute; reflexivity|].
  apply (round_trip
           (py "&& [ (A:hello world, ,x), !(my task:b:c), | [ (B:[x]), () ], ! ]")
           12%nat _ 12%nat).
  - vm_compute. reflexivity.
  - apply stableb_stable. vm_compute. reflexivity.
  - vm_compute. reflexivity.
  - cbn. lia.
Defined.

(** C6 as it is written fails on an atom with a quoted argument: the
    argument of [(A:"x,y")] is read as [x, y], serialized without quotes,
    and read again as the two arguments [x] and [y]. *)
Lemma round_trip_counterexample :
  let expression := py "(A:" ++ [dquote] ++ py "x,y" ++ [dquote] ++ py ")" in
  let first := ScriptNode RNone (py "A") [py "x, y"] in
  let second := ScriptNode RNone (py "A") [py "x"; py "y"] in
  validate_expression_format expression = true
  /\ parse_logical_expression 5 expression = Some (Some first)
  /\ __str__ first = py "(A:x, y)"
  /\ parse_logical_expression 5 (__str__ first) = Some (Some second)
  /\ first <> second.
Proof.
  cbn zeta. repeat split; try reflexivity. discriminate.
Qed.

(** What the hypotheses of the round trip leave out does not come back: an
    argument that holds a quote, a backslash or two spaces in a row, an
    empty argument at the end of the list, a text with a bracket that the
    pre-check does not find closed. *)
Example round_trip_quote :
  let expression := py "(A:" ++ [dquote; backslash; dquote] ++ py "x"
                       ++ [backslash; dquote; dquote] ++ py ")" in
  let first := ScriptNode RNone (py "A") [[dquote] ++ py "x" ++ [dquote]] in
  parse_logical_expression 5 expression = Some (Some first)
  /\ parse_logical_expression 5 (__str__ first)
     = Some (Some (ScriptNode RNone (py "A") [py "x"])).
Proof. cbn zeta. split; vm_compute; reflexivity. Qed.

Example round_trip_backslash :
  let expression := py "(A:" ++ [backslash; backslash] ++ py "b)" in
  let first := ScriptNode RNone (py "A") [backslash :: py "b"] in
  parse_logical_expression 5 expression = Some (Some first)
  /\ parse_logical_expression 5 (__str__ first)
     = Some (Some (ScriptNode RNone (py "A") [py "b"])).
Proof. cbn zeta. split; vm_compute; reflexivity. Qed.

Example round_trip_spaces :
  let expression := py "(A:x" ++ [backslash] ++ py " " ++ [backslash] ++ py " y)" in
  let first := ScriptNode RNone (py "A") [py "x  y"] in
  parse_logical_expression 5 expression = Some (Some first)
  /\ parse_logical_expression 5 (__str__ first)
     = Some (Some (ScriptNode RNone (py "A") [py "x y"])).
Proof. cbn zeta. split; vm_compute; reflexivity. Qed.

Example round_trip_empty_argument :
  let first := ScriptNode RNone (py "A") [py "x"; []] in
  parse_logical_expression 5 (py "(A:x, ,)") = Some (Some first)
  /\ parse_logical_expression 5 (__str__ first)
     = Some (Some (ScriptNode RNone (py "A") [py "x"])).
Proof. cbn zeta. split; vm_compute; reflexivity. Qed.

Example round_trip_unbalanced :
  let first := ScriptNode RNone (py "A [") [py "x"] in
  parse_logical_expression 5 (py "(A [:x)]") = Some (Some first)
  /\ stable first
  /\ validate_expression_format (__str__ first) = false
  /\ parse_logical_expression 5 (__str__ first) = Some None.
Proof.
  cbn zeta. split; [vm_compute; reflexivity|].
  split; [apply stableb_stable; vm_compute; reflexivity|].
  split; vm_compute; reflexivity.
Qed.

(** ** The generated hashes *)

Lemma pydict_get_set (V : Type) (d : list (pystr * V)) k v k' :
  pydict_get (pydict_set d k v) k'
  = if pystr_eqb k k' then Some v else pydict_get d k'.
Proof.
  induction d as [|[k0 v0] d IH]; cbn [pydict_set pydict_get].
  - reflexivity.
  - destruct (pystr_eqb k0 k) eqn:E0; cbn [pydict_get].
    + apply pystr_eqb_eq in E0. subst k0. now destruct (pystr_eqb k k').
    + destruct (pystr_eqb k0 k') eqn:E1; [|exact IH].
      apply pystr_eqb_eq in E1. subst k0.
      destruct (pystr_eqb k k') eqn:E2; [|reflexivity].
      apply pystr_eqb_eq in E2. subst k. now rewrite pystr_eqb_refl in E0.
Qed.

Lemma pydict_set_keys (V : Type) (d : list (pystr * V)) k v :
  NoDup (map fst d) -> NoDup (map fst (pydict_set d k v))
  /\ forall k', In k' (map fst (pydict_set d k v)) <-> k' = k \/ In k' (map fst d).
Proof.
  induction d as [|[k0 v0] d IH]; intros Hnd; cbn [pydict_set map fst].
  - split; [repeat constructor; auto|]. intros k'. cbn. intuition.
  - inversion Hnd as [|? ? Hni Hnd']; subst.
    destruct (pystr_eqb k0 k) eqn:E0; cbn [map fst].
    + apply pystr_eqb_eq in E0. subst k0. split; [exact Hnd|]. intros k'. cbn. intuition.
    + destruct (IH Hnd') as [IH1 IH2]. split.
      * constructor; [|exact IH1]. rewrite IH2. intros [-> | Hin]; [|contradiction].
        now rewrite pystr_eqb_refl in E0.
      * intros k'. cbn. rewrite IH2. intuition.
Qed.

Lemma find_last (A : Type) (p : A -> bool) l x :
  List.find p (l ++ [x])
  = match List.find p l with
    | Some y => Some y
    | None => if p x then Some x else None
    end.
Proof.
  induction l as [|y l IH]; cbn; [reflexivity|].
  destruct (p y); [reflexivity|exact IH].
Qed.

Section HashesProperties.

Variable World : Type.
Variable os_getcwd : World -> pystr.
Variable os_path_join : pystr -> pystr -> pystr.
Variable os_path_isdir : World -> pystr -> bool.
Variable os_path_exists : World -> pystr -> bool.
Variable os_path_basename : pystr -> pystr.
Variable calculate_directory_hash : World -> pystr -> option (list pystr) -> option pystr.
Variable PyModule : Type.
Variable exec_module : pystr -> pystr -> World -> Ending (option PyModule) * World.
Variable hasattr : PyModule -> pystr -> bool.
Variable call_function :
  PyModule -> pystr -> list pystr -> World -> Ending bool * World.

#[local] Abbreviation executor :=
  (dynamic_import_and_run os_getcwd os_path_join os_path_isdir os_path_exists
                          calculate_directory_hash exec_module hasattr call_function).
#[local] Abbreviation generate :=
  (generate_hash_for_script World os_getcwd os_path_join os_path_isdir
                            calculate_directory_hash).
#[local] Abbreviation hashes_from :=
  (hashes_loop World os_path_isdir os_path_basename calculate_directory_hash).
#[local] Abbreviation generate_all :=
  (generate_hashes_for_directories World os_path_isdir os_path_basename
                                   calculate_directory_hash).

(** X22. The hash that [generate_hash_for_script] returns for a task unit
    is the one that [dynamic_import_and_run] accepts: with verification on
    and this hash as the expected one, the task unit runs as it does with
    verification off. *)
Theorem generated_hash_verifies name args w h :
  generate_hash_for_script World os_getcwd os_path_join os_path_isdir
                           calculate_directory_hash w name = Some h ->
  dynamic_import_and_run os_getcwd os_path_join os_path_isdir os_path_exists
                         calculate_directory_hash exec_module hasattr call_function
                         name args true (Some h) w
  = dynamic_import_and_run os_getcwd os_path_join os_path_isdir os_path_exists
                           calculate_directory_hash exec_module hasattr call_function
                           name args false None w.
Proof.
  unfold generate_hash_for_script, dynamic_import_and_run. cbn zeta.
  destruct (os_path_isdir w _); cbn [negb]; [|discriminate].
  intros E. fold exclude_dirs in E. cbn [andb].
  unfold verify_directory_hash. destruct h as [|c h]; [reflexivity|].
  rewrite E, pystr_eqb_refl. reflexivity.
Qed.

(** The dict after the loop: for each name the hash of the last directory
    of that name, or what the dict held before. *)
Lemma hashes_loop_get w exclude k directories : forall hashes,
  pydict_get (hashes_from w directories exclude hashes) k
  = match List.find (fun d => os_path_isdir w d && pystr_eqb (os_path_basename d) k)
                    (rev directories) with
    | Some d => Some (calculate_directory_hash w d exclude)
    | None => pydict_get hashes k
    end.
Proof.
  induction directories as [|d ds IH]; intros hashes; [reflexivity|].
  cbn [hashes_loop rev]. rewrite find_last.
  destruct (os_path_isdir w d) eqn:Ed; cbn [andb]; rewrite IH.
  - destruct (List.find _ (rev ds)); [reflexivity|].
    rewrite pydict_get_set. now destruct (pystr_eqb (os_path_basename d) k).
  - now destruct (List.find _ (rev ds)).
Qed.

Lemma hashes_loop_keys w exclude directories : forall hashes,
  NoDup (map fst hashes) ->
  NoDup (map fst (hashes_from w directories exclude hashes))
  /\ forall k, In k (map fst (hashes_from w directories exclude hashes))
               <-> In k (map fst hashes)
                   \/ exists d, In d directories /\ os_path_isdir w d = true
                                /\ os_path_basename d = k.
Proof.
  induction directories as [|d ds IH]; intros hashes Hnd.
  - split; [exact Hnd|]. intros k. cbn. split; [auto|]. now intros [H | (d & [] & _)].
  - cbn [hashes_loop]. destruct (os_path_isdir w d) eqn:Ed.
    + destruct (pydict_set_keys _ hashes (os_path_basename d)
                  (calculate_directory_hash w d exclude) Hnd) as [Hnd' Hk].
      destruct (IH _ Hnd') as [IH1 IH2]. split; [exact IH1|].
      intros k. rewrite IH2, Hk. split.
      * intros [[-> | H] | (d' & Hin & Hd & Hb)]; auto.
        -- right. exists d. cbn. auto.
        -- right. exists d'. cbn. auto.
      * intros [H | (d' & [<- | Hin] & Hd & Hb)]; auto.
        right. now exists d'.
    + destruct (IH _ Hnd) as [IH1 IH2]. split; [exact IH1|].
      intros k. rewrite IH2. split.
      * intros [H | (d' & Hin & Hd & Hb)]; auto. right. exists d'. cbn. auto.
      * intros [H | (d' & [<- | Hin] & Hd & Hb)]; auto; [congruence|].
        right. now exists d'.
Qed.

(** X23. [generate_hashes_for_directories] gives one entry for each base
    name of a path of the list that is a directory, and no other; the entry
    holds the hash computed for the last such path in the list: of two
    directories with the same base name only the later one counts. *)
Theorem generated_hashes_lookup w directories exclude k :
  let hashes := generate_all w directories exclude in
  NoDup (map fst hashes)
  /\ (In k (map fst hashes)
      <-> exists d, In d directories /\ os_path_isdir w d = true
                    /\ os_path_basename d = k)
  /\ pydict_get hashes k
     = option_map (fun d => calculate_directory_hash w d exclude)
         (List.find (fun d => os_path_isdir w d && pystr_eqb (os_path_basename d) k)
                    (rev directories)).
Proof.
  cbn zeta. unfold generate_hashes_for_directories.
  destruct (hashes_loop_keys w exclude directories [] (NoDup_nil _)) as [H1 H2].
  split; [exact H1|]. split.
  - rewrite H2. cbn. tauto.
  - rewrite hashes_loop_get. now destruct (List.find _ (rev directories)).
Qed.

End HashesProperties.

Lemma generated_hash_verifies_witness :
  dynamic_import_and_run (fun _ : list pystr => py "/srv") demo_join (fun _ _ => true)
    (fun _ _ => true) demo_hash demo_exec_module (fun _ _ => true) demo_call
    (py "A") [] true (Some (py "/srv/A")) []
  = dynamic_import_and_run (fun _ : list pystr => py "/srv") demo_join (fun _ _ => true)
      (fun _ _ => true) demo_hash demo_exec_module (fun _ _ => true) demo_call
      (py "A") [] false None [].
Proof.
  apply (generated_hash_verifies (list pystr) (fun _ => py "/srv") demo_join
           (fun _ _ => true) (fun _ _ => true) demo_hash demo_module demo_exec_module
           (fun _ _ => true) demo_call (py "A") [] [] (py "/srv/A")).
  reflexivity.
Defined.

(** ** The order of texts and the sort *)

Lemma nat_of_ascii_inj x y : nat_of_ascii x = nat_of_ascii y -> x = y.
Proof.
  intros E. rewrite <- (ascii_nat_embedding x), <- (ascii_nat_embedding y). now rewrite E.
Qed.

Lemma str_leb_total a : forall b, str_leb a b = true \/ str_leb b a = true.
Proof.
  induction a as [|x a IH]; intros [|y b]; cbn [str_leb]; auto.
  destruct (nat_of_ascii x <? nat_of_ascii y)%nat eqn:E1; [now left|].
  destruct (nat_of_ascii y <? nat_of_ascii x)%nat eqn:E2; [now right|].
  apply IH.
Qed.

Lemma str_leb_antisym a : forall b, str_leb a b = true -> str_leb b a = true -> a = b.
Proof.
  induction a as [|x a IH]; intros [|y b]; cbn [str_leb]; try discriminate; [reflexivity|].
  destruct (nat_of_ascii x <? nat_of_ascii y)%nat eqn:E1.
  - apply Nat.ltb_lt in E1.
    replace (nat_of_ascii y <? nat_of_ascii x)%nat with false
      by (symmetry; apply Nat.ltb_ge; lia). discriminate.
  - destruct (nat_of_ascii y <? nat_of_ascii x)%nat eqn:E2; [discriminate|].
    apply Nat.ltb_ge in E1, E2. intros H1 H2.
    rewrite (nat_of_ascii_inj x y) by lia. f_equal. now apply IH.
Qed.

Lemma str_leb_trans a : forall b c,
  str_leb a b = true -> str_leb b c = true -> str_leb a c = true.
Proof.
  induction a as [|x a IH]; intros [|y b] [|z c]; cbn [str_leb]; try discriminate; auto.
  destruct (nat_of_ascii x <? nat_of_ascii y)%nat eqn:E1;
    destruct (nat_of_ascii y <? nat_of_ascii z)%nat eqn:E2;
    destruct (nat_of_ascii y <? nat_of_ascii x)%nat eqn:E3;
    destruct (nat_of_ascii z <? nat_of_ascii y)%nat eqn:E4;
    try discriminate;
    repeat match goal with
           | H : (_ <? _)%nat = true |- _ => apply Nat.ltb_lt in H
           | H : (_ <? _)%nat = false |- _ => apply Nat.ltb_ge in H
           end;
    intros H1 H2;
    try (replace (nat_of_ascii x <? nat_of_ascii z)%nat with true
          by (symmetry; apply Nat.ltb_lt; lia); reflexivity);
    try lia.
  replace (nat_of_ascii x <? nat_of_ascii z)%nat with false
    by (symmetry; apply Nat.ltb_ge; lia).
  replace (nat_of_ascii z <? nat_of_ascii x)%nat with false
    by (symmetry; apply Nat.ltb_ge; lia).
  now apply (IH b c).
Qed.

Section SortBy.

Variable A : Type.
Variable key : A -> pystr.

Lemma insert_by_swap_lt x y l :
  str_leb (key x) (key y) = true -> str_leb (key y) (key x) = false ->
  insert_by key x (insert_by key y l) = insert_by key y (insert_by key x l).
Proof.
  intros Hxy Hyx. induction l as [|z l IH]; cbn [insert_by].
  - now rewrite Hxy, Hyx.
  - destruct (str_leb (key y) (key z)) eqn:Eyz.
    + rewrite (str_leb_trans _ _ _ Hxy Eyz). cbn [insert_by].
      now rewrite Hxy, Hyx, Eyz.
    + cbn [insert_by]. destruct (str_leb (key x) (key z)) eqn:Exz; cbn [insert_by].
      * now rewrite Hyx, Eyz.
      * now rewrite Eyz, IH.
Qed.

Lemma insert_by_swap x y l :
  key x <> key y ->
  insert_by key x (insert_by key y l) = insert_by key y (insert_by key x l).
Proof.
  intros Hne. destruct (str_leb (key x) (key y)) eqn:Exy.
  - apply insert_by_swap_lt; [assumption|].
    destruct (str_leb (key y) (key x)) eqn:Eyx; [|reflexivity].
    contradiction Hne. now apply str_leb_antisym.
  - destruct (str_leb_total (key x) (key y)) as [F | Eyx]; [congruence|].
    symmetry. now apply insert_by_swap_lt.
Qed.

(** Sorting things of distinct names forgets the order they came in. *)
Lemma sort_by_perm l l' :
  Permutation l l' -> NoDup (map key l) -> sort_by key l = sort_by key l'.
Proof.
  unfold sort_by.
  induction 1 as [|x l l' Hp IH|x y l|l l' l'' Hp1 IH1 Hp2 IH2]; intros Hnd.
  - reflexivity.
  - cbn [fold_right]. inversion Hnd; subst. now rewrite IH.
  - cbn [fold_right]. apply insert_by_swap. inversion Hnd as [|? ? Hni _]; subst.
    intros E. apply Hni. left. now symmetry.
  - rewrite IH1 by assumption. apply IH2.
    apply (Permutation_NoDup (Permutation_map key Hp1) Hnd).
Qed.

Lemma insert_by_perm x l : Permutation (insert_by key x l) (x :: l).
Proof.
  induction l as [|y l IH]; cbn [insert_by]; [reflexivity|].
  destruct (str_leb (key x) (key y)); [reflexivity|].
  rewrite IH. apply perm_swap.
Qed.

Lemma sort_by_is_perm l : Permutation (sort_by key l) l.
Proof.
  unfold sort_by. induction l as [|x l IH]; cbn [fold_right]; [reflexivity|].
  rewrite insert_by_perm. now constructor.
Qed.

(** What adds nothing can be left out before the sort. *)
Lemma flat_map_insert_by (B : Type) (f : A -> list B) x l :
  f x = [] -> flat_map f (insert_by key x l) = flat_map f l.
Proof.
  intros Hx. induction l as [|y l IH]; cbn [insert_by flat_map].
  - now rewrite Hx.
  - destruct (str_leb (key x) (key y)); cbn [flat_map]; [now rewrite Hx|now rewrite IH].
Qed.

End SortBy.

(** ** Removing the excluded directories *)

Section Removing.

Variable A : Type.

Lemma filter_all (f : pystr * A -> bool) l :
  (forall d, In d l -> f d = true) -> filter f l = l.
Proof.
  induction l as [|d l IH]; intros H; cbn; [reflexivity|].
  rewrite (H d) by now left. rewrite IH; [reflexivity|]. intros d' Hd. apply H. now right.
Qed.

Lemma NoDup_names_filter (f : pystr * A -> bool) l :
  NoDup (map fst l) -> NoDup (map fst (filter f l)).
Proof.
  induction l as [|d l IH]; intros Hnd; cbn; [constructor|].
  inversion Hnd as [|? ? Hni Hnd']; subst.
  destruct (f d); cbn; [|now apply IH].
  constructor; [|now apply IH].
  intros Hin. apply Hni. apply in_map_iff in Hin as (d' & E & Hd').
  apply filter_In in Hd' as [Hd' _]. apply in_map_iff. now exists d'.
Qed.

Lemma remove_name_filter name (l : list (pystr * A)) :
  NoDup (map fst l) ->
  remove_name name l = filter (fun d => negb (pystr_eqb (fst d) name)) l.
Proof.
  induction l as [|[n x] l IH]; intros Hnd; cbn; [reflexivity|].
  inversion Hnd as [|? ? Hni Hnd']; subst.
  destruct (pystr_eqb n name) eqn:E; cbn.
  - apply pystr_eqb_eq in E. subst n. symmetry. apply filter_all.
    intros [n' x'] Hd. cbn. destruct (pystr_eqb n' name) eqn:E'; [|reflexivity].
    apply pystr_eqb_eq in E'. subst n'. contradiction Hni.
    apply in_map_iff. now exists (name, x').
  - now rewrite IH.
Qed.

Lemma filter_twice (f g : pystr * A -> bool) l :
  filter g (filter f l) = filter (fun d => f d && g d) l.
Proof.
  induction l as [|d l IH]; cbn; [reflexivity|].
  destruct (f d); cbn; [|exact IH]. destruct (g d); now rewrite IH.
Qed.

(** With distinct names the removals leave the directories whose name is
    not excluded. *)
Lemma remove_excluded_filter exclude_dirs : forall l : list (pystr * A),
  NoDup (map fst l) ->
  remove_excluded exclude_dirs l = filter (kept exclude_dirs) l.
Proof.
  unfold remove_excluded.
  induction exclude_dirs as [|x ex IH]; intros l Hnd; cbn [fold_left].
  - symmetry. now apply filter_all.
  - rewrite (remove_name_filter x l Hnd).
    rewrite IH by now apply NoDup_names_filter.
    rewrite filter_twice. apply filter_ext. intros d. unfold kept. cbn [existsb].
    now rewrite negb_orb.
Qed.

Lemma Permutation_filter (f : pystr * A -> bool) l l' :
  Permutation l l' -> Permutation (filter f l) (filter f l').
Proof.
  induction 1 as [|x l l' Hp IH|x y l|l l' l'' Hp1 IH1 Hp2 IH2]; cbn.
  - constructor.
  - destruct (f x); [now constructor|assumption].
  - destruct (f x), (f y); try reflexivity. apply perm_swap.
  - now transitivity (filter f l').
Qed.

(** A name that is not excluded stays. *)
Lemma remove_name_keeps name (l : list (pystr * A)) d :
  In d l -> fst d <> name -> In d (remove_name name l).
Proof.
  induction l as [|[n x] l IH]; intros Hin Hne; [contradiction|].
  cbn. destruct (pystr_eqb n name) eqn:E.
  - apply pystr_eqb_eq in E. subst n. destruct Hin as [<- | Hin]; [now contradiction Hne|assumption].
  - destruct Hin as [<- | Hin]; [now left|right; now apply IH].
Qed.

Lemma remove_excluded_keeps exclude_dirs : forall (l : list (pystr * A)) d,
  In d l -> ~ In (fst d) exclude_dirs -> In d (remove_excluded exclude_dirs l).
Proof.
  unfold remove_excluded.
  induction exclude_dirs as [|x ex IH]; intros l d Hin Hni; cbn [fold_left]; [assumption|].
  apply IH.
  - apply remove_name_keeps; [assumption|]. intros E. apply Hni. now left.
  - intros H. apply Hni. now right.
Qed.

End Removing.

(** ** The walk *)

Lemma files_of_app a b : files_of (a ++ b) = files_of a ++ files_of b.
Proof.
  induction a as [|[n [r c|sub|]] a IH]; cbn; [reflexivity| |assumption|assumption].
  now rewrite IH.
Qed.

Lemma files_of_In es n r c : In (n, (r, c)) (files_of es) <-> In (n, File r c) es.
Proof.
  induction es as [|[m [r' c'|sub|]] es IH]; cbn; [tauto| | |].
  - rewrite IH. split; (intros [E | H]; [left; congruence|now right]).
  - rewrite IH. split; [now right|]. intros [E | H]; [discriminate|assumption].
  - rewrite IH. split; [now right|]. intros [E | H]; [discriminate|assumption].
Qed.

Lemma files_of_names es n : In n (map fst (files_of es)) -> In n (map fst es).
Proof.
  intros H. apply in_map_iff in H as ([m [r c]] & <- & H).
  apply files_of_In in H. apply in_map_iff. now exists (m, File r c).
Qed.

Lemma files_of_NoDup es : NoDup (map fst es) -> NoDup (map fst (files_of es)).
Proof.
  induction es as [|[n [r c|sub|]] es IH]; intros Hnd; cbn; [constructor| | |].
  - inversion Hnd as [|? ? Hni Hnd']; subst. constructor; [|now apply IH].
    intros H. apply Hni. now apply files_of_names.
  - inversion Hnd; subst. now apply IH.
  - inversion Hnd; subst. now apply IH.
Qed.

Lemma files_of_perm es es' : Permutation es es' -> Permutation (files_of es) (files_of es').
Proof.
  induction 1 as [|[n [r c|sub|]] l l' Hp IH|[n [r c|sub|]] [m [r' c'|sub'|]] l
                  |l l' l'' Hp1 IH1 Hp2 IH2]; cbn;
    try reflexivity; try assumption.
  - now constructor.
  - apply perm_swap.
  - now transitivity (files_of l').
Qed.

Section DirectoryHashProperties.

Variable md5_hexdigest : bytes -> pystr.
Variable os_sep : pystr.

#[local] Abbreviation walk' := (walk md5_hexdigest os_sep).
#[local] Abbreviation dirs_of' := (dirs_of md5_hexdigest os_sep).
#[local] Abbreviation walk_root' := (walk_root md5_hexdigest os_sep).
#[local] Abbreviation calculate := (calculate_directory_hash md5_hexdigest os_sep).

Lemma walk_folder exclude_dirs entries rel :
  walk' exclude_dirs (Folder entries) rel
  = walk_root' exclude_dirs rel (dirs_of' exclude_dirs entries) (files_of entries).
Proof.
  cbn [walk]. f_equal. unfold dirs_of.
  induction entries as [|[n [r c|sub|]] es IH]; cbn [flat_map fst snd app];
    [reflexivity|exact IH|now rewrite IH|now rewrite IH].
Qed.

Lemma dirs_of_app exclude_dirs a b :
  dirs_of' exclude_dirs (a ++ b) = dirs_of' exclude_dirs a ++ dirs_of' exclude_dirs b.
Proof. apply flat_map_app. Qed.

(** The [dirs] of a directory: its entries that are directories, each
    with the walk below it. *)
Lemma dirs_of_In exclude_dirs es d :
  In d (dirs_of' exclude_dirs es)
  <-> exists e, In (fst d, e) es /\ (forall r c, e <> File r c)
                /\ snd d = walk' exclude_dirs e.
Proof.
  unfold dirs_of. rewrite in_flat_map. split.
  - intros ([n [r c|sub|]] & Hin & Hd); cbn in Hd; [contradiction| |];
      destruct Hd as [<- | []]; eexists; (split; [exact Hin|]);
      split; [discriminate|reflexivity|discriminate|reflexivity].
  - intros (e & Hin & Hdir & Hd). exists (fst d, e). split; [assumption|].
    destruct d as [n f]. cbn in *. subst f.
    destruct e as [r c|sub|]; [now destruct (Hdir r c)|now left|now left].
Qed.

Lemma dirs_of_names exclude_dirs es n :
  In n (map fst (dirs_of' exclude_dirs es)) -> In n (map fst es).
Proof.
  intros H. apply in_map_iff in H as (d & <- & H).
  apply dirs_of_In in H as (e & H & _). apply in_map_iff. now exists (fst d, e).
Qed.

Lemma dirs_of_NoDup exclude_dirs es :
  NoDup (map fst es) -> NoDup (map fst (dirs_of' exclude_dirs es)).
Proof.
  induction es as [|[n [r c|sub|]] es IH]; intros Hnd; [constructor| | |].
  - inversion Hnd; subst. now apply IH.
  - inversion Hnd as [|? ? Hni Hnd']; subst.
    change (dirs_of' exclude_dirs ((n, Folder sub) :: es))
      with ((n, walk' exclude_dirs (Folder sub)) :: dirs_of' exclude_dirs es).
    cbn [map fst]. constructor; [|now apply IH].
    intros H. apply Hni. now apply (dirs_of_names exclude_dirs).
  - inversion Hnd as [|? ? Hni Hnd']; subst.
    change (dirs_of' exclude_dirs ((n, Closed) :: es))
      with ((n, walk' exclude_dirs Closed) :: dirs_of' exclude_dirs es).
    cbn [map fst]. constructor; [|now apply IH].
    intros H. apply Hni. now apply (dirs_of_names exclude_dirs).
Qed.

Lemma dirs_of_perm exclude_dirs es es' :
  Permutation es es' -> Permutation (dirs_of' exclude_dirs es) (dirs_of' exclude_dirs es').
Proof. apply Permutation_flat_map. Qed.

Lemma kept_true (A : Type) exclude_dirs (d : pystr * A) :
  ~ In (fst d) exclude_dirs -> kept exclude_dirs d = true.
Proof.
  intros H. unfold kept. apply negb_true_iff.
  destruct (existsb _ exclude_dirs) eqn:E; [|reflexivity].
  apply existsb_exists in E as (x & Hx & E). apply pystr_eqb_eq in E. now subst.
Qed.

Lemma kept_false (A : Type) exclude_dirs (d : pystr * A) :
  In (fst d) exclude_dirs -> kept exclude_dirs d = false.
Proof.
  intros H. unfold kept. apply negb_false_iff. apply existsb_exists.
  exists (fst d). split; [assumption|apply pystr_eqb_refl].
Qed.

(** X24. The order in which [os.walk] lists the entries of a directory
    does not matter: for a directory anywhere under the path, with the
    same entries listed in another order, the walk adds the same entries
    in the same order; the hash of the directory is the same. *)
Theorem listing_order exclude_dirs es es' rel :
  Permutation es es' -> NoDup (map fst es) ->
  walk' exclude_dirs (Folder es) rel = walk' exclude_dirs (Folder es') rel
  /\ forall fs fs' directory_path exclude,
       fs directory_path = Some (Folder es) -> fs' directory_path = Some (Folder es') ->
       calculate fs directory_path exclude = calculate fs' directory_path exclude.
Proof.
  intros Hp Hnd.
  assert (W : forall ex rel', walk' ex (Folder es) rel' = walk' ex (Folder es') rel').
  { intros ex rel'. rewrite !walk_folder. unfold walk_root.
    assert (Hnd' : NoDup (map fst es'))
      by apply (Permutation_NoDup (Permutation_map fst Hp) Hnd).
    rewrite (sort_by_perm _ fst (files_of es) (files_of es'))
      by (apply files_of_perm, Hp || apply files_of_NoDup, Hnd).
    rewrite !remove_excluded_filter by now apply dirs_of_NoDup.
    rewrite (sort_by_perm _ fst (filter (kept ex) (dirs_of' ex es))
               (filter (kept ex) (dirs_of' ex es'))).
    - reflexivity.
    - apply Permutation_filter, dirs_of_perm, Hp.
    - apply NoDup_names_filter, dirs_of_NoDup, Hnd. }
  split; [apply W|].
  intros fs fs' directory_path exclude E E'.
  unfold calculate_directory_hash. now rewrite E, E', W.
Qed.

Lemma walk_without exclude_dirs pre name e post rel :
  ignored exclude_dirs (name, e) ->
  NoDup (map fst (pre ++ (name, e) :: post)) ->
  walk' exclude_dirs (Folder (pre ++ (name, e) :: post)) rel
  = walk' exclude_dirs (Folder (pre ++ post)) rel.
Proof.
  intros Hig Hnd.
  assert (Hnd' : NoDup (map fst (pre ++ post))).
  { rewrite map_app in *. cbn [map] in Hnd. now apply NoDup_remove_1 in Hnd. }
  rewrite !walk_folder. unfold walk_root.
  rewrite !remove_excluded_filter by now apply dirs_of_NoDup.
  rewrite !dirs_of_app, !files_of_app, !filter_app.
  destruct e as [r c|sub|]; unfold ignored in Hig; cbn [fst snd] in Hig.
  - change (dirs_of' exclude_dirs ((name, File r c) :: post))
      with (dirs_of' exclude_dirs post).
    do 2 f_equal. cbn [files_of].
    rewrite (sort_by_perm _ fst (files_of pre ++ (name, (r, c)) :: files_of post)
               ((name, (r, c)) :: files_of pre ++ files_of post)).
    + unfold sort_by at 1. cbn [fold_right]. fold (sort_by fst (files_of pre ++ files_of post)).
      apply flat_map_insert_by. cbn. destruct r; cbn; [|reflexivity].
      destruct Hig as [F | ->]; [discriminate|reflexivity].
    + symmetry. apply Permutation_middle.
    + change ((name, (r, c)) :: files_of post) with (files_of ((name, File r c) :: post)).
      rewrite <- files_of_app. now apply files_of_NoDup.
  - change (dirs_of' exclude_dirs ((name, Folder sub) :: post))
      with ((name, walk md5_hexdigest os_sep exclude_dirs (Folder sub))
              :: dirs_of' exclude_dirs post).
    cbn [filter files_of]. rewrite kept_false by exact Hig. reflexivity.
  - change (dirs_of' exclude_dirs ((name, Closed) :: post))
      with ((name, walk md5_hexdigest os_sep exclude_dirs Closed)
              :: dirs_of' exclude_dirs post).
    cbn [filter files_of]. do 2 f_equal.
    destruct (kept exclude_dirs (name, walk md5_hexdigest os_sep exclude_dirs Closed))
      eqn:Ek; [|reflexivity].
    rewrite (sort_by_perm _ fst
               (filter (kept exclude_dirs) (dirs_of' exclude_dirs pre)
                ++ (name, walk md5_hexdigest os_sep exclude_dirs Closed)
                     :: filter (kept exclude_dirs) (dirs_of' exclude_dirs post))
               ((name, walk md5_hexdigest os_sep exclude_dirs Closed)
                  :: filter (kept exclude_dirs) (dirs_of' exclude_dirs pre)
                     ++ filter (kept exclude_dirs) (dirs_of' exclude_dirs post))).
    + unfold sort_by at 1. cbn [fold_right].
      fold (sort_by fst (filter (kept exclude_dirs) (dirs_of' exclude_dirs pre)
                         ++ filter (kept exclude_dirs) (dirs_of' exclude_dirs post))).
      apply flat_map_insert_by. reflexivity.
    + symmetry. apply Permutation_middle.
    + assert (E : filter (kept exclude_dirs) (dirs_of' exclude_dirs pre)
                  ++ (name, walk md5_hexdigest os_sep exclude_dirs Closed)
                       :: filter (kept exclude_dirs) (dirs_of' exclude_dirs post)
                  = filter (kept exclude_dirs)
                      (dirs_of' exclude_dirs (pre ++ (name, Closed) :: post))).
      { rewrite dirs_of_app, filter_app.
        change (dirs_of' exclude_dirs ((name, Closed) :: post))
          with ((name, walk md5_hexdigest os_sep exclude_dirs Closed)
                  :: dirs_of' exclude_dirs post).
        cbn [filter]. now rewrite Ek. }
      rewrite E. now apply NoDup_names_filter, dirs_of_NoDup.
Qed.

(** X25. An excluded directory counts as absent, with all that is in it:
    for a directory anywhere under the path, leaving out a subdirectory
    whose name is in [exclude_dirs] changes nothing in what the walk adds,
    nor in the hash. *)
Theorem excluded_directory_absent exclude_dirs pre name sub post rel :
  In name exclude_dirs ->
  NoDup (map fst (pre ++ (name, Folder sub) :: post)) ->
  walk' exclude_dirs (Folder (pre ++ (name, Folder sub) :: post)) rel
  = walk' exclude_dirs (Folder (pre ++ post)) rel
  /\ forall fs fs' directory_path,
       fs directory_path = Some (Folder (pre ++ (name, Folder sub) :: post)) ->
       fs' directory_path = Some (Folder (pre ++ post)) ->
       calculate fs directory_path (Some exclude_dirs)
       = calculate fs' directory_path (Some exclude_dirs).
Proof.
  intros Hin Hnd.
  pose proof (fun rel' => walk_without exclude_dirs pre name (Folder sub) post rel' Hin Hnd) as W.
  split; [apply W|].
  intros fs fs' directory_path E E'.
  unfold calculate_directory_hash. now rewrite E, E', W.
Qed.

(** X26. A file that cannot be read counts as absent: when
    [os.access(path, os.R_OK)] is false for it, or reading it raises,
    leaving the file out of its directory changes nothing in what the walk
    adds, nor in the hash. *)
Theorem unreadable_file_absent exclude_dirs pre name readable content post rel :
  readable = false \/ content = None ->
  NoDup (map fst (pre ++ (name, File readable content) :: post)) ->
  walk' exclude_dirs (Folder (pre ++ (name, File readable content) :: post)) rel
  = walk' exclude_dirs (Folder (pre ++ post)) rel
  /\ forall fs fs' directory_path exclude,
       fs directory_path = Some (Folder (pre ++ (name, File readable content) :: post)) ->
       fs' directory_path = Some (Folder (pre ++ post)) ->
       calculate fs directory_path exclude = calculate fs' directory_path exclude.
Proof.
  intros Hun Hnd.
  pose proof (fun ex rel' =>
                walk_without ex pre name (File readable content) post rel' Hun Hnd) as W.
  split; [apply W|].
  intros fs fs' directory_path exclude E E'.
  unfold calculate_directory_hash. now rewrite E, E', W.
Qed.

End DirectoryHashProperties.

Lemma flat_map_nil (A B : Type) (f : A -> list B) l :
  flat_map f l = [] <-> forall x, In x l -> f x = [].
Proof.
  induction l as [|y l IH]; cbn; [tauto|].
  split.
  - intros H x [<- | Hx]; apply app_eq_nil in H as [H1 H2]; [assumption|].
    now apply IH.
  - intros H. rewrite (H y) by now left. apply IH. intros x Hx. apply H. now right.
Qed.

Lemma filter_none (A : Type) (f : A -> bool) l :
  (forall x, In x l -> f x = false) -> filter f l = [].
Proof.
  induction l as [|y l IH]; intros H; cbn; [reflexivity|].
  rewrite (H y) by now left. apply IH. intros x Hx. apply H. now right.
Qed.

Lemma str_leb_prefix p a b : str_leb (p ++ a) (p ++ b) = str_leb a b.
Proof.
  induction p as [|c p IH]; [reflexivity|].
  cbn [app str_leb]. now rewrite Nat.ltb_irrefl.
Qed.

Lemma encode_app a b : encode (a ++ b) = encode a ++ encode b.
Proof. apply flat_map_app. Qed.

Section DirectoryHashEdges.

Variable md5_hexdigest : bytes -> pystr.
Variable os_sep : pystr.

#[local] Abbreviation walk' := (walk md5_hexdigest os_sep).
#[local] Abbreviation dirs_of' := (dirs_of md5_hexdigest os_sep).
#[local] Abbreviation calculate := (calculate_directory_hash md5_hexdigest os_sep).
#[local] Abbreviation verify := (verify_directory_hash calculate).

(** Under the path every directory adds at least its own entry. *)
Lemma walk_below exclude_dirs es name rel :
  walk' exclude_dirs (Folder es) (name :: rel) <> [].
Proof.
  rewrite (walk_folder md5_hexdigest os_sep). unfold walk_root. discriminate.
Qed.

Lemma file_entry_nil rel name readable content :
  file_entry md5_hexdigest os_sep rel (name, (readable, content)) = []
  <-> readable = false \/ content = None.
Proof.
  cbn. destruct readable; cbn.
  - destruct content; split; try discriminate; auto. intros [F | F]; discriminate.
  - split; auto.
Qed.

(** The walk from the path adds nothing exactly when every entry of the
    directory at the path is ignored. *)
Lemma walk_nothing exclude_dirs es :
  NoDup (map fst es) ->
  walk' exclude_dirs (Folder es) [] = [] <-> Forall (ignored exclude_dirs) es.
Proof.
  intros Hnd. rewrite (walk_folder md5_hexdigest os_sep). unfold walk_root.
  cbn [app]. rewrite Forall_forall. split.
  - intros H [n [r c|sub|]] Hin; unfold ignored; cbn [fst snd]; [| |exact I];
      apply app_eq_nil in H as [Hf Hd].
    + rewrite flat_map_nil in Hf.
      apply (file_entry_nil [] n r c), Hf.
      apply (Permutation_in _ (Permutation_sym (sort_by_is_perm _ fst _))).
      now apply files_of_In.
    + destruct (in_dec (list_eq_dec ascii_dec) n exclude_dirs) as [Hex | Hex];
        [assumption|exfalso].
      rewrite flat_map_nil in Hd.
      apply (walk_below exclude_dirs sub n []).
      apply (Hd (n, walk' exclude_dirs (Folder sub))).
      apply (Permutation_in _ (Permutation_sym (sort_by_is_perm _ fst _))).
      apply remove_excluded_keeps; [|exact Hex].
      apply (dirs_of_In md5_hexdigest os_sep). exists (Folder sub).
      split; [exact Hin|]. split; [discriminate|reflexivity].
  - intros H.
    assert (Hf : flat_map (file_entry md5_hexdigest os_sep []) (sort_by fst (files_of es)) = []).
    { apply flat_map_nil. intros [n [r c]] Hx.
      apply (Permutation_in _ (sort_by_is_perm _ fst _)) in Hx.
      apply files_of_In in Hx. apply file_entry_nil. exact (H _ Hx). }
    rewrite Hf. cbn [app]. apply flat_map_nil. intros d Hd.
    apply (Permutation_in _ (sort_by_is_perm _ fst _)) in Hd.
    rewrite remove_excluded_filter in Hd by now apply dirs_of_NoDup.
    apply filter_In in Hd as [Hd Hk].
    apply (dirs_of_In md5_hexdigest os_sep) in Hd as (e & Hin & Hdir & Hw).
    rewrite Hw. destruct e as [r c|sub|]; [now destruct (Hdir r c)| |reflexivity].
    pose proof (H _ Hin) as Hig. unfold ignored in Hig. cbn [fst snd] in Hig.
    rewrite (kept_false _ exclude_dirs d Hig) in Hk. discriminate.
Qed.

(** X27. When there is no hash: [calculate_directory_hash] returns [None]
    for a path that does not exist, for a path that is a file, and for a
    directory that cannot be listed; for a directory that it walks it
    returns [None] exactly when every entry of the directory is a file that
    cannot be read, a subdirectory whose name is excluded, or a
    subdirectory that [os.walk] does not walk (a symbolic link to a
    directory, or a directory that cannot be listed), as in an empty
    directory.  Then [verify_directory_hash] fails for every expected hash
    that is not empty. *)
Theorem nothing_to_hash fs directory_path exclude :
  (fs directory_path = None -> calculate fs directory_path exclude = None)
  /\ (forall readable content,
        fs directory_path = Some (File readable content) ->
        calculate fs directory_path exclude = None)
  /\ (fs directory_path = Some Closed -> calculate fs directory_path exclude = None)
  /\ (forall es,
        fs directory_path = Some (Folder es) -> NoDup (map fst es) ->
        (calculate fs directory_path exclude = None
         <-> Forall (ignored (excluded exclude)) es))
  /\ (forall expected log,
        calculate fs directory_path exclude = None -> expected <> [] ->
        fst (verify fs directory_path (Some expected) exclude log) = false).
Proof.
  split; [|split; [|split; [|split]]].
  - unfold calculate_directory_hash. now intros ->.
  - unfold calculate_directory_hash. now intros readable content ->.
  - unfold calculate_directory_hash. now intros ->.
  - intros es E Hnd. unfold calculate_directory_hash. rewrite E.
    fold (excluded exclude).
    rewrite <- (walk_nothing (excluded exclude) es Hnd).
    destruct (walk' (excluded exclude) (Folder es) []); split; congruence.
  - intros expected log H Hne. unfold verify_directory_hash.
    destruct expected as [|c e]; [congruence|]. now rewrite H.
Qed.

Lemma remove_excluded_nil (A : Type) exclude_dirs :
  remove_excluded exclude_dirs (@nil (pystr * A)) = [].
Proof. unfold remove_excluded. induction exclude_dirs; cbn; auto. Qed.

(** An empty directory under the path adds its own entry and no other. *)
Lemma walk_empty_folder exclude_dirs name :
  walk' exclude_dirs (Folder []) [name] = [py "DIR:" ++ name].
Proof.
  rewrite (walk_folder md5_hexdigest os_sep). unfold walk_root.
  cbn [dirs_of flat_map files_of]. now rewrite remove_excluded_nil.
Qed.

(** X28. The entries are hashed one after the other with nothing between
    them, so the hash does not tell where one entry ends: a directory with
    the two empty subdirectories [a] and [b], and a directory with one
    empty subdirectory whose name is [a] followed by [DIR:] and [b], have
    the same hash, whatever the digest function. *)
Theorem entries_run_together fs fs' directory_path exclude_dirs a b :
  fs directory_path = Some (Folder [(a, Folder []); (b, Folder [])]) ->
  fs' directory_path = Some (Folder [(a ++ py "DIR:" ++ b, Folder [])]) ->
  str_leb a b = true -> a <> b ->
  ~ In a exclude_dirs -> ~ In b exclude_dirs -> ~ In (a ++ py "DIR:" ++ b) exclude_dirs ->
  calculate fs directory_path (Some exclude_dirs)
  = calculate fs' directory_path (Some exclude_dirs)
  /\ calculate fs directory_path (Some exclude_dirs)
     = Some (md5_hexdigest (encode (py "DIR:" ++ a ++ py "DIR:" ++ b))).
Proof.
  intros E E' Hab Hne Ha Hb Hm.
  assert (W1 : walk' exclude_dirs (Folder [(a, Folder []); (b, Folder [])]) []
               = [py "DIR:" ++ a; py "DIR:" ++ b]).
  { rewrite (walk_folder md5_hexdigest os_sep). unfold walk_root.
    rewrite remove_excluded_filter.
    2:{ cbn. repeat constructor; cbn; intuition. }
    cbn [dirs_of flat_map snd fst app filter files_of].
    rewrite (kept_true _ exclude_dirs (a, _)) by exact Ha.
    rewrite (kept_true _ exclude_dirs (b, _)) by exact Hb.
    unfold sort_by. cbn [fold_right insert_by fst snd]. rewrite Hab.
    cbn [flat_map app fst snd]. now rewrite !walk_empty_folder. }
  assert (W2 : walk' exclude_dirs (Folder [(a ++ py "DIR:" ++ b, Folder [])]) []
               = [py "DIR:" ++ a ++ py "DIR:" ++ b]).
  { rewrite (walk_folder md5_hexdigest os_sep). unfold walk_root.
    rewrite remove_excluded_filter.
    2:{ cbn. repeat constructor; cbn; intuition. }
    cbn [dirs_of flat_map snd fst app filter files_of].
    rewrite (kept_true _ exclude_dirs (a ++ py "DIR:" ++ b, _)) by exact Hm.
    unfold sort_by. cbn [fold_right insert_by fst snd].
    cbn [flat_map app fst snd]. now rewrite !walk_empty_folder. }
  unfold calculate_directory_hash. rewrite E, E', W1, W2.
  unfold sort_by. cbn [fold_right insert_by].
  rewrite (str_leb_prefix (py "DIR:") a b), Hab. cbn [flat_map].
  rewrite !app_nil_r, <- encode_app, <- !app_assoc. auto.
Qed.

End DirectoryHashEdges.

(** X24 to X26 and X28 at examples. *)
Lemma listing_order_witness :
  walk demo_md5 (py "/") [py "__pycache__"] (Folder demo_entries) []
  = walk demo_md5 (py "/") [py "__pycache__"] (Folder (rev demo_entries)) [].
Proof.
  apply (proj1 (listing_order demo_md5 (py "/") [py "__pycache__"]
                  demo_entries (rev demo_entries) []
                  (Permutation_rev demo_entries)
                  ltac:(repeat constructor; cbn; intuition discriminate))).
Defined.

Lemma excluded_directory_absent_witness :
  walk demo_md5 (py "/") [py "__pycache__"] (Folder demo_entries) []
  = [py "FILE:b.py:md5(x)"; py "DIR:a"; py "DIR:a/k"].
Proof.
  etransitivity.
  - apply (proj1 (excluded_directory_absent demo_md5 (py "/") [py "__pycache__"]
                    [(py "b.py", File true (Some (py "x")))] (py "__pycache__")
                    [(py "b.pyc", File true (Some (py "y")))]
                    [(py "lock", File false (Some (py "z")));
                     (py "a", Folder [(py "k", Folder [])])] []
                    ltac:(now left)
                    ltac:(repeat constructor; cbn; intuition discriminate))).
  - reflexivity.
Defined.

Lemma unreadable_file_absent_witness :
  walk demo_md5 (py "/") [py "__pycache__"] (Folder demo_entries) []
  = walk demo_md5 (py "/") [py "__pycache__"]
      (Folder [(py "b.py", File true (Some (py "x")));
               (py "__pycache__", Folder [(py "b.pyc", File true (Some (py "y")))]);
               (py "a", Folder [(py "k", Folder [])])]) [].
Proof.
  apply (proj1 (unreadable_file_absent demo_md5 (py "/") [py "__pycache__"]
                  [(py "b.py", File true (Some (py "x")));
                   (py "__pycache__", Folder [(py "b.pyc", File true (Some (py "y")))])]
                  (py "lock") false (Some (py "z"))
                  [(py "a", Folder [(py "k", Folder [])])] []
                  ltac:(now left)
                  ltac:(repeat constructor; cbn; intuition discriminate))).
Defined.

(** A subdirectory that [os.walk] does not walk adds nothing, not even an
    entry of its own: a directory that holds such a subdirectory only has
    no hash, a directory that holds an empty subdirectory has one. *)
Example closed_directory_no_hash :
  calculate_directory_hash demo_md5 (py "/")
    (fun _ => Some (Folder [(py "link", Closed)])) (py "/srv/A") None = None
  /\ calculate_directory_hash demo_md5 (py "/")
       (fun _ => Some (Folder [(py "sub", Folder [])])) (py "/srv/A") None
     = Some (py "md5(DIR:sub)").
Proof. split; vm_compute; reflexivity. Qed.

Lemma entries_run_together_witness :
  calculate_directory_hash demo_md5 (py "/")
    (fun _ => Some (Folder [(py "a", Folder []); (py "b", Folder [])])) (py "top") (Some [])
  = calculate_directory_hash demo_md5 (py "/")
      (fun _ => Some (Folder [(py "aDIR:b", Folder [])])) (py "top") (Some []).
Proof.
  apply (proj1 (entries_run_together demo_md5 (py "/")
                  (fun _ => Some (Folder [(py "a", Folder []); (py "b", Folder [])]))
                  (fun _ => Some (Folder [(py "aDIR:b", Folder [])]))
                  (py "top") [] (py "a") (py "b")
                  eq_refl eq_refl eq_refl ltac:(discriminate)
                  ltac:(cbn; tauto) ltac:(cbn; tauto) ltac:(cbn; tauto))).
Defined.

(** ** What normalization keeps *)

Lemma filter_white (f := fun c => negb (isspace c)) s : white s -> filter f s = [].
Proof.
  induction 1 as [|c s Hc _ IH]; [reflexivity|]. cbn. subst f. cbn. now rewrite Hc.
Qed.

Lemma filter_nonspace (f := fun c => negb (isspace c)) s :
  Forall (fun c => isspace c = false) s -> filter f s = s.
Proof.
  induction 1 as [|c s Hc _ IH]; [reflexivity|]. cbn. subst f. cbn. rewrite Hc. cbn.
  now f_equal.
Qed.

(** The characters of a text of tokens that are not white space are the
    characters of its tokens. *)
Lemma filter_render items trailing :
  gaps_ok items -> white trailing ->
  filter (fun c => negb (isspace c)) (render items trailing)
  = flat_map (fun it => tok_text (snd it)) items.
Proof.
  intros Hok Htr. induction Hok as [|[g t] rest [Hg Ht] _ IH]; cbn [render flat_map].
  - now apply filter_white.
  - cbn [fst snd] in *. rewrite !filter_app, IH.
    rewrite (filter_white g Hg), (filter_nonspace _ (tok_text_nonspace t Ht)).
    reflexivity.
Qed.

Lemma map_gaps_tokens f items : forall prev,
  flat_map (fun it => tok_text (snd it)) (map_gaps f prev items)
  = flat_map (fun it => tok_text (snd it)) items.
Proof.
  induction items as [|[g t] rest IH]; intros prev; [reflexivity|].
  cbn. now rewrite IH.
Qed.

(** X30. Normalization changes white space only: the characters of the
    normalized expression that are not white space are those of the
    expression, all of them and in the same order. *)
Theorem normalize_keeps_text s :
  filter (fun c => negb (isspace c)) (normalize s)
  = filter (fun c => negb (isspace c)) s.
Proof.
  destruct (text_items s) as (items & trailing & -> & Hok & Htr).
  destruct items as [|it rest] eqn:Ei.
  - cbn [render]. rewrite (normalize_white trailing Htr).
    symmetry. now apply filter_white.
  - rewrite <- Ei in *. assert (Hne : items <> []) by (subst; discriminate).
    rewrite (normalize_render items trailing Hok Htr Hne).
    rewrite !filter_render; try assumption; try constructor.
    + apply map_gaps_tokens.
    + apply map_gaps_ok; [|assumption]. intros prev gap t _. apply canon_gap_white.
Qed.
